(** * Deadlock detection: the three variants of the repository

    The repository holds three programs for the same problem:
    - the recursive probe variant ([sendProbe] / [detectDeadlock] over a
      [map[int]*Process]),
    - the RPC server ([DeadlockService] with [DetectDeadlock], [runDDFS]
      and [AddProcess]) and its client,
    - the goroutine variant (one [Process] actor per node, [Run],
      [handleProbes] and [sendProbe] over channels).

    Each is embedded below in a module of its own; the definitions come
    first, the lemmas and the theorems after them. *)

From stdpp Require Import base option list gmap sets strings pretty relations sorting.
From Stdlib Require Import ZArith Lia.

(** ** Common ground *)

(** What a call can end in: a value, a Go runtime panic (index out of range,
    nil dereference, write to a nil map), or the model's fuel running out. *)
Inductive outcome (A : Type) : Type :=
| Done (a : A)
| Panic
| OutOfFuel.
Arguments Done {A} a.
Arguments Panic {A}.
Arguments OutOfFuel {A}.

(** Go's [int] on the 64-bit targets: [x + 1] wraps around. *)
Definition wrap_int (z : Z) : Z := ((z + 2 ^ 63) `mod` 2 ^ 64 - 2 ^ 63)%Z.

Definition int_incr (z : Z) : Z := wrap_int (z + 1).

(** [m[k]] on a [map[int]bool]: a missing key reads as [false]. *)
Definition flag (m : gmap Z bool) (k : Z) : bool := default false (m !! k).

(** [s[i]] on a slice with an [int] index: out of range panics, which the
    callers see as [None]. *)
Definition index {A : Type} (s : list A) (i : Z) : option A :=
  if (i <? 0)%Z then None else s !! Z.to_nat i.

(** [%d] of [fmt]. *)
Definition fmt_d (z : Z) : string := pretty z.

(** ** The RPC server *)
Module RpcServer.

Record Process : Type := mkProcess {
  ID : Z;
  Neighbors : list Z
}.

Record DeadlockRequest : Type := mkDeadlockRequest {
  ProcessID : Z
}.

Record DeadlockResponse : Type := mkDeadlockResponse {
  Message : string;
  DeadlockStatus : string;
  MessageCounts : gmap Z Z;
  TotalMessages : Z
}.

Record AddProcessRequest : Type := mkAddProcessRequest {
  req_ID : Z;
  req_Neighbors : list Z
}.

Record AddProcessResponse : Type := mkAddProcessResponse {
  add_Message : string
}.

(** The mutex is left out: every traversal and every append runs under it,
    so the calls are serialized and each is modelled as one function. *)
Record DeadlockService : Type := mkDeadlockService {
  processes : list Process;
  globalMessageCounter : Z
}.

(** The lines the server writes with [log.Printf]. *)
Inductive LogLine : Type :=
| LogStarting (start : Z)
| LogProbeSent (current neighbor origin : Z) (visitedList : list Z)
| LogDeadlockDetected (start : Z) (visitedList : list Z)
| LogProcessAdded (id : Z) (neighbors : list Z).

(** [getSortedVisitedList]: the keys of the map, sorted. *)
Definition getSortedVisitedList (visited : gmap Z bool) : list Z :=
  merge_sort Z.le (map fst (map_to_list visited)).

(** What [runDDFS] reads and writes besides the process table: the two maps
    and the counter it gets by reference, and the log. *)
Record Trav : Type := mkTrav {
  visited : gmap Z bool;
  messageCounts : gmap Z Z;
  localCounter : Z;
  logged : list LogLine
}.

Definition mark_visited (current : Z) (t : Trav) : Trav :=
  mkTrav (<[current := true]> (visited t)) (messageCounts t) (localCounter t) (logged t).

(** The three statements at the head of the loop body: both counters go up
    and the probe is logged. *)
Definition count_probe (origin current neighbor : Z) (t : Trav) : Trav :=
  mkTrav (visited t)
         (<[origin := int_incr (default 0%Z (messageCounts t !! origin))]> (messageCounts t))
         (int_incr (localCounter t))
         (logged t ++ [LogProbeSent current neighbor origin (getSortedVisitedList (visited t))]).

(** The [for _, neighbor := range ...] loop of [runDDFS]; [rec] is the
    recursive call [ds.runDDFS(origin, neighbor, ...)]. *)
Fixpoint ddfs_loop (rec : Z → Trav → outcome (bool * Trav))
    (origin current : Z) (neighbors : list Z) (t : Trav) : outcome (bool * Trav) :=
  match neighbors with
  | [] => Done (false, t)
  | neighbor :: rest =>
      let t1 := count_probe origin current neighbor t in
      if (neighbor =? origin)%Z then Done (true, t1)
      else if flag (visited t1) neighbor then ddfs_loop rec origin current rest t1
      else match rec neighbor t1 with
           | Done (true, t2) => Done (true, t2)
           | Done (false, t2) => ddfs_loop rec origin current rest t2
           | Panic => Panic
           | OutOfFuel => OutOfFuel
           end
  end.

Fixpoint runDDFS (fuel : nat) (procs : list Process) (origin current : Z) (t : Trav)
    : outcome (bool * Trav) :=
  match fuel with
  | O => OutOfFuel
  | S fuel' =>
      let t1 := mark_visited current t in
      match index procs current with
      | None => Panic
      | Some p => ddfs_loop (runDDFS fuel' procs origin) origin current (Neighbors p) t1
      end
  end.

(** Fuel that is always enough for a table (see [runDDFS_fuel]). *)
Definition ddfs_fuel (procs : list Process) : nat := S (S (length procs)).

(** [DetectDeadlock]: the response it fills in (starting from the response
    [res] it is handed), the service afterwards and the log lines. The Go
    function returns a nil error on every path. *)
Definition DetectDeadlock (fuel : nat) (ds : DeadlockService) (req : DeadlockRequest)
    (res : DeadlockResponse) : outcome (DeadlockService * DeadlockResponse * list LogLine) :=
  if ((ProcessID req <? 0) || (Z.of_nat (length (processes ds)) <=? ProcessID req))%Z
  then Done (ds, mkDeadlockResponse "Invalid Process ID" (DeadlockStatus res)
                   (MessageCounts res) (TotalMessages res), [])
  else
    let start := ProcessID req in
    let t0 := mkTrav ∅ ∅ 0%Z [LogStarting start] in
    match runDDFS fuel (processes ds) start start t0 with
    | Done (deadlockDetected, t) =>
        let message := ("Deadlock detection completed for Process " +:+ fmt_d (ProcessID req))%string in
        if deadlockDetected
        then Done (ds, mkDeadlockResponse message "Deadlock confirmed!"
                         (messageCounts t) (localCounter t),
                   logged t ++ [LogDeadlockDetected start (getSortedVisitedList (visited t))])
        else Done (ds, mkDeadlockResponse message "No deadlock detected."
                         (messageCounts t) (localCounter t),
                   logged t)
    | Panic => Panic
    | OutOfFuel => OutOfFuel
    end.

(** [AddProcess]: appends, whatever the request holds. *)
Definition AddProcess (ds : DeadlockService) (req : AddProcessRequest)
    (res : AddProcessResponse) : DeadlockService * AddProcessResponse * list LogLine :=
  let newProcess := mkProcess (req_ID req) (req_Neighbors req) in
  (mkDeadlockService (processes ds ++ [newProcess]) (globalMessageCounter ds),
   mkAddProcessResponse ("Process " +:+ fmt_d (req_ID req) +:+ " added successfully!")%string,
   [LogProcessAdded (req_ID req) (req_Neighbors req)]).

(** The table of [main]: 0 → 1 → 2 → 3 → 0. *)
Definition main_processes : list Process :=
  [mkProcess 0 [1%Z]; mkProcess 1 [2%Z]; mkProcess 2 [3%Z]; mkProcess 3 [0%Z]].

Definition main_service : DeadlockService := mkDeadlockService main_processes 0.

(** *** The dependency graph of a table *)

(** [x] waits for [y]: [y] is among the neighbours of the process at index
    [x] (the traversal indexes the table by position, the [ID] field is not
    read). *)
Definition edge (procs : list Process) (x y : Z) : Prop :=
  ∃ p, index procs x = Some p ∧ y ∈ Neighbors p.

Definition acyclic (procs : list Process) : Prop :=
  ∀ x, ¬ tc (edge procs) x x.

(** [i] passes the range check of [DetectDeadlock]: it is an index of the
    table. *)
Definition in_range (procs : list Process) (i : Z) : Prop :=
  (0 ≤ i < Z.of_nat (length procs))%Z.

(** Every neighbour id is an index of the table. *)
Definition neighbors_in_range (procs : list Process) : Prop :=
  Forall (λ p, Forall (in_range procs) (Neighbors p)) procs.

(** Every process waits only for processes further down the table: a
    criterion for [acyclic] that can be checked by computation. *)
Definition increasing (procs : list Process) : Prop :=
  Forall (λ ip, Forall (λ n, (Z.of_nat ip.1 < n)%Z) (Neighbors ip.2)) (imap pair procs).

(** [path] is a cycle of the graph: an edge from each node to the next and
    from the last back to the first. *)
Fixpoint follows (procs : list Process) (x : Z) (path : list Z) (back : Z) : Prop :=
  match path with
  | [] => edge procs x back
  | y :: rest => edge procs x y ∧ follows procs y rest back
  end.

Definition cycle_path (procs : list Process) (path : list Z) : Prop :=
  match path with
  | [] => False
  | x :: rest => follows procs x rest x
  end.

(** The second scenario: 0 → 1 → 2 → 3 and nothing back. *)
Definition chain_processes : list Process :=
  [mkProcess 0 [1%Z]; mkProcess 1 [2%Z]; mkProcess 2 [3%Z]; mkProcess 3 []].

Definition chain_service : DeadlockService := mkDeadlockService chain_processes 0.

(** Three small tables: 0 ⇄ 1 with 2 apart; 0 ⇄ 2 with 1 apart; and 0 → 1,
    0 ⇄ 2, where 1 is a dead end. *)
Definition left_processes : list Process :=
  [mkProcess 0 [1%Z]; mkProcess 1 [0%Z]; mkProcess 2 []].

Definition right_processes : list Process :=
  [mkProcess 0 [2%Z]; mkProcess 1 []; mkProcess 2 [0%Z]].

Definition detour_processes : list Process :=
  [mkProcess 0 [1%Z; 2%Z]; mkProcess 1 []; mkProcess 2 [0%Z]].

(** The zero value of the response, as the RPC layer hands it in. *)
Definition empty_response : DeadlockResponse :=
  mkDeadlockResponse EmptyString EmptyString ∅ 0.

Definition empty_add_response : AddProcessResponse := mkAddProcessResponse EmptyString.

(** The indices of the table that are not marked yet: the measure of the
    traversal. *)
Definition unvisited (procs : list Process) (v : gmap Z bool) : list nat :=
  filter (λ i, flag v (Z.of_nat i) = false) (seq 0 (length procs)).

(** The marks of [t] are still set in [t']. *)
Definition grows (t t' : Trav) : Prop :=
  ∀ k, flag (visited t) k = true → flag (visited t') k = true.

(** After a traversal that found nothing, every process it marked has all
    its neighbours marked, and none of them is the origin. *)
Definition settled (procs : list Process) (origin : Z) (t t' : Trav) : Prop :=
  ∀ u p n, flag (visited t) u = false → flag (visited t') u = true →
           index procs u = Some p → n ∈ Neighbors p →
           n ≠ origin ∧ flag (visited t') n = true.

(** The log lines of the probes sent from [current]. *)
Definition is_probe_from (current : Z) (l : LogLine) : bool :=
  match l with
  | LogProbeSent c _ _ _ => (c =? current)%Z
  | _ => false
  end.

(** *** The messages of a traversal *)

(** The "Probe sent" lines of a log: one for each message. *)
Definition is_probe_line (l : LogLine) : bool :=
  match l with
  | LogProbeSent _ _ _ _ => true
  | _ => false
  end.

Definition probe_lines (log : list LogLine) : nat :=
  length (filter (λ l, is_probe_line l = true) log).

(** The number of edges of the table. *)
Definition edge_count (procs : list Process) : nat :=
  sum_list (length ∘ Neighbors <$> procs).

(** The edges that leave the processes not marked yet; [k] is the index of
    the head of the list in the table. *)
Fixpoint unsent_from (k : nat) (procs : list Process) (v : gmap Z bool) : nat :=
  match procs with
  | [] => 0
  | p :: rest =>
      (if flag v (Z.of_nat k) then 0 else length (Neighbors p)) + unsent_from (S k) rest v
  end.

(** [messageCounts] holds nothing but the counter of the request, under the
    key of the origin. *)
Definition counts_agree (origin : Z) (t : Trav) : Prop :=
  (messageCounts t = ∅ ∧ localCounter t = 0%Z) ∨
  messageCounts t = {[origin := localCounter t]}.
(** What a traversal keeps: the counters agree, and the counter of the
    request is the number of "Probe sent" lines. *)
Definition counted (origin : Z) (t : Trav) : Prop :=
  counts_agree origin t ∧ localCounter t = wrap_int (Z.of_nat (probe_lines (logged t))).

(** The lines written and the edges still to come, together, never get more. *)
Definition within (procs : list Process) (extra : nat) (t t' : Trav) : Prop :=
  probe_lines (logged t') + unsent_from 0 procs (visited t') ≤
  probe_lines (logged t) + unsent_from 0 procs (visited t) + extra.

(** Every key of the map of marks holds [true]. *)
Definition marks_true (t : Trav) : Prop :=
  ∀ k, is_Some (visited t !! k) → flag (visited t) k = true.

(** *** What a detection logs *)

(** A "Probe sent" line of the traversal for [origin]: it names [origin] and
    goes along an edge of the table. *)
Definition probe_sent (procs : list Process) (origin : Z) (l : LogLine) : Prop :=
  match l with
  | LogProbeSent current neighbor o _ => o = origin ∧ edge procs current neighbor
  | _ => False
  end.

(** The line of the probe that came back to [origin]. *)
Definition closing_line (origin : Z) (l : LogLine) : Prop :=
  match l with
  | LogProbeSent _ neighbor _ _ => neighbor = origin
  | _ => False
  end.

(** From [t] to [t'] the traversal has written the lines [probes], one for
    each message; once there is one, [messageCounts] has the key of the
    origin. *)
Definition traced (procs : list Process) (origin : Z) (t t' : Trav) (probes : list LogLine)
    : Prop :=
  logged t' = logged t ++ probes ∧ Forall (probe_sent procs origin) probes ∧
  (probes = [] ∧ messageCounts t' = messageCounts t ∨
   probes ≠ [] ∧ is_Some (messageCounts t' !! origin)).

End RpcServer.

(** ** The client of the RPC server *)
Module RpcClient.
Import RpcServer.

(** The lines the client writes: what [AddProcess] answered, and for each
    request the two log lines and the result (the time taken is left out). *)
Inductive ClientLine : Type :=
| ClientAdded (message : string)
| ClientSending (processID : Z)
| ClientReceived (processID : Z)
| ClientResult (processID : Z) (status : string) (counts : gmap Z Z) (total : Z).

(** The loop of the client's [main] over [testProcesses]: one call of
    [DeadlockService.DetectDeadlock] each, with a response that starts as
    the zero value. The calls go to the service one after the other; a panic
    of the server ends the client with an RPC error. *)
Fixpoint request_loop (fuel : nat) (ds : DeadlockService) (testProcesses : list Z)
    : outcome (DeadlockService * list ClientLine) :=
  match testProcesses with
  | [] => Done (ds, [])
  | processID :: rest =>
      match DetectDeadlock fuel ds (mkDeadlockRequest processID) empty_response with
      | Done (ds1, res, _) =>
          match request_loop fuel ds1 rest with
          | Done (ds2, lines) =>
              Done (ds2,
                    [ClientSending processID; ClientReceived processID;
                     ClientResult processID (DeadlockStatus res) (MessageCounts res)
                       (TotalMessages res)] ++ lines)
          | Panic => Panic
          | OutOfFuel => OutOfFuel
          end
      | Panic => Panic
      | OutOfFuel => OutOfFuel
      end
  end.

(** [main]: it adds a process 4 that waits for 1, then asks for
    the processes 0, 2 and 3. *)
Definition main (fuel : nat) (ds : DeadlockService)
    : outcome (DeadlockService * list ClientLine) :=
  let '(ds1, addRes, _) :=
    AddProcess ds (mkAddProcessRequest 4 [1%Z]) empty_add_response in
  match request_loop fuel ds1 [0; 2; 3]%Z with
  | Done (ds2, lines) => Done (ds2, ClientAdded (add_Message addRes) :: lines)
  | Panic => Panic
  | OutOfFuel => OutOfFuel
  end.

(** The service of the server's [main] after the client has run [n] times. *)
Definition served (n : nat) : DeadlockService :=
  mkDeadlockService (main_processes ++ replicate n (mkProcess 4 [1%Z])) 0.

End RpcClient.

(** ** The recursive probe variant *)
Module Original.

(** [receivedProbes] is a Go map: [None] is the nil map, which reads as
    empty and panics when written. *)
Record Process : Type := mkProcess {
  id : Z;
  waitingFor : list Z;
  receivedProbes : option (gmap Z bool)
}.

(** The lines written to standard output. *)
Inductive Output : Type :=
| OutProbeSent (probeSender target origin : Z)
| OutDeadlockDetected (origin : Z)
| OutStarting (id : Z)
| OutDeadlockConfirmed
| OutNoDeadlock.

(** The [map[int]*Process] with the processes it points to (every key has a
    process of its own, as in [main]), and the output so far. *)
Record World : Type := mkWorld {
  processes : gmap Z Process;
  output : list Output
}.

Definition print (o : Output) (w : World) : World :=
  mkWorld (processes w) (output w ++ [o]).

(** [m[k]] on a possibly nil map. *)
Definition received (p : Process) (dependent : Z) : bool :=
  match receivedProbes p with
  | Some m => flag m dependent
  | None => false
  end.

(** [processes[target].receivedProbes[dependent] = true]. *)
Definition set_received (target dependent : Z) (p : Process) (m : gmap Z bool)
    (w : World) : World :=
  mkWorld (<[target := mkProcess (id p) (waitingFor p) (Some (<[dependent := true]> m))]>
             (processes w))
          (output w).

(** The loop of [sendProbe] over [processes[target].waitingFor]; [rec] is the
    recursive call [sendProbe(target, origin, dependent, processes)]. *)
Fixpoint probe_loop (rec : Z → World → outcome (bool * World))
    (origin target : Z) (dependents : list Z) (w : World) : outcome (bool * World) :=
  match dependents with
  | [] => Done (false, w)
  | dependent :: rest =>
      if (dependent =? origin)%Z then Done (true, print (OutDeadlockDetected origin) w)
      else match processes w !! target with
           | None => Panic
           | Some p =>
               if received p dependent then probe_loop rec origin target rest w
               else match receivedProbes p with
                    | None => Panic
                    | Some m =>
                        match rec dependent (set_received target dependent p m w) with
                        | Done (true, w') => Done (true, w')
                        | Done (false, w') => probe_loop rec origin target rest w'
                        | Panic => Panic
                        | OutOfFuel => OutOfFuel
                        end
                    end
           end
  end.

Fixpoint sendProbe (fuel : nat) (probeSender origin target : Z) (w : World)
    : outcome (bool * World) :=
  match fuel with
  | O => OutOfFuel
  | S fuel' =>
      let w1 := print (OutProbeSent probeSender target origin) w in
      match processes w1 !! target with
      | None => Panic
      | Some p =>
          if 0 <? length (waitingFor p)
          then probe_loop (sendProbe fuel' target origin) origin target (waitingFor p) w1
          else Done (false, w1)
      end
  end.

(** The inner loop of [detectDeadlock] over [process.waitingFor]. *)
Fixpoint initiate_loop (fuel : nat) (id : Z) (dependents : list Z) (w : World)
    : outcome (bool * World) :=
  match dependents with
  | [] => Done (false, w)
  | dependent :: rest =>
      match sendProbe fuel id id dependent w with
      | Done (true, w') => Done (true, print OutDeadlockConfirmed w')
      | Done (false, w') => initiate_loop fuel id rest w'
      | Panic => Panic
      | OutOfFuel => OutOfFuel
      end
  end.

(** [process.receivedProbes = make(map[int]bool)]. *)
Definition reset_received (id : Z) (p : Process) (w : World) : World :=
  mkWorld (<[id := mkProcess (Original.id p) (waitingFor p) (Some ∅)]> (processes w))
          (output w).

(** [detectDeadlock]. Go ranges over the map in an order of its choosing:
    [order] is that order, a list of the keys. The result is [true] when the
    function returned after "Deadlock confirmed!" and [false] when it ended
    with "No deadlock detected.". *)
Fixpoint detectDeadlock (fuel : nat) (order : list Z) (w : World) : outcome (bool * World) :=
  match order with
  | [] => Done (false, print OutNoDeadlock w)
  | id :: rest =>
      match processes w !! id with
      | None => detectDeadlock fuel rest w
      | Some process =>
          let w1 := reset_received id process (print (OutStarting id) w) in
          match initiate_loop fuel id (waitingFor process) w1 with
          | Done (true, w') => Done (true, w')
          | Done (false, w') => detectDeadlock fuel rest w'
          | Panic => Panic
          | OutOfFuel => OutOfFuel
          end
      end
  end.

(** The processes of [main]: 1 → 2 → 3 → 1. *)
Definition main_processes : gmap Z Process :=
  <[1%Z := mkProcess 1 [2%Z] (Some ∅)]>
  (<[2%Z := mkProcess 2 [3%Z] (Some ∅)]>
  (<[3%Z := mkProcess 3 [1%Z] (Some ∅)]> ∅)).

(** *** The dependency graph *)

Definition edge (ps : gmap Z Process) (x y : Z) : Prop :=
  ∃ p, ps !! x = Some p ∧ y ∈ waitingFor p.

Definition acyclic (ps : gmap Z Process) : Prop :=
  ∀ x, ¬ tc (edge ps) x x.

(** Every process waited for is in the map. *)
Definition closed (ps : gmap Z Process) : Prop :=
  ∀ k p d, ps !! k = Some p → d ∈ waitingFor p → is_Some (ps !! d).

(** Every [receivedProbes] map has been made. *)
Definition allocated (ps : gmap Z Process) : Prop :=
  ∀ k p, ps !! k = Some p → is_Some (receivedProbes p).

(** The pairs (process, dependent) of the graph, and those whose flag is not
    set: the measure of the recursion. *)
Definition pairs_of (keep : Process → Z → bool) (kp : Z * Process) : list (Z * Z) :=
  (λ d, (kp.1, d)) <$> filter (λ d, keep kp.2 d = true) (waitingFor kp.2).

Definition pair_set (keep : Process → Z → bool) (ps : gmap Z Process) : gset (Z * Z) :=
  list_to_set (map_to_list ps ≫= pairs_of keep).

Definition all_pairs (ps : gmap Z Process) : gset (Z * Z) :=
  pair_set (λ _ _, true) ps.

Definition unset_pairs (ps : gmap Z Process) : gset (Z * Z) :=
  pair_set (λ p d, negb (received p d)) ps.

Definition probe_fuel (ps : gmap Z Process) : nat := S (size (all_pairs ps)).

(** How often [target] was probed for the detection of [origin], by the
    lines "Probe sent from Process ... to Process target for origin origin"
    of the output. *)
Definition is_probe_to (target origin : Z) (o : Output) : bool :=
  match o with
  | OutProbeSent _ t o' => (t =? target)%Z && (o' =? origin)%Z
  | _ => false
  end.

Definition probes_to (target origin : Z) (out : list Output) : nat :=
  length (filter (λ o, is_probe_to target origin o = true) out).

(** How a world can change: the keys and the [waitingFor] lists stay, a map
    that was made stays made ([keeps_graph]); in a traversal, moreover, the
    flags that are set stay set ([grows]). *)
Definition keeps_graph (ps ps' : gmap Z Process) : Prop :=
  ∀ k, option_Forall2
         (λ p p', waitingFor p = waitingFor p' ∧
                  (is_Some (receivedProbes p) → is_Some (receivedProbes p')))
         (ps !! k) (ps' !! k).

Definition grows (ps ps' : gmap Z Process) : Prop :=
  ∀ k, option_Forall2
         (λ p p', waitingFor p = waitingFor p' ∧
                  (is_Some (receivedProbes p) → is_Some (receivedProbes p')) ∧
                  (∀ d, received p d = true → received p' d = true))
         (ps !! k) (ps' !! k).

(** Every process waits only for processes with a greater key: a criterion
    for [acyclic] that can be checked by computation. *)
Definition downward (ps : gmap Z Process) : Prop :=
  map_Forall (λ k p, Forall (λ d, (k < d)%Z) (waitingFor p)) ps.

Definition closed_check (ps : gmap Z Process) : Prop :=
  map_Forall (λ _ p, Forall (λ d, is_Some (ps !! d)) (waitingFor p)) ps.

Definition allocated_check (ps : gmap Z Process) : Prop :=
  map_Forall (λ _ p, is_Some (receivedProbes p)) ps.

(** A chain 1 → 2 → 3, and a diamond 1 → 2 → 4, 1 → 3 → 4. *)
Definition chain_processes : gmap Z Process :=
  <[1%Z := mkProcess 1 [2%Z] (Some ∅)]>
  (<[2%Z := mkProcess 2 [3%Z] (Some ∅)]>
  (<[3%Z := mkProcess 3 [] (Some ∅)]> ∅)).

Definition diamond_processes : gmap Z Process :=
  <[1%Z := mkProcess 1 [2%Z; 3%Z] (Some ∅)]>
  (<[2%Z := mkProcess 2 [4%Z] (Some ∅)]>
  (<[3%Z := mkProcess 3 [4%Z] (Some ∅)]>
  (<[4%Z := mkProcess 4 [] (Some ∅)]> ∅))).

(** *** What a probe that found nothing leaves behind *)

(** No flag is set: the maps are as [make] returns them. *)
Definition fresh (ps : gmap Z Process) : Prop :=
  ∀ t p d, ps !! t = Some p → received p d = false.

(** The probe is through with [x]: [x] waits for nobody that is the origin,
    and its flag is set for everybody it waits for. *)
Definition done_with (origin : Z) (ps : gmap Z Process) (x : Z) : Prop :=
  ∀ q d, ps !! x = Some q → d ∈ waitingFor q → d ≠ origin ∧ received q d = true.

(** The flags set between [ps] and [ps'] lead to processes the probe is
    through with. *)
Definition settled (origin : Z) (ps ps' : gmap Z Process) : Prop :=
  ∀ t p p' d, ps !! t = Some p → ps' !! t = Some p' →
              received p d = false → received p' d = true → done_with origin ps' d.

(** Every flag that is set leads to a process the probe is through with. *)
Definition settled_for (origin : Z) (ps : gmap Z Process) : Prop :=
  ∀ t p d, ps !! t = Some p → received p d = true → done_with origin ps d.

(** A tail into a cycle: 1 → 2 and 2 → 3 → 4 → 5 → 2. *)
Definition tail_processes : gmap Z Process :=
  <[1%Z := mkProcess 1 [2%Z] (Some ∅)]>
  (<[2%Z := mkProcess 2 [3%Z] (Some ∅)]>
  (<[3%Z := mkProcess 3 [4%Z] (Some ∅)]>
  (<[4%Z := mkProcess 4 [5%Z] (Some ∅)]>
  (<[5%Z := mkProcess 5 [2%Z] (Some ∅)]> ∅)))).

(** [fresh] and paths of the graph, in a form that can be checked by
    computation. *)
Definition no_flag (p : Process) : bool :=
  match receivedProbes p with
  | Some m => bool_decide (map_Forall (λ _ b, b = false) m)
  | None => true
  end.

Definition fresh_check (ps : gmap Z Process) : Prop :=
  map_Forall (λ _ p, no_flag p = true) ps.

Definition has_edge (ps : gmap Z Process) (x y : Z) : bool :=
  match ps !! x with
  | Some p => bool_decide (y ∈ waitingFor p)
  | None => false
  end.

Fixpoint path_check (ps : gmap Z Process) (x : Z) (path : list Z) (last : Z) : bool :=
  match path with
  | [] => has_edge ps x last
  | y :: rest => has_edge ps x y && path_check ps y rest last
  end.

(** [main]: the detection on the processes of [main], in the order Go
    takes the keys of the map. *)
Definition main (fuel : nat) (order : list Z) : outcome (bool * World) :=
  detectDeadlock fuel order (mkWorld main_processes []).

End Original.

(** ** The goroutine variant *)
Module Goroutines.

(** *** Slices of [int] *)

(** A slice is a window on a backing array: the address of the array, the
    length and the capacity. The arrays live in a store that only grows;
    an array is as long as the capacity of the slices made for it. *)
Record slice : Type := mkSlice {
  arr : nat;
  len : nat;
  cap : nat
}.

Definition elems (h : list (list Z)) (s : slice) : list Z :=
  take (len s) (default [] (h !! arr s)).

(** [[]int{x}]: a new array of one element. *)
Definition literal (h : list (list Z)) (x : Z) : list (list Z) * slice :=
  (h ++ [[x]], mkSlice (length h) 1 1).

(** [append(s, x)]: when the capacity allows it, [x] is written into the
    backing array of [s], behind its last element, and the result shares
    that array; otherwise the elements are copied to a new array whose
    capacity the runtime chooses ([growslice], at least one more). *)
Definition append (growslice : nat → nat) (h : list (list Z)) (s : slice) (x : Z)
    : list (list Z) * slice :=
  if decide (len s < cap s)
  then (alter (λ a, <[len s := x]> a) (arr s) h, mkSlice (arr s) (S (len s)) (cap s))
  else let c := S (len s) `max` growslice (cap s) in
       (h ++ [elems h s ++ x :: replicate (c - S (len s)) 0%Z],
        mkSlice (length h) (S (len s)) c).

(** What the gc runtime chooses for slices of fewer than 256 [int]s: twice
    the old capacity (16, 32, 64, ... bytes are allocation size classes, so
    no rounding is added). *)
Definition gc_growslice (oldcap : nat) : nat :=
  match oldcap with
  | O => 1
  | _ => 2 * oldcap
  end.

(** The slice is a window on an array of the store. *)
Definition valid_slice (h : list (list Z)) (s : slice) : Prop :=
  ∃ a, h !! arr s = Some a ∧ cap s = length a ∧ len s ≤ cap s.

(** *** Probes and processes *)

(** Of the configuration only the size of the channels matters here; the
    durations decide when a ticker or a deadline fires, which the schedule
    of a run says. The channels are buffered ([ChanBufferSize] is 20 in
    [main]). *)
Record Config : Type := mkConfig {
  ChanBufferSize : nat
}.

(** [AckChan] is left out: the acknowledgements are counted by a goroutine
    that does nothing else. *)
Record Probe : Type := mkProbe {
  SessionID : Z;
  Initiator : Z;
  Sender : Z;
  Visited : slice
}.

(** A process. [successors] holds pointers, here indices into the list of
    processes of the system; [probeChan] holds the probes buffered in the
    channel, oldest first. The last two fields are where the two goroutines
    of the process stand: [None] at the head of their loop, [Some (probe,
    rest)] inside [p.sendProbe(probe, ctx)] with [rest] still to be sent to. *)
Record Process : Type := mkProcess {
  ID : Z;
  successors : list nat;
  probeChan : list Probe;
  visited : gmap Z bool;
  config : Config;
  messagesSent : Z;
  deadlockCache : gmap Z bool;
  in_Run : option (Probe * list nat);
  in_handleProbes : option (Probe * list nat)
}.

Definition NewProcess (id : Z) (config : Config) : Process :=
  mkProcess id [] [] ∅ config 0 ∅ None None.

Definition with_successors (succs : list nat) (p : Process) : Process :=
  mkProcess (ID p) succs (probeChan p) (visited p) (config p) (messagesSent p)
            (deadlockCache p) (in_Run p) (in_handleProbes p).

Definition with_probeChan (q : list Probe) (p : Process) : Process :=
  mkProcess (ID p) (successors p) q (visited p) (config p) (messagesSent p)
            (deadlockCache p) (in_Run p) (in_handleProbes p).

Definition mark_visited (sessionID : Z) (p : Process) : Process :=
  mkProcess (ID p) (successors p) (probeChan p) (<[sessionID := true]> (visited p))
            (config p) (messagesSent p) (deadlockCache p) (in_Run p) (in_handleProbes p).

Definition mark_reported (sessionID : Z) (p : Process) : Process :=
  mkProcess (ID p) (successors p) (probeChan p) (visited p) (config p) (messagesSent p)
            (<[sessionID := true]> (deadlockCache p)) (in_Run p) (in_handleProbes p).

Definition count_sent (p : Process) : Process :=
  mkProcess (ID p) (successors p) (probeChan p) (visited p) (config p)
            (int_incr (messagesSent p)) (deadlockCache p) (in_Run p) (in_handleProbes p).

Inductive Loop : Type := RunLoop | HandleLoop.

#[global] Instance Loop_eq_dec : EqDecision Loop.
Proof. solve_decision. Defined.

Definition sending (l : Loop) (p : Process) : option (Probe * list nat) :=
  match l with
  | RunLoop => in_Run p
  | HandleLoop => in_handleProbes p
  end.

Definition with_sending (l : Loop) (o : option (Probe * list nat)) (p : Process) : Process :=
  match l with
  | RunLoop =>
      mkProcess (ID p) (successors p) (probeChan p) (visited p) (config p) (messagesSent p)
                (deadlockCache p) o (in_handleProbes p)
  | HandleLoop =>
      mkProcess (ID p) (successors p) (probeChan p) (visited p) (config p) (messagesSent p)
                (deadlockCache p) (in_Run p) o
  end.

(** *** One probe handled *)

(** What the handling of one probe comes to. *)
Inductive Handled : Type :=
| Report (path : list Z)
| Forward (newProbe : Probe)
| Drop.

(** [handleProbes], one turn of its loop: what it does under the lock with
    the probe it took from the channel, up to the call of [p.sendProbe]. The
    result is the store of arrays and the process afterwards, and what was
    decided. *)
Definition handleProbes (growslice : nat → nat) (h : list (list Z)) (p : Process) (probe : Probe)
    : list (list Z) * Process * Handled :=
  if (Initiator probe =? ID p)%Z && negb (flag (deadlockCache p) (SessionID probe))
  then (h, mark_reported (SessionID probe) p, Report (elems h (Visited probe)))
  else if negb (flag (visited p) (SessionID probe)) && (0 <? length (successors p))
  then let '(h', v) := append growslice h (Visited probe) (ID p) in
       let newProbe := mkProbe (SessionID probe) (Initiator probe) (ID p) v in
       (h', mark_visited (SessionID probe) p, Forward newProbe)
  else (h, p, Drop).

(** *** The system and its steps *)

Record System : Type := mkSystem {
  procs : list Process;
  arrays : list (list Z)
}.

(** What a step did. [Reported] is the pair of log lines "Deadlock detected
    involving process ..., Visited: ..." and "Deadlock confirmed!". *)
Inductive Effect : Type :=
| Initiated (p : nat) (probe : Probe)
| Reported (p : nat) (sessionID : Z) (path : list Z)
| Forwarded (p : nat) (probe newProbe : Probe)
| Dropped (p : nat) (probe : Probe)
| Delivered (p succ : nat) (probe : Probe)
| GaveUp (p : nat) (l : Loop) (probe : Probe).

(** What can happen next: the ticker of a process fires (and the clock reads
    [now]); [handleProbes] takes the next probe from the channel; the send
    to the next successor in [sendProbe] goes through; the deadline or the
    cancellation ends a [sendProbe]. *)
Inductive Action : Type :=
| Tick (p : nat) (now : Z)
| Receive (p : nat)
| Deliver (p : nat) (l : Loop)
| Expire (p : nat) (l : Loop).

Definition set_proc (i : nat) (p : Process) (s : System) : System :=
  mkSystem (<[i := p]> (procs s)) (arrays s).

(** [Run], one turn of its loop: the [ticker.C] case, with [now] the value
    of [time.Now().UnixNano()]. *)
Definition Run (i : nat) (now : Z) (s : System) : System * list Effect :=
  match procs s !! i with
  | None => (s, [])
  | Some p =>
      match in_Run p with
      | Some _ => (s, [])
      | None =>
          if 0 <? length (successors p)
          then let sessionID := now in
               let '(h, v) := literal (arrays s) (ID p) in
               let probe := mkProbe sessionID (ID p) (ID p) v in
               (mkSystem (<[i := with_sending RunLoop (Some (probe, successors p))
                                  (mark_visited sessionID p)]> (procs s)) h,
                [Initiated i probe])
          else (s, [])
      end
  end.

(** The [probe := <-p.probeChan] case of [handleProbes]. *)
Definition receive (growslice : nat → nat) (i : nat) (s : System) : System * list Effect :=
  match procs s !! i with
  | None => (s, [])
  | Some p =>
      match in_handleProbes p, probeChan p with
      | None, probe :: rest =>
          match handleProbes growslice (arrays s) (with_probeChan rest p) probe with
          | (h, p', Report path) =>
              (mkSystem (<[i := p']> (procs s)) h, [Reported i (SessionID probe) path])
          | (h, p', Forward newProbe) =>
              (mkSystem (<[i := with_sending HandleLoop (Some (newProbe, successors p')) p']>
                           (procs s)) h,
               [Forwarded i probe newProbe])
          | (h, p', Drop) =>
              (mkSystem (<[i := p']> (procs s)) h, [Dropped i probe])
          end
      | _, _ => (s, [])
      end
  end.

(** [sendProbe], one turn of its loop: [succ.probeChan <- probe] goes
    through when the channel has room, and the sender counts it. [None]
    is the nil dereference of a successor that is no process. *)
Definition sendProbe (i : nat) (l : Loop) (s : System) : option (System * list Effect) :=
  match procs s !! i with
  | None => Some (s, [])
  | Some p =>
      match sending l p with
      | None => Some (s, [])
      | Some (probe, []) => Some (set_proc i (with_sending l None p) s, [])
      | Some (probe, succ :: rest) =>
          match procs s !! succ with
          | None => None
          | Some q =>
              if length (probeChan q) <? ChanBufferSize (config q)
              then let s1 := set_proc succ (with_probeChan (probeChan q ++ [probe]) q) s in
                   let next := match rest with [] => None | _ => Some (probe, rest) end in
                   Some (mkSystem (alter (λ p1, with_sending l next (count_sent p1)) i (procs s1))
                                  (arrays s1),
                         [Delivered i succ probe])
              else Some (s, [])
          end
      end
  end.

(** The [<-deadline] and [<-ctx.Done()] cases of [sendProbe]. *)
Definition expire (i : nat) (l : Loop) (s : System) : System * list Effect :=
  match procs s !! i with
  | None => (s, [])
  | Some p =>
      match sending l p with
      | None => (s, [])
      | Some (probe, _) => (set_proc i (with_sending l None p) s, [GaveUp i l probe])
      end
  end.

Definition step (growslice : nat → nat) (a : Action) (s : System)
    : option (System * list Effect) :=
  match a with
  | Tick i now => Some (Run i now s)
  | Receive i => Some (receive growslice i s)
  | Deliver i l => sendProbe i l s
  | Expire i l => Some (expire i l s)
  end.

(** A schedule is run from left to right; the effects are collected. *)
Fixpoint run (growslice : nat → nat) (sched : list Action) (s : System)
    : option (System * list Effect) :=
  match sched with
  | [] => Some (s, [])
  | a :: rest =>
      match step growslice a s with
      | None => None
      | Some (s1, e1) =>
          match run growslice rest s1 with
          | None => None
          | Some (s2, e2) => Some (s2, e1 ++ e2)
          end
      end
  end.

(** The system before any goroutine has run: every process as [NewProcess]
    makes it, with its successors assigned. *)
Definition initial (config : Config) (topology : list (Z * list nat)) : System :=
  mkSystem (map (λ t, with_successors t.2 (NewProcess t.1 config)) topology) [].

(** The system of [main]: p0 → p1 → p2 → p3 → p0, channels of 20. *)
Definition main_config : Config := mkConfig 20.

Definition main_system : System :=
  initial main_config [(0%Z, [1]); (1%Z, [2]); (2%Z, [3]); (3%Z, [0])].

(** *** What the statements about runs are made of *)

(** From one state of a process to a later one: the identity, the successors
    and the configuration stay, the flags that are set stay set. *)
Definition evolves (p p' : Process) : Prop :=
  ID p' = ID p ∧ successors p' = successors p ∧ config p' = config p ∧
  (∀ k, flag (visited p) k = true → flag (visited p') k = true) ∧
  (∀ k, flag (deadlockCache p) k = true → flag (deadlockCache p') k = true).

(** The probes a process holds: those in its channel and those its two
    goroutines are sending. *)
Definition slot (o : option (Probe * list nat)) : list Probe :=
  match o with
  | Some (probe, _) => [probe]
  | None => []
  end.

Definition flying (p : Process) : list Probe :=
  probeChan p ++ slot (in_Run p) ++ slot (in_handleProbes p).

Definition in_flight (s : System) (probe : Probe) : Prop :=
  ∃ j q, procs s !! j = Some q ∧ probe ∈ flying q.

Definition unique_ids (s : System) : Prop := NoDup (ID <$> procs s).

(** The initiator of every probe in flight has marked its session. *)
Definition initiator_marked (s : System) : Prop :=
  ∀ probe, in_flight s probe →
  ∀ j q, procs s !! j = Some q → ID q = Initiator probe →
         flag (visited q) (SessionID probe) = true.

(** Every slice of a probe in flight is a window on an array of the store. *)
Definition slices_valid (s : System) : Prop :=
  ∀ probe, in_flight s probe → valid_slice (arrays s) (Visited probe).

(** The wait-for graph of the system, on the indices of the processes. *)
Definition succ_edge (s : System) (i j : nat) : Prop :=
  ∃ p, procs s !! i = Some p ∧ j ∈ successors p.

Definition acyclic (s : System) : Prop := ∀ i, ¬ tc (succ_edge s) i i.

(** Process [i] carries the identity that [probe] names as its initiator. *)
Definition initiator_at (s : System) (probe : Probe) (i : nat) : Prop :=
  ∃ p, procs s !! i = Some p ∧ ID p = Initiator probe.

(** A probe waiting at [j] came from its initiator along the edges. *)
Definition came_along (s : System) : Prop :=
  ∀ j q, procs s !! j = Some q →
    (∀ probe, probe ∈ probeChan q →
       ∃ i, initiator_at s probe i ∧ tc (succ_edge s) i j) ∧
    (∀ l probe rest, sending l q = Some (probe, rest) →
       rest ⊆ successors q ∧ ∃ i, initiator_at s probe i ∧ rtc (succ_edge s) i j).

(** Where the probes of process [j] after a step were before it: a probe in
    the channel was there already or was being sent to [j]; a probe being
    sent was being sent already, or was made by the ticker of [j], or was
    made from the probe at the head of the channel of [j]. *)
Definition queued_from (s : System) (j : nat) (q : Process) (probe : Probe) : Prop :=
  probe ∈ probeChan q ∨
  ∃ k pk l rest, procs s !! k = Some pk ∧ sending l pk = Some (probe, j :: rest).

Definition sending_from (e : list Effect) (j : nat) (q q' : Process)
    (l : Loop) (probe : Probe) (rest : list nat) : Prop :=
  (∃ rest0, sending l q = Some (probe, rest0) ∧ rest ⊆ rest0) ∨
  (l = RunLoop ∧ rest = successors q ∧ Initiator probe = ID q ∧
   flag (visited q') (SessionID probe) = true ∧ e = [Initiated j probe]) ∨
  (l = HandleLoop ∧ rest = successors q ∧
   ∃ old tail, probeChan q = old :: tail ∧
               SessionID probe = SessionID old ∧ Initiator probe = Initiator old ∧
               e = [Forwarded j old probe]).

Definition step_origin (s : System) (e : list Effect) (j : nat) (q q' : Process) : Prop :=
  evolves q q' ∧
  (∀ probe, probe ∈ probeChan q' → queued_from s j q probe) ∧
  (∀ l probe rest, sending l q' = Some (probe, rest) → sending_from e j q q' l probe rest).

(** Counting in a trace. *)
Definition is_forward (i : nat) (sessionID : Z) (e : Effect) : bool :=
  match e with
  | Forwarded j probe _ => (j =? i) && (SessionID probe =? sessionID)%Z
  | _ => false
  end.

Definition forwards (i : nat) (sessionID : Z) (tr : list Effect) : nat :=
  length (filter (λ e, is_forward i sessionID e = true) tr).

Definition is_report (e : Effect) : bool :=
  match e with
  | Reported _ _ _ => true
  | _ => false
  end.


(** The effects in which process [i] puts a probe on its way. *)
Definition is_emission (i : nat) (e : Effect) : bool :=
  match e with
  | Initiated j _ | Forwarded j _ _ | Delivered j _ _ => j =? i
  | _ => false
  end.

(** What stands behind an effect of a step from [s]. *)
Definition effect_cause (s : System) (e : Effect) : Prop :=
  match e with
  | Initiated i probe =>
      ∃ p, procs s !! i = Some p ∧ successors p ≠ [] ∧ in_Run p = None ∧
           Initiator probe = ID p ∧ Sender probe = ID p
  | Reported i sessionID path =>
      ∃ p probe tail, procs s !! i = Some p ∧ probeChan p = probe :: tail ∧
           in_handleProbes p = None ∧ Initiator probe = ID p ∧
           flag (deadlockCache p) sessionID = false ∧ sessionID = SessionID probe ∧
           path = elems (arrays s) (Visited probe)
  | Forwarded i probe newProbe =>
      ∃ p tail, procs s !! i = Some p ∧ probeChan p = probe :: tail ∧
           in_handleProbes p = None ∧ successors p ≠ [] ∧
           flag (visited p) (SessionID probe) = false
  | Dropped i probe =>
      ∃ p tail, procs s !! i = Some p ∧ probeChan p = probe :: tail ∧
           in_handleProbes p = None
  | Delivered i succ probe =>
      ∃ p l rest, procs s !! i = Some p ∧ sending l p = Some (probe, succ :: rest)
  | GaveUp i l probe =>
      ∃ p rest, procs s !! i = Some p ∧ sending l p = Some (probe, rest)
  end.

(** The chain of the second scenario: p0 → p1 → p2 → p3, nothing back. *)
Definition chain_system : System :=
  initial main_config [(0%Z, [1]); (1%Z, [2]); (2%Z, [3]); (3%Z, [])].

(** Every process has only successors further down the list: a criterion
    for [acyclic] that can be checked by computation. *)
Definition downward (s : System) : Prop :=
  Forall (λ ip, Forall (λ j, ip.1 < j) (successors ip.2)) (imap pair (procs s)).

(** The session of the first scenario, hop by hop: the ticker of p0 fires at
    time [now], and every send and every receive on the way round follows. *)
Definition ring_schedule (now : Z) : list Action :=
  [Tick 0 now; Deliver 0 RunLoop;
   Receive 1; Deliver 1 HandleLoop;
   Receive 2; Deliver 2 HandleLoop;
   Receive 3; Deliver 3 HandleLoop;
   Receive 0].

(** Two ways from p0 to p3: p0 → p1 → p3 and p0 → p2 → p3, and p3 → p0. *)
Definition two_ways_system : System :=
  initial main_config [(0%Z, [1; 2]); (1%Z, [3]); (2%Z, [3]); (3%Z, [0])].

Definition two_ways_schedule (now : Z) : list Action :=
  [Tick 0 now; Deliver 0 RunLoop; Deliver 0 RunLoop;
   Receive 1; Deliver 1 HandleLoop;
   Receive 2; Deliver 2 HandleLoop;
   Receive 3; Deliver 3 HandleLoop; Receive 3].

(** A fork two hops from the initiator: p0 → p1 → p2, p2 → p3 and p2 → p4,
    p3 → p0, p4 → p5. *)
Definition fork_system : System :=
  initial main_config
    [(0%Z, [1]); (1%Z, [2]); (2%Z, [3; 4]); (3%Z, [0]); (4%Z, [5]); (5%Z, [])].

(** The session of p0 up to the moment the probe forwarded by p3 waits in
    the channel of p0, while p4 has not yet handled its copy. *)
Definition fork_schedule (now : Z) : list Action :=
  [Tick 0 now; Deliver 0 RunLoop;
   Receive 1; Deliver 1 HandleLoop;
   Receive 2; Deliver 2 HandleLoop; Deliver 2 HandleLoop;
   Receive 3; Deliver 3 HandleLoop].

(** On the chain: a session of p0 travels to p3, whose ticker fires too. *)
Definition chain_schedule : list Action :=
  [Tick 0 5; Deliver 0 RunLoop;
   Receive 1; Deliver 1 HandleLoop;
   Receive 2; Deliver 2 HandleLoop;
   Tick 3 6; Receive 3].

(** [run] where the schedule is known to go through. *)
Definition state_after (growslice : nat → nat) (sched : list Action) (s : System) : System :=
  match run growslice sched s with
  | Some (s', _) => s'
  | None => s
  end.

Definition trace_of (growslice : nat → nat) (sched : list Action) (s : System)
    : list Effect :=
  match run growslice sched s with
  | Some (_, tr) => tr
  | None => []
  end.

(** *** Reports, deliveries, channels and paths along a run *)

(** The effect is the report of session [sessionID] by process [i]. *)
Definition is_report_of (i : nat) (sessionID : Z) (e : Effect) : bool :=
  match e with
  | Reported j sid _ => (j =? i) && (sid =? sessionID)%Z
  | _ => false
  end.

Definition reports (i : nat) (sessionID : Z) (tr : list Effect) : nat :=
  length (filter (λ e, is_report_of i sessionID e = true) tr).

(** The effect is a probe of process [i] put into a channel by [sendProbe]. *)
Definition is_delivery_by (i : nat) (e : Effect) : bool :=
  match e with
  | Delivered j _ _ => j =? i
  | _ => false
  end.

Definition deliveries (i : nat) (tr : list Effect) : nat :=
  length (filter (λ e, is_delivery_by i e = true) tr).

(** No channel holds more probes than its buffer has room for. *)
Definition within_buffer (s : System) : Prop :=
  ∀ j q, procs s !! j = Some q → length (probeChan q) ≤ ChanBufferSize (config q).

(** The path of the probe is a window on an array of the store, not empty,
    and the array begins with the initiator of the probe. *)
Definition rooted (h : list (list Z)) (probe : Probe) : Prop :=
  ∃ a, h !! arr (Visited probe) = Some a ∧ cap (Visited probe) = length a ∧
       0 < len (Visited probe) ≤ cap (Visited probe) ∧
       a !! 0 = Some (Initiator probe).

Definition paths_rooted (s : System) : Prop :=
  ∀ probe, in_flight s probe → rooted (arrays s) probe.

(** What the theorems say of the single effects of a trace; [s] is the
    system the run starts from. *)
Definition report_on_cycle (s : System) (e : Effect) : Prop :=
  match e with
  | Reported i _ _ => tc (succ_edge s) i i
  | _ => True
  end.

Definition forward_of_another (s : System) (e : Effect) : Prop :=
  match e with
  | Forwarded i probe _ => ∀ p, procs s !! i = Some p → Initiator probe ≠ ID p
  | _ => True
  end.

Definition report_from_reporter (s : System) (e : Effect) : Prop :=
  match e with
  | Reported i _ path => ∃ p rest, procs s !! i = Some p ∧ path = ID p :: rest
  | _ => True
  end.

(** Two ways round: p0 → p1 → p0 and p0 → p2 → p0; both probes of a session
    of p0 come back to it. *)
Definition round_trips_system : System :=
  initial main_config [(0%Z, [1; 2]); (1%Z, [0]); (2%Z, [0])].

Definition round_trips_schedule : list Action :=
  [Tick 0 5; Deliver 0 RunLoop; Deliver 0 RunLoop;
   Receive 1; Deliver 1 HandleLoop;
   Receive 2; Deliver 2 HandleLoop;
   Receive 0; Receive 0].

(** The two ways to p3 with channels of one probe: the send of p2 to p3 does
    not go through while the probe of p1 waits there. *)
Definition narrow_system : System :=
  initial (mkConfig 1) [(0%Z, [1; 2]); (1%Z, [3]); (2%Z, [3]); (3%Z, [0])].

Definition narrow_schedule : list Action :=
  [Tick 0 5; Deliver 0 RunLoop; Deliver 0 RunLoop;
   Receive 1; Deliver 1 HandleLoop;
   Receive 2; Deliver 2 HandleLoop].

(** The fork, up to the report of p0, after p4 has handled its copy. *)
Definition overwritten_schedule : list Action :=
  fork_schedule 5 ++ [Receive 4; Receive 0].

(** The number of processes that have marked the session. *)
Definition marked (sessionID : Z) (ps : list Process) : nat :=
  length (filter (λ q, flag (visited q) sessionID = true) ps).

(** No path in flight is longer than the number of processes that have
    marked its session. *)
Definition paths_short (s : System) : Prop :=
  ∀ probe, in_flight s probe → len (Visited probe) ≤ marked (SessionID probe) (procs s).

Definition path_within (s : System) (e : Effect) : Prop :=
  match e with
  | Reported _ _ path => length path ≤ length (procs s)
  | Forwarded _ _ newProbe => len (Visited newProbe) ≤ length (procs s)
  | Initiated _ probe => len (Visited probe) ≤ length (procs s)
  | _ => True
  end.

(** *** A session that goes round a cycle *)

(** The successors the topology gives to the process at index [x]. *)
Definition successors_of (topology : list (Z * list nat)) (x : nat) : list nat :=
  default [] (snd <$> topology !! x).

(** The place of the first [y] in a list of successors. *)
Fixpoint place (y : nat) (succs : list nat) : nat :=
  match succs with
  | [] => 0
  | x :: rest => if decide (x = y) then 0 else S (place y rest)
  end.

(** One [sendProbe] of process [i] in loop [l]: the sends to the successors
    up to place [n] go through, then the deadline fires. *)
Definition hop (i : nat) (l : Loop) (n : nat) : list Action :=
  replicate (S n) (Deliver i l) ++ [Expire i l].

(** From [x], which is sending in loop [l], along [todo] and on to [back]:
    each process sends as far as the next one, which then takes a probe from
    its channel. *)
Fixpoint legs (topology : list (Z * list nat)) (l : Loop) (x : nat) (todo : list nat)
    (back : nat) : list Action :=
  match todo with
  | [] => hop x l (place back (successors_of topology x))
  | y :: todo' =>
      hop x l (place y (successors_of topology x)) ++
      Receive y :: legs topology HandleLoop y todo' back
  end.

(** The ticker of the first process of the cycle fires at [now], the probe
    goes round, and the first process takes it from its channel. *)
Definition round (topology : list (Z * list nat)) (now : Z) (cycle : list nat) : list Action :=
  match cycle with
  | [] => []
  | c0 :: rest => Tick c0 now :: legs topology RunLoop c0 rest c0 ++ [Receive c0]
  end.

(** [x], then [todo], then [back]: each is a successor of the one before. *)
Fixpoint links (topology : list (Z * list nat)) (x : nat) (todo : list nat) (back : nat) : Prop :=
  match todo with
  | [] => back ∈ successors_of topology x
  | y :: todo' => y ∈ successors_of topology x ∧ links topology y todo' back
  end.

(** Every successor is a process of the system. *)
Definition wired (topology : list (Z * list nat)) : Prop :=
  Forall (λ t, Forall (λ j, j < length topology) t.2) topology.

(** The sends the processes of [c] can make in one session. *)
Definition load (topology : list (Z * list nat)) (c : list nat) : nat :=
  sum_list ((λ x, length (successors_of topology x)) <$> c).

(** What the sends of one probe change in a process: its channel may have
    got copies of the probe, at most [n]; a loop that was not sending is
    not sending. *)
Definition grown (probe : Probe) (n : nat) (q q' : Process) : Prop :=
  ID q' = ID q ∧ successors q' = successors q ∧ config q' = config q ∧
  visited q' = visited q ∧ deadlockCache q' = deadlockCache q ∧
  (∃ extra, probeChan q' = probeChan q ++ extra ∧ Forall (eq probe) extra ∧
            length extra ≤ n) ∧
  (∀ l, sending l q = None → sending l q' = None).

Definition sent_only (probe : Probe) (n : nat) (s s' : System) : Prop :=
  arrays s' = arrays s ∧ Forall2 (grown probe n) (procs s) (procs s').

(** The state between two legs of a round of the session [now] of the
    process with the id [id0], which sits at index [c0]. *)
Definition quiet_but (x : nat) (l : Loop) (s : System) : Prop :=
  ∀ z q l', procs s !! z = Some q → (z, l') ≠ (x, l) → sending l' q = None.

Definition quiet (s : System) : Prop :=
  ∀ z q l', procs s !! z = Some q → sending l' q = None.

Definition of_session (now id0 : Z) (probe : Probe) : Prop :=
  SessionID probe = now ∧ Initiator probe = id0.

Definition one_session (now id0 : Z) (s : System) : Prop :=
  ∀ z q pr, procs s !! z = Some q → pr ∈ probeChan q → of_session now id0 pr.

Definition unmarked (now : Z) (zs : list nat) (s : System) : Prop :=
  ∀ z q, z ∈ zs → procs s !! z = Some q → flag (visited q) now = false.

Definition unreported (now : Z) (c0 : nat) (s : System) : Prop :=
  ∀ q, procs s !! c0 = Some q → flag (deadlockCache q) now = false.

Definition room (B n : nat) (s : System) : Prop :=
  ∀ z q, procs s !! z = Some q → length (probeChan q) + n ≤ B.

Definition waiting (x : nat) (s : System) : Prop :=
  ∃ q pr tail, procs s !! x = Some q ∧ probeChan q = pr :: tail.

(** A delivery goes from a process to one of its [successors]. *)
Definition delivery_on_edge (s : System) (e : Effect) : Prop :=
  match e with
  | Delivered i succ _ => succ_edge s i succ
  | _ => True
  end.

(** Process [i] has started the session: its ticker made a probe of it. *)
Definition initiated_by (tr : list Effect) (i : nat) (sessionID : Z) : Prop :=
  ∃ probe, Initiated i probe ∈ tr ∧ SessionID probe = sessionID.

(** Every probe in flight belongs to a session its initiator has started,
    by the trace so far. *)
Definition begun (tr : list Effect) (s : System) : Prop :=
  ∀ probe, in_flight s probe →
  ∃ i p, procs s !! i = Some p ∧ ID p = Initiator probe ∧
         initiated_by tr i (SessionID probe).

Definition report_of_own (tr : list Effect) (e : Effect) : Prop :=
  match e with
  | Reported i sessionID _ => initiated_by tr i sessionID
  | _ => True
  end.

(** *** The steps, case by case *)

(** What one step can be: nothing at all (the action does not apply), the
    start of a session, a report, a forward, a drop, the end of a
    [sendProbe] that has nobody left to send to, one send, or a [sendProbe]
    cut short. *)
Inductive moves (g : nat → nat) (s : System) : list Effect → System → Prop :=
| moves_idle : moves g s [] s
| moves_initiate i p now :
    procs s !! i = Some p → in_Run p = None → successors p ≠ [] →
    moves g s [Initiated i (mkProbe now (ID p) (ID p) (mkSlice (length (arrays s)) 1 1))]
      (mkSystem
         (<[i := with_sending RunLoop
                   (Some (mkProbe now (ID p) (ID p) (mkSlice (length (arrays s)) 1 1),
                          successors p))
                   (mark_visited now p)]> (procs s))
         (arrays s ++ [[ID p]]))
| moves_report i p pr tail :
    procs s !! i = Some p → in_handleProbes p = None → probeChan p = pr :: tail →
    Initiator pr = ID p → flag (deadlockCache p) (SessionID pr) = false →
    moves g s [Reported i (SessionID pr) (elems (arrays s) (Visited pr))]
      (mkSystem (<[i := mark_reported (SessionID pr) (with_probeChan tail p)]> (procs s))
                (arrays s))
| moves_forward i p pr tail :
    procs s !! i = Some p → in_handleProbes p = None → probeChan p = pr :: tail →
    ¬ (Initiator pr = ID p ∧ flag (deadlockCache p) (SessionID pr) = false) →
    flag (visited p) (SessionID pr) = false → successors p ≠ [] →
    moves g s
      [Forwarded i pr (mkProbe (SessionID pr) (Initiator pr) (ID p)
                         (append g (arrays s) (Visited pr) (ID p)).2)]
      (mkSystem
         (<[i := with_sending HandleLoop
                   (Some (mkProbe (SessionID pr) (Initiator pr) (ID p)
                            (append g (arrays s) (Visited pr) (ID p)).2,
                          successors p))
                   (mark_visited (SessionID pr) (with_probeChan tail p))]> (procs s))
         (append g (arrays s) (Visited pr) (ID p)).1)
| moves_drop i p pr tail :
    procs s !! i = Some p → in_handleProbes p = None → probeChan p = pr :: tail →
    ¬ (Initiator pr = ID p ∧ flag (deadlockCache p) (SessionID pr) = false) →
    ¬ (flag (visited p) (SessionID pr) = false ∧ successors p ≠ []) →
    moves g s [Dropped i pr]
      (mkSystem (<[i := with_probeChan tail p]> (procs s)) (arrays s))
| moves_sent i l p pr :
    procs s !! i = Some p → sending l p = Some (pr, []) →
    moves g s [] (set_proc i (with_sending l None p) s)
| moves_deliver i l p pr succ rest q :
    procs s !! i = Some p → sending l p = Some (pr, succ :: rest) →
    procs s !! succ = Some q → length (probeChan q) < ChanBufferSize (config q) →
    moves g s [Delivered i succ pr]
      (mkSystem
         (alter (λ p1, with_sending l (match rest with [] => None | _ => Some (pr, rest) end)
                         (count_sent p1)) i
            (<[succ := with_probeChan (probeChan q ++ [pr]) q]> (procs s)))
         (arrays s))
| moves_give_up i l p pr rest :
    procs s !! i = Some p → sending l p = Some (pr, rest) →
    moves g s [GaveUp i l pr] (set_proc i (with_sending l None p) s).

(** *** Arrays and sessions *)

(** Two probes in flight that share a backing array belong to one session. *)
Definition arrays_by_session (s : System) : Prop :=
  ∀ pr1 pr2, in_flight s pr1 → in_flight s pr2 →
    arr (Visited pr1) = arr (Visited pr2) → SessionID pr1 = SessionID pr2.

(** *** One session on the ring of [main], under any schedule *)

(** The effects of the session [sid] in a trace: its initiations, the sends
    of its probes that went through, the [sendProbe]s of its probes that were
    cut short, and its reports. *)
Definition is_initiation (sid : Z) (e : Effect) : bool :=
  match e with
  | Initiated _ probe => (SessionID probe =? sid)%Z
  | _ => false
  end.

Definition is_hop (sid : Z) (e : Effect) : bool :=
  match e with
  | Delivered _ _ probe => (SessionID probe =? sid)%Z
  | _ => false
  end.

Definition is_loss (sid : Z) (e : Effect) : bool :=
  match e with
  | GaveUp _ _ probe => (SessionID probe =? sid)%Z
  | _ => false
  end.

Definition is_confirmation (sid : Z) (e : Effect) : bool :=
  match e with
  | Reported _ sessionID _ => (sessionID =? sid)%Z
  | _ => false
  end.

Definition session_initiations (sid : Z) (tr : list Effect) : list Effect :=
  filter (λ e, is_initiation sid e = true) tr.

Definition session_hops (sid : Z) (tr : list Effect) : list Effect :=
  filter (λ e, is_hop sid e = true) tr.

Definition session_losses (sid : Z) (tr : list Effect) : list Effect :=
  filter (λ e, is_loss sid e = true) tr.

Definition session_reports (sid : Z) (tr : list Effect) : list Effect :=
  filter (λ e, is_confirmation sid e = true) tr.

(** The trace holds at most one initiation of the session, by process 0, and
    no probe of the session was given up. *)
Definition clean_session (sid : Z) (tr : list Effect) : Prop :=
  (∀ i probe, Initiated i probe ∈ tr → SessionID probe = sid → i = 0) ∧
  length (session_initiations sid tr) ≤ 1 ∧
  session_losses sid tr = [].

(** How far the session has come: not begun; process [d] is in [sendProbe]
    with its probe; the probe, sent [d] times, waits in a channel; reported. *)
Inductive Stage : Type :=
| Idle
| Held (d : nat)
| Queued (d : nat)
| Closed.

Definition stage_ok (st : Stage) : Prop :=
  match st with
  | Held d => d < 4
  | Queued d => 1 ≤ d ≤ 4
  | _ => True
  end.

Definition in_course (st : Stage) : Prop :=
  match st with
  | Held _ | Queued _ => True
  | _ => False
  end.

(** The processes that have marked the session are those below [marks]. *)
Definition marks (st : Stage) : nat :=
  match st with
  | Idle => 0
  | Held d => S d
  | Queued d => d
  | Closed => 4
  end.

Definition hops (st : Stage) : nat :=
  match st with
  | Idle => 0
  | Held d | Queued d => d
  | Closed => 4
  end.

(** The process that gets the probe sent for the [d]-th time. *)
Definition seat (d : nat) : nat := if decide (d = 4) then 0 else d.

(** The loop in which process [d] sends: p0 starts the session in [Run],
    the others forward in [handleProbes]. *)
Definition holder (d : nat) : Loop := if decide (d = 0) then RunLoop else HandleLoop.

Definition queue_at (st : Stage) (token : Probe) (i : nat) : list Probe :=
  match st with
  | Queued d => if decide (seat d = i) then [token] else []
  | _ => []
  end.

Definition slot_at (st : Stage) (token : Probe) (i : nat) (l : Loop)
    : option (Probe * list nat) :=
  match st with
  | Held d => if decide (i = d ∧ l = holder d) then Some (token, [seat (S d)]) else None
  | _ => None
  end.

Definition reported_at (st : Stage) (i : nat) : bool :=
  match st with
  | Closed => bool_decide (i = 0)
  | _ => false
  end.

(** What a loop is sending, when it is a probe of the session. *)
Definition session_probe (sid : Z) (o : option (Probe * list nat))
    : option (Probe * list nat) :=
  match o with
  | Some (pr, rest) => if decide (SessionID pr = sid) then Some (pr, rest) else None
  | None => None
  end.

(** What process [i] holds of the session at stage [st]: the probes of the
    session in its channel and in its loops, and its two flags. *)
Definition at_stage (sid : Z) (st : Stage) (token : Probe) (i : nat) (p : Process) : Prop :=
  filter (λ pr, SessionID pr = sid) (probeChan p) = queue_at st token i ∧
  (∀ l, session_probe sid (sending l p) = slot_at st token i l) ∧
  flag (visited p) sid = bool_decide (i < marks st) ∧
  flag (deadlockCache p) sid = reported_at st i.

(** Two states of a process that hold the same of the session. *)
Definition same_view (sid : Z) (p p' : Process) : Prop :=
  filter (λ pr, SessionID pr = sid) (probeChan p') =
    filter (λ pr, SessionID pr = sid) (probeChan p) ∧
  (∀ l, session_probe sid (sending l p') = session_probe sid (sending l p)) ∧
  flag (visited p') sid = flag (visited p) sid ∧
  flag (deadlockCache p') sid = flag (deadlockCache p) sid.

(** The processes are those of [main], at some later time. *)
Definition on_ring (s : System) : Prop := Forall2 evolves (procs main_system) (procs s).

(** The session [sid] after the trace [tr], in the state [s]: it is at some
    stage, every process holds of it what the stage says, its probe has
    the path of the stage, and the trace has the effects of the stage. *)
Definition session_inv (sid : Z) (tr : list Effect) (s : System) : Prop :=
  ∃ st token,
    stage_ok st ∧
    (∀ i p, procs s !! i = Some p → at_stage sid st token i p) ∧
    (in_course st →
     SessionID token = sid ∧ Initiator token = 0%Z ∧
     elems (arrays s) (Visited token) = Z.of_nat <$> seq 0 (marks st)) ∧
    length (session_initiations sid tr) = (match st with Idle => 0 | _ => 1 end) ∧
    length (session_hops sid tr) = hops st ∧
    session_reports sid tr =
      (match st with Closed => [Reported 0 sid [0; 1; 2; 3]%Z] | _ => [] end).

End Goroutines.

(** * Lemmas and theorems *)

(** ** Slices and flag maps *)

Lemma index_Some_range {A} (s : list A) i a :
  index s i = Some a → (0 ≤ i < Z.of_nat (length s))%Z.
Proof.
  unfold index. destruct (Z.ltb_spec i 0) as [|Hge]; [done|].
  intros Hlt%lookup_lt_Some. lia.
Qed.

Lemma index_in_range {A} (s : list A) i :
  (0 ≤ i < Z.of_nat (length s))%Z → ∃ a, index s i = Some a ∧ a ∈ s.
Proof.
  intros Hi. unfold index. destruct (Z.ltb_spec i 0); [lia|].
  destruct (lookup_lt_is_Some_2 s (Z.to_nat i)) as [a Ha]; [lia|].
  exists a. split; [done|]. by eapply list_elem_of_lookup_2.
Qed.

Lemma index_None_range {A} (s : list A) i :
  index s i = None → ¬ (0 ≤ i < Z.of_nat (length s))%Z.
Proof.
  intros Hn Hi. destruct (index_in_range s i Hi) as (a & Ha & _). congruence.
Qed.

Lemma flag_insert_eq (v : gmap Z bool) k : flag (<[k := true]> v) k = true.
Proof. unfold flag. by rewrite lookup_insert_eq. Qed.

Lemma flag_insert_ne (v : gmap Z bool) k j b : k ≠ j → flag (<[k := b]> v) j = flag v j.
Proof. intros. unfold flag. by rewrite lookup_insert_ne. Qed.

Lemma flag_insert_mono (v : gmap Z bool) k j :
  flag v j = true → flag (<[k := true]> v) j = true.
Proof.
  intros. destruct (decide (k = j)) as [->|]; [apply flag_insert_eq|].
  by rewrite flag_insert_ne.
Qed.

(** ** Facts about the RPC server *)
Module RpcServerFacts.
Import RpcServer.

(** *** The marks only grow *)

Lemma grows_refl t : grows t t.
Proof. by intros k. Qed.

Lemma grows_trans t1 t2 t3 : grows t1 t2 → grows t2 t3 → grows t1 t3.
Proof. intros H1 H2 k Hk. eauto. Qed.

Lemma grows_mark c t : grows t (mark_visited c t).
Proof. intros k Hk. simpl. by apply flag_insert_mono. Qed.

Lemma grows_count o c n t : grows t (count_probe o c n t).
Proof. by intros k. Qed.

Lemma ddfs_loop_grows rec origin current ns :
  (∀ n t b t', rec n t = Done (b, t') → grows t t') →
  ∀ t b t', ddfs_loop rec origin current ns t = Done (b, t') → grows t t'.
Proof.
  intros Hrec. induction ns as [|n ns IH]; intros t b t' H; simpl in H.
  - injection H as <- <-. apply grows_refl.
  - destruct (n =? origin)%Z.
    { injection H as <- <-. apply grows_count. }
    destruct (flag _ n).
    { eapply grows_trans; [apply (grows_count origin current n)|]. by eapply IH. }
    destruct (rec n _) as [[[] t2]| |] eqn:Hr; try done.
    + injection H as <- <-.
      eapply grows_trans; [apply (grows_count origin current n)|]. by eapply Hrec.
    + eapply grows_trans; [apply (grows_count origin current n)|].
      eapply grows_trans; [by eapply Hrec|]. by eapply IH.
Qed.

Lemma runDDFS_grows fuel procs origin :
  ∀ current t b t', runDDFS fuel procs origin current t = Done (b, t') → grows t t'.
Proof.
  induction fuel as [|fuel IH]; intros current t b t' H; simpl in H; [done|].
  destruct (index procs current) as [p|]; [|done].
  eapply grows_trans; [apply (grows_mark current)|].
  eapply ddfs_loop_grows; [|exact H]. intros n t1 b1 t1' H1. by eapply IH.
Qed.

Lemma runDDFS_marks_current fuel procs origin current t b t' :
  runDDFS fuel procs origin current t = Done (b, t') → flag (visited t') current = true.
Proof.
  destruct fuel as [|fuel]; simpl; [done|].
  destruct (index procs current) as [p|]; [|done]. intros H.
  eapply ddfs_loop_grows in H.
  - apply H. simpl. apply flag_insert_eq.
  - intros n t1 b1 t1' H1. by eapply runDDFS_grows.
Qed.

(** *** A confirmation follows a path back to the origin *)

Lemma ddfs_loop_sound procs rec origin current ns :
  (∀ n t t', rec n t = Done (true, t') →
     ∃ x, rtc (edge procs) n x ∧ edge procs x origin) →
  ∀ t t', ddfs_loop rec origin current ns t = Done (true, t') →
  ∃ n, n ∈ ns ∧ (n = origin ∨ ∃ x, rtc (edge procs) n x ∧ edge procs x origin).
Proof.
  intros Hrec. induction ns as [|n ns IH]; intros t t' H; simpl in H; [done|].
  destruct (Z.eqb_spec n origin) as [->|Hne].
  { exists origin. split; [left|by left]. }
  assert (Hrest : ∀ t0, ddfs_loop rec origin current ns t0 = Done (true, t') →
    ∃ n0, n0 ∈ n :: ns ∧ (n0 = origin ∨ ∃ x, rtc (edge procs) n0 x ∧ edge procs x origin)).
  { intros t0 H0. destruct (IH _ _ H0) as (n0 & Hin & Hn0).
    exists n0. split; [by right|done]. }
  destruct (flag _ n); [by eapply Hrest|].
  destruct (rec n _) as [[[] t2]| |] eqn:Hr; try done.
  - exists n. split; [left|]. right. by eapply Hrec.
  - by eapply Hrest.
Qed.

Lemma runDDFS_sound fuel procs origin :
  ∀ current t t', runDDFS fuel procs origin current t = Done (true, t') →
  ∃ x, rtc (edge procs) current x ∧ edge procs x origin.
Proof.
  induction fuel as [|fuel IH]; intros current t t' H; simpl in H; [done|].
  destruct (index procs current) as [p|] eqn:Hp; [|done].
  apply (ddfs_loop_sound procs) in H; [|by intros; eapply IH].
  destruct H as (n & Hin & [->|(x & Hrtc & Hx)]).
  - exists current. split; [done|]. by exists p.
  - exists x. split; [|done]. eapply rtc_l; [|done]. by exists p.
Qed.

Lemma runDDFS_true_cycle fuel procs start t t' :
  runDDFS fuel procs start start t = Done (true, t') → tc (edge procs) start start.
Proof.
  intros (x & Hrtc & Hx)%runDDFS_sound. by eapply tc_rtc_l; [|apply tc_once].
Qed.


(** *** The measure: unmarked indices *)

Lemma filter_length_le {A} (P Q : A → Prop) `{∀ x, Decision (P x)} `{∀ x, Decision (Q x)}
    (l : list A) :
  (∀ x, x ∈ l → P x → Q x) → length (filter P l) ≤ length (filter Q l).
Proof.
  induction l as [|a l IH]; intros HPQ; [done|].
  rewrite !filter_cons.
  assert (length (filter P l) ≤ length (filter Q l)) as Hle.
  { apply IH. intros x Hx. apply HPQ. by right. }
  destruct (decide (P a)) as [HP|HP].
  - rewrite decide_True; [simpl; lia|]. apply HPQ; [left|done].
  - destruct (decide (Q a)); simpl; lia.
Qed.

Lemma filter_length_lt {A} (P Q : A → Prop) `{∀ x, Decision (P x)} `{∀ x, Decision (Q x)}
    (l : list A) a :
  (∀ x, x ∈ l → P x → Q x) → a ∈ l → Q a → ¬ P a →
  length (filter P l) < length (filter Q l).
Proof.
  induction l as [|b l IH]; intros HPQ Ha HQ HnP; [by apply elem_of_nil in Ha|].
  rewrite !filter_cons.
  assert (∀ x, x ∈ l → P x → Q x) as HPQ' by (intros x Hx; apply HPQ; by right).
  apply elem_of_cons in Ha as [<-|Ha].
  - rewrite decide_False by done. rewrite decide_True by done. simpl.
    pose proof (filter_length_le P Q l HPQ'). lia.
  - specialize (IH HPQ' Ha HQ HnP).
    destruct (decide (P b)) as [HP|HP].
    + rewrite decide_True; [simpl; lia|]. apply HPQ; [left|done].
    + destruct (decide (Q b)); simpl; lia.
Qed.

Lemma unvisited_le procs (v v' : gmap Z bool) :
  (∀ k, flag v k = true → flag v' k = true) →
  length (unvisited procs v') ≤ length (unvisited procs v).
Proof.
  intros Hvv. unfold unvisited. apply filter_length_le.
  intros i _ Hi. destruct (flag v (Z.of_nat i)) eqn:E; [|done].
  apply Hvv in E. congruence.
Qed.

Lemma unvisited_mark_lt procs (v : gmap Z bool) c :
  in_range procs c → flag v c = false →
  length (unvisited procs (<[c := true]> v)) < length (unvisited procs v).
Proof.
  intros Hc Hv. unfold unvisited.
  apply (filter_length_lt _ _ _ (Z.to_nat c)).
  - intros i _ Hi. destruct (flag v (Z.of_nat i)) eqn:E; [|done].
    apply (flag_insert_mono _ c) in E. congruence.
  - apply elem_of_seq. unfold in_range in Hc. lia.
  - rewrite Z2Nat.id; [done|]. unfold in_range in Hc. lia.
  - rewrite Z2Nat.id; [|unfold in_range in Hc; lia]. rewrite flag_insert_eq. done.
Qed.

(** *** Enough fuel: the traversal ends *)

Lemma ddfs_loop_fuel procs rec origin current ns (M : nat) :
  (∀ n t b t', rec n t = Done (b, t') → grows t t') →
  (∀ n t, flag (visited t) n = false → length (unvisited procs (visited t)) ≤ M →
          rec n t ≠ OutOfFuel) →
  ∀ t, length (unvisited procs (visited t)) ≤ M →
       ddfs_loop rec origin current ns t ≠ OutOfFuel.
Proof.
  intros Hgrow Hrec. induction ns as [|n ns IH]; intros t Ht; simpl; [done|].
  destruct (n =? origin)%Z; [done|].
  destruct (flag _ n) eqn:Hfl; [by apply IH|].
  destruct (rec n _) as [[[] t2]| |] eqn:Hr; try done.
  - apply IH. apply Hgrow in Hr.
    etrans; [apply unvisited_le, Hr|]. done.
  - by apply Hrec in Hr.
Qed.

Lemma runDDFS_fuel_gen procs origin fuel :
  ∀ current t,
    length (unvisited procs (visited (mark_visited current t))) + 2 ≤ fuel →
    runDDFS fuel procs origin current t ≠ OutOfFuel.
Proof.
  induction fuel as [|fuel IH]; intros current t Hfuel; [lia|]. simpl.
  destruct (index procs current) as [p|] eqn:Hp; [|done].
  apply (ddfs_loop_fuel procs) with
    (M := length (unvisited procs (visited (mark_visited current t)))).
  - intros n t1 b t1'. apply runDDFS_grows.
  - intros n t1 Hn Hm.
    destruct (index procs n) as [q|] eqn:Hq.
    + apply IH. simpl.
      pose proof (unvisited_mark_lt procs (visited t1) n (index_Some_range _ _ _ Hq) Hn).
      simpl in *. lia.
    + destruct fuel as [|fuel']; [simpl in *; lia|]. simpl. by rewrite Hq.
  - done.
Qed.

Lemma unvisited_bound procs v : length (unvisited procs v) ≤ length procs.
Proof.
  unfold unvisited. etrans; [apply length_filter|]. by rewrite length_seq.
Qed.

Lemma runDDFS_fuel procs origin current t fuel :
  ddfs_fuel procs ≤ fuel → runDDFS fuel procs origin current t ≠ OutOfFuel.
Proof.
  intros Hf. apply runDDFS_fuel_gen.
  pose proof (unvisited_bound procs (visited (mark_visited current t))).
  unfold ddfs_fuel in Hf. lia.
Qed.

(** More fuel does not change a result. *)
Lemma ddfs_loop_more rec rec' origin current ns :
  (∀ n t r, rec n t = r → r ≠ OutOfFuel → rec' n t = r) →
  ∀ t r, ddfs_loop rec origin current ns t = r → r ≠ OutOfFuel →
         ddfs_loop rec' origin current ns t = r.
Proof.
  intros Hrec. induction ns as [|n ns IH]; intros t r H Hr; simpl in *; [done|].
  destruct (n =? origin)%Z; [done|].
  destruct (flag _ n); [by apply IH|].
  destruct (rec n _) as [[[] t2]| |] eqn:E.
  - by rewrite (Hrec _ _ _ E).
  - rewrite (Hrec _ _ _ E) by done. by apply IH.
  - by rewrite (Hrec _ _ _ E).
  - congruence.
Qed.

Lemma runDDFS_more_S procs origin fuel :
  ∀ current t r, runDDFS fuel procs origin current t = r → r ≠ OutOfFuel →
                 runDDFS (S fuel) procs origin current t = r.
Proof.
  induction fuel as [|fuel IH]; intros current t r H Hr; [simpl in H; congruence|].
  simpl in H. change (runDDFS (S (S fuel)) procs origin current t) with
    (match index procs current with
     | None => Panic
     | Some p => ddfs_loop (runDDFS (S fuel) procs origin) origin current (Neighbors p)
                   (mark_visited current t)
     end).
  destruct (index procs current) as [p|]; [|done].
  eapply ddfs_loop_more; [|exact H|done]. intros n t1 r1 H1 Hr1. by apply IH.
Qed.

Lemma runDDFS_more procs origin current t fuel fuel' r :
  runDDFS fuel procs origin current t = r → r ≠ OutOfFuel → fuel ≤ fuel' →
  runDDFS fuel' procs origin current t = r.
Proof.
  intros H Hr Hle. induction Hle as [|m Hle IH]; [done|]. by apply runDDFS_more_S.
Qed.

(** *** No index is out of range when the neighbours are in range *)

Lemma ddfs_loop_no_panic procs rec origin current ns :
  (∀ n t, in_range procs n → rec n t ≠ Panic) →
  (∀ n, n ∈ ns → in_range procs n) →
  ∀ t, ddfs_loop rec origin current ns t ≠ Panic.
Proof.
  intros Hrec. induction ns as [|n ns IH]; intros Hns t; simpl; [done|].
  assert (∀ n0, n0 ∈ ns → in_range procs n0) as Hns' by (intros; apply Hns; by right).
  destruct (n =? origin)%Z; [done|].
  destruct (flag _ n); [by apply IH|].
  destruct (rec n _) as [[[] t2]| |] eqn:Hr; try done.
  - by apply IH.
  - apply Hrec in Hr; [done|]. apply Hns. left.
Qed.

Lemma runDDFS_no_panic procs origin fuel :
  neighbors_in_range procs →
  ∀ current t, in_range procs current → runDDFS fuel procs origin current t ≠ Panic.
Proof.
  intros Hwf. induction fuel as [|fuel IH]; intros current t Hc; simpl; [done|].
  destruct (index_in_range procs current Hc) as (p & -> & Hp).
  apply (ddfs_loop_no_panic procs); [done|].
  intros n Hn. unfold neighbors_in_range in Hwf.
  rewrite Forall_forall in Hwf. specialize (Hwf p Hp).
  rewrite Forall_forall in Hwf. by apply Hwf.
Qed.

Lemma runDDFS_total procs origin current t fuel :
  neighbors_in_range procs → in_range procs current → ddfs_fuel procs ≤ fuel →
  ∃ b t', runDDFS fuel procs origin current t = Done (b, t').
Proof.
  intros Hwf Hc Hf.
  pose proof (runDDFS_fuel procs origin current t fuel Hf).
  pose proof (runDDFS_no_panic procs origin fuel Hwf current t Hc).
  destruct (runDDFS fuel procs origin current t) as [[b t']| |]; [eauto|done|done].
Qed.

Lemma runDDFS_acyclic procs start t fuel :
  neighbors_in_range procs → acyclic procs → in_range procs start →
  ddfs_fuel procs ≤ fuel →
  ∃ t', runDDFS fuel procs start start t = Done (false, t').
Proof.
  intros Hwf Hac Hs Hf.
  destruct (runDDFS_total procs start start t fuel Hwf Hs Hf) as ([] & t' & H); [|eauto].
  apply runDDFS_true_cycle in H. by apply Hac in H.
Qed.
(** *** Tables that only wait downwards have no cycle *)

Lemma increasing_edge procs x y : increasing procs → edge procs x y → (x < y)%Z.
Proof.
  intros Hinc (p & Hp & Hy). unfold increasing in Hinc. rewrite Forall_forall in Hinc.
  pose proof (index_Some_range _ _ _ Hp) as Hx.
  unfold index in Hp. destruct (x <? 0)%Z; [done|].
  specialize (Hinc (Z.to_nat x, p)). rewrite Forall_forall in Hinc. simpl in Hinc.
  rewrite Z2Nat.id in Hinc by lia. apply Hinc; [|done].
  by apply (elem_of_lookup_imap_2 pair).
Qed.

Lemma increasing_acyclic procs : increasing procs → acyclic procs.
Proof.
  intros Hinc x Hx.
  assert (∀ a b, tc (edge procs) a b → (a < b)%Z) as Hlt.
  { induction 1 as [a b Hab|a b c Hab _ IH].
    - by eapply increasing_edge.
    - pose proof (increasing_edge _ _ _ Hinc Hab). lia. }
  apply Hlt in Hx. lia.
Qed.

(** *** The two RPC methods *)

Lemma DetectDeadlock_invalid fuel ds req res :
  ¬ in_range (processes ds) (ProcessID req) →
  DetectDeadlock fuel ds req res =
    Done (ds, mkDeadlockResponse "Invalid Process ID" (DeadlockStatus res)
                (MessageCounts res) (TotalMessages res), []).
Proof.
  intros Hout. unfold DetectDeadlock.
  destruct (Z.ltb_spec (ProcessID req) 0); [done|].
  destruct (Z.leb_spec (Z.of_nat (length (processes ds))) (ProcessID req)); [done|].
  exfalso. apply Hout. unfold in_range. lia.
Qed.

Lemma DetectDeadlock_valid fuel ds req res :
  in_range (processes ds) (ProcessID req) →
  DetectDeadlock fuel ds req res =
    match runDDFS fuel (processes ds) (ProcessID req) (ProcessID req)
            (mkTrav ∅ ∅ 0 [LogStarting (ProcessID req)]) with
    | Done (b, t) =>
        Done (ds,
              mkDeadlockResponse
                ("Deadlock detection completed for Process " +:+ fmt_d (ProcessID req))
                (if b then "Deadlock confirmed!" else "No deadlock detected.")
                (messageCounts t) (localCounter t),
              logged t ++
                (if b then [LogDeadlockDetected (ProcessID req) (getSortedVisitedList (visited t))]
                 else []))
    | Panic => Panic
    | OutOfFuel => OutOfFuel
    end.
Proof.
  intros Hin. unfold DetectDeadlock, in_range in *.
  destruct (Z.ltb_spec (ProcessID req) 0); [lia|].
  destruct (Z.leb_spec (Z.of_nat (length (processes ds))) (ProcessID req)); [lia|].
  simpl. destruct (runDDFS _ _ _ _ _) as [[[] t]| |]; try done.
  by rewrite app_nil_r.
Qed.

(** *** A cycle through the start is found *)

Lemma ddfs_loop_false_settled procs rec origin current ns :
  (∀ n t b t', rec n t = Done (b, t') → grows t t') →
  (∀ n t b t', rec n t = Done (b, t') → flag (visited t') n = true) →
  (∀ n t t', rec n t = Done (false, t') → settled procs origin t t') →
  ∀ t t', ddfs_loop rec origin current ns t = Done (false, t') →
    (∀ n, n ∈ ns → n ≠ origin ∧ flag (visited t') n = true) ∧ settled procs origin t t'.
Proof.
  intros Hgrow Hmark Hset. induction ns as [|n ns IH]; intros t t' H; simpl in H.
  { injection H as <-. split; [by intros n ?%elem_of_nil|].
    intros u p n Hu Hu'. congruence. }
  destruct (Z.eqb_spec n origin) as [->|Hne]; [done|].
  destruct (flag _ n) eqn:Hfl.
  - pose proof (ddfs_loop_grows _ _ _ _ Hgrow _ _ _ H) as Hg.
    destruct (IH _ _ H) as [Hns Hsett]. split; [|exact Hsett].
    intros n0 [->|Hin]%elem_of_cons; [|by apply Hns].
    split; [done|]. by apply Hg.
  - destruct (rec n _) as [[[] t2]| |] eqn:Hr; try done.
    pose proof (ddfs_loop_grows _ _ _ _ Hgrow _ _ _ H) as Hg.
    destruct (IH _ _ H) as [Hns Hsett]. split.
    + intros n0 [->|Hin]%elem_of_cons; [|by apply Hns].
      split; [done|]. apply Hg. by eapply Hmark.
    + intros u p n0 Hu Hu' Hp Hn0.
      destruct (flag (visited t2) u) eqn:Hu2.
      * destruct (Hset _ _ _ Hr u p n0 Hu Hu2 Hp Hn0) as [? Hv]. split; [done|by apply Hg].
      * by eapply Hsett.
Qed.

Lemma runDDFS_false_settled procs origin fuel :
  ∀ current t t', runDDFS fuel procs origin current t = Done (false, t') →
                  settled procs origin t t'.
Proof.
  induction fuel as [|fuel IH]; intros current t t' H; simpl in H; [done|].
  destruct (index procs current) as [p|] eqn:Hp; [|done].
  apply (ddfs_loop_false_settled procs) in H as [Hns Hsett].
  - intros u q n Hu Hu' Hq Hn.
    destruct (decide (u = current)) as [->|Hne].
    + apply Hns. congruence.
    + eapply Hsett; [|done|done|done]. simpl. by rewrite flag_insert_ne.
  - intros n t1 b t1'. apply runDDFS_grows.
  - intros n t1 b t1'. apply runDDFS_marks_current.
  - intros n t1 t1'. apply IH.
Qed.

Lemma tc_last {A} (R : relation A) x z : tc R x z → ∃ y, rtc R x y ∧ R y z.
Proof.
  induction 1 as [a b Hab|a b c Hab _ (y & Hby & Hyc)].
  - by exists a.
  - exists y. split; [by eapply rtc_l|done].
Qed.

Lemma runDDFS_false_no_cycle procs fuel start t' :
  runDDFS fuel procs start start (mkTrav ∅ ∅ 0 [LogStarting start]) = Done (false, t') →
  ¬ tc (edge procs) start start.
Proof.
  intros H (x & Hrtc & (p & Hp & Hx))%tc_last.
  pose proof (runDDFS_false_settled _ _ _ _ _ _ H) as Hsett.
  assert (∀ u, flag (visited (mkTrav ∅ ∅ 0 [LogStarting start])) u = false) as Hwhite.
  { intros u. unfold flag. simpl. by rewrite lookup_empty. }
  assert (∀ z, rtc (edge procs) start z → flag (visited t') z = true) as Hall.
  { apply rtc_ind_r.
    - by eapply runDDFS_marks_current.
    - intros y z _ (q & Hq & Hz) IH. by eapply (Hsett y q z). }
  destruct (Hsett x p start); auto.
Qed.

(** The traversal from [start] answers whether [start] lies on a cycle. *)
Lemma runDDFS_decides procs start fuel :
  neighbors_in_range procs → in_range procs start → ddfs_fuel procs ≤ fuel →
  ∃ b t', runDDFS fuel procs start start (mkTrav ∅ ∅ 0 [LogStarting start]) = Done (b, t') ∧
          (b = true ↔ tc (edge procs) start start).
Proof.
  intros Hwf Hs Hf.
  destruct (runDDFS_total procs start start (mkTrav ∅ ∅ 0 [LogStarting start]) fuel Hwf Hs Hf)
    as (b & t' & H).
  exists b, t'. split; [done|]. destruct b.
  - split; [|done]. intros _. by eapply runDDFS_true_cycle.
  - split; [done|]. intros Htc. by apply runDDFS_false_no_cycle in H.
Qed.

Lemma DetectDeadlock_more fuel fuel' ds req res r :
  DetectDeadlock fuel ds req res = r → r ≠ OutOfFuel → fuel ≤ fuel' →
  DetectDeadlock fuel' ds req res = r.
Proof.
  unfold DetectDeadlock. destruct (_ || _); [done|]. simpl.
  destruct (runDDFS fuel _ _ _ _) as [[b t]| |] eqn:Hr; intros <- Hne Hle; try done.
  - by rewrite (runDDFS_more _ _ _ _ _ _ _ Hr) by done.
  - by rewrite (runDDFS_more _ _ _ _ _ _ _ Hr) by done.
Qed.

Lemma edge_inv procs x y :
  edge procs x y →
  ∃ p, (0 ≤ x)%Z ∧ procs !! Z.to_nat x = Some p ∧ y ∈ Neighbors p.
Proof.
  intros (p & Hp & Hy). exists p. unfold index in Hp.
  destruct (Z.ltb_spec x 0); [done|]. done.
Qed.

(** *** The marks lie on paths from the start *)

Lemma ddfs_loop_reach procs rec origin current ns :
  (∀ n t b t', rec n t = Done (b, t') → grows t t') →
  (∀ n t b t' u, rec n t = Done (b, t') →
     flag (visited t) u = false → flag (visited t') u = true → rtc (edge procs) n u) →
  ∀ t b t' u, ddfs_loop rec origin current ns t = Done (b, t') →
    flag (visited t) u = false → flag (visited t') u = true →
    ∃ n, n ∈ ns ∧ rtc (edge procs) n u.
Proof.
  intros Hgrow Hrec. induction ns as [|n ns IH]; intros t b t' u H Hu Hu'; simpl in H.
  { injection H as <- <-. congruence. }
  assert (Hrest : ∀ t0, flag (visited t0) u = false →
    ddfs_loop rec origin current ns t0 = Done (b, t') →
    ∃ n0, n0 ∈ n :: ns ∧ rtc (edge procs) n0 u).
  { intros t0 Hu0 H0. destruct (IH _ _ _ _ H0 Hu0 Hu') as (n0 & Hin & Hn0).
    exists n0. split; [by right|done]. }
  destruct (n =? origin)%Z.
  { injection H as <- <-. simpl in Hu'. congruence. }
  destruct (flag _ n); [by apply (Hrest (count_probe origin current n t))|].
  destruct (rec n _) as [[b2 t2]| |] eqn:Hr; try done.
  destruct (flag (visited t2) u) eqn:Hu2.
  - exists n. split; [left|]. by eapply Hrec.
  - destruct b2; [injection H as <- <-; congruence|]. by apply (Hrest t2).
Qed.

Lemma runDDFS_reach fuel procs origin :
  ∀ current t b t' u, runDDFS fuel procs origin current t = Done (b, t') →
    flag (visited t) u = false → flag (visited t') u = true →
    rtc (edge procs) current u.
Proof.
  induction fuel as [|fuel IH]; intros current t b t' u H Hu Hu'; simpl in H; [done|].
  destruct (index procs current) as [p|] eqn:Hp; [|done].
  destruct (decide (u = current)) as [->|Hne]; [done|].
  eapply (ddfs_loop_reach procs) in H as (n & Hin & Hn); [| |by apply IH| |done].
  - eapply rtc_l; [|done]. by exists p.
  - intros n t1 b1 t1' H1. by eapply runDDFS_grows.
  - simpl. by rewrite flag_insert_ne.
Qed.

(** *** The two counters *)

Lemma wrap_int_incr z : int_incr (wrap_int z) = wrap_int (z + 1).
Proof.
  unfold int_incr, wrap_int.
  replace ((z + 2 ^ 63) `mod` 2 ^ 64 - 2 ^ 63 + 1 + 2 ^ 63)%Z
    with ((z + 2 ^ 63) `mod` 2 ^ 64 + 1)%Z by lia.
  rewrite Zplus_mod_idemp_l. f_equal. f_equal. lia.
Qed.

Lemma probe_lines_app log log' : probe_lines (log ++ log') = probe_lines log + probe_lines log'.
Proof. unfold probe_lines. by rewrite filter_app, length_app. Qed.

Lemma probe_lines_count origin current n t :
  probe_lines (logged (count_probe origin current n t)) = S (probe_lines (logged t)).
Proof.
  simpl. rewrite probe_lines_app. unfold probe_lines at 2.
  rewrite filter_cons_True by done. simpl. lia.
Qed.

Lemma counts_agree_count origin current n t :
  counts_agree origin t → counts_agree origin (count_probe origin current n t).
Proof.
  intros [[Hm Hc]|Hm]; right; simpl; rewrite Hm.
  - rewrite lookup_empty. simpl. by rewrite Hc, insert_empty.
  - rewrite lookup_singleton_eq. simpl. by rewrite insert_singleton_eq.
Qed.

Lemma counted_count origin current n t :
  counted origin t → counted origin (count_probe origin current n t).
Proof.
  intros [Ha Hc]. split; [by apply counts_agree_count|].
  rewrite probe_lines_count. simpl. rewrite Hc, wrap_int_incr. f_equal. lia.
Qed.

Lemma ddfs_loop_counted rec origin current ns :
  (∀ n t b t', rec n t = Done (b, t') → counted origin t → counted origin t') →
  ∀ t b t', ddfs_loop rec origin current ns t = Done (b, t') →
    counted origin t → counted origin t'.
Proof.
  intros Hrec. induction ns as [|n ns IH]; intros t b t' H Hc; simpl in H.
  { by injection H as <- <-. }
  pose proof (counted_count origin current n t Hc) as Hc1.
  destruct (n =? origin)%Z; [by injection H as <- <-|].
  destruct (flag _ n); [by eapply IH|].
  destruct (rec n _) as [[[] t2]| |] eqn:Hr; try done.
  - injection H as <- <-. by eapply Hrec.
  - eapply IH; [done|]. by eapply Hrec.
Qed.

Lemma runDDFS_counted fuel procs origin :
  ∀ current t b t', runDDFS fuel procs origin current t = Done (b, t') →
    counted origin t → counted origin t'.
Proof.
  induction fuel as [|fuel IH]; intros current t b t' H Hc; simpl in H; [done|].
  destruct (index procs current) as [p|]; [|done].
  eapply ddfs_loop_counted; [|done|done]. intros n t1 b1 t1' H1. by eapply IH.
Qed.

(** *** At most one message for each edge *)

Lemma unsent_from_le k procs v v' :
  (∀ x, flag v x = true → flag v' x = true) →
  unsent_from k procs v' ≤ unsent_from k procs v.
Proof.
  intros Hv. revert k. induction procs as [|p procs IH]; intros k; simpl; [done|].
  specialize (IH (S k)).
  destruct (flag v (Z.of_nat k)) eqn:E; [rewrite (Hv _ E); lia|].
  destruct (flag v' _); lia.
Qed.

Lemma unsent_from_fresh k procs : unsent_from k procs ∅ = edge_count procs.
Proof.
  revert k. induction procs as [|p procs IH]; intros k; simpl; [done|].
  unfold edge_count in *. rewrite fmap_cons. simpl. by rewrite IH.
Qed.

Lemma unsent_from_mark_ge k procs v (x : Z) :
  (x < Z.of_nat k)%Z → unsent_from k procs (<[x := true]> v) = unsent_from k procs v.
Proof.
  revert k. induction procs as [|p procs IH]; intros k Hx; simpl; [done|].
  rewrite IH by lia. by rewrite flag_insert_ne by lia.
Qed.

Lemma unsent_from_mark k procs v i p :
  procs !! i = Some p → flag v (Z.of_nat (k + i)) = false →
  unsent_from k procs v =
  unsent_from k procs (<[Z.of_nat (k + i) := true]> v) + length (Neighbors p).
Proof.
  revert k i. induction procs as [|q procs IH]; intros k i Hi Hv; [done|].
  destruct i as [|i]; simpl in *.
  - injection Hi as ->. rewrite Nat.add_0_r in *. rewrite Hv, flag_insert_eq.
    rewrite unsent_from_mark_ge by lia. lia.
  - replace (k + S i) with (S k + i) in * by lia.
    rewrite (IH (S k) i Hi Hv). rewrite flag_insert_ne by lia. lia.
Qed.

Lemma ddfs_loop_within procs rec origin current ns :
  (∀ n t b t', rec n t = Done (b, t') → flag (visited t) n = false → within procs 0 t t') →
  ∀ t b t', ddfs_loop rec origin current ns t = Done (b, t') → within procs (length ns) t t'.
Proof.
  intros Hrec. unfold within in *.
  induction ns as [|n ns IH]; intros t b t' H; simpl in H.
  { injection H as <- <-. lia. }
  pose proof (probe_lines_count origin current n t) as Hc.
  destruct (n =? origin)%Z.
  { injection H as <- <-. rewrite Hc. simpl. lia. }
  destruct (flag _ n) eqn:Hn.
  { apply IH in H. rewrite Hc in H. simpl in *. lia. }
  destruct (rec n _) as [[[] t2]| |] eqn:Hr; try done.
  - injection H as <- <-. apply Hrec in Hr; [|done]. rewrite Hc in Hr. simpl in *. lia.
  - apply Hrec in Hr; [|done]. apply IH in H. rewrite Hc in Hr. simpl in *. lia.
Qed.

Lemma runDDFS_within fuel procs origin :
  ∀ current t b t', runDDFS fuel procs origin current t = Done (b, t') →
    flag (visited t) current = false → within procs 0 t t'.
Proof.
  induction fuel as [|fuel IH]; intros current t b t' H Hcur; simpl in H; [done|].
  destruct (index procs current) as [p|] eqn:Hp; [|done].
  apply (ddfs_loop_within procs) in H; [|by intros; eapply IH].
  unfold within in *. simpl in H.
  unfold index in Hp. destruct (current <? 0)%Z eqn:E; [done|]. apply Z.ltb_ge in E.
  pose proof (unsent_from_mark 0 procs (visited t) (Z.to_nat current) p Hp) as Hm.
  simpl in Hm. rewrite Z2Nat.id in Hm by done. specialize (Hm Hcur). lia.
Qed.

(** *** A table with one more process *)

Lemma index_app_in_range {A} (s s' : list A) i :
  (0 ≤ i < Z.of_nat (length s))%Z → index (s ++ s') i = index s i.
Proof.
  intros Hi. unfold index. destruct (i <? 0)%Z; [done|].
  apply lookup_app_l. lia.
Qed.

Lemma ddfs_loop_ext rec rec' origin current ns (P : Z → Prop) :
  (∀ n t, P n → rec n t = rec' n t) → Forall P ns →
  ∀ t, ddfs_loop rec origin current ns t = ddfs_loop rec' origin current ns t.
Proof.
  intros Hrec. induction 1 as [|n ns Hn Hns IH]; intros t; simpl; [done|].
  rewrite (Hrec _ _ Hn). destruct (n =? origin)%Z; [done|].
  destruct (flag _ n); [done|].
  by destruct (rec' n _) as [[[] t2]| |].
Qed.

Lemma runDDFS_app fuel procs more origin :
  neighbors_in_range procs →
  ∀ current t, in_range procs current →
    runDDFS fuel (procs ++ more) origin current t = runDDFS fuel procs origin current t.
Proof.
  intros Hwf. induction fuel as [|fuel IH]; intros current t Hcur; simpl; [done|].
  rewrite index_app_in_range by done.
  destruct (index procs current) as [p|] eqn:Hp; [|done].
  apply (ddfs_loop_ext _ _ _ _ _ (in_range procs)).
  - intros n t1 Hn. by apply IH.
  - unfold neighbors_in_range in Hwf. rewrite Forall_forall in Hwf. apply Hwf.
    unfold index in Hp. destruct (current <? 0)%Z; [done|]. by eapply list_elem_of_lookup_2.
Qed.

(** *** The sorted list of the marks *)

Lemma getSortedVisitedList_spec v :
  Sorted Z.le (getSortedVisitedList v) ∧ NoDup (getSortedVisitedList v) ∧
  ∀ k, k ∈ getSortedVisitedList v ↔ is_Some (v !! k).
Proof.
  unfold getSortedVisitedList. split; [|split].
  - apply Sorted_merge_sort. intros x y. lia.
  - rewrite merge_sort_Permutation. apply NoDup_fst_map_to_list.
  - intros k. rewrite merge_sort_Permutation.
    change (map fst (map_to_list v)) with ((map_to_list v).*1).
    rewrite list_elem_of_fmap. split.
    + intros ([k' b] & -> & Hin). apply elem_of_map_to_list in Hin. by exists b.
    + intros [b Hb]. exists (k, b). split; [done|]. by apply elem_of_map_to_list.
Qed.

(** *** The keys of the marks *)

Lemma ddfs_loop_marks_true rec origin current ns :
  (∀ n t b t', rec n t = Done (b, t') → marks_true t → marks_true t') →
  ∀ t b t', ddfs_loop rec origin current ns t = Done (b, t') → marks_true t → marks_true t'.
Proof.
  intros Hrec. induction ns as [|n ns IH]; intros t b t' H Hm; simpl in H.
  { by injection H as <- <-. }
  destruct (n =? origin)%Z; [by injection H as <- <-|].
  destruct (flag _ n); [by eapply IH|].
  destruct (rec n _) as [[[] t2]| |] eqn:Hr; try done.
  - injection H as <- <-. by eapply Hrec.
  - eapply IH; [done|]. by eapply Hrec.
Qed.

Lemma runDDFS_marks_true fuel procs origin :
  ∀ current t b t', runDDFS fuel procs origin current t = Done (b, t') →
    marks_true t → marks_true t'.
Proof.
  induction fuel as [|fuel IH]; intros current t b t' H Hm; simpl in H; [done|].
  destruct (index procs current) as [p|]; [|done].
  eapply ddfs_loop_marks_true; [|done|].
  - intros n t1 b1 t1' H1. by eapply IH.
  - intros k. simpl. destruct (decide (k = current)) as [->|Hne].
    + intros _. apply flag_insert_eq.
    + rewrite lookup_insert_ne by done. rewrite flag_insert_ne by done. apply Hm.
Qed.

Lemma wrap_int_small z : (- 2 ^ 63 ≤ z < 2 ^ 63)%Z → wrap_int z = z.
Proof. intros Hz. unfold wrap_int. rewrite Z.mod_small; lia. Qed.

Lemma neighbors_in_range_app procs p :
  neighbors_in_range procs → Forall (in_range procs) (Neighbors p) →
  neighbors_in_range (procs ++ [p]).
Proof.
  unfold neighbors_in_range. intros Hwf Hp.
  assert (∀ n, in_range procs n → in_range (procs ++ [p]) n) as Hmono.
  { unfold in_range. intros n. rewrite length_app. simpl. lia. }
  apply Forall_app. split; [|apply Forall_singleton].
  - eapply Forall_impl; [exact Hwf|]. intros q Hq. eapply Forall_impl; [exact Hq|]. done.
  - eapply Forall_impl; [exact Hp|]. done.
Qed.

(** Nothing waits for the index one past a table whose neighbours are in
    range. *)
Lemma no_edge_to_end procs p x :
  neighbors_in_range procs → Forall (in_range procs) (Neighbors p) →
  ¬ edge (procs ++ [p]) x (Z.of_nat (length procs)).
Proof.
  intros Hwf Hp (q & Hx & Hq & Hin)%edge_inv.
  assert (Forall (in_range procs) (Neighbors q)) as Hq'.
  { apply lookup_app_Some in Hq as [Hq|[_ Hq]].
    - unfold neighbors_in_range in Hwf. rewrite Forall_forall in Hwf. apply Hwf.
      by eapply list_elem_of_lookup_2.
    - apply list_lookup_singleton_Some in Hq as [_ <-]. done. }
  rewrite Forall_forall in Hq'. apply Hq' in Hin. unfold in_range in Hin. lia.
Qed.

(** *** A table with more processes at its end *)

Lemma DetectDeadlock_app fuel procs more counter req res :
  neighbors_in_range procs → in_range procs (ProcessID req) →
  DetectDeadlock fuel (mkDeadlockService (procs ++ more) counter) req res =
  match DetectDeadlock fuel (mkDeadlockService procs counter) req res with
  | Done (_, resp, log) => Done (mkDeadlockService (procs ++ more) counter, resp, log)
  | Panic => Panic
  | OutOfFuel => OutOfFuel
  end.
Proof.
  intros Hwf Hin.
  rewrite (DetectDeadlock_valid fuel (mkDeadlockService procs counter)) by done.
  rewrite DetectDeadlock_valid.
  - simpl. rewrite runDDFS_app by done.
    by destruct (runDDFS _ _ _ _ _) as [[b t]| |].
  - unfold in_range in *. simpl. rewrite length_app. lia.
Qed.

(** *** The lines of a traversal *)

Lemma traced_refl procs origin t : traced procs origin t t [].
Proof. split; [by rewrite app_nil_r|]. split; [constructor|]. by left. Qed.

Lemma traced_trans procs origin t1 t2 t3 l1 l2 :
  traced procs origin t1 t2 l1 → traced procs origin t2 t3 l2 →
  traced procs origin t1 t3 (l1 ++ l2).
Proof.
  intros (H1 & F1 & C1) (H2 & F2 & C2). split; [by rewrite H2, H1, app_assoc|].
  split; [by apply Forall_app|].
  destruct C2 as [[-> Hm2]|[Hne Hs]].
  - destruct C1 as [[-> Hm1]|[Hne Hs]]; [left; split; [done|congruence]|].
    right. rewrite app_nil_r, Hm2. done.
  - right. split; [|done]. by destruct l1, l2.
Qed.

Lemma traced_count procs origin current n t :
  edge procs current n →
  traced procs origin t (count_probe origin current n t)
    [LogProbeSent current n origin (getSortedVisitedList (visited t))].
Proof.
  intros He. split; [done|]. split; [by apply Forall_singleton|].
  right. split; [done|]. simpl. rewrite lookup_insert_eq. by eexists.
Qed.

Lemma ddfs_loop_traced procs rec origin current ns :
  (∀ n t b t', rec n t = Done (b, t') →
     ∃ probes, traced procs origin t t' probes ∧
       (b = true → ∃ l, last probes = Some l ∧ closing_line origin l)) →
  (∀ n, n ∈ ns → edge procs current n) →
  ∀ t b t', ddfs_loop rec origin current ns t = Done (b, t') →
    ∃ probes, traced procs origin t t' probes ∧
      (b = true → ∃ l, last probes = Some l ∧ closing_line origin l).
Proof.
  intros Hrec. induction ns as [|n ns IH]; intros Hedge t b t' H; simpl in H.
  { injection H as <- <-. exists []. split; [apply traced_refl|done]. }
  pose proof (traced_count procs origin current n t (Hedge n ltac:(left))) as H1.
  assert (∀ n0, n0 ∈ ns → edge procs current n0) as Hedge'.
  { intros n0 Hn0. apply Hedge. by right. }
  destruct (Z.eqb_spec n origin) as [Heq|_].
  { injection H as <- <-. eexists. split; [exact H1|]. intros _. eexists. split; [done|]. done. }
  assert (∀ t2 l2, traced procs origin t t2 l2 →
            ddfs_loop rec origin current ns t2 = Done (b, t') →
            ∃ probes, traced procs origin t t' probes ∧
              (b = true → ∃ l, last probes = Some l ∧ closing_line origin l)) as Hrest.
  { intros t2 l2 H2 Hl. destruct (IH Hedge' _ _ _ Hl) as (l3 & H3 & Hc).
    exists (l2 ++ l3). split; [by eapply traced_trans|].
    intros Hb. destruct (Hc Hb) as (l & Hl3 & Hcl). exists l. split; [|done].
    destruct l3 as [|x l3] using rev_ind; [done|].
    rewrite last_snoc in Hl3. rewrite app_assoc. by rewrite last_snoc. }
  destruct (flag _ n); [by eapply Hrest|].
  destruct (rec n _) as [[b2 t2]| |] eqn:Hr; try done.
  destruct (Hrec _ _ _ _ Hr) as (l2 & H2 & Hc2).
  pose proof (traced_trans _ _ _ _ _ _ _ H1 H2) as H12.
  destruct b2.
  - injection H as <- <-. eexists. split; [exact H12|]. intros _.
    destruct (Hc2 eq_refl) as (l & Hl & Hcl). exists l. split; [|done].
    destruct l2 as [|x l2] using rev_ind; [done|].
    rewrite last_snoc in Hl. rewrite app_assoc. by rewrite last_snoc.
  - by eapply Hrest.
Qed.

Lemma runDDFS_traced fuel procs origin :
  ∀ current t b t', runDDFS fuel procs origin current t = Done (b, t') →
    ∃ probes, traced procs origin t t' probes ∧
      (b = true → ∃ l, last probes = Some l ∧ closing_line origin l).
Proof.
  induction fuel as [|fuel IH]; intros current t b t' H; simpl in H; [done|].
  destruct (index procs current) as [p|] eqn:Hp; [|done].
  eapply (ddfs_loop_traced procs) in H as (probes & (Hl & Hf & Hc) & Hcl).
  - exists probes. split; [|done]. split; [done|]. split; [done|]. done.
  - intros n t1 b1 t1' H1. by eapply IH.
  - intros n Hn. by exists p.
Qed.

Lemma probe_lines_sent procs origin probes :
  Forall (probe_sent procs origin) probes → probe_lines probes = length probes.
Proof.
  unfold probe_lines. induction 1 as [|l ls Hl _ IH]; [done|].
  rewrite filter_cons_True by (by destruct l). simpl. by rewrite IH.
Qed.

(** What [DetectDeadlock] answers and logs, from the lines of its
    traversal. *)
Lemma DetectDeadlock_traced fuel ds req res b t :
  in_range (processes ds) (ProcessID req) →
  runDDFS fuel (processes ds) (ProcessID req) (ProcessID req)
    (mkTrav ∅ ∅ 0 [LogStarting (ProcessID req)]) = Done (b, t) →
  ∃ probes,
    logged t = LogStarting (ProcessID req) :: probes ∧
    Forall (probe_sent (processes ds) (ProcessID req)) probes ∧
    (b = true → ∃ l, last probes = Some l ∧ closing_line (ProcessID req) l) ∧
    DetectDeadlock fuel ds req res =
      Done (ds,
            mkDeadlockResponse
              ("Deadlock detection completed for Process " +:+ fmt_d (ProcessID req))
              (if b then "Deadlock confirmed!" else "No deadlock detected.")
              (match probes with
               | [] => ∅
               | _ => {[ProcessID req := wrap_int (Z.of_nat (length probes))]}
               end)
              (wrap_int (Z.of_nat (length probes))),
            LogStarting (ProcessID req) :: probes ++
              (if b then [LogDeadlockDetected (ProcessID req) (getSortedVisitedList (visited t))]
               else [])).
Proof.
  intros Hin Hrun.
  destruct (runDDFS_traced _ _ _ _ _ _ _ Hrun) as (probes & (Hlog & Hall & Hcount) & Hclose).
  assert (counted (ProcessID req) t) as [Hagree Htotal].
  { eapply runDDFS_counted; [exact Hrun|]. split; [by left|done]. }
  simpl in Hlog. rewrite Hlog in Htotal.
  assert (probe_lines (LogStarting (ProcessID req) :: probes) = length probes) as Hlines.
  { rewrite <- (probe_lines_sent _ _ _ Hall). unfold probe_lines.
    by rewrite filter_cons_False. }
  rewrite Hlines in Htotal.
  exists probes. split; [done|]. split; [done|]. split; [done|].
  rewrite DetectDeadlock_valid by done. rewrite Hrun, Hlog, <- Htotal.
  assert (messageCounts t = match probes with
                            | [] => ∅
                            | _ => {[ProcessID req := localCounter t]}
                            end) as ->.
  { destruct Hcount as [[-> Hm]|[Hne Hs]]; [done|].
    destruct Hagree as [[Hm _]|Hm].
    - rewrite Hm, lookup_empty in Hs. by destruct Hs.
    - by destruct probes. }
  by destruct b.
Qed.

(** *** The process that [AddProcess] has just appended *)

Lemma neighbors_in_range_add procs p :
  neighbors_in_range procs → Forall (in_range (procs ++ [p])) (Neighbors p) →
  neighbors_in_range (procs ++ [p]).
Proof.
  unfold neighbors_in_range. intros Hwf Hp.
  assert (∀ n, in_range procs n → in_range (procs ++ [p]) n) as Hmono.
  { unfold in_range. intros n. rewrite length_app. simpl. lia. }
  apply Forall_app. split; [|by apply Forall_singleton].
  eapply Forall_impl; [exact Hwf|]. intros q Hq. eapply Forall_impl; [exact Hq|]. done.
Qed.

Lemma index_end {A} (s : list A) a : index (s ++ [a]) (Z.of_nat (length s)) = Some a.
Proof.
  unfold index. destruct (Z.ltb_spec (Z.of_nat (length s)) 0); [lia|].
  rewrite Nat2Z.id. by apply list_lookup_middle.
Qed.

(** On a table whose neighbour ids are in range, the only process that can
    wait for the appended one is the appended one itself. *)
Lemma end_on_cycle procs p :
  neighbors_in_range procs →
  tc (edge (procs ++ [p])) (Z.of_nat (length procs)) (Z.of_nat (length procs)) ↔
  Z.of_nat (length procs) ∈ Neighbors p.
Proof.
  intros Hwf. split.
  - intros (y & _ & (q & Hy & Hq & Hin)%edge_inv)%tc_last.
    apply lookup_app_Some in Hq as [Hq|[_ Hq]].
    + unfold neighbors_in_range in Hwf. rewrite Forall_forall in Hwf.
      pose proof (Hwf q (list_elem_of_lookup_2 _ _ _ Hq)) as Hq'.
      rewrite Forall_forall in Hq'. apply Hq' in Hin. unfold in_range in Hin. lia.
    + by apply list_lookup_singleton_Some in Hq as [_ <-].
  - intros Hin. apply tc_once. exists p. split; [apply index_end|done].
Qed.

End RpcServerFacts.

(** ** Facts about the recursive probe variant *)
Module OriginalFacts.
Import Original.

Lemma elem_of_pair_set keep (ps : gmap Z Process) t d :
  (t, d) ∈ pair_set keep ps ↔
  ∃ p, ps !! t = Some p ∧ d ∈ waitingFor p ∧ keep p d = true.
Proof.
  unfold pair_set. rewrite elem_of_list_to_set, list_elem_of_bind. split.
  - intros ([k p] & Hin & Hkp). apply elem_of_map_to_list in Hkp.
    unfold pairs_of in Hin. simpl in Hin.
    apply list_elem_of_fmap in Hin as (d' & [= -> ->] & Hd).
    apply list_elem_of_filter in Hd as [Hk Hd]. eauto.
  - intros (p & Hp & Hd & Hk). exists (t, p). split.
    + unfold pairs_of. simpl. apply list_elem_of_fmap. exists d. split; [done|].
      by apply list_elem_of_filter.
    + by apply elem_of_map_to_list.
Qed.

Lemma elem_of_all_pairs (ps : gmap Z Process) t d :
  (t, d) ∈ all_pairs ps ↔ edge ps t d.
Proof.
  unfold all_pairs, edge. rewrite elem_of_pair_set.
  split; [intros (p & ? & ? & _)|intros (p & ? & ?)]; by exists p.
Qed.

Lemma elem_of_unset_pairs (ps : gmap Z Process) t d :
  (t, d) ∈ unset_pairs ps ↔
  ∃ p, ps !! t = Some p ∧ d ∈ waitingFor p ∧ received p d = false.
Proof.
  unfold unset_pairs. rewrite elem_of_pair_set.
  split; intros (p & ? & ? & Hr); exists p; (split; [done|split; [done|]]).
  - by apply negb_true_iff.
  - by apply negb_true_iff.
Qed.

Lemma unset_subseteq_all ps : unset_pairs ps ⊆ all_pairs ps.
Proof.
  intros [t d]. rewrite elem_of_unset_pairs, elem_of_all_pairs.
  intros (p & ? & ? & _). by exists p.
Qed.

(** *** The two preorders on worlds *)

Lemma keeps_graph_refl ps : keeps_graph ps ps.
Proof. intros k. destruct (ps !! k); constructor. done. Qed.

Lemma keeps_graph_trans ps1 ps2 ps3 :
  keeps_graph ps1 ps2 → keeps_graph ps2 ps3 → keeps_graph ps1 ps3.
Proof.
  intros H1 H2 k. specialize (H1 k). specialize (H2 k).
  destruct H1 as [p p' (Hw & Ha)|]; inversion H2 as [? p'' (Hw' & Ha')|]; constructor.
  split; [congruence|auto].
Qed.

Lemma flags_grow_refl ps : grows ps ps.
Proof. intros k. destruct (ps !! k); constructor. done. Qed.

Lemma flags_grow_trans ps1 ps2 ps3 : grows ps1 ps2 → grows ps2 ps3 → grows ps1 ps3.
Proof.
  intros H1 H2 k. specialize (H1 k). specialize (H2 k).
  destruct H1 as [p p' (Hw & Ha & Hr)|]; inversion H2 as [? p'' (Hw' & Ha' & Hr')|];
    constructor.
  split; [congruence|]. split; auto.
Qed.

Lemma grows_keeps_graph ps ps' : grows ps ps' → keeps_graph ps ps'.
Proof.
  intros H k. specialize (H k). destruct H as [p p' (Hw & Ha & _)|]; by constructor.
Qed.

Lemma keeps_graph_edge ps ps' x y : keeps_graph ps ps' → edge ps x y ↔ edge ps' x y.
Proof.
  intros H. specialize (H x). unfold edge.
  inversion H as [p p' (Hw & _) Hp Hp'|Hp Hp']; [|naive_solver].
  split; intros (q & [= <-] & Hy).
  - exists p'. by rewrite <- Hw.
  - exists p. by rewrite Hw.
Qed.

Lemma keeps_graph_all_pairs ps ps' : keeps_graph ps ps' → all_pairs ps = all_pairs ps'.
Proof.
  intros H. apply set_eq. intros [t d]. rewrite !elem_of_all_pairs.
  by apply keeps_graph_edge.
Qed.

Lemma keeps_graph_is_Some ps ps' k : keeps_graph ps ps' → is_Some (ps !! k) ↔ is_Some (ps' !! k).
Proof.
  intros H. specialize (H k). inversion H; split; intros [? ?]; by eauto.
Qed.

Lemma keeps_graph_closed ps ps' : keeps_graph ps ps' → closed ps → closed ps'.
Proof.
  intros H Hc k p' d Hk Hd.
  apply (keeps_graph_is_Some ps ps' d H).
  assert (edge ps k d) as (p & Hp & Hd') by (apply (keeps_graph_edge ps ps'); [done|by exists p']).
  by eapply Hc.
Qed.

Lemma keeps_graph_allocated ps ps' : keeps_graph ps ps' → allocated ps → allocated ps'.
Proof.
  intros H Ha k p' Hk. specialize (H k). rewrite Hk in H.
  inversion H as [p ? (_ & Hs) Hp|]. subst. apply Hs. by eapply Ha.
Qed.

Lemma grows_unset ps ps' : grows ps ps' → unset_pairs ps' ⊆ unset_pairs ps.
Proof.
  intros H [t d]. rewrite !elem_of_unset_pairs. intros (p' & Hp' & Hd & Hr).
  specialize (H t). rewrite Hp' in H. inversion H as [p ? (Hw & _ & Hrr) Hp|]. subst.
  exists p. split; [done|]. split; [by rewrite Hw|].
  destruct (received p d) eqn:E; [|done]. apply Hrr in E. congruence.
Qed.

Lemma grows_set_received (w : World) target dependent p m :
  processes w !! target = Some p → receivedProbes p = Some m →
  grows (processes w) (processes (set_received target dependent p m w)).
Proof.
  intros Hp Hm k. simpl. destruct (decide (target = k)) as [<-|Hne].
  - rewrite lookup_insert_eq, Hp. constructor. simpl. split; [done|]. split; [eauto|].
    intros d. unfold received. rewrite Hm. simpl. apply flag_insert_mono.
  - rewrite lookup_insert_ne by done. destruct (processes w !! k); constructor. done.
Qed.

Lemma keeps_graph_reset (w : World) i p :
  processes w !! i = Some p →
  keeps_graph (processes w) (processes (reset_received i p w)).
Proof.
  intros Hp k. simpl. destruct (decide (i = k)) as [<-|Hne].
  - rewrite lookup_insert_eq, Hp. constructor. simpl. eauto.
  - rewrite lookup_insert_ne by done. destruct (processes w !! k); constructor. done.
Qed.

Lemma set_received_unset (w : World) target dependent p m :
  processes w !! target = Some p → receivedProbes p = Some m →
  received p dependent = false → dependent ∈ waitingFor p →
  unset_pairs (processes (set_received target dependent p m w)) ⊂ unset_pairs (processes w).
Proof.
  intros Hp Hm Hr Hd. split.
  - by apply grows_unset, grows_set_received.
  - intros Hsub. assert ((target, dependent) ∈ unset_pairs (processes w)) as Hin.
    { apply elem_of_unset_pairs. by exists p. }
    apply Hsub in Hin. apply elem_of_unset_pairs in Hin as (p' & Hp' & _ & Hr').
    simpl in Hp'. rewrite lookup_insert_eq in Hp'. injection Hp' as <-.
    unfold received in Hr'. simpl in Hr'. by rewrite flag_insert_eq in Hr'.
Qed.

(** *** Flags only get set during a probe *)

Lemma grows_print o (w : World) ps : grows ps (processes w) → grows ps (processes (print o w)).
Proof. done. Qed.

Lemma probe_loop_grows rec origin target deps :
  (∀ d w b w', rec d w = Done (b, w') → grows (processes w) (processes w')) →
  ∀ w b w', probe_loop rec origin target deps w = Done (b, w') →
            grows (processes w) (processes w').
Proof.
  intros Hrec. induction deps as [|d deps IH]; intros w b w' H; simpl in H.
  - injection H as <- <-. apply flags_grow_refl.
  - destruct (d =? origin)%Z.
    { injection H as <- <-. apply flags_grow_refl. }
    destruct (processes w !! target) as [p|] eqn:Hp; [|done].
    destruct (received p d); [by eapply IH|].
    destruct (receivedProbes p) as [m|] eqn:Hm; [|done].
    pose proof (grows_set_received w target d p m Hp Hm) as Hset.
    destruct (rec d _) as [[[] w2]| |] eqn:Hr; try done.
    + injection H as <- <-. eapply flags_grow_trans; [exact Hset|]. by eapply Hrec.
    + eapply flags_grow_trans; [exact Hset|].
      eapply flags_grow_trans; [by eapply Hrec|]. by eapply IH.
Qed.

Lemma sendProbe_grows fuel origin :
  ∀ sender target w b w', sendProbe fuel sender origin target w = Done (b, w') →
                          grows (processes w) (processes w').
Proof.
  induction fuel as [|fuel IH]; intros sender target w b w' H; simpl in H; [done|].
  destruct (processes w !! target) as [p|]; [|done].
  destruct (0 <? length (waitingFor p)).
  - eapply probe_loop_grows in H; [exact H|]. intros d w1 b1 w1'. apply IH.
  - injection H as <- <-. apply flags_grow_refl.
Qed.

(** *** A confirmation follows a path back to the origin *)

Lemma probe_loop_sound ps rec origin target deps :
  (∀ d w b w', rec d w = Done (b, w') → grows (processes w) (processes w')) →
  (∀ d w w', keeps_graph ps (processes w) → rec d w = Done (true, w') →
     ∃ x, rtc (edge ps) d x ∧ edge ps x origin) →
  ∀ w w', keeps_graph ps (processes w) →
    probe_loop rec origin target deps w = Done (true, w') →
    ∃ d, d ∈ deps ∧ (d = origin ∨ ∃ x, rtc (edge ps) d x ∧ edge ps x origin).
Proof.
  intros Hgrow Hrec. induction deps as [|d deps IH]; intros w w' Hk H; simpl in H; [done|].
  destruct (Z.eqb_spec d origin) as [->|Hne].
  { exists origin. split; [left|by left]. }
  assert (Hrest : ∀ w0, keeps_graph ps (processes w0) →
    probe_loop rec origin target deps w0 = Done (true, w') →
    ∃ d0, d0 ∈ d :: deps ∧ (d0 = origin ∨ ∃ x, rtc (edge ps) d0 x ∧ edge ps x origin)).
  { intros w0 Hk0 H0. destruct (IH _ _ Hk0 H0) as (d0 & Hin & Hd0).
    exists d0. split; [by right|done]. }
  destruct (processes w !! target) as [p|] eqn:Hp; [|done].
  destruct (received p d); [by eapply Hrest|].
  destruct (receivedProbes p) as [m|] eqn:Hm; [|done].
  assert (keeps_graph ps (processes (set_received target d p m w))) as Hk1.
  { eapply keeps_graph_trans; [exact Hk|]. by apply grows_keeps_graph, grows_set_received. }
  destruct (rec d _) as [[[] w2]| |] eqn:Hr; try done.
  - exists d. split; [left|]. right. by eapply Hrec.
  - eapply Hrest; [|exact H].
    eapply keeps_graph_trans; [exact Hk1|]. by eapply grows_keeps_graph, Hgrow.
Qed.

Lemma sendProbe_sound ps origin fuel :
  ∀ sender target w w', keeps_graph ps (processes w) →
    sendProbe fuel sender origin target w = Done (true, w') →
    ∃ x, rtc (edge ps) target x ∧ edge ps x origin.
Proof.
  induction fuel as [|fuel IH]; intros sender target w w' Hk H; simpl in H; [done|].
  destruct (processes w !! target) as [p|] eqn:Hp; [|done].
  destruct (0 <? length (waitingFor p)); [|done].
  apply (probe_loop_sound ps) in H.
  - assert (∀ d, d ∈ waitingFor p → edge ps target d) as Hedge.
    { intros d Hd. apply (keeps_graph_edge ps (processes w)); [done|]. by exists p. }
    destruct H as (d & Hin & [->|(x & Hrtc & Hx)]).
    + exists target. split; [done|]. by apply Hedge.
    + exists x. split; [|done]. eapply rtc_l; [|done]. by apply Hedge.
  - intros d w1 b w1'. apply sendProbe_grows.
  - intros d w1 w1'. apply IH.
  - done.
Qed.

(** *** Enough fuel: the probe ends *)

Lemma probe_loop_fuel rec origin target (M : nat) :
  (∀ d w b w', rec d w = Done (b, w') → grows (processes w) (processes w')) →
  (∀ d w, size (unset_pairs (processes w)) < M → rec d w ≠ OutOfFuel) →
  ∀ deps w, (∀ d, d ∈ deps → edge (processes w) target d) →
    size (unset_pairs (processes w)) ≤ M →
    probe_loop rec origin target deps w ≠ OutOfFuel.
Proof.
  intros Hgrow Hrec. induction deps as [|d deps IH]; intros w Hdeps HM; simpl; [done|].
  assert (∀ d0, d0 ∈ deps → edge (processes w) target d0) as Hdeps'
    by (intros; apply Hdeps; by right).
  destruct (d =? origin)%Z; [done|].
  destruct (processes w !! target) as [p|] eqn:Hp; [|done].
  destruct (received p d) eqn:Hrd; [by apply IH|].
  destruct (receivedProbes p) as [m|] eqn:Hm; [|done].
  assert (d ∈ waitingFor p) as Hd.
  { destruct (Hdeps d) as (q & Hq & Hdq); [left|]. congruence. }
  pose proof (set_received_unset w target d p m Hp Hm Hrd Hd) as Hlt%subset_size.
  pose proof (grows_set_received w target d p m Hp Hm) as Hset.
  destruct (rec d _) as [[[] w2]| |] eqn:Hr; try done.
  - apply Hgrow in Hr. apply IH.
    + intros d0 Hd0. apply (keeps_graph_edge (processes w)); [|by apply Hdeps'].
      eapply grows_keeps_graph, flags_grow_trans; [exact Hset|exact Hr].
    + apply grows_unset, subseteq_size in Hr. lia.
  - apply Hrec in Hr; [done|lia].
Qed.

Lemma sendProbe_fuel_gen origin fuel :
  ∀ sender target w, size (unset_pairs (processes w)) < fuel →
    sendProbe fuel sender origin target w ≠ OutOfFuel.
Proof.
  induction fuel as [|fuel IH]; intros sender target w Hf; [lia|]. simpl.
  destruct (processes w !! target) as [p|] eqn:Hp; [|done].
  destruct (0 <? length (waitingFor p)); [|done].
  apply probe_loop_fuel with (M := fuel).
  - intros d w1 b w1'. apply sendProbe_grows.
  - intros d w1 Hw1. by apply IH.
  - intros d Hd. by exists p.
  - simpl. lia.
Qed.

Lemma sendProbe_fuel origin fuel sender target w :
  probe_fuel (processes w) ≤ fuel → sendProbe fuel sender origin target w ≠ OutOfFuel.
Proof.
  intros Hf. apply sendProbe_fuel_gen.
  pose proof (subseteq_size _ _ (unset_subseteq_all (processes w))).
  unfold probe_fuel in Hf. lia.
Qed.

(** *** No panic in a closed world with all maps made *)

Lemma probe_loop_no_panic rec origin target :
  (∀ d w b w', rec d w = Done (b, w') → grows (processes w) (processes w')) →
  (∀ d w, closed (processes w) → allocated (processes w) → is_Some (processes w !! d) →
          rec d w ≠ Panic) →
  ∀ deps w, closed (processes w) → allocated (processes w) →
    is_Some (processes w !! target) → (∀ d, d ∈ deps → is_Some (processes w !! d)) →
    probe_loop rec origin target deps w ≠ Panic.
Proof.
  intros Hgrow Hrec. induction deps as [|d deps IH]; intros w Hc Ha Ht Hdeps; simpl; [done|].
  assert (∀ d0, d0 ∈ deps → is_Some (processes w !! d0)) as Hdeps'
    by (intros; apply Hdeps; by right).
  destruct (d =? origin)%Z; [done|].
  destruct Ht as [p Hp]. rewrite Hp.
  destruct (received p d) eqn:Hrd; [by apply IH|].
  destruct (Ha _ _ Hp) as [m Hm]. rewrite Hm.
  pose proof (grows_keeps_graph _ _ (grows_set_received w target d p m Hp Hm)) as Hset.
  destruct (rec d _) as [[[] w2]| |] eqn:Hr; try done.
  - apply Hgrow, grows_keeps_graph in Hr.
    pose proof (keeps_graph_trans _ _ _ Hset Hr) as Hk.
    apply IH.
    + by eapply keeps_graph_closed.
    + by eapply keeps_graph_allocated.
    + apply (keeps_graph_is_Some _ _ target Hk). by rewrite Hp.
    + intros d0 Hd0. apply (keeps_graph_is_Some _ _ d0 Hk). by apply Hdeps'.
  - apply Hrec in Hr; [done| | |].
    + by eapply keeps_graph_closed.
    + by eapply keeps_graph_allocated.
    + apply (keeps_graph_is_Some _ _ d Hset). apply Hdeps. left.
Qed.

Lemma sendProbe_no_panic origin fuel :
  ∀ sender target w, closed (processes w) → allocated (processes w) →
    is_Some (processes w !! target) →
    sendProbe fuel sender origin target w ≠ Panic.
Proof.
  induction fuel as [|fuel IH]; intros sender target w Hc Ha Ht; simpl; [done|].
  destruct Ht as [p Hp]. rewrite Hp.
  destruct (0 <? length (waitingFor p)); [|done].
  apply probe_loop_no_panic.
  - intros d w1 b w1'. apply sendProbe_grows.
  - intros d w1. apply IH.
  - done.
  - done.
  - simpl. by exists p.
  - intros d Hd. simpl. by eapply Hc.
Qed.

(** *** The initiation loops *)

Lemma initiate_loop_grows fuel i deps :
  ∀ w b w', initiate_loop fuel i deps w = Done (b, w') →
            grows (processes w) (processes w').
Proof.
  induction deps as [|d deps IH]; intros w b w' H; simpl in H.
  - injection H as <- <-. apply flags_grow_refl.
  - destruct (sendProbe fuel i i d w) as [[[] w2]| |] eqn:Hs; try done.
    + injection H as <- <-. simpl. by eapply sendProbe_grows.
    + eapply flags_grow_trans; [by eapply sendProbe_grows|]. by eapply IH.
Qed.

Lemma initiate_loop_sound ps fuel i deps :
  ∀ w w', keeps_graph ps (processes w) →
    initiate_loop fuel i deps w = Done (true, w') →
    ∃ d x, d ∈ deps ∧ rtc (edge ps) d x ∧ edge ps x i.
Proof.
  induction deps as [|d deps IH]; intros w w' Hk H; simpl in H; [done|].
  destruct (sendProbe fuel i i d w) as [[[] w2]| |] eqn:Hs; try done.
  - apply (sendProbe_sound ps) in Hs as (x & Hrtc & Hx); [|done].
    exists d, x. split; [left|done].
  - destruct (IH w2 w') as (d0 & x & Hd0 & Hx); [|done|].
    + eapply keeps_graph_trans; [exact Hk|]. by eapply grows_keeps_graph, sendProbe_grows.
    + exists d0, x. split; [by right|done].
Qed.

Lemma probe_fuel_keeps ps ps' : keeps_graph ps ps' → probe_fuel ps = probe_fuel ps'.
Proof. intros H. unfold probe_fuel. by rewrite (keeps_graph_all_pairs ps ps'). Qed.

Lemma initiate_loop_fuel fuel i deps :
  ∀ w, probe_fuel (processes w) ≤ fuel → initiate_loop fuel i deps w ≠ OutOfFuel.
Proof.
  induction deps as [|d deps IH]; intros w Hf; simpl; [done|].
  destruct (sendProbe fuel i i d w) as [[[] w2]| |] eqn:Hs; try done.
  - apply IH. apply sendProbe_grows, grows_keeps_graph, probe_fuel_keeps in Hs. lia.
  - by apply sendProbe_fuel in Hs.
Qed.

Lemma initiate_loop_no_panic fuel i deps :
  ∀ w, closed (processes w) → allocated (processes w) →
    (∀ d, d ∈ deps → is_Some (processes w !! d)) →
    initiate_loop fuel i deps w ≠ Panic.
Proof.
  induction deps as [|d deps IH]; intros w Hc Ha Hdeps; simpl; [done|].
  destruct (sendProbe fuel i i d w) as [[[] w2]| |] eqn:Hs; try done.
  - apply sendProbe_grows, grows_keeps_graph in Hs. apply IH.
    + by eapply keeps_graph_closed.
    + by eapply keeps_graph_allocated.
    + intros d0 Hd0. apply (keeps_graph_is_Some _ _ d0 Hs). apply Hdeps. by right.
  - apply sendProbe_no_panic in Hs; [done|done|done|]. apply Hdeps. left.
Qed.

Lemma detectDeadlock_keeps fuel order :
  ∀ w b w', detectDeadlock fuel order w = Done (b, w') →
            keeps_graph (processes w) (processes w').
Proof.
  induction order as [|i order IH]; intros w b w' H; simpl in H.
  - injection H as <- <-. apply keeps_graph_refl.
  - destruct (processes w !! i) as [p|] eqn:Hp; [|by eapply IH].
    pose proof (keeps_graph_reset (print (OutStarting i) w) i p Hp) as Hreset.
    destruct (initiate_loop _ _ _ _) as [[[] w2]| |] eqn:Hi; try done.
    + injection H as <- <-.
      eapply keeps_graph_trans; [exact Hreset|]. by eapply grows_keeps_graph, initiate_loop_grows.
    + eapply keeps_graph_trans; [exact Hreset|].
      eapply keeps_graph_trans; [by eapply grows_keeps_graph, initiate_loop_grows|].
      by eapply IH.
Qed.

Lemma detectDeadlock_sound ps fuel order :
  ∀ w w', keeps_graph ps (processes w) →
    detectDeadlock fuel order w = Done (true, w') →
    ∃ i, i ∈ order ∧ tc (edge ps) i i.
Proof.
  induction order as [|i order IH]; intros w w' Hk H; simpl in H; [done|].
  assert (Hrest : ∀ w0, keeps_graph ps (processes w0) →
    detectDeadlock fuel order w0 = Done (true, w') → ∃ j, j ∈ i :: order ∧ tc (edge ps) j j).
  { intros w0 Hk0 H0. destruct (IH _ _ Hk0 H0) as (j & Hj & Htc).
    exists j. split; [by right|done]. }
  destruct (processes w !! i) as [p|] eqn:Hp; [|by eapply Hrest].
  pose proof (keeps_graph_reset (print (OutStarting i) w) i p Hp) as Hreset.
  pose proof (keeps_graph_trans _ _ _ Hk Hreset) as Hk1.
  destruct (initiate_loop _ _ _ _) as [[[] w2]| |] eqn:Hi; try done.
  - apply (initiate_loop_sound ps) in Hi as (d & x & Hd & Hrtc & Hx); [|done].
    exists i. split; [left|].
    eapply tc_l; [|eapply tc_rtc_l; [exact Hrtc|by apply tc_once]].
    apply (keeps_graph_edge ps (processes w)); [done|]. by exists p.
  - eapply Hrest; [|exact H].
    eapply keeps_graph_trans; [exact Hk1|]. by eapply grows_keeps_graph, initiate_loop_grows.
Qed.

Lemma detectDeadlock_fuel fuel order :
  ∀ w, probe_fuel (processes w) ≤ fuel → detectDeadlock fuel order w ≠ OutOfFuel.
Proof.
  induction order as [|i order IH]; intros w Hf; simpl; [done|].
  destruct (processes w !! i) as [p|] eqn:Hp; [|by apply IH].
  pose proof (keeps_graph_reset (print (OutStarting i) w) i p Hp) as Hreset.
  destruct (initiate_loop _ _ _ _) as [[[] w2]| |] eqn:Hi; try done.
  - apply IH. apply initiate_loop_grows, grows_keeps_graph in Hi.
    rewrite <- (probe_fuel_keeps _ _ Hi), <- (probe_fuel_keeps _ _ Hreset). done.
  - apply initiate_loop_fuel in Hi; [done|].
    by rewrite <- (probe_fuel_keeps _ _ Hreset).
Qed.

Lemma detectDeadlock_no_panic fuel order :
  ∀ w, closed (processes w) → allocated (processes w) →
    detectDeadlock fuel order w ≠ Panic.
Proof.
  induction order as [|i order IH]; intros w Hc Ha; simpl; [done|].
  destruct (processes w !! i) as [p|] eqn:Hp; [|by apply IH].
  pose proof (keeps_graph_reset (print (OutStarting i) w) i p Hp) as Hreset.
  destruct (initiate_loop _ _ _ _) as [[[] w2]| |] eqn:Hi; try done.
  - apply initiate_loop_grows, grows_keeps_graph in Hi.
    pose proof (keeps_graph_trans _ _ _ Hreset Hi) as Hk.
    apply IH; [by eapply keeps_graph_closed|by eapply keeps_graph_allocated].
  - apply initiate_loop_no_panic in Hi; [done| | |].
    + by eapply keeps_graph_closed.
    + by eapply keeps_graph_allocated.
    + intros d Hd. apply (keeps_graph_is_Some _ _ d Hreset). by eapply Hc.
Qed.

Lemma detectDeadlock_false_output fuel order :
  ∀ w w', detectDeadlock fuel order w = Done (false, w') →
    ∃ out, output w' = out ++ [OutNoDeadlock].
Proof.
  induction order as [|i order IH]; intros w w' H; simpl in H.
  - injection H as <-. by exists (output w).
  - destruct (processes w !! i) as [p|]; [|by eapply IH].
    destruct (initiate_loop _ _ _ _) as [[[] w2]| |]; try done. by eapply IH.
Qed.

Lemma detectDeadlock_total fuel order w :
  closed (processes w) → allocated (processes w) → probe_fuel (processes w) ≤ fuel →
  ∃ b w', detectDeadlock fuel order w = Done (b, w').
Proof.
  intros Hc Ha Hf.
  pose proof (detectDeadlock_fuel fuel order w Hf).
  pose proof (detectDeadlock_no_panic fuel order w Hc Ha).
  destruct (detectDeadlock fuel order w) as [[b w']| |]; [eauto|done|done].
Qed.

Lemma detectDeadlock_acyclic fuel order w :
  closed (processes w) → allocated (processes w) → acyclic (processes w) →
  probe_fuel (processes w) ≤ fuel →
  ∃ w' out, detectDeadlock fuel order w = Done (false, w') ∧
            output w' = out ++ [OutNoDeadlock].
Proof.
  intros Hc Ha Hac Hf.
  destruct (detectDeadlock_total fuel order w Hc Ha Hf) as ([] & w' & H).
  - apply (detectDeadlock_sound (processes w)) in H as (i & _ & Htc);
      [|apply keeps_graph_refl]. by apply Hac in Htc.
  - exists w'. destruct (detectDeadlock_false_output _ _ _ _ H) as [out Hout]. eauto.
Qed.

(** *** Criteria that can be checked by computation *)

Lemma closed_check_closed ps : closed_check ps → closed ps.
Proof.
  intros H k p d Hk Hd. specialize (H k p Hk). simpl in H.
  rewrite Forall_forall in H. by apply H.
Qed.

Lemma allocated_check_allocated ps : allocated_check ps → allocated ps.
Proof. intros H k p Hk. by apply (H k p Hk). Qed.

Lemma downward_map_acyclic ps : downward ps → acyclic ps.
Proof.
  intros Hd x Hx.
  assert (∀ a b, edge ps a b → (a < b)%Z) as Hedge.
  { intros a b (p & Hp & Hb). specialize (Hd a p Hp). simpl in Hd.
    rewrite Forall_forall in Hd. by apply Hd. }
  assert (∀ a b, tc (edge ps) a b → (a < b)%Z) as Hlt.
  { induction 1 as [a b Hab|a b c Hab _ IH].
    - by apply Hedge.
    - apply Hedge in Hab. lia. }
  apply Hlt in Hx. lia.
Qed.

(** *** More fuel does not change a result *)

Lemma probe_loop_more rec rec' origin target deps :
  (∀ d w r, rec d w = r → r ≠ OutOfFuel → rec' d w = r) →
  ∀ w r, probe_loop rec origin target deps w = r → r ≠ OutOfFuel →
         probe_loop rec' origin target deps w = r.
Proof.
  intros Hrec. induction deps as [|d deps IH]; intros w r H Hr; simpl in *; [done|].
  destruct (d =? origin)%Z; [done|].
  destruct (processes w !! target) as [p|]; [|done].
  destruct (received p d); [by apply IH|].
  destruct (receivedProbes p) as [m|]; [|done].
  destruct (rec d _) as [[[] w2]| |] eqn:E.
  - by rewrite (Hrec _ _ _ E).
  - rewrite (Hrec _ _ _ E) by done. by apply IH.
  - by rewrite (Hrec _ _ _ E).
  - congruence.
Qed.

Lemma sendProbe_more_S origin fuel :
  ∀ sender target w r, sendProbe fuel sender origin target w = r → r ≠ OutOfFuel →
                       sendProbe (S fuel) sender origin target w = r.
Proof.
  induction fuel as [|fuel IH]; intros sender target w r H Hr; [simpl in H; congruence|].
  simpl in H.
  change (sendProbe (S (S fuel)) sender origin target w) with
    (match processes (print (OutProbeSent sender target origin) w) !! target with
     | None => Panic
     | Some p =>
         if 0 <? length (waitingFor p)
         then probe_loop (sendProbe (S fuel) target origin) origin target (waitingFor p)
                (print (OutProbeSent sender target origin) w)
         else Done (false, print (OutProbeSent sender target origin) w)
     end).
  simpl. destruct (processes w !! target) as [p|]; [|done].
  destruct (0 <? length (waitingFor p)); [|done].
  eapply probe_loop_more; [|exact H|done]. intros d w1 r1 H1 Hr1. by apply IH.
Qed.

Lemma sendProbe_more origin fuel fuel' sender target w r :
  sendProbe fuel sender origin target w = r → r ≠ OutOfFuel → fuel ≤ fuel' →
  sendProbe fuel' sender origin target w = r.
Proof.
  intros H Hr Hle. induction Hle as [|m Hle IH]; [done|]. by apply sendProbe_more_S.
Qed.

Lemma initiate_loop_more fuel fuel' i deps :
  fuel ≤ fuel' →
  ∀ w r, initiate_loop fuel i deps w = r → r ≠ OutOfFuel →
         initiate_loop fuel' i deps w = r.
Proof.
  intros Hle. induction deps as [|d deps IH]; intros w r H Hr; simpl in *; [done|].
  destruct (sendProbe fuel i i d w) as [[[] w2]| |] eqn:E.
  - by rewrite (sendProbe_more _ _ _ _ _ _ _ E).
  - rewrite (sendProbe_more _ _ _ _ _ _ _ E) by done. by apply IH.
  - by rewrite (sendProbe_more _ _ _ _ _ _ _ E).
  - congruence.
Qed.

Lemma detectDeadlock_more fuel fuel' order :
  fuel ≤ fuel' →
  ∀ w r, detectDeadlock fuel order w = r → r ≠ OutOfFuel →
         detectDeadlock fuel' order w = r.
Proof.
  intros Hle. induction order as [|i order IH]; intros w r H Hr; simpl in *; [done|].
  destruct (processes w !! i) as [p|]; [|by apply IH].
  destruct (initiate_loop fuel _ _ _) as [[[] w2]| |] eqn:E.
  - by rewrite (initiate_loop_more _ _ _ _ Hle _ _ E).
  - rewrite (initiate_loop_more _ _ _ _ Hle _ _ E) by done. by apply IH.
  - by rewrite (initiate_loop_more _ _ _ _ Hle _ _ E).
  - congruence.
Qed.

(** *** A cycle through the first initiator is found *)

Lemma grows_lookup ps ps' t p :
  grows ps ps' → ps !! t = Some p →
  ∃ p', ps' !! t = Some p' ∧ waitingFor p = waitingFor p' ∧
        ∀ d, received p d = true → received p' d = true.
Proof.
  intros H Hp. specialize (H t). rewrite Hp in H.
  inversion H as [? p' (Hw & _ & Hr)|]. subst. by exists p'.
Qed.

Lemma grows_lookup_r ps ps' t p' :
  grows ps ps' → ps' !! t = Some p' →
  ∃ p, ps !! t = Some p ∧ waitingFor p = waitingFor p' ∧
       ∀ d, received p d = true → received p' d = true.
Proof.
  intros H Hp. specialize (H t). rewrite Hp in H.
  inversion H as [p ? (Hw & _ & Hr)|]. subst. by exists p.
Qed.

Lemma done_with_grows origin ps ps' x :
  grows ps ps' → done_with origin ps x → done_with origin ps' x.
Proof.
  intros Hg Hd q' d Hq' Hin.
  destruct (grows_lookup_r _ _ _ _ Hg Hq') as (q & Hq & Hw & Hr).
  rewrite <- Hw in Hin. destruct (Hd q d Hq Hin) as [Hne Hrd]. auto.
Qed.

Lemma settled_refl origin ps : settled origin ps ps.
Proof. intros t p p' d Hp Hp' Hr Hr'. congruence. Qed.

Lemma settled_trans origin ps1 ps2 ps3 :
  grows ps1 ps2 → grows ps2 ps3 →
  settled origin ps1 ps2 → settled origin ps2 ps3 → settled origin ps1 ps3.
Proof.
  intros Hg12 Hg23 H12 H23 t p1 p3 d Hp1 Hp3 Hr1 Hr3.
  destruct (grows_lookup _ _ _ _ Hg12 Hp1) as (p2 & Hp2 & _).
  destruct (received p2 d) eqn:Hr2.
  - eapply done_with_grows; [exact Hg23|]. by eapply H12.
  - by eapply H23.
Qed.

Lemma settled_for_step origin ps ps' :
  grows ps ps' → settled_for origin ps → settled origin ps ps' → settled_for origin ps'.
Proof.
  intros Hg Hs Hss t p' d Hp' Hr'.
  destruct (grows_lookup_r _ _ _ _ Hg Hp') as (p & Hp & _).
  destruct (received p d) eqn:Hr.
  - eapply done_with_grows; [exact Hg|]. by eapply Hs.
  - by eapply Hss.
Qed.

Lemma fresh_settled_for origin ps : fresh ps → settled_for origin ps.
Proof. intros Hf t p d Hp Hr. rewrite (Hf t p d Hp) in Hr. done. Qed.

Lemma probe_loop_false_settled rec origin target deps :
  (∀ d w b w', rec d w = Done (b, w') → grows (processes w) (processes w')) →
  (∀ d w w', rec d w = Done (false, w') →
     settled origin (processes w) (processes w') ∧ done_with origin (processes w') d) →
  ∀ w w', probe_loop rec origin target deps w = Done (false, w') →
    settled origin (processes w) (processes w') ∧
    ∀ d q, d ∈ deps → processes w' !! target = Some q →
           d ≠ origin ∧ received q d = true.
Proof.
  intros Hgrow Hrec. induction deps as [|d deps IH]; intros w w' H.
  { simpl in H. injection H as <-. split; [apply settled_refl|]. by intros d q Hd%elem_of_nil. }
  pose proof (probe_loop_grows rec origin target (d :: deps) Hgrow _ _ _ H) as Hg.
  simpl in H. destruct (Z.eqb_spec d origin) as [->|Hne]; [done|].
  destruct (processes w !! target) as [p|] eqn:Hp; [|done].
  destruct (received p d) eqn:Hrd.
  { destruct (IH _ _ H) as [Hs Hdeps]. split; [done|].
    intros d0 q [->|Hd0]%elem_of_cons Hq; [|by eapply Hdeps].
    split; [done|]. destruct (grows_lookup _ _ _ _ Hg Hp) as (q' & Hq' & _ & Hr).
    rewrite Hq in Hq'. injection Hq' as <-. by apply Hr. }
  destruct (receivedProbes p) as [m|] eqn:Hm; [|done].
  pose proof (grows_set_received w target d p m Hp Hm) as Hset.
  destruct (rec d _) as [[[] w2]| |] eqn:Hr; try done.
  pose proof (Hgrow _ _ _ _ Hr) as Hg12.
  pose proof (probe_loop_grows rec origin target deps Hgrow _ _ _ H) as Hg2.
  destruct (Hrec _ _ _ Hr) as [Hs12 Hdone].
  destruct (IH _ _ H) as [Hs2 Hdeps].
  assert (settled origin (processes (set_received target d p m w)) (processes w')) as Hs1
    by (by eapply settled_trans).
  split.
  - intros t pt p' x Hpt Hp' Hrt Hr'.
    destruct (decide (t = target ∧ x = d)) as [[-> ->]|Hother].
    { eapply done_with_grows; [exact Hg2|exact Hdone]. }
    destruct (decide (t = target)) as [->|Ht].
    + rewrite Hp in Hpt. injection Hpt as <-.
      eapply (Hs1 target _ p' x); [apply lookup_insert_eq|done| |done].
      unfold received in *. rewrite Hm in Hrt. simpl.
      rewrite flag_insert_ne; [done|]. intros ->. by apply Hother.
    + eapply (Hs1 t pt p' x); [|done|done|done].
      simpl. by rewrite lookup_insert_ne.
  - intros d0 q [->|Hd0]%elem_of_cons Hq; [|by eapply Hdeps].
    split; [done|].
    assert (grows (processes (set_received target d p m w)) (processes w')) as Hg1
      by (by eapply flags_grow_trans).
    eapply (grows_lookup _ _ target) in Hg1 as (q' & Hq' & _ & Hrq).
    2:{ simpl. apply lookup_insert_eq. }
    rewrite Hq in Hq'. injection Hq' as <-. apply Hrq.
    unfold received. simpl. apply flag_insert_eq.
Qed.

Lemma sendProbe_false_settled origin fuel :
  ∀ sender target w w', sendProbe fuel sender origin target w = Done (false, w') →
    settled origin (processes w) (processes w') ∧ done_with origin (processes w') target.
Proof.
  induction fuel as [|fuel IH]; intros sender target w w' H; [done|].
  pose proof (sendProbe_grows _ _ _ _ _ _ _ H) as Hg.
  simpl in H. destruct (processes w !! target) as [p|] eqn:Hp; [|done].
  destruct (0 <? length (waitingFor p)) eqn:Hlen.
  - apply probe_loop_false_settled in H as [Hs Hdeps].
    + split; [exact Hs|]. intros q d Hq Hd.
      destruct (grows_lookup _ _ _ _ Hg Hp) as (q' & Hq' & Hw & _).
      rewrite Hq in Hq'. injection Hq' as <-. rewrite <- Hw in Hd. by eapply Hdeps.
    + intros d w1 b w1'. apply sendProbe_grows.
    + intros d w1 w1'. apply IH.
  - injection H as <-. split; [apply settled_refl|].
    intros q d Hq Hd. simpl in Hq. rewrite Hp in Hq. injection Hq as <-.
    apply Nat.ltb_ge in Hlen. destruct (waitingFor p); [by apply elem_of_nil in Hd|].
    simpl in Hlen. lia.
Qed.

Lemma initiate_loop_false_settled fuel i deps :
  ∀ w w', initiate_loop fuel i deps w = Done (false, w') →
    settled_for i (processes w) →
    settled_for i (processes w') ∧ ∀ d, d ∈ deps → done_with i (processes w') d.
Proof.
  induction deps as [|d deps IH]; intros w w' H Hs; simpl in H.
  { injection H as <-. split; [done|]. by intros d Hd%elem_of_nil. }
  destruct (sendProbe fuel i i d w) as [[[] w2]| |] eqn:Hr; try done.
  pose proof (sendProbe_grows _ _ _ _ _ _ _ Hr) as Hg.
  pose proof (initiate_loop_grows _ _ _ _ _ _ H) as Hg2.
  destruct (sendProbe_false_settled _ _ _ _ _ _ Hr) as [Hs12 Hdone].
  destruct (IH _ _ H) as [Hs' Hdeps]; [by eapply settled_for_step|].
  split; [done|]. intros d0 [->|Hd0]%elem_of_cons; [|by apply Hdeps].
  by eapply done_with_grows.
Qed.

(** When the initiation loop of [i] has found nothing, [i] lies on no
    cycle. *)
Lemma initiate_loop_false_no_cycle fuel i p w w' :
  processes w !! i = Some p → settled_for i (processes w) →
  initiate_loop fuel i (waitingFor p) w = Done (false, w') →
  ¬ tc (edge (processes w)) i i.
Proof.
  intros Hp Hs H Htc.
  pose proof (initiate_loop_grows _ _ _ _ _ _ H) as Hg.
  destruct (initiate_loop_false_settled _ _ _ _ _ H Hs) as [Hs' Hdeps].
  assert (∀ x y, edge (processes w) x y → edge (processes w') x y) as Hedge.
  { intros x y. apply (keeps_graph_edge (processes w) (processes w')).
    by apply grows_keeps_graph. }
  assert (∀ d, d ∈ waitingFor p → ∀ x, rtc (edge (processes w)) d x →
               done_with i (processes w') x) as Hall.
  { intros d Hd. apply rtc_ind_r; [by apply Hdeps|].
    intros y z _ (q & Hq & Hz)%Hedge Hy.
    destruct (Hy q z Hq Hz) as [_ Hr]. by eapply Hs'. }
  assert (∃ d x, d ∈ waitingFor p ∧ rtc (edge (processes w)) d x ∧ edge (processes w) x i)
    as (d & x & Hd & Hdx & Hxi).
  { inversion Htc as [? ? (q & Hq & Hin)|? y ? (q & Hq & Hin) Hrest]; subst.
    - rewrite Hp in Hq. injection Hq as <-. exists i, i. split; [done|]. split; [done|].
      by exists p.
    - rewrite Hp in Hq. injection Hq as <-. apply RpcServerFacts.tc_last in Hrest as (x & Hyx & Hxi).
      by exists y, x. }
  apply Hedge in Hxi as (q & Hq & Hin).
  destruct (Hall d Hd x Hdx q i Hq Hin) as [Hne _]. done.
Qed.

(** *** The lines of a confirmation *)

Lemma probe_loop_true_output rec origin target deps :
  (∀ d w w', rec d w = Done (true, w') →
     ∃ out, output w' = out ++ [OutDeadlockDetected origin]) →
  ∀ w w', probe_loop rec origin target deps w = Done (true, w') →
    ∃ out, output w' = out ++ [OutDeadlockDetected origin].
Proof.
  intros Hrec. induction deps as [|d deps IH]; intros w w' H; simpl in H; [done|].
  destruct (d =? origin)%Z.
  { injection H as <-. by eexists. }
  destruct (processes w !! target) as [p|]; [|done].
  destruct (received p d); [by eapply IH|].
  destruct (receivedProbes p) as [m|]; [|done].
  destruct (rec d _) as [[[] w2]| |] eqn:Hr; try done.
  - injection H as <-. by eapply Hrec.
  - by eapply IH.
Qed.

Lemma sendProbe_true_output origin fuel :
  ∀ sender target w w', sendProbe fuel sender origin target w = Done (true, w') →
    ∃ out, output w' = out ++ [OutDeadlockDetected origin].
Proof.
  induction fuel as [|fuel IH]; intros sender target w w' H; simpl in H; [done|].
  destruct (processes w !! target) as [p|]; [|done].
  destruct (0 <? length (waitingFor p)); [|done].
  eapply probe_loop_true_output; [|exact H]. intros d w1 w1'. apply IH.
Qed.

Lemma initiate_loop_true_output fuel i deps :
  ∀ w w', initiate_loop fuel i deps w = Done (true, w') →
    ∃ out, output w' = out ++ [OutDeadlockDetected i; OutDeadlockConfirmed].
Proof.
  induction deps as [|d deps IH]; intros w w' H; simpl in H; [done|].
  destruct (sendProbe fuel i i d w) as [[[] w2]| |] eqn:Hr; try done.
  - injection H as <-. apply sendProbe_true_output in Hr as (out & Hout).
    exists out. simpl. rewrite Hout, <- app_assoc. done.
  - by eapply IH.
Qed.

(** A confirmation names an initiator that lies on a cycle. *)
Lemma detectDeadlock_true ps fuel order :
  ∀ w w', keeps_graph ps (processes w) →
    detectDeadlock fuel order w = Done (true, w') →
    ∃ i out, i ∈ order ∧ tc (edge ps) i i ∧
             output w' = out ++ [OutDeadlockDetected i; OutDeadlockConfirmed].
Proof.
  induction order as [|i order IH]; intros w w' Hk H; simpl in H; [done|].
  assert (Hrest : ∀ w0, keeps_graph ps (processes w0) →
            detectDeadlock fuel order w0 = Done (true, w') →
            ∃ i0 out, i0 ∈ i :: order ∧ tc (edge ps) i0 i0 ∧
                      output w' = out ++ [OutDeadlockDetected i0; OutDeadlockConfirmed]).
  { intros w0 Hk0 H0. destruct (IH _ _ Hk0 H0) as (i0 & out & Hin & Hrest).
    exists i0, out. split; [by right|done]. }
  destruct (processes w !! i) as [p|] eqn:Hp; [|by eapply Hrest].
  assert (keeps_graph ps (processes (reset_received i p (print (OutStarting i) w)))) as Hk1.
  { eapply keeps_graph_trans; [exact Hk|]. by apply (keeps_graph_reset (print _ w)). }
  destruct (initiate_loop fuel i _ _) as [[[] w2]| |] eqn:Hr; try done.
  - injection H as <-.
    destruct (initiate_loop_true_output _ _ _ _ _ Hr) as (out & Hout).
    apply (initiate_loop_sound ps) in Hr as (d & x & Hd & Hdx & Hxi); [|done].
    exists i, out. split; [left|]. split; [|done].
    eapply tc_l; [|by eapply tc_rtc_l; [|apply tc_once]].
    apply (keeps_graph_edge ps (processes w)); [done|]. by exists p.
  - eapply Hrest; [|done]. eapply keeps_graph_trans; [exact Hk1|].
    by eapply grows_keeps_graph, initiate_loop_grows.
Qed.

Lemma fresh_check_fresh ps : fresh_check ps → fresh ps.
Proof.
  intros H t p d Hp. apply H in Hp. unfold no_flag, received in *.
  destruct (receivedProbes p) as [m|]; [|done].
  apply bool_decide_eq_true in Hp. unfold flag.
  destruct (m !! d) as [b|] eqn:Hd; [|done]. simpl. by apply Hp in Hd.
Qed.

Lemma has_edge_edge ps x y : has_edge ps x y = true → edge ps x y.
Proof.
  unfold has_edge. destruct (ps !! x) as [p|] eqn:Hp; [|done].
  intros H%bool_decide_eq_true. by exists p.
Qed.

Lemma cycle_check_tc ps x path z : path_check ps x path z = true → tc (edge ps) x z.
Proof.
  revert x. induction path as [|y path IH]; intros x H; simpl in H.
  - by apply tc_once, has_edge_edge.
  - apply andb_true_iff in H as [Hxy Hrest].
    eapply tc_l; [by apply has_edge_edge|by apply IH].
Qed.

(** *** The output is only added to *)

Lemma probe_loop_output rec origin target deps :
  (∀ d w b w', rec d w = Done (b, w') → ∃ out, output w' = output w ++ out) →
  ∀ w b w', probe_loop rec origin target deps w = Done (b, w') →
    ∃ out, output w' = output w ++ out.
Proof.
  intros Hrec. induction deps as [|d deps IH]; intros w b w' H; simpl in H.
  { injection H as <- <-. exists []. by rewrite app_nil_r. }
  destruct (d =? origin)%Z.
  { injection H as <- <-. by eexists. }
  destruct (processes w !! target) as [p|]; [|done].
  destruct (received p d); [by eapply IH|].
  destruct (receivedProbes p) as [m|]; [|done].
  destruct (rec d _) as [[[] w2]| |] eqn:Hr; try done.
  - injection H as <- <-. by eapply Hrec in Hr.
  - apply Hrec in Hr as [out1 Hout1]. apply IH in H as [out2 Hout2].
    exists (out1 ++ out2). rewrite Hout2, Hout1. simpl. by rewrite app_assoc.
Qed.

Lemma sendProbe_output origin fuel :
  ∀ sender target w b w', sendProbe fuel sender origin target w = Done (b, w') →
    ∃ out, output w' = output w ++ out.
Proof.
  induction fuel as [|fuel IH]; intros sender target w b w' H; simpl in H; [done|].
  destruct (processes w !! target) as [p|]; [|done].
  destruct (0 <? length (waitingFor p)).
  - eapply probe_loop_output in H as [out Hout]; [|intros d w1 b1 w1'; apply IH].
    simpl in Hout. exists ([OutProbeSent sender target origin] ++ out).
    by rewrite Hout, app_assoc.
  - injection H as <- <-. by eexists.
Qed.

Lemma initiate_loop_output fuel i deps :
  ∀ w b w', initiate_loop fuel i deps w = Done (b, w') →
    ∃ out, output w' = output w ++ out.
Proof.
  induction deps as [|d deps IH]; intros w b w' H; simpl in H.
  { injection H as <- <-. exists []. by rewrite app_nil_r. }
  destruct (sendProbe fuel i i d w) as [[[] w2]| |] eqn:Hr; try done.
  - injection H as <- <-. apply sendProbe_output in Hr as [out Hout].
    exists (out ++ [OutDeadlockConfirmed]). simpl. by rewrite Hout, app_assoc.
  - apply sendProbe_output in Hr as [out1 Hout1]. apply IH in H as [out2 Hout2].
    exists (out1 ++ out2). by rewrite Hout2, Hout1, app_assoc.
Qed.

Lemma detectDeadlock_output fuel order :
  ∀ w b w', detectDeadlock fuel order w = Done (b, w') →
    ∃ out, output w' = output w ++ out.
Proof.
  induction order as [|i order IH]; intros w b w' H; simpl in H.
  { injection H as <- <-. by eexists. }
  destruct (processes w !! i) as [p|]; [|by eapply IH].
  destruct (initiate_loop fuel i _ _) as [[[] w2]| |] eqn:Hr; try done.
  - injection H as <- <-. apply initiate_loop_output in Hr as [out Hout].
    simpl in Hout. exists ([OutStarting i] ++ out). by rewrite Hout, app_assoc.
  - apply initiate_loop_output in Hr as [out1 Hout1]. apply IH in H as [out2 Hout2].
    simpl in Hout1. exists ([OutStarting i] ++ out1 ++ out2).
    by rewrite Hout2, Hout1, !app_assoc.
Qed.

(** With fresh maps, a cycle through the first initiator is confirmed. *)
Lemma first_initiator_confirmed fuel i rest w :
  closed (processes w) → allocated (processes w) → fresh (processes w) →
  tc (edge (processes w)) i i → probe_fuel (processes w) ≤ fuel →
  ∃ w' out,
    detectDeadlock fuel (i :: rest) w = Done (true, w') ∧
    output w' = out ++ [OutDeadlockDetected i; OutDeadlockConfirmed].
Proof.
  intros Hc Ha Hfresh Htc Hf.
  assert (∃ p, processes w !! i = Some p) as [p Hp].
  { inversion Htc as [? ? (q & Hq & _)|? ? ? (q & Hq & _)]; by exists q. }
  set (w1 := reset_received i p (print (OutStarting i) w)).
  assert (keeps_graph (processes w) (processes w1)) as Hk
    by (by apply (keeps_graph_reset (print _ w))).
  assert (fresh (processes w1)) as Hfresh1.
  { intros t q d. unfold w1. simpl. destruct (decide (i = t)) as [<-|Hne].
    - rewrite lookup_insert_eq. by intros [= <-].
    - rewrite lookup_insert_ne by done. apply Hfresh. }
  simpl. rewrite Hp. fold w1.
  destruct (initiate_loop fuel i (waitingFor p) w1) as [[[] w2]| |] eqn:Hloop.
  - exists w2. destruct (initiate_loop_true_output _ _ _ _ _ Hloop) as [out Hout].
    by exists out.
  - exfalso.
    apply (initiate_loop_false_no_cycle fuel i
             (mkProcess (id p) (waitingFor p) (Some ∅)) w1 w2).
    + unfold w1. simpl. apply lookup_insert_eq.
    + by apply fresh_settled_for.
    + exact Hloop.
    + assert (∀ x y, tc (edge (processes w)) x y → tc (edge (processes w1)) x y) as Hmono.
      { intros x y H. induction H as [x y Hxy|x y z Hxy _ IH].
        - apply tc_once. by apply (keeps_graph_edge _ _ x y Hk).
        - eapply tc_l; [|exact IH]. by apply (keeps_graph_edge _ _ x y Hk). }
      by apply Hmono.
  - exfalso. revert Hloop. apply initiate_loop_no_panic.
    + by eapply keeps_graph_closed.
    + by eapply keeps_graph_allocated.
    + intros d Hd. apply (keeps_graph_is_Some (processes w)); [done|]. by eapply Hc.
  - exfalso. revert Hloop. apply initiate_loop_fuel.
    by rewrite <- (probe_fuel_keeps (processes w)).
Qed.

End OriginalFacts.

(** ** Facts about the goroutine variant *)
Module GoroutinesFacts.
Import Goroutines.

(** *** Processes evolve *)

Lemma evolves_refl p : evolves p p.
Proof. by repeat split. Qed.

Lemma evolves_trans p1 p2 p3 : evolves p1 p2 → evolves p2 p3 → evolves p1 p3.
Proof.
  intros (? & ? & ? & Hv & Hc) (? & ? & ? & Hv' & Hc').
  repeat split; try congruence; eauto.
Qed.

Lemma evolves_with_probeChan q p : evolves p (with_probeChan q p).
Proof. by repeat split. Qed.

Lemma evolves_with_sending l o p : evolves p (with_sending l o p).
Proof. by destruct l; repeat split. Qed.

Lemma evolves_count_sent p : evolves p (count_sent p).
Proof. by repeat split. Qed.

Lemma evolves_mark_visited k p : evolves p (mark_visited k p).
Proof. repeat split; try done. intros j. simpl. apply flag_insert_mono. Qed.

Lemma evolves_mark_reported k p : evolves p (mark_reported k p).
Proof. repeat split; try done. intros j. simpl. apply flag_insert_mono. Qed.

Lemma Forall2_evolves_refl (l : list Process) : Forall2 evolves l l.
Proof. induction l; constructor; [apply evolves_refl|done]. Qed.

Lemma Forall2_evolves_trans (l1 l2 l3 : list Process) :
  Forall2 evolves l1 l2 → Forall2 evolves l2 l3 → Forall2 evolves l1 l3.
Proof.
  intros H12. revert l3. induction H12 as [|p1 p2 l1 l2 Hp H12 IH]; intros l3 H23.
  - by inversion H23.
  - inversion H23 as [|? p3 ? l3' Hp' H23']; subst. constructor; [|by apply IH].
    by eapply evolves_trans.
Qed.

Lemma Forall2_evolves_insert (l : list Process) i p p' :
  l !! i = Some p → evolves p p' → Forall2 evolves l (<[i := p']> l).
Proof.
  revert i. induction l as [|a l IH]; intros [|i] Hl Hp; simpl in *; try done.
  - injection Hl as ->. constructor; [done|apply Forall2_evolves_refl].
  - constructor; [apply evolves_refl|by apply IH].
Qed.

Lemma Forall2_evolves_alter (l : list Process) i f :
  (∀ p, evolves p (f p)) → Forall2 evolves l (alter f i l).
Proof.
  intros Hf. revert i. induction l as [|a l IH]; intros [|i]; simpl; try constructor;
    try done; try apply Forall2_evolves_refl; try apply evolves_refl. apply IH.
Qed.

Lemma Forall2_evolves_lookup (l l' : list Process) i p :
  Forall2 evolves l l' → l !! i = Some p → ∃ p', l' !! i = Some p' ∧ evolves p p'.
Proof. intros H Hl. destruct (Forall2_lookup_l _ _ _ _ _ H Hl) as (p' & ? & ?). eauto. Qed.

Lemma Forall2_evolves_lookup_r (l l' : list Process) i p' :
  Forall2 evolves l l' → l' !! i = Some p' → ∃ p, l !! i = Some p ∧ evolves p p'.
Proof. intros H Hl. destruct (Forall2_lookup_r _ _ _ _ _ H Hl) as (p & ? & ?). eauto. Qed.

(** *** One probe handled *)

Lemma handle_evolves g h p probe h' p' r :
  handleProbes g h p probe = (h', p', r) → evolves p p'.
Proof.
  unfold handleProbes. destruct (_ && _).
  { intros [= <- <- <-]. apply evolves_mark_reported. }
  destruct (_ && _).
  - destruct (append _ _ _ _) as [h1 v]. intros [= <- <- <-]. apply evolves_mark_visited.
  - intros [= <- <- <-]. apply evolves_refl.
Qed.

Lemma handle_Forward g h p probe h' p' newProbe :
  handleProbes g h p probe = (h', p', Forward newProbe) →
  flag (visited p) (SessionID probe) = false ∧ successors p ≠ [] ∧
  p' = mark_visited (SessionID probe) p ∧
  SessionID newProbe = SessionID probe ∧ Initiator newProbe = Initiator probe ∧
  Sender newProbe = ID p ∧
  (h', Visited newProbe) = append g h (Visited probe) (ID p).
Proof.
  unfold handleProbes. destruct (_ && _); [by intros [=]|].
  destruct (negb _ && _) eqn:E; [|by intros [=]].
  apply andb_true_iff in E as [Hv Hs]. apply negb_true_iff in Hv.
  destruct (append _ _ _ _) as [h1 v]. intros [= <- <- <-].
  repeat split; try done. intros Hnil. rewrite Hnil in Hs. done.
Qed.

Lemma handle_Report g h p probe h' p' path :
  handleProbes g h p probe = (h', p', Report path) →
  Initiator probe = ID p ∧ flag (deadlockCache p) (SessionID probe) = false ∧
  h' = h ∧ p' = mark_reported (SessionID probe) p ∧ path = elems h (Visited probe).
Proof.
  unfold handleProbes. destruct (_ && _) eqn:E.
  - apply andb_true_iff in E as [Hi Hc]. apply negb_true_iff in Hc.
    apply Z.eqb_eq in Hi. intros [= <- <- <-]. by repeat split.
  - destruct (negb _ && (_ <? _)); [|by intros [=]].
    destruct (append _ _ _ _). by intros [=].
Qed.

Lemma handle_Drop g h p probe h' p' :
  handleProbes g h p probe = (h', p', Drop) → h' = h ∧ p' = p.
Proof.
  unfold handleProbes. destruct (_ && _); [by intros [=]|].
  destruct (_ && _); [destruct (append _ _ _ _); by intros [=]|]. by intros [= <- <-].
Qed.

(** *** Steps keep the processes in place *)

Lemma tick_evolves i now s s' e :
  Run i now s = (s', e) → Forall2 evolves (procs s) (procs s').
Proof.
  unfold Run. destruct (procs s !! i) as [p|] eqn:Hp.
  2:{ intros [= <- <-]. apply Forall2_evolves_refl. }
  destruct (in_Run p). { intros [= <- <-]. apply Forall2_evolves_refl. }
  destruct (0 <? _). 2:{ intros [= <- <-]. apply Forall2_evolves_refl. }
  simpl. intros [= <- <-]. simpl. apply Forall2_evolves_insert with p; [done|].
  repeat split; simpl; try done. intros k. apply flag_insert_mono.
Qed.

Lemma receive_evolves g i s s' e :
  receive g i s = (s', e) → Forall2 evolves (procs s) (procs s').
Proof.
  unfold receive. destruct (procs s !! i) as [p|] eqn:Hp.
  2:{ intros [= <- <-]. apply Forall2_evolves_refl. }
  destruct (in_handleProbes p). { intros [= <- <-]. apply Forall2_evolves_refl. }
  destruct (probeChan p) as [|probe rest]. { intros [= <- <-]. apply Forall2_evolves_refl. }
  destruct (handleProbes _ _ _ _) as [[h p'] r] eqn:Hh.
  pose proof (handle_evolves _ _ _ _ _ _ _ Hh) as Hev.
  assert (evolves p p') as Hpp'.
  { eapply evolves_trans; [apply (evolves_with_probeChan rest)|done]. }
  destruct r; intros [= <- <-]; simpl; apply Forall2_evolves_insert with p;
    [done|done|done| |done|done].
  eapply evolves_trans; [exact Hpp'|apply (evolves_with_sending HandleLoop)].
Qed.

Lemma deliver_evolves i l s s' e :
  sendProbe i l s = Some (s', e) → Forall2 evolves (procs s) (procs s').
Proof.
  unfold sendProbe. destruct (procs s !! i) as [p|] eqn:Hp.
  2:{ intros [= <- <-]. apply Forall2_evolves_refl. }
  destruct (sending l p) as [[probe [|succ rest]]|].
  3:{ intros [= <- <-]. apply Forall2_evolves_refl. }
  { intros [= <- <-]. simpl. apply Forall2_evolves_insert with p; [done|].
    apply evolves_with_sending. }
  destruct (procs s !! succ) as [q|] eqn:Hq; [|done].
  destruct (_ <? _). 2:{ intros [= <- <-]. apply Forall2_evolves_refl. }
  intros [= <- <-]. simpl.
  eapply Forall2_evolves_trans.
  - apply Forall2_evolves_insert with q; [done|]. apply evolves_with_probeChan.
  - apply Forall2_evolves_alter. intros p1.
    eapply evolves_trans; [apply evolves_count_sent|apply evolves_with_sending].
Qed.

Lemma expire_evolves i l s s' e :
  expire i l s = (s', e) → Forall2 evolves (procs s) (procs s').
Proof.
  unfold expire. destruct (procs s !! i) as [p|] eqn:Hp.
  2:{ intros [= <- <-]. apply Forall2_evolves_refl. }
  destruct (sending l p) as [[probe rest]|].
  2:{ intros [= <- <-]. apply Forall2_evolves_refl. }
  intros [= <- <-]. simpl. apply Forall2_evolves_insert with p; [done|].
  apply evolves_with_sending.
Qed.

Lemma step_evolves g a s s' e :
  step g a s = Some (s', e) → Forall2 evolves (procs s) (procs s').
Proof.
  destruct a as [i now|i|i l|i l]; simpl.
  - intros [= H]. by eapply tick_evolves.
  - intros [= H]. by eapply receive_evolves.
  - apply deliver_evolves.
  - intros [= H]. by eapply expire_evolves.
Qed.

Lemma run_evolves g sched :
  ∀ s s' tr, run g sched s = Some (s', tr) → Forall2 evolves (procs s) (procs s').
Proof.
  induction sched as [|a sched IH]; intros s s' tr H; simpl in H.
  - injection H as <- <-. apply Forall2_evolves_refl.
  - destruct (step g a s) as [[s1 e1]|] eqn:Hs; [|done].
    destruct (run g sched s1) as [[s2 e2]|] eqn:Hr; [|done].
    injection H as <- <-.
    eapply Forall2_evolves_trans; [by eapply step_evolves|by eapply IH].
Qed.

(** *** At most one forward per process and session *)

Lemma forwards_cons i sid e tr :
  forwards i sid (e :: tr) = (if is_forward i sid e then 1 else 0) + forwards i sid tr.
Proof.
  unfold forwards. rewrite filter_cons.
  destruct (is_forward i sid e); [by rewrite decide_True|by rewrite decide_False].
Qed.

Lemma forwards_app i sid tr1 tr2 :
  forwards i sid (tr1 ++ tr2) = forwards i sid tr1 + forwards i sid tr2.
Proof. unfold forwards. by rewrite filter_app, length_app. Qed.

Lemma tick_forwards i0 now s s' e i sid : Run i0 now s = (s', e) → forwards i sid e = 0.
Proof.
  unfold Run. destruct (procs s !! i0) as [p|]; [|by intros [= <- <-]].
  destruct (in_Run p); [by intros [= <- <-]|].
  destruct (0 <? _); [|by intros [= <- <-]]. simpl. by intros [= <- <-].
Qed.

Lemma receive_forwards g i0 s s' e i sid :
  receive g i0 s = (s', e) →
  forwards i sid e ≤ 1 ∧
  (forwards i sid e = 1 →
   ∃ p p', procs s !! i = Some p ∧ flag (visited p) sid = false ∧
           procs s' !! i = Some p' ∧ flag (visited p') sid = true).
Proof.
  unfold receive. destruct (procs s !! i0) as [p|] eqn:Hp.
  2:{ intros [= <- <-]. split; [apply Nat.le_0_l|done]. }
  destruct (in_handleProbes p). { intros [= <- <-]. split; [apply Nat.le_0_l|done]. }
  destruct (probeChan p) as [|probe rest]. { intros [= <- <-]. split; [apply Nat.le_0_l|done]. }
  destruct (handleProbes _ _ _ _) as [[h p'] r] eqn:Hh.
  destruct r as [path|newProbe|]; intros [= <- <-].
  - split; [apply Nat.le_0_l|done].
  - rewrite forwards_cons. change (forwards i sid []) with 0.
    destruct (is_forward i sid _) eqn:Hf; [|split; [lia|done]].
    split; [lia|]. intros _. simpl in Hf. apply andb_true_iff in Hf as [Hi Hs].
    apply Nat.eqb_eq in Hi as ->. apply Z.eqb_eq in Hs as <-.
    apply handle_Forward in Hh as (Hv & _ & -> & _).
    exists p. eexists. split; [done|]. split; [done|]. simpl. split.
    + apply list_lookup_insert_eq. by eapply lookup_lt_Some.
    + simpl. apply flag_insert_eq.
  - split; [apply Nat.le_0_l|done].
Qed.

Lemma deliver_forwards i0 l s s' e i sid :
  sendProbe i0 l s = Some (s', e) → forwards i sid e = 0.
Proof.
  unfold sendProbe. destruct (procs s !! i0) as [p|]; [|by intros [= <- <-]].
  destruct (sending l p) as [[probe [|succ rest]]|]; [by intros [= <- <-]| |by intros [= <- <-]].
  destruct (procs s !! succ) as [q|]; [|done].
  destruct (_ <? _); by intros [= <- <-].
Qed.

Lemma expire_forwards i0 l s s' e i sid : expire i0 l s = (s', e) → forwards i sid e = 0.
Proof.
  unfold expire. destruct (procs s !! i0) as [p|]; [|by intros [= <- <-]].
  destruct (sending l p) as [[probe rest]|]; by intros [= <- <-].
Qed.

Lemma step_forwards g a s s' e i sid :
  step g a s = Some (s', e) →
  forwards i sid e ≤ 1 ∧
  (forwards i sid e = 1 →
   ∃ p p', procs s !! i = Some p ∧ flag (visited p) sid = false ∧
           procs s' !! i = Some p' ∧ flag (visited p') sid = true).
Proof.
  destruct a as [i0 now|i0|i0 l|i0 l]; simpl.
  - intros [= H]. rewrite (tick_forwards _ _ _ _ _ i sid H). split; [lia|done].
  - intros [= H]. by eapply receive_forwards.
  - intros H. rewrite (deliver_forwards _ _ _ _ _ i sid H). split; [lia|done].
  - intros [= H]. rewrite (expire_forwards _ _ _ _ _ i sid H). split; [lia|done].
Qed.

Lemma run_visited_stays g sched s s' tr i p sid :
  run g sched s = Some (s', tr) → procs s !! i = Some p → flag (visited p) sid = true →
  ∃ p', procs s' !! i = Some p' ∧ flag (visited p') sid = true.
Proof.
  intros Hrun Hp Hv. apply run_evolves in Hrun.
  destruct (Forall2_evolves_lookup _ _ _ _ Hrun Hp) as (p' & Hp' & _ & _ & _ & Hvis & _).
  exists p'. split; [done|]. by apply Hvis.
Qed.

Lemma run_forwards g sched :
  ∀ s s' tr i sid, run g sched s = Some (s', tr) →
    forwards i sid tr ≤ 1 ∧
    (∀ p, procs s !! i = Some p → flag (visited p) sid = true → forwards i sid tr = 0).
Proof.
  induction sched as [|a sched IH]; intros s s' tr i sid H; simpl in H.
  { injection H as <- <-. split; [apply Nat.le_0_l|done]. }
  destruct (step g a s) as [[s1 e1]|] eqn:Hs; [|done].
  destruct (run g sched s1) as [[s2 e2]|] eqn:Hr; [|done].
  injection H as <- <-. rewrite forwards_app.
  destruct (step_forwards _ _ _ _ _ i sid Hs) as [Hle1 Hone].
  destruct (IH _ _ _ i sid Hr) as [Hle2 Hzero].
  split.
  - destruct (decide (forwards i sid e1 = 1)) as [E|E]; [|lia].
    destruct (Hone E) as (p & p1 & _ & _ & Hp1 & Hv1).
    rewrite (Hzero p1 Hp1 Hv1). lia.
  - intros p Hp Hv.
    assert (forwards i sid e1 = 0) as ->.
    { destruct (decide (forwards i sid e1 = 1)) as [E|E]; [|lia].
      destruct (Hone E) as (p0 & _ & Hp0 & Hv0 & _). congruence. }
    apply step_evolves in Hs.
    destruct (Forall2_evolves_lookup _ _ _ _ Hs Hp) as (p1 & Hp1 & _ & _ & _ & Hvis & _).
    rewrite (Hzero p1 Hp1); [done|]. by apply Hvis.
Qed.

(** *** Where the probes of a process come from *)

Lemma step_origin_same s e j q : step_origin s e j q q.
Proof.
  split; [apply evolves_refl|]. split.
  - intros probe Hin. by left.
  - intros l probe rest Hs. left. by exists rest.
Qed.

Lemma sending_with_sending l l' o p :
  sending l (with_sending l' o p) = if decide (l = l') then o else sending l p.
Proof. by destruct l, l'. Qed.

Lemma tick_origin i now s s' e j q' :
  Run i now s = (s', e) → procs s' !! j = Some q' →
  ∃ q, procs s !! j = Some q ∧ step_origin s e j q q'.
Proof.
  unfold Run. destruct (procs s !! i) as [p|] eqn:Hp.
  2:{ intros [= <- <-] Hq. exists q'. split; [done|apply step_origin_same]. }
  destruct (in_Run p) eqn:Hrun.
  { intros [= <- <-] Hq. exists q'. split; [done|apply step_origin_same]. }
  destruct (0 <? _).
  2:{ intros [= <- <-] Hq. exists q'. split; [done|apply step_origin_same]. }
  simpl. intros [= <- <-]. simpl. intros Hq.
  apply list_lookup_insert_Some in Hq as [(<- & <- & _)|(Hne & Hq)].
  2:{ exists q'. split; [done|apply step_origin_same]. }
  exists p. split; [done|]. split; [|split].
  - repeat split; simpl; try done. intros k. apply flag_insert_mono.
  - intros probe Hin. by left.
  - intros [] probe rest; simpl.
    + intros [= <- <-]. right. left. repeat split. simpl. apply flag_insert_eq.
    + intros Hs. left. by exists rest.
Qed.

Lemma receive_origin g i s s' e j q' :
  receive g i s = (s', e) → procs s' !! j = Some q' →
  ∃ q, procs s !! j = Some q ∧ step_origin s e j q q'.
Proof.
  unfold receive. destruct (procs s !! i) as [p|] eqn:Hp.
  2:{ intros [= <- <-] Hq. exists q'. split; [done|apply step_origin_same]. }
  destruct (in_handleProbes p) eqn:Hhp.
  { intros [= <- <-] Hq. exists q'. split; [done|apply step_origin_same]. }
  destruct (probeChan p) as [|probe0 tail] eqn:Hch.
  { intros [= <- <-] Hq. exists q'. split; [done|apply step_origin_same]. }
  destruct (handleProbes _ _ _ _) as [[h p'] r] eqn:Hh.
  assert (evolves p p') as Hev.
  { eapply evolves_trans; [apply (evolves_with_probeChan tail)|by eapply handle_evolves]. }
  assert (probeChan p' = tail ∧ in_Run p' = in_Run p ∧ in_handleProbes p' = None ∧
          successors p' = successors p) as (Hch' & Hrun' & Hhp' & Hsucc').
  { destruct r as [path|newProbe|].
    - apply handle_Report in Hh as (_ & _ & _ & -> & _). done.
    - apply handle_Forward in Hh as (_ & _ & -> & _). done.
    - apply handle_Drop in Hh as (_ & ->). done. }
  assert (∀ probe, probe ∈ tail → queued_from s i p probe) as Hqueue.
  { intros probe Hin. left. rewrite Hch. by right. }
  assert (∀ l probe rest, sending l p' = Some (probe, rest) →
                          sending_from e i p p' l probe rest) as Hkeep.
  { intros [] probe rest; simpl; [rewrite Hrun'|rewrite Hhp'; done].
    intros Hs. left. by exists rest. }
  destruct r as [path|newProbe|]; intros [= <- <-]; simpl; intros Hq;
    apply list_lookup_insert_Some in Hq as [(<- & <- & _)|(Hne & Hq)];
    try (exists q'; split; [done|apply step_origin_same]);
    exists p; (split; [done|]).
  - split; [done|]. split; [by rewrite Hch'|done].
  - split; [|split].
    + eapply evolves_trans; [exact Hev|apply (evolves_with_sending HandleLoop)].
    + simpl. by rewrite Hch'.
    + apply handle_Forward in Hh as (_ & _ & _ & Hsid & Hini & _).
      intros [] probe rest; simpl.
      * rewrite Hrun'. intros Hs. left. by exists rest.
      * intros [= <- <-]. right. right. split; [done|]. split; [done|].
        exists probe0, tail. done.
  - split; [done|]. split; [by rewrite Hch'|done].
Qed.

Lemma expire_origin i l s s' e j q' :
  expire i l s = (s', e) → procs s' !! j = Some q' →
  ∃ q, procs s !! j = Some q ∧ step_origin s e j q q'.
Proof.
  unfold expire. destruct (procs s !! i) as [p|] eqn:Hp.
  2:{ intros [= <- <-] Hq. exists q'. split; [done|apply step_origin_same]. }
  destruct (sending l p) as [[probe0 rest0]|] eqn:Hs.
  2:{ intros [= <- <-] Hq. exists q'. split; [done|apply step_origin_same]. }
  intros [= <- <-]. simpl. intros Hq.
  apply list_lookup_insert_Some in Hq as [(<- & <- & _)|(Hne & Hq)].
  2:{ exists q'. split; [done|apply step_origin_same]. }
  exists p. split; [done|]. split; [apply evolves_with_sending|]. split.
  - intros probe Hin. left. by destruct l.
  - intros l' probe rest. rewrite sending_with_sending. case_decide; [done|].
    intros Hs'. left. by exists rest.
Qed.

Lemma deliver_origin i l s s' e j q' :
  sendProbe i l s = Some (s', e) → procs s' !! j = Some q' →
  ∃ q, procs s !! j = Some q ∧ step_origin s e j q q'.
Proof.
  unfold sendProbe. destruct (procs s !! i) as [p|] eqn:Hp.
  2:{ intros [= <- <-] Hq. exists q'. split; [done|apply step_origin_same]. }
  destruct (sending l p) as [[probe0 [|succ rest0]]|] eqn:Hs.
  3:{ intros [= <- <-] Hq. exists q'. split; [done|apply step_origin_same]. }
  { intros [= <- <-]. simpl. intros Hq.
    apply list_lookup_insert_Some in Hq as [(<- & <- & _)|(Hne & Hq)].
    2:{ exists q'. split; [done|apply step_origin_same]. }
    exists p. split; [done|]. split; [apply evolves_with_sending|]. split.
    - intros probe Hin. left. by destruct l.
    - intros l' probe rest. rewrite sending_with_sending. case_decide; [done|].
      intros Hs'. left. by exists rest. }
  destruct (procs s !! succ) as [q0|] eqn:Hq0; [|done].
  destruct (_ <? _).
  2:{ intros [= <- <-] Hq. exists q'. split; [done|apply step_origin_same]. }
  intros [= <- <-]. simpl. intros Hq.
  set (next := match rest0 with [] => None | _ :: _ => Some (probe0, rest0) end) in *.
  assert (∀ l' probe rest (x : Process),
    (∀ l'', sending l'' x = sending l'' p) →
    sending l' (with_sending l next (count_sent x)) = Some (probe, rest) →
    ∃ rest1, sending l' p = Some (probe, rest1) ∧ rest ⊆ rest1) as Hnext.
  { intros l' probe rest x Hx. rewrite sending_with_sending. case_decide as Hl.
    - subst l'. unfold next. destruct rest0 as [|r rest0]; [done|].
      intros [= <- <-]. exists (succ :: r :: rest0). split; [done|].
      intros y Hy. by right.
    - intros Hs'. exists rest. split; [|done]. rewrite <- Hx.
      by destruct l'. }
  assert (queued_from s succ q0 probe0) as Hnew.
  { right. by exists i, p, l, rest0. }
  destruct (decide (i = j)) as [<-|Hij].
  - rewrite list_lookup_alter_eq in Hq.
    destruct (decide (succ = i)) as [->|Hsi].
    + rewrite list_lookup_insert_eq in Hq by (by eapply lookup_lt_Some).
      injection Hq as <-. assert (q0 = p) as -> by congruence.
      exists p. split; [done|]. split; [|split].
      * eapply evolves_trans; [apply (evolves_with_probeChan (probeChan p ++ [probe0]))|].
        eapply evolves_trans; [apply evolves_count_sent|apply evolves_with_sending].
      * intros probe Hin. assert (probe ∈ probeChan p ++ [probe0]) as Hin' by (by destruct l).
        apply elem_of_app in Hin' as [Hin'|Heq]; [by left|].
        apply list_elem_of_singleton in Heq as ->. done.
      * intros l' probe rest Hs'. left. eapply Hnext; [|exact Hs']. by intros [].
    + rewrite list_lookup_insert_ne, Hp in Hq by done. injection Hq as <-.
      exists p. split; [done|]. split; [|split].
      * eapply evolves_trans; [apply evolves_count_sent|apply evolves_with_sending].
      * intros probe Hin. left. by destruct l.
      * intros l' probe rest Hs'. left. eapply Hnext; [|exact Hs']. by intros [].
  - rewrite list_lookup_alter_ne in Hq by done.
    apply list_lookup_insert_Some in Hq as [(<- & <- & _)|(Hne & Hq)].
    2:{ exists q'. split; [done|apply step_origin_same]. }
    exists q0. split; [done|]. split; [apply evolves_with_probeChan|]. split.
    + intros probe. simpl. intros [Hin|Heq]%elem_of_app; [by left|].
      apply list_elem_of_singleton in Heq as ->. done.
    + intros l' probe rest Hs'. left. exists rest. split; [|done]. by destruct l'.
Qed.

Lemma step_origin_spec g a s s' e j q' :
  step g a s = Some (s', e) → procs s' !! j = Some q' →
  ∃ q, procs s !! j = Some q ∧ step_origin s e j q q'.
Proof.
  destruct a as [i now|i|i l|i l]; simpl.
  - intros [= H]. by eapply tick_origin.
  - intros [= H]. by eapply receive_origin.
  - apply deliver_origin.
  - intros [= H]. by eapply expire_origin.
Qed.

(** *** What stays the same along a run *)

Lemma evolves_ids (l l' : list Process) : Forall2 evolves l l' → ID <$> l' = ID <$> l.
Proof.
  induction 1 as [|p p' l l' (Hid & _) _ IH]; [done|].
  rewrite !fmap_cons. by rewrite Hid, IH.
Qed.

Lemma evolves_unique_ids s s' :
  Forall2 evolves (procs s) (procs s') → unique_ids s → unique_ids s'.
Proof. intros H. unfold unique_ids. by rewrite (evolves_ids _ _ H). Qed.

Lemma unique_ids_eq s i j p q :
  unique_ids s → procs s !! i = Some p → procs s !! j = Some q → ID p = ID q → i = j.
Proof.
  intros Hu Hp Hq Hid. eapply (NoDup_lookup (ID <$> procs s) i j (ID p)); [done| |].
  - by rewrite list_lookup_fmap, Hp.
  - by rewrite list_lookup_fmap, Hq, Hid.
Qed.

Lemma evolves_succ_edge s s' i j :
  Forall2 evolves (procs s) (procs s') → succ_edge s i j ↔ succ_edge s' i j.
Proof.
  intros H. split; intros (p & Hp & Hj).
  - destruct (Forall2_evolves_lookup _ _ _ _ H Hp) as (p' & Hp' & _ & Hs & _).
    exists p'. by rewrite Hs.
  - destruct (Forall2_evolves_lookup_r _ _ _ _ H Hp) as (p0 & Hp0 & _ & Hs & _).
    exists p0. by rewrite <- Hs.
Qed.

Lemma tc_mono {A} (R1 R2 : relation A) x y :
  (∀ a b, R1 a b → R2 a b) → tc R1 x y → tc R2 x y.
Proof.
  intros H. induction 1 as [a b Hab|a b c Hab _ IH].
  - apply tc_once. by apply H.
  - eapply tc_l; [by apply H|done].
Qed.

Lemma evolves_tc s s' i j :
  Forall2 evolves (procs s) (procs s') → tc (succ_edge s) i j → tc (succ_edge s') i j.
Proof. intros H. apply tc_mono. intros a b Hab. by apply (evolves_succ_edge s s' a b H). Qed.

Lemma evolves_rtc s s' i j :
  Forall2 evolves (procs s) (procs s') → rtc (succ_edge s) i j → rtc (succ_edge s') i j.
Proof.
  intros H. apply rtc_subrel. intros a b Hab. by apply (evolves_succ_edge s s' a b H).
Qed.

Lemma evolves_acyclic s s' :
  Forall2 evolves (procs s) (procs s') → acyclic s → acyclic s'.
Proof.
  intros H Hac i Hi. apply (Hac i). revert Hi. apply tc_mono.
  intros a b Hab. by apply (evolves_succ_edge s s' a b H).
Qed.

Lemma evolves_initiator_at s s' probe probe' i :
  Forall2 evolves (procs s) (procs s') → Initiator probe' = Initiator probe →
  initiator_at s probe i → initiator_at s' probe' i.
Proof.
  intros H Hini (p & Hp & Hid).
  destruct (Forall2_evolves_lookup _ _ _ _ H Hp) as (p' & Hp' & Hid' & _).
  exists p'. split; [done|]. congruence.
Qed.

(** *** Probes travel along the edges *)

Lemma step_came_along g a s s' e :
  step g a s = Some (s', e) → came_along s → came_along s'.
Proof.
  intros Hstep Hinv j q' Hq'.
  pose proof (step_evolves _ _ _ _ _ Hstep) as Hev.
  destruct (step_origin_spec _ _ _ _ _ _ _ Hstep Hq') as (q & Hq & Hevq & Hqueue & Hsend).
  destruct Hevq as (_ & Hsucc & _).
  destruct (Hinv j q Hq) as [Hinq Hins]. split.
  - intros probe Hin. destruct (Hqueue probe Hin) as [Hold|(k & pk & l & rest & Hk & Hs)].
    + destruct (Hinq probe Hold) as (i & Hi & Htc). exists i. split.
      * by eapply evolves_initiator_at.
      * by eapply evolves_tc.
    + destruct (Hinv k pk Hk) as [_ Hks].
      destruct (Hks l probe (j :: rest) Hs) as (Hsub & i & Hi & Hrtc).
      exists i. split; [by eapply evolves_initiator_at|].
      eapply evolves_tc; [done|]. eapply tc_rtc_l; [exact Hrtc|]. apply tc_once.
      exists pk. split; [done|]. apply Hsub. left.
  - intros l probe rest Hs. rewrite Hsucc.
    destruct (Hsend l probe rest Hs)
      as [(rest0 & Hs0 & Hsub)|[(-> & -> & Hini & _ & _)|(-> & -> & old & tail & Hch & _ & Hini & _)]].
    + destruct (Hins l probe rest0 Hs0) as (Hsub0 & i & Hi & Hrtc). split.
      * intros x Hx. by apply Hsub0, Hsub.
      * exists i. split; [by eapply evolves_initiator_at|by eapply evolves_rtc].
    + split; [done|]. exists j. split; [|done].
      eapply evolves_initiator_at; [done|done|]. by exists q.
    + split; [done|]. destruct (Hinq old) as (i & Hi & Htc); [rewrite Hch; left|].
      exists i. split; [by eapply evolves_initiator_at|].
      apply tc_rtc. by eapply evolves_tc.
Qed.

Lemma run_came_along g sched :
  ∀ s s' tr, run g sched s = Some (s', tr) → came_along s → came_along s'.
Proof.
  induction sched as [|a sched IH]; intros s s' tr H Hinv; simpl in H.
  - by injection H as <- <-.
  - destruct (step g a s) as [[s1 e1]|] eqn:Hs; [|done].
    destruct (run g sched s1) as [[s2 e2]|] eqn:Hr; [|done].
    injection H as <- <-. eapply IH; [done|]. by eapply step_came_along.
Qed.

(** *** The initiator has marked the session of its probes *)

Lemma in_flight_cases s probe :
  in_flight s probe ↔
  ∃ j q, procs s !! j = Some q ∧
         (probe ∈ probeChan q ∨ ∃ l rest, sending l q = Some (probe, rest)).
Proof.
  unfold in_flight, flying. split; intros (j & q & Hq & H); exists j, q; (split; [done|]).
  - apply elem_of_app in H as [H|H]; [by left|]. right.
    apply elem_of_app in H as [H|H].
    + exists RunLoop. simpl. destruct (in_Run q) as [[pr rest]|]; [|by apply elem_of_nil in H].
      apply list_elem_of_singleton in H as ->. by exists rest.
    + exists HandleLoop. simpl.
      destruct (in_handleProbes q) as [[pr rest]|]; [|by apply elem_of_nil in H].
      apply list_elem_of_singleton in H as ->. by exists rest.
  - apply elem_of_app. destruct H as [H|([] & rest & H)]; [by left| |]; right;
      simpl in H; rewrite H; simpl.
    + left.
    + apply elem_of_app. right. left.
Qed.

Lemma step_initiator_marked g a s s' e :
  step g a s = Some (s', e) → unique_ids s → initiator_marked s → initiator_marked s'.
Proof.
  intros Hstep Hu Hinv probe Hfl j2 q2 Hq2 Hid2.
  pose proof (step_evolves _ _ _ _ _ Hstep) as Hev.
  pose proof (evolves_unique_ids _ _ Hev Hu) as Hu'.
  assert (∀ old, in_flight s old → SessionID probe = SessionID old →
                 Initiator probe = Initiator old →
                 flag (visited q2) (SessionID probe) = true) as Hold.
  { intros old Hfo Hsid Hini.
    destruct (Forall2_evolves_lookup_r _ _ _ _ Hev Hq2) as (q0 & Hq0 & Hid0 & _ & _ & Hvis & _).
    apply Hvis. rewrite Hsid. eapply Hinv; [done|done|]. congruence. }
  apply in_flight_cases in Hfl as (j & q' & Hq' & Hwhere).
  destruct (step_origin_spec _ _ _ _ _ _ _ Hstep Hq') as (q & Hq & Hevq & Hqueue & Hsend).
  destruct Hwhere as [Hin|(l & rest & Hs)].
  - apply (Hold probe); [|done|done]. apply in_flight_cases.
    destruct (Hqueue probe Hin) as [Hq0|(k & pk & l & rest & Hk & Hs)].
    + exists j, q. split; [done|by left].
    + exists k, pk. split; [done|]. right. by exists l, (j :: rest).
  - destruct (Hsend l probe rest Hs)
      as [(rest0 & Hs0 & _)|[(-> & -> & Hini & Hfl & _)|(-> & -> & old & tail & Hch & Hsid & Hini & _)]].
    + apply (Hold probe); [|done|done]. apply in_flight_cases.
      exists j, q. split; [done|]. right. by exists l, rest0.
    + destruct Hevq as (Hidq & _).
      assert (j2 = j) as ->.
      { eapply (unique_ids_eq s'); [done|done|done|]. congruence. }
      congruence.
    + apply (Hold old); [|done|done]. apply in_flight_cases.
      exists j, q. split; [done|]. left. rewrite Hch. left.
Qed.

Lemma run_initiator_marked g sched :
  ∀ s s' tr, run g sched s = Some (s', tr) → unique_ids s → initiator_marked s →
             initiator_marked s'.
Proof.
  induction sched as [|a sched IH]; intros s s' tr H Hu Hinv; simpl in H.
  - by injection H as <- <-.
  - destruct (step g a s) as [[s1 e1]|] eqn:Hs; [|done].
    destruct (run g sched s1) as [[s2 e2]|] eqn:Hr; [|done].
    injection H as <- <-. eapply IH; [done| |].
    + eapply evolves_unique_ids; [by eapply step_evolves|done].
    + by eapply step_initiator_marked.
Qed.

(** *** The system before the first step *)

Lemma initial_lookup config topology j q :
  procs (initial config topology) !! j = Some q →
  probeChan q = [] ∧ in_Run q = None ∧ in_handleProbes q = None ∧
  visited q = ∅ ∧ deadlockCache q = ∅.
Proof.
  unfold initial. simpl. rewrite list_lookup_fmap.
  destruct (topology !! j) as [t|]; [|done]. simpl. by intros [= <-].
Qed.

Lemma initial_came_along config topology : came_along (initial config topology).
Proof.
  intros j q Hq. apply initial_lookup in Hq as (Hch & Hrun & Hhp & _). split.
  - intros probe. rewrite Hch. by intros ?%elem_of_nil.
  - intros [] probe rest; simpl; congruence.
Qed.

Lemma initial_initiator_marked config topology : initiator_marked (initial config topology).
Proof.
  intros probe Hfl. apply in_flight_cases in Hfl as (j & q & Hq & Hwhere).
  apply initial_lookup in Hq as (Hch & Hrun & Hhp & _).
  destruct Hwhere as [Hin|([] & rest & Hs)]; simpl in *.
  - rewrite Hch in Hin. by apply elem_of_nil in Hin.
  - congruence.
  - congruence.
Qed.

(** *** What stands behind the effects *)

Lemma step_effect_cause g a s s' e :
  step g a s = Some (s', e) → Forall (effect_cause s) e.
Proof.
  destruct a as [i now|i|i l|i l]; simpl.
  - intros [= H]. revert H. unfold Run.
    destruct (procs s !! i) as [p|] eqn:Hp; [|by intros [= <- <-]].
    destruct (in_Run p) eqn:Hrun; [by intros [= <- <-]|].
    destruct (0 <? length (successors p)) eqn:Hlen; [|by intros [= <- <-]].
    simpl. intros [= <- <-]. repeat constructor. exists p. repeat split; try done.
    intros Hnil. by rewrite Hnil in Hlen.
  - intros [= H]. revert H. unfold receive.
    destruct (procs s !! i) as [p|] eqn:Hp; [|by intros [= <- <-]].
    destruct (in_handleProbes p) eqn:Hhp; [by intros [= <- <-]|].
    destruct (probeChan p) as [|probe tail] eqn:Hch; [by intros [= <- <-]|].
    destruct (handleProbes _ _ _ _) as [[h p'] r] eqn:Hh.
    destruct r as [path|newProbe|]; intros [= <- <-]; repeat constructor.
    + apply handle_Report in Hh as (Hini & Hc & _ & _ & ->).
      exists p, probe, tail. done.
    + apply handle_Forward in Hh as (Hv & Hs & _). exists p, tail. done.
    + exists p, tail. done.
  - unfold sendProbe.
    destruct (procs s !! i) as [p|] eqn:Hp; [|by intros [= <- <-]].
    destruct (sending l p) as [[probe [|succ rest]]|] eqn:Hs;
      [by intros [= <- <-]| |by intros [= <- <-]].
    destruct (procs s !! succ) as [q|]; [|done].
    destruct (_ <? _); [|by intros [= <- <-]].
    intros [= <- <-]. repeat constructor. by exists p, l, rest.
  - intros [= H]. revert H. unfold expire.
    destruct (procs s !! i) as [p|] eqn:Hp; [|by intros [= <- <-]].
    destruct (sending l p) as [[probe rest]|] eqn:Hs; [|by intros [= <- <-]].
    intros [= <- <-]. repeat constructor. by exists p, rest.
Qed.

(** *** No confirmation without a cycle *)

Lemma step_no_report g a s s' e :
  step g a s = Some (s', e) → unique_ids s → acyclic s → came_along s →
  Forall (λ ef, is_report ef = false) e.
Proof.
  intros Hstep Hu Hac Hinv. apply step_effect_cause in Hstep.
  eapply Forall_impl; [exact Hstep|]. intros [] Hcause; try done. simpl in Hcause.
  destruct Hcause as (q & probe & tail & Hq & Hch & _ & Hini & _).
  destruct (Hinv _ _ Hq) as [Hinq _].
  destruct (Hinq probe) as (i & (pi & Hpi & Hid) & Htc); [rewrite Hch; left|].
  assert (i = p) as -> by (eapply unique_ids_eq; [done|done|done|congruence]).
  by apply Hac in Htc.
Qed.

Lemma run_no_report g sched :
  ∀ s s' tr, run g sched s = Some (s', tr) → unique_ids s → acyclic s → came_along s →
             Forall (λ ef, is_report ef = false) tr.
Proof.
  induction sched as [|a sched IH]; intros s s' tr H Hu Hac Hinv; simpl in H.
  - injection H as <- <-. constructor.
  - destruct (step g a s) as [[s1 e1]|] eqn:Hs; [|done].
    destruct (run g sched s1) as [[s2 e2]|] eqn:Hr; [|done].
    injection H as <- <-. apply Forall_app. split.
    + by eapply step_no_report.
    + pose proof (step_evolves _ _ _ _ _ Hs) as Hev. eapply IH; [done| | |].
      * by eapply evolves_unique_ids.
      * by eapply evolves_acyclic.
      * by eapply step_came_along.
Qed.

(** *** A process without successors puts nothing on its way *)

Lemma step_no_emission g a s s' e i p :
  step g a s = Some (s', e) → came_along s →
  procs s !! i = Some p → successors p = [] →
  Forall (λ ef, is_emission i ef = false) e.
Proof.
  intros Hstep Hinv Hp Hnil. apply step_effect_cause in Hstep.
  eapply Forall_impl; [exact Hstep|]. intros [j ?|j ? ?|j ? ?|j ?|j ? ?|j ? ?] Hcause;
    try done; simpl in *; destruct (Nat.eqb_spec j i) as [->|]; try done.
  - destruct Hcause as (q & Hq & Hs & _). congruence.
  - destruct Hcause as (q & tail & Hq & _ & _ & Hs & _). congruence.
  - destruct Hcause as (q & l & rest & Hq & Hs).
    destruct (Hinv _ _ Hq) as [_ Hins]. destruct (Hins _ _ _ Hs) as [Hsub _].
    assert (q = p) as -> by congruence. rewrite Hnil in Hsub.
    specialize (Hsub succ). rewrite elem_of_nil in Hsub. exfalso. apply Hsub. left.
Qed.

Lemma run_no_emission g sched i :
  ∀ s s' tr p, run g sched s = Some (s', tr) → came_along s →
    procs s !! i = Some p → successors p = [] →
    Forall (λ ef, is_emission i ef = false) tr.
Proof.
  induction sched as [|a sched IH]; intros s s' tr p H Hinv Hp Hnil; simpl in H.
  - injection H as <- <-. constructor.
  - destruct (step g a s) as [[s1 e1]|] eqn:Hs; [|done].
    destruct (run g sched s1) as [[s2 e2]|] eqn:Hr; [|done].
    injection H as <- <-. apply Forall_app. split.
    + by eapply step_no_emission.
    + pose proof (step_evolves _ _ _ _ _ Hs) as Hev.
      destruct (Forall2_evolves_lookup _ _ _ _ Hev Hp) as (p1 & Hp1 & _ & Hsucc & _).
      eapply IH; [done| |done|congruence]. by eapply step_came_along.
Qed.

(** *** The closing probe *)

Lemma initial_unique_ids config topology :
  NoDup topology.*1 → unique_ids (initial config topology).
Proof.
  unfold unique_ids, initial. simpl. rewrite <- list_fmap_compose.
  intros H. erewrite list_fmap_ext; [exact H|]. by intros _ [id succs] _.
Qed.

Lemma handle_closing g h p probe :
  Initiator probe = ID p → flag (deadlockCache p) (SessionID probe) = false →
  handleProbes g h p probe =
    (h, mark_reported (SessionID probe) p, Report (elems h (Visited probe))).
Proof.
  intros Hini Hc. unfold handleProbes. by rewrite Hini, Z.eqb_refl, Hc.
Qed.

Lemma handle_again g h p probe :
  flag (deadlockCache p) (SessionID probe) = true →
  flag (visited p) (SessionID probe) = true →
  handleProbes g h p probe = (h, p, Drop).
Proof.
  intros Hc Hv. unfold handleProbes. rewrite Hc, Hv. simpl. by rewrite andb_false_r.
Qed.

Lemma receive_closing g s i p probe tail :
  procs s !! i = Some p → probeChan p = probe :: tail → in_handleProbes p = None →
  Initiator probe = ID p → flag (deadlockCache p) (SessionID probe) = false →
  receive g i s =
    (mkSystem (<[i := mark_reported (SessionID probe) (with_probeChan tail p)]> (procs s))
              (arrays s),
     [Reported i (SessionID probe) (elems (arrays s) (Visited probe))]).
Proof.
  intros Hp Hch Hhp Hini Hc. unfold receive. rewrite Hp, Hhp, Hch.
  by rewrite handle_closing.
Qed.

Lemma receive_again g s i p probe tail :
  procs s !! i = Some p → probeChan p = probe :: tail → in_handleProbes p = None →
  flag (deadlockCache p) (SessionID probe) = true →
  flag (visited p) (SessionID probe) = true →
  receive g i s = (set_proc i (with_probeChan tail p) s, [Dropped i probe]).
Proof.
  intros Hp Hch Hhp Hc Hv. unfold receive. rewrite Hp, Hhp, Hch.
  by rewrite handle_again.
Qed.

(** *** The probe that is forwarded *)

Lemma elems_literal h x : elems (literal h x).1 (literal h x).2 = [x].
Proof.
  unfold elems, literal. simpl. by rewrite lookup_app_r, Nat.sub_diag by done.
Qed.

Lemma elems_append g h s x :
  valid_slice h s →
  elems (append g h s x).1 (append g h s x).2 = elems h s ++ [x].
Proof.
  intros (a & Ha & Hcap & Hlen). unfold append, elems. rewrite Ha. simpl.
  destruct (decide (len s < cap s)) as [Hlt|Hge]; simpl.
  - rewrite list_lookup_alter_eq, Ha. simpl.
    rewrite (take_S_r _ _ x) by (apply list_lookup_insert_eq; lia).
    by rewrite take_insert_ge by lia.
  - rewrite lookup_app_r, Nat.sub_diag by done. simpl.
    assert (length (take (len s) a) = len s) as Hl by (rewrite length_take; lia).
    rewrite take_app, Hl, take_ge by (rewrite Hl; lia).
    replace (S (len s) - len s) with 1 by lia. done.
Qed.

Lemma elems_append_old g h s x :
  valid_slice h s → elems (append g h s x).1 s = elems h s.
Proof.
  intros (a & Ha & Hcap & Hlen). unfold append, elems. rewrite Ha. simpl.
  destruct (decide (len s < cap s)) as [Hlt|Hge]; simpl.
  - rewrite list_lookup_alter_eq, Ha. simpl. by rewrite take_insert_ge by lia.
  - rewrite lookup_app_l by (by eapply lookup_lt_Some). by rewrite Ha.
Qed.

Lemma handle_forward_fields g h p probe h' p' newProbe :
  valid_slice h (Visited probe) →
  handleProbes g h p probe = (h', p', Forward newProbe) →
  SessionID newProbe = SessionID probe ∧ Initiator newProbe = Initiator probe ∧
  Sender newProbe = ID p ∧
  elems h' (Visited newProbe) = elems h (Visited probe) ++ [ID p] ∧
  elems h' (Visited probe) = elems h (Visited probe).
Proof.
  intros Hvalid (_ & _ & _ & Hsid & Hini & Hsnd & Happ)%handle_Forward.
  repeat split; try done.
  - pose proof (elems_append g h (Visited probe) (ID p) Hvalid) as H.
    by rewrite <- Happ in H.
  - pose proof (elems_append_old g h (Visited probe) (ID p) Hvalid) as H.
    by rewrite <- Happ in H.
Qed.

(** *** A criterion that can be checked by computation *)

Lemma downward_system_acyclic s : downward s → acyclic s.
Proof.
  intros Hd x Hx.
  assert (∀ a b, succ_edge s a b → a < b) as Hedge.
  { intros a b (p & Hp & Hb). unfold downward in Hd. rewrite Forall_forall in Hd.
    specialize (Hd (a, p)). rewrite Forall_forall in Hd. apply Hd; [|done].
    by apply (elem_of_lookup_imap_2 pair). }
  assert (∀ a b, tc (succ_edge s) a b → a < b) as Hlt.
  { induction 1 as [a b Hab|a b c Hab _ IH].
    - by apply Hedge.
    - apply Hedge in Hab. lia. }
  apply Hlt in Hx. lia.
Qed.

Lemma run_state_after g sched s s' tr :
  run g sched s = Some (s', tr) → state_after g sched s = s' ∧ trace_of g sched s = tr.
Proof. intros H. unfold state_after, trace_of. by rewrite H. Qed.

(** *** Only the values of [growslice] matter *)





(** *** The slices of the probes in flight *)

Lemma valid_slice_app h a x : valid_slice h x → valid_slice (h ++ [a]) x.
Proof.
  intros (b & Hb & Hcap & Hlen). exists b. split; [|done].
  rewrite lookup_app_l; [done|]. by eapply lookup_lt_Some.
Qed.

Lemma valid_slice_literal h v : valid_slice (literal h v).1 (literal h v).2.
Proof.
  exists [v]. simpl. split; [|done]. by rewrite lookup_app_r, Nat.sub_diag.
Qed.

Lemma valid_slice_append_old g h s v x :
  valid_slice h x → valid_slice (append g h s v).1 x.
Proof.
  intros Hx. unfold append. destruct (decide (len s < cap s)); simpl.
  - destruct Hx as (b & Hb & Hcap & Hlen).
    destruct (decide (arr s = arr x)) as [Heq|Hne].
    + exists (<[len s := v]> b). rewrite Heq, list_lookup_alter_eq, Hb. simpl.
      by rewrite length_insert.
    + exists b. by rewrite list_lookup_alter_ne.
  - by apply valid_slice_app.
Qed.

Lemma valid_slice_append g h s v :
  valid_slice h s → valid_slice (append g h s v).1 (append g h s v).2.
Proof.
  intros (b & Hb & Hcap & Hlen). unfold append, elems. rewrite Hb.
  destruct (decide (len s < cap s)); simpl.
  - exists (<[len s := v]> b). rewrite list_lookup_alter_eq, Hb. simpl.
    rewrite length_insert. split; [done|]. split; [done|lia].
  - eexists. rewrite lookup_app_r, Nat.sub_diag by done. simpl. split; [done|].
    rewrite length_app, length_take. simpl. rewrite length_replicate. lia.
Qed.

Lemma step_arrays g a s s' e :
  step g a s = Some (s', e) →
  match e with
  | [Initiated i probe] =>
      ∃ p, procs s !! i = Some p ∧ (arrays s', Visited probe) = literal (arrays s) (ID p)
  | [Forwarded i old newProbe] =>
      ∃ p, procs s !! i = Some p ∧ in_flight s old ∧
           SessionID newProbe = SessionID old ∧ Initiator newProbe = Initiator old ∧
           Sender newProbe = ID p ∧
           (arrays s', Visited newProbe) = append g (arrays s) (Visited old) (ID p)
  | _ => arrays s' = arrays s
  end.
Proof.
  destruct a as [i now|i|i l|i l]; simpl.
  - intros [= H]. revert H. unfold Run.
    destruct (procs s !! i) as [p|] eqn:Hp; [|by intros [= <- <-]].
    destruct (in_Run p); [by intros [= <- <-]|].
    destruct (0 <? length (successors p)); [|by intros [= <- <-]].
    simpl. intros [= <- <-]. by exists p.
  - intros [= H]. revert H. unfold receive.
    destruct (procs s !! i) as [p|] eqn:Hp; [|by intros [= <- <-]].
    destruct (in_handleProbes p); [by intros [= <- <-]|].
    destruct (probeChan p) as [|probe tail] eqn:Hch; [by intros [= <- <-]|].
    destruct (handleProbes _ _ _ _) as [[h p'] r] eqn:Hh.
    destruct r as [path|newProbe|]; intros [= <- <-]; simpl.
    + by apply handle_Report in Hh as (_ & _ & -> & _).
    + apply handle_Forward in Hh as (_ & _ & _ & Hsid & Hini & Hsnd & Happ).
      exists p. split; [done|]. split; [|done].
      exists i, p. split; [done|]. unfold flying. rewrite Hch. left.
    + by apply handle_Drop in Hh as (-> & _).
  - unfold sendProbe.
    destruct (procs s !! i) as [p|]; [|by intros [= <- <-]].
    destruct (sending l p) as [[probe [|succ rest]]|];
      [by intros [= <- <-]| |by intros [= <- <-]].
    destruct (procs s !! succ) as [q|]; [|done].
    destruct (_ <? _); by intros [= <- <-].
  - intros [= H]. revert H. unfold expire.
    destruct (procs s !! i) as [p|]; [|by intros [= <- <-]].
    destruct (sending l p) as [[probe rest]|]; by intros [= <- <-].
Qed.

Lemma step_arrays_keep g a s s' e x :
  step g a s = Some (s', e) → valid_slice (arrays s) x → valid_slice (arrays s') x.
Proof.
  intros Hstep%step_arrays Hx.
  destruct e as [|[i probe|i sid path|i old newProbe|i probe|i succ probe|i l probe] [|e2 e]];
    try (by rewrite Hstep).
  - destruct Hstep as (p & _ & Heq).
    replace (arrays s') with (literal (arrays s) (ID p)).1 by (by rewrite <- Heq).
    by apply valid_slice_app.
  - destruct Hstep as (p & _ & _ & _ & _ & _ & Heq).
    replace (arrays s') with (append g (arrays s) (Visited old) (ID p)).1
      by (by rewrite <- Heq).
    by apply valid_slice_append_old.
Qed.

Lemma step_slices_valid g a s s' e :
  step g a s = Some (s', e) → slices_valid s → slices_valid s'.
Proof.
  intros Hstep Hinv probe Hfl.
  apply in_flight_cases in Hfl as (j & q' & Hq' & Hwhere).
  destruct (step_origin_spec _ _ _ _ _ _ _ Hstep Hq') as (q & Hq & _ & Hqueue & Hsend).
  assert (in_flight s probe → valid_slice (arrays s') (Visited probe)) as Hold.
  { intros Hfl. eapply step_arrays_keep; [done|]. by apply Hinv. }
  destruct Hwhere as [Hin|(l & rest & Hs)].
  - apply Hold, in_flight_cases.
    destruct (Hqueue probe Hin) as [Hq0|(k & pk & l & rest & Hk & Hs)].
    + exists j, q. split; [done|by left].
    + exists k, pk. split; [done|]. right. by exists l, (j :: rest).
  - destruct (Hsend l probe rest Hs)
      as [(rest0 & Hs0 & _)|[(_ & _ & _ & _ & He)|(_ & _ & old & tail & _ & _ & _ & He)]].
    + apply Hold, in_flight_cases. exists j, q. split; [done|]. right. by exists l, rest0.
    + apply step_arrays in Hstep. rewrite He in Hstep. destruct Hstep as (p & _ & Heq).
      pose proof (valid_slice_literal (arrays s) (ID p)) as Hv. by rewrite <- Heq in Hv.
    + apply step_arrays in Hstep. rewrite He in Hstep.
      destruct Hstep as (p & _ & Hfo & _ & _ & _ & Heq).
      pose proof (valid_slice_append g (arrays s) (Visited old) (ID p) (Hinv old Hfo)) as Hv.
      by rewrite <- Heq in Hv.
Qed.

Lemma run_slices_valid g sched :
  ∀ s s' tr, run g sched s = Some (s', tr) → slices_valid s → slices_valid s'.
Proof.
  induction sched as [|a sched IH]; intros s s' tr H Hinv; simpl in H.
  - by injection H as <- <-.
  - destruct (step g a s) as [[s1 e1]|] eqn:Hs; [|done].
    destruct (run g sched s1) as [[s2 e2]|] eqn:Hr; [|done].
    injection H as <- <-. eapply IH; [done|]. by eapply step_slices_valid.
Qed.

Lemma initial_slices_valid config topology : slices_valid (initial config topology).
Proof.
  intros probe Hfl. apply in_flight_cases in Hfl as (j & q & Hq & Hwhere).
  apply initial_lookup in Hq as (Hch & Hrun & Hhp & _).
  destruct Hwhere as [Hin|([] & rest & Hs)]; simpl in *.
  - rewrite Hch in Hin. by apply elem_of_nil in Hin.
  - congruence.
  - congruence.
Qed.

(** In a run from the start, a forward makes the probe as it should: same
    session and initiator, the forwarding process as sender, its id behind
    the path as it reads at that moment. *)
Lemma reachable_forward_fields g config topology sched s tr a s' i old newProbe :
  run g sched (initial config topology) = Some (s, tr) →
  step g a s = Some (s', [Forwarded i old newProbe]) →
  ∃ p, procs s !! i = Some p ∧
       SessionID newProbe = SessionID old ∧ Initiator newProbe = Initiator old ∧
       Sender newProbe = ID p ∧
       elems (arrays s') (Visited newProbe) = elems (arrays s) (Visited old) ++ [ID p] ∧
       elems (arrays s') (Visited old) = elems (arrays s) (Visited old).
Proof.
  intros Hrun Hstep.
  pose proof (run_slices_valid _ _ _ _ _ Hrun (initial_slices_valid config topology)) as Hinv.
  apply step_arrays in Hstep as (p & Hp & Hfl & Hsid & Hini & Hsnd & Heq).
  exists p. repeat split; try done.
  - pose proof (elems_append g (arrays s) (Visited old) (ID p) (Hinv old Hfl)) as H.
    by rewrite <- Heq in H.
  - pose proof (elems_append_old g (arrays s) (Visited old) (ID p) (Hinv old Hfl)) as H.
    by rewrite <- Heq in H.
Qed.

(** No system without a cycle in its wait-for graph ever reports. *)
Lemma acyclic_system_never_reports g config topology sched s tr :
  NoDup topology.*1 → acyclic (initial config topology) →
  run g sched (initial config topology) = Some (s, tr) →
  Forall (λ e, is_report e = false) tr.
Proof.
  intros Hnd Hac Hrun. eapply run_no_report; [exact Hrun| |done|].
  - by apply initial_unique_ids.
  - apply initial_came_along.
Qed.

(** *** Invariants and the effects of a run *)

Lemma run_invariant g (Inv : System → Prop) :
  (∀ a s s' e, step g a s = Some (s', e) → Inv s → Inv s') →
  ∀ sched s s' tr, run g sched s = Some (s', tr) → Inv s → Inv s'.
Proof.
  intros Hstep. induction sched as [|a sched IH]; intros s s' tr H Hinv; simpl in H.
  - by injection H as <- <-.
  - destruct (step g a s) as [[s1 e1]|] eqn:Hs; [|done].
    destruct (run g sched s1) as [[s2 e2]|] eqn:Hr; [|done].
    injection H as <- <-. eapply IH; [done|]. by eapply Hstep.
Qed.

Lemma run_effects g (Inv : System → Prop) (P : System → Effect → Prop) :
  (∀ a s s' e, step g a s = Some (s', e) → Inv s → Inv s') →
  (∀ a s s' e, step g a s = Some (s', e) → Inv s → Forall (P s) e) →
  (∀ s s' ef, Forall2 evolves (procs s) (procs s') → P s' ef → P s ef) →
  ∀ sched s s' tr, run g sched s = Some (s', tr) → Inv s → Forall (P s) tr.
Proof.
  intros Hstep Heff Hback.
  induction sched as [|a sched IH]; intros s s' tr H Hinv; simpl in H.
  - injection H as <- <-. constructor.
  - destruct (step g a s) as [[s1 e1]|] eqn:Hs; [|done].
    destruct (run g sched s1) as [[s2 e2]|] eqn:Hr; [|done].
    injection H as <- <-. apply Forall_app. split; [by eapply Heff|].
    eapply Forall_impl; [eapply IH; [done|by eapply Hstep]|].
    intros ef. apply Hback. by eapply step_evolves.
Qed.

(** *** A report closes a cycle *)

Lemma step_report_on_cycle g a s s' e :
  step g a s = Some (s', e) → unique_ids s ∧ came_along s → Forall (report_on_cycle s) e.
Proof.
  intros Hstep [Hu Hinv]. apply step_effect_cause in Hstep.
  eapply Forall_impl; [exact Hstep|]. intros [] Hcause; try done. simpl in *.
  destruct Hcause as (q & probe & tail & Hq & Hch & _ & Hini & _).
  destruct (Hinv _ _ Hq) as [Hinq _].
  destruct (Hinq probe) as (i & (pi & Hpi & Hid) & Htc); [rewrite Hch; left|].
  assert (i = p) as -> by (eapply unique_ids_eq; [done|done|done|congruence]).
  done.
Qed.

Lemma run_report_on_cycle g sched s s' tr :
  run g sched s = Some (s', tr) → unique_ids s → came_along s →
  Forall (report_on_cycle s) tr.
Proof.
  intros Hrun Hu Hinv.
  eapply (run_effects g (λ s, unique_ids s ∧ came_along s)); [| | |exact Hrun|done].
  - intros a s1 s2 e Hs [Hu1 Hinv1]. split.
    + eapply evolves_unique_ids; [|done]. by eapply step_evolves.
    + by eapply step_came_along.
  - apply step_report_on_cycle.
  - intros s1 s2 [] Hev; try done. simpl. intros Htc.
    eapply tc_mono; [|exact Htc]. intros x y. by apply evolves_succ_edge.
Qed.

(** *** At most one report per process and session *)

Lemma reports_app i sid tr1 tr2 :
  reports i sid (tr1 ++ tr2) = reports i sid tr1 + reports i sid tr2.
Proof. unfold reports. by rewrite filter_app, length_app. Qed.

Lemma step_reports g a s s' e i sid :
  step g a s = Some (s', e) →
  reports i sid e ≤ 1 ∧
  (reports i sid e = 1 →
   ∃ p p', procs s !! i = Some p ∧ flag (deadlockCache p) sid = false ∧
           procs s' !! i = Some p' ∧ flag (deadlockCache p') sid = true).
Proof.
  assert (reports i sid [] ≤ 1 ∧
    (reports i sid [] = 1 →
     ∃ p p', procs s !! i = Some p ∧ flag (deadlockCache p) sid = false ∧
             procs s' !! i = Some p' ∧ flag (deadlockCache p') sid = true)) as Hnil.
  { split; [apply Nat.le_0_l|done]. }
  assert (∀ ef, is_report_of i sid ef = false →
    reports i sid [ef] ≤ 1 ∧
    (reports i sid [ef] = 1 →
     ∃ p p', procs s !! i = Some p ∧ flag (deadlockCache p) sid = false ∧
             procs s' !! i = Some p' ∧ flag (deadlockCache p') sid = true)) as Hother.
  { intros ef Hef. unfold reports. rewrite filter_cons, decide_False by congruence.
    exact Hnil. }
  destruct a as [i0 now|i0|i0 l|i0 l]; simpl.
  - intros [= H]. revert H. unfold Run.
    destruct (procs s !! i0) as [p|]; [|by intros [= <- <-]].
    destruct (in_Run p); [by intros [= <- <-]|].
    destruct (0 <? _); [|by intros [= <- <-]]. simpl. intros [= <- <-]. by apply Hother.
  - intros [= H]. revert H. unfold receive.
    destruct (procs s !! i0) as [p|] eqn:Hp; [|by intros [= <- <-]].
    destruct (in_handleProbes p); [by intros [= <- <-]|].
    destruct (probeChan p) as [|probe rest]; [by intros [= <- <-]|].
    destruct (handleProbes _ _ _ _) as [[h p'] r] eqn:Hh.
    destruct r as [path|newProbe|]; intros [= <- <-]; [|by apply Hother..].
    destruct (is_report_of i sid (Reported i0 (SessionID probe) path)) eqn:Hf;
      [|by apply Hother].
    unfold reports. rewrite filter_cons, decide_True by done. simpl. split; [lia|].
    intros _. simpl in Hf. apply andb_true_iff in Hf as [Hi Hs].
    apply Nat.eqb_eq in Hi as ->. apply Z.eqb_eq in Hs as <-.
    apply handle_Report in Hh as (_ & Hc & _ & -> & _).
    exists p. eexists. split; [done|]. split; [done|]. simpl. split.
    + apply list_lookup_insert_eq. by eapply lookup_lt_Some.
    + simpl. apply flag_insert_eq.
  - unfold sendProbe.
    destruct (procs s !! i0) as [p|]; [|by intros [= <- <-]].
    destruct (sending l p) as [[probe [|succ rest]]|];
      [by intros [= <- <-]| |by intros [= <- <-]].
    destruct (procs s !! succ) as [q|]; [|done].
    destruct (_ <? _); intros [= <- <-]; [by apply Hother|done].
  - intros [= H]. revert H. unfold expire.
    destruct (procs s !! i0) as [p|]; [|by intros [= <- <-]].
    destruct (sending l p) as [[probe rest]|]; intros [= <- <-]; [by apply Hother|done].
Qed.

Lemma run_reports g sched :
  ∀ s s' tr i sid, run g sched s = Some (s', tr) →
    reports i sid tr ≤ 1 ∧
    (∀ p, procs s !! i = Some p → flag (deadlockCache p) sid = true → reports i sid tr = 0).
Proof.
  induction sched as [|a sched IH]; intros s s' tr i sid H; simpl in H.
  { injection H as <- <-. split; [apply Nat.le_0_l|done]. }
  destruct (step g a s) as [[s1 e1]|] eqn:Hs; [|done].
  destruct (run g sched s1) as [[s2 e2]|] eqn:Hr; [|done].
  injection H as <- <-. rewrite reports_app.
  destruct (step_reports _ _ _ _ _ i sid Hs) as [Hle1 Hone].
  destruct (IH _ _ _ i sid Hr) as [Hle2 Hzero].
  split.
  - destruct (decide (reports i sid e1 = 1)) as [E|E]; [|lia].
    destruct (Hone E) as (p & p1 & _ & _ & Hp1 & Hv1).
    rewrite (Hzero p1 Hp1 Hv1). lia.
  - intros p Hp Hv.
    assert (reports i sid e1 = 0) as ->.
    { destruct (decide (reports i sid e1 = 1)) as [E|E]; [|lia].
      destruct (Hone E) as (p0 & _ & Hp0 & Hv0 & _). congruence. }
    apply step_evolves in Hs.
    destruct (Forall2_evolves_lookup _ _ _ _ Hs Hp) as (p1 & Hp1 & _ & _ & _ & _ & Hc).
    rewrite (Hzero p1 Hp1); [done|]. by apply Hc.
Qed.

(** *** No process forwards a probe of its own *)

Lemma step_forward_of_another g a s s' e :
  step g a s = Some (s', e) → unique_ids s ∧ initiator_marked s →
  Forall (forward_of_another s) e.
Proof.
  intros Hstep [Hu Hinv]. apply step_effect_cause in Hstep.
  eapply Forall_impl; [exact Hstep|]. intros [] Hcause; try done. simpl in *.
  destruct Hcause as (q & tail & Hq & Hch & _ & _ & Hv).
  intros p0 Hp0 Hini. assert (p0 = q) as -> by congruence.
  assert (flag (visited q) (SessionID probe) = true) as Hv'; [|congruence].
  eapply (Hinv probe); [|exact Hq|done].
  exists p, q. split; [done|]. unfold flying. rewrite Hch. left.
Qed.

Lemma run_forward_of_another g sched s s' tr :
  run g sched s = Some (s', tr) → unique_ids s → initiator_marked s →
  Forall (forward_of_another s) tr.
Proof.
  intros Hrun Hu Hinv.
  eapply (run_effects g (λ s, unique_ids s ∧ initiator_marked s)); [| | |exact Hrun|done].
  - intros a s1 s2 e Hs [Hu1 Hinv1]. split.
    + eapply evolves_unique_ids; [|done]. by eapply step_evolves.
    + by eapply step_initiator_marked.
  - apply step_forward_of_another.
  - intros s1 s2 [] Hev; try done. simpl. intros H p0 Hp0.
    destruct (Forall2_evolves_lookup _ _ _ _ Hev Hp0) as (p1 & Hp1 & Hid & _).
    rewrite <- Hid. by apply H.
Qed.

(** *** The counter of the messages sent *)

Lemma deliveries_app i tr1 tr2 :
  deliveries i (tr1 ++ tr2) = deliveries i tr1 + deliveries i tr2.
Proof. unfold deliveries. by rewrite filter_app, length_app. Qed.

Lemma step_messagesSent g a s s' e i p :
  step g a s = Some (s', e) → procs s !! i = Some p →
  ∃ p', procs s' !! i = Some p' ∧
        messagesSent p' = Nat.iter (deliveries i e) int_incr (messagesSent p).
Proof.
  intros Hstep Hp.
  assert (∀ q, messagesSent q = messagesSent p → ∀ j,
            ∃ p', <[j := q]> (procs s) !! i = Some p' ∧ messagesSent p' = messagesSent p)
    as Hins.
  { intros q Hq j. destruct (decide (j = i)) as [->|Hne].
    - exists q. split; [|done]. apply list_lookup_insert_eq. by eapply lookup_lt_Some.
    - exists p. split; [|done]. by rewrite list_lookup_insert_ne. }
  destruct a as [i0 now|i0|i0 l|i0 l]; simpl in Hstep.
  - injection Hstep as Hstep. revert Hstep. unfold Run.
    destruct (procs s !! i0) as [p0|] eqn:Hp0; [|intros [= <- <-]; by exists p].
    destruct (in_Run p0); [intros [= <- <-]; by exists p|].
    destruct (0 <? _); [|intros [= <- <-]; by exists p]. simpl. intros [= <- <-]. simpl.
    destruct (decide (i0 = i)) as [->|Hne].
    + rewrite list_lookup_insert_eq by (by eapply lookup_lt_Some).
      eexists. split; [done|]. simpl. congruence.
    + rewrite list_lookup_insert_ne by done. by exists p.
  - injection Hstep as Hstep. revert Hstep. unfold receive.
    destruct (procs s !! i0) as [p0|] eqn:Hp0; [|intros [= <- <-]; by exists p].
    destruct (in_handleProbes p0); [intros [= <- <-]; by exists p|].
    destruct (probeChan p0) as [|probe rest]; [intros [= <- <-]; by exists p|].
    destruct (handleProbes _ _ _ _) as [[h p'] r] eqn:Hh.
    assert (i0 = i → messagesSent p' = messagesSent p) as Hsame.
    { intros ->. assert (p0 = p) as -> by congruence. revert Hh. unfold handleProbes.
      destruct (_ && _); [by intros [= <- <- <-]|].
      destruct (_ && _); [|by intros [= <- <- <-]].
      destruct (append _ _ _ _). by intros [= <- <- <-]. }
    destruct r as [path|newProbe|]; intros [= <- <-]; simpl;
      (destruct (decide (i0 = i)) as [->|Hne];
       [rewrite list_lookup_insert_eq by (by eapply lookup_lt_Some);
        eexists; split; [done|]; try destruct l; simpl; by apply Hsame
       |rewrite list_lookup_insert_ne by done; by exists p]).
  - revert Hstep. unfold sendProbe.
    destruct (procs s !! i0) as [p0|] eqn:Hp0; [|intros [= <- <-]; by exists p].
    destruct (sending l p0) as [[probe [|succ rest]]|] eqn:Hsend;
      [|  |intros [= <- <-]; by exists p].
    { intros [= <- <-]. simpl. destruct (decide (i0 = i)) as [->|Hne].
      - rewrite list_lookup_insert_eq by (by eapply lookup_lt_Some).
        eexists. split; [done|]. assert (p0 = p) as -> by congruence. by destruct l.
      - rewrite list_lookup_insert_ne by done. by exists p. }
    destruct (procs s !! succ) as [q|] eqn:Hq; [|done].
    destruct (_ <? _); [|intros [= <- <-]; by exists p].
    intros [= <- <-]. simpl.
    assert (∃ p1, <[succ := with_probeChan (probeChan q ++ [probe]) q]> (procs s) !! i
                  = Some p1 ∧ messagesSent p1 = messagesSent p) as (p1 & Hp1 & Hm1).
    { destruct (decide (succ = i)) as [->|Hne].
      - rewrite list_lookup_insert_eq by (by eapply lookup_lt_Some).
        eexists. split; [done|]. simpl. congruence.
      - rewrite list_lookup_insert_ne by done. by exists p. }
    unfold deliveries. destruct (decide (i0 = i)) as [->|Hne].
    + rewrite list_lookup_alter_eq, Hp1. simpl. eexists. split; [done|].
      rewrite filter_cons, decide_True by (simpl; apply Nat.eqb_refl).
      simpl. rewrite <- Hm1. by destruct l.
    + rewrite list_lookup_alter_ne by done. exists p1. split; [done|].
      rewrite filter_cons, decide_False; [done|]. simpl.
      intros Heq%Nat.eqb_eq. done.
  - injection Hstep as Hstep. revert Hstep. unfold expire.
    destruct (procs s !! i0) as [p0|] eqn:Hp0; [|intros [= <- <-]; by exists p].
    destruct (sending l p0) as [[probe rest]|]; [|intros [= <- <-]; by exists p].
    intros [= <- <-]. simpl. destruct (decide (i0 = i)) as [->|Hne].
    + rewrite list_lookup_insert_eq by (by eapply lookup_lt_Some).
      eexists. split; [done|]. assert (p0 = p) as -> by congruence. by destruct l.
    + rewrite list_lookup_insert_ne by done. by exists p.
Qed.

Lemma run_messagesSent g sched :
  ∀ s s' tr i p, run g sched s = Some (s', tr) → procs s !! i = Some p →
    ∃ p', procs s' !! i = Some p' ∧
          messagesSent p' = Nat.iter (deliveries i tr) int_incr (messagesSent p).
Proof.
  induction sched as [|a sched IH]; intros s s' tr i p H Hp; simpl in H.
  { injection H as <- <-. by exists p. }
  destruct (step g a s) as [[s1 e1]|] eqn:Hs; [|done].
  destruct (run g sched s1) as [[s2 e2]|] eqn:Hr; [|done].
  injection H as <- <-.
  destruct (step_messagesSent _ _ _ _ _ _ _ Hs Hp) as (p1 & Hp1 & Hm1).
  destruct (IH _ _ _ _ _ Hr Hp1) as (p2 & Hp2 & Hm2).
  exists p2. split; [done|].
  rewrite Hm2, Hm1, deliveries_app, (Nat.add_comm (deliveries i e1)). by rewrite Nat.iter_add.
Qed.

Lemma iter_int_incr n : Nat.iter n int_incr 0%Z = wrap_int (Z.of_nat n).
Proof.
  induction n as [|n IH]; [done|].
  simpl Nat.iter. rewrite IH, RpcServerFacts.wrap_int_incr. f_equal. lia.
Qed.

(** *** The channels stay within their buffers *)

Lemma step_within_buffer g a s s' e :
  step g a s = Some (s', e) → within_buffer s → within_buffer s'.
Proof.
  intros Hstep Hinv j q' Hq'.
  destruct (step_origin_spec _ _ _ _ _ _ _ Hstep Hq') as (q & Hq & (_ & _ & Hcfg & _) & _).
  rewrite Hcfg. specialize (Hinv j q Hq).
  destruct a as [i0 now|i0|i0 l|i0 l]; simpl in Hstep.
  - injection Hstep as Hstep. revert Hstep Hq'. unfold Run.
    destruct (procs s !! i0) as [p0|] eqn:Hp0; [|intros [= <- <-]; congruence].
    destruct (in_Run p0); [intros [= <- <-]; congruence|].
    destruct (0 <? _); [|intros [= <- <-]; congruence]. simpl. intros [= <- <-]. simpl.
    destruct (decide (i0 = j)) as [->|Hne].
    + rewrite list_lookup_insert_eq by (by eapply lookup_lt_Some).
      intros [= <-]. simpl. congruence.
    + rewrite list_lookup_insert_ne by done. congruence.
  - injection Hstep as Hstep. revert Hstep Hq'. unfold receive.
    destruct (procs s !! i0) as [p0|] eqn:Hp0; [|intros [= <- <-]; congruence].
    destruct (in_handleProbes p0); [intros [= <- <-]; congruence|].
    destruct (probeChan p0) as [|probe rest] eqn:Hch; [intros [= <- <-]; congruence|].
    destruct (handleProbes _ _ _ _) as [[h p'] r] eqn:Hh.
    assert (i0 = j → length (probeChan p') ≤ ChanBufferSize (config q)) as Hsame.
    { intros ->. assert (p0 = q) as -> by congruence. rewrite Hch in Hinv. simpl in Hinv.
      revert Hh. unfold handleProbes.
      destruct (_ && _); [intros [= <- <- <-]; simpl; lia|].
      destruct (_ && _); [|intros [= <- <- <-]; simpl; lia].
      destruct (append _ _ _ _). intros [= <- <- <-]. simpl. lia. }
    destruct r as [path|newProbe|]; intros [= <- <-]; simpl;
      (destruct (decide (i0 = j)) as [->|Hne];
       [rewrite list_lookup_insert_eq by (by eapply lookup_lt_Some);
        intros [= <-]; try destruct l; simpl; by apply Hsame
       |rewrite list_lookup_insert_ne by done; congruence]).
  - revert Hstep Hq'. unfold sendProbe.
    destruct (procs s !! i0) as [p0|] eqn:Hp0; [|intros [= <- <-]; congruence].
    destruct (sending l p0) as [[probe [|succ rest]]|] eqn:Hsend;
      [|  |intros [= <- <-]; congruence].
    { intros [= <- <-]. simpl. destruct (decide (i0 = j)) as [->|Hne].
      - rewrite list_lookup_insert_eq by (by eapply lookup_lt_Some).
        intros [= <-]. assert (p0 = q) as -> by congruence. by destruct l.
      - rewrite list_lookup_insert_ne by done. congruence. }
    destruct (procs s !! succ) as [qs|] eqn:Hqs; [|done].
    destruct (_ <? _) eqn:Hroom; [|intros [= <- <-]; congruence].
    apply Nat.ltb_lt in Hroom.
    intros [= <- <-]. simpl.
    assert (∀ p1, <[succ := with_probeChan (probeChan qs ++ [probe]) qs]> (procs s) !! j
                  = Some p1 → length (probeChan p1) ≤ ChanBufferSize (config q)) as Hp1.
    { intros p1. destruct (decide (succ = j)) as [->|Hne].
      - rewrite list_lookup_insert_eq by (by eapply lookup_lt_Some).
        intros [= <-]. simpl. rewrite length_app. simpl.
        assert (qs = q) as -> by congruence. lia.
      - rewrite list_lookup_insert_ne by done. congruence. }
    destruct (decide (i0 = j)) as [->|Hne].
    + rewrite list_lookup_alter_eq.
      destruct (<[succ := _]> (procs s) !! j) as [p1|] eqn:Hl; [|done].
      simpl. intros [= <-]. specialize (Hp1 p1 eq_refl). by destruct l.
    + rewrite list_lookup_alter_ne by done. apply Hp1.
  - injection Hstep as Hstep. revert Hstep Hq'. unfold expire.
    destruct (procs s !! i0) as [p0|] eqn:Hp0; [|intros [= <- <-]; congruence].
    destruct (sending l p0) as [[probe rest]|]; [|intros [= <- <-]; congruence].
    intros [= <- <-]. simpl. destruct (decide (i0 = j)) as [->|Hne].
    + rewrite list_lookup_insert_eq by (by eapply lookup_lt_Some).
      intros [= <-]. assert (p0 = q) as -> by congruence. by destruct l.
    + rewrite list_lookup_insert_ne by done. congruence.
Qed.

Lemma initial_within_buffer config topology : within_buffer (initial config topology).
Proof.
  intros j q Hq. apply initial_lookup in Hq as (-> & _). simpl. lia.
Qed.

(** *** Every path begins with the initiator *)

Lemma rooted_valid h probe : rooted h probe → valid_slice h (Visited probe).
Proof. intros (a & Ha & Hcap & Hlen & _). exists a. split; [done|]. split; [done|lia]. Qed.

Lemma rooted_app h a probe : rooted h probe → rooted (h ++ [a]) probe.
Proof.
  intros (b & Hb & Hrest). exists b. split; [|done].
  rewrite lookup_app_l; [done|]. by eapply lookup_lt_Some.
Qed.

Lemma rooted_literal h probe :
  Visited probe = (literal h (Initiator probe)).2 → rooted (literal h (Initiator probe)).1 probe.
Proof.
  intros Hv. exists [Initiator probe]. rewrite Hv. simpl.
  split; [by rewrite lookup_app_r, Nat.sub_diag|]. split; [done|]. split; [lia|done].
Qed.

Lemma rooted_append_old g h s v probe :
  0 < len s → rooted h probe → rooted (append g h s v).1 probe.
Proof.
  intros Hs Hx. unfold append. destruct (decide (len s < cap s)); simpl.
  - destruct Hx as (b & Hb & Hcap & Hlen & H0).
    destruct (decide (arr s = arr (Visited probe))) as [Heq|Hne].
    + exists (<[len s := v]> b). rewrite Heq, list_lookup_alter_eq, Hb. simpl.
      rewrite length_insert. split; [done|]. split; [done|]. split; [done|].
      rewrite list_lookup_insert_ne by lia. done.
    + exists b. by rewrite list_lookup_alter_ne.
  - by apply rooted_app.
Qed.

Lemma rooted_append g h old new v :
  rooted h old → Initiator new = Initiator old →
  Visited new = (append g h (Visited old) v).2 →
  rooted (append g h (Visited old) v).1 new.
Proof.
  intros (b & Hb & Hcap & Hlen & H0) Hini Hv. unfold rooted. rewrite Hv, Hini.
  unfold append, elems. rewrite Hb.
  destruct (decide (len (Visited old) < cap (Visited old))); simpl.
  - exists (<[len (Visited old) := v]> b). rewrite list_lookup_alter_eq, Hb. simpl.
    rewrite length_insert. split; [done|]. split; [done|]. split; [lia|].
    rewrite list_lookup_insert_ne by lia. done.
  - eexists. rewrite lookup_app_r, Nat.sub_diag by done. simpl. split; [done|].
    split; [|split; [lia|]].
    + rewrite length_app, length_take. simpl. rewrite length_replicate. lia.
    + rewrite lookup_app_l by (rewrite length_take; lia).
      rewrite lookup_take_lt by lia. done.
Qed.

Lemma step_paths_rooted g a s s' e :
  step g a s = Some (s', e) → paths_rooted s → paths_rooted s'.
Proof.
  intros Hstep Hinv probe Hfl.
  apply in_flight_cases in Hfl as (j & q' & Hq' & Hwhere).
  destruct (step_origin_spec _ _ _ _ _ _ _ Hstep Hq') as (q & Hq & _ & Hqueue & Hsend).
  pose proof (step_arrays _ _ _ _ _ Hstep) as Harr.
  assert (in_flight s probe → rooted (arrays s') probe) as Hold.
  { intros Hfl. pose proof (Hinv probe Hfl) as Hr.
    destruct e as [|[i0 pr|i0 sid path|i0 old newProbe|i0 pr|i0 succ pr|i0 l pr] [|e2 e]];
      try (by rewrite Harr).
    - destruct Harr as (p & _ & Heq).
      replace (arrays s') with (literal (arrays s) (ID p)).1 by (by rewrite <- Heq).
      by apply rooted_app.
    - destruct Harr as (p & _ & Hfo & _ & _ & _ & Heq).
      replace (arrays s') with (append g (arrays s) (Visited old) (ID p)).1
        by (by rewrite <- Heq).
      apply rooted_append_old; [|done].
      destruct (Hinv old Hfo) as (b & _ & _ & Hl & _). lia. }
  destruct Hwhere as [Hin|(l & rest & Hs)].
  - apply Hold, in_flight_cases.
    destruct (Hqueue probe Hin) as [Hq0|(k & pk & l & rest & Hk & Hs)].
    + exists j, q. split; [done|by left].
    + exists k, pk. split; [done|]. right. by exists l, (j :: rest).
  - destruct (Hsend l probe rest Hs)
      as [(rest0 & Hs0 & _)|[(_ & _ & Hini & _ & He)|(_ & _ & old & tail & _ & _ & Hini & He)]].
    + apply Hold, in_flight_cases. exists j, q. split; [done|]. right. by exists l, rest0.
    + rewrite He in Harr. destruct Harr as (p & Hp & Heq).
      assert (p = q) as -> by congruence.
      replace (arrays s') with (literal (arrays s) (Initiator probe)).1
        by (by rewrite Hini, <- Heq).
      apply rooted_literal. by rewrite Hini, <- Heq.
    + rewrite He in Harr. destruct Harr as (p & _ & Hfo & _ & _ & _ & Heq).
      replace (arrays s') with (append g (arrays s) (Visited old) (ID p)).1
        by (by rewrite <- Heq).
      apply rooted_append; [by apply Hinv|done|by rewrite <- Heq].
Qed.

Lemma initial_paths_rooted config topology : paths_rooted (initial config topology).
Proof.
  intros probe Hfl. apply in_flight_cases in Hfl as (j & q & Hq & Hwhere).
  apply initial_lookup in Hq as (Hch & Hrun & Hhp & _).
  destruct Hwhere as [Hin|([] & rest & Hs)]; simpl in *.
  - rewrite Hch in Hin. by apply elem_of_nil in Hin.
  - congruence.
  - congruence.
Qed.

Lemma step_report_from_reporter g a s s' e :
  step g a s = Some (s', e) → paths_rooted s → Forall (report_from_reporter s) e.
Proof.
  intros Hstep Hinv. apply step_effect_cause in Hstep.
  eapply Forall_impl; [exact Hstep|]. intros [] Hcause; try done. simpl in *.
  destruct Hcause as (q & probe & tail & Hq & Hch & _ & Hini & _ & _ & ->).
  destruct (Hinv probe) as (b & Hb & Hcap & Hlen & H0).
  { exists p, q. split; [done|]. unfold flying. rewrite Hch. left. }
  exists q. unfold elems. rewrite Hb. simpl.
  destruct b as [|x b]; [done|]. simpl in H0. injection H0 as ->.
  destruct (len (Visited probe)) as [|n]; [lia|]. simpl.
  exists (take n b). split; [done|]. by rewrite Hini.
Qed.

Lemma run_report_from_reporter g sched s s' tr :
  run g sched s = Some (s', tr) → paths_rooted s → Forall (report_from_reporter s) tr.
Proof.
  intros Hrun Hinv.
  eapply (run_effects g paths_rooted); [| | |exact Hrun|done].
  - intros a s1 s2 e. apply step_paths_rooted.
  - apply step_report_from_reporter.
  - intros s1 s2 [] Hev; try done. simpl. intros (p2 & rest & Hp2 & ->).
    destruct (Forall2_evolves_lookup_r _ _ _ _ Hev Hp2) as (p1 & Hp1 & Hid & _).
    exists p1, rest. split; [done|]. by rewrite Hid.
Qed.

(** *** No path is longer than the system *)

Lemma marked_le sid ps : marked sid ps ≤ length ps.
Proof. apply length_filter. Qed.

Lemma marked_evolves sid ps ps' :
  Forall2 evolves ps ps' → marked sid ps ≤ marked sid ps'.
Proof.
  unfold marked. induction 1 as [|q q' ps ps' (_ & _ & _ & Hv & _) _ IH]; [done|].
  rewrite !filter_cons. destruct (decide (flag (visited q) sid = true)) as [E|E].
  - rewrite decide_True by auto. simpl. lia.
  - destruct (decide (flag (visited q') sid = true)); simpl; lia.
Qed.

Lemma marked_evolves_more sid ps ps' j q q' :
  Forall2 evolves ps ps' → ps !! j = Some q → ps' !! j = Some q' →
  flag (visited q) sid = false → flag (visited q') sid = true →
  S (marked sid ps) ≤ marked sid ps'.
Proof.
  unfold marked. intros H. revert j.
  induction H as [|p p' ps ps' (_ & _ & _ & Hv & _) Hrest IH]; intros j Hq Hq' Hf Ht; [done|].
  rewrite !filter_cons. destruct j as [|j]; simpl in Hq, Hq'.
  - injection Hq as ->. injection Hq' as ->.
    rewrite decide_False by congruence. rewrite decide_True by done. simpl.
    apply le_n_S. by apply (marked_evolves sid).
  - specialize (IH j Hq Hq' Hf Ht).
    destruct (decide (flag (visited p) sid = true)) as [E|E].
    + rewrite decide_True by auto. simpl. lia.
    + destruct (decide (flag (visited p') sid = true)); simpl; lia.
Qed.

Lemma marked_pos sid ps j q :
  ps !! j = Some q → flag (visited q) sid = true → 1 ≤ marked sid ps.
Proof.
  unfold marked. revert j. induction ps as [|p ps IH]; intros j Hq Hf; [done|].
  rewrite filter_cons. destruct j as [|j]; simpl in Hq.
  - injection Hq as ->. rewrite decide_True by done. simpl. lia.
  - specialize (IH j Hq Hf). destruct (decide _); simpl; lia.
Qed.

Lemma len_literal h x : len (literal h x).2 = 1.
Proof. done. Qed.

Lemma len_append g h s x : len (append g h s x).2 = S (len s).
Proof. unfold append. by destruct (decide _). Qed.

Lemma step_paths_short g a s s' e :
  step g a s = Some (s', e) → paths_short s → paths_short s'.
Proof.
  intros Hstep Hinv probe Hfl.
  pose proof (step_evolves _ _ _ _ _ Hstep) as Hev.
  apply in_flight_cases in Hfl as (j & q' & Hq' & Hwhere).
  destruct (step_origin_spec _ _ _ _ _ _ _ Hstep Hq') as (q & Hq & _ & Hqueue & Hsend).
  pose proof (step_arrays _ _ _ _ _ Hstep) as Harr.
  assert (in_flight s probe → len (Visited probe) ≤ marked (SessionID probe) (procs s'))
    as Hold.
  { intros Hfl. etrans; [by apply Hinv|]. by apply marked_evolves. }
  destruct Hwhere as [Hin|(l & rest & Hs)].
  - apply Hold, in_flight_cases.
    destruct (Hqueue probe Hin) as [Hq0|(k & pk & l & rest & Hk & Hs)].
    + exists j, q. split; [done|by left].
    + exists k, pk. split; [done|]. right. by exists l, (j :: rest).
  - destruct (Hsend l probe rest Hs)
      as [(rest0 & Hs0 & _)|[(_ & _ & Hini & Hv & He)|(_ & _ & old & tail & Hch & Hsid & _ & He)]].
    + apply Hold, in_flight_cases. exists j, q. split; [done|]. right. by exists l, rest0.
    + rewrite He in Harr. destruct Harr as (p & Hp & Heq).
      replace (Visited probe) with (literal (arrays s) (ID p)).2 by (by rewrite <- Heq).
      rewrite len_literal. by eapply marked_pos.
    + rewrite He in Harr. destruct Harr as (p & _ & Hfo & _ & _ & _ & Heq).
      replace (Visited probe) with (append g (arrays s) (Visited old) (ID p)).2
        by (by rewrite <- Heq).
      rewrite len_append, Hsid. etrans; [apply le_n_S; by apply Hinv|].
      destruct (step_forwards _ _ _ _ _ j (SessionID old) Hstep) as [_ Hone].
      destruct Hone as (p0 & p1 & Hp0 & Hf0 & Hp1 & Hf1).
      { rewrite He, forwards_cons. simpl. by rewrite Nat.eqb_refl, Z.eqb_refl. }
      by eapply marked_evolves_more.
Qed.

Lemma initial_paths_short config topology : paths_short (initial config topology).
Proof.
  intros probe Hfl. apply in_flight_cases in Hfl as (j & q & Hq & Hwhere).
  apply initial_lookup in Hq as (Hch & Hrun & Hhp & _).
  destruct Hwhere as [Hin|([] & rest & Hs)]; simpl in *.
  - rewrite Hch in Hin. by apply elem_of_nil in Hin.
  - congruence.
  - congruence.
Qed.

Lemma step_single g a s s' e : step g a s = Some (s', e) → length e ≤ 1.
Proof.
  destruct a as [i now|i|i l|i l]; simpl.
  - intros [= H]. revert H. unfold Run.
    destruct (procs s !! i) as [p|]; [|by intros [= <- <-]; simpl; lia].
    destruct (in_Run p); [by intros [= <- <-]; simpl; lia|].
    destruct (0 <? _); simpl; intros [= <- <-]; simpl; lia.
  - intros [= H]. revert H. unfold receive.
    destruct (procs s !! i) as [p|]; [|by intros [= <- <-]; simpl; lia].
    destruct (in_handleProbes p); [by intros [= <- <-]; simpl; lia|].
    destruct (probeChan p) as [|probe tail]; [by intros [= <- <-]; simpl; lia|].
    destruct (handleProbes _ _ _ _) as [[h p'] r].
    destruct r; intros [= <- <-]; simpl; lia.
  - unfold sendProbe.
    destruct (procs s !! i) as [p|]; [|by intros [= <- <-]; simpl; lia].
    destruct (sending l p) as [[probe [|succ rest]]|];
      [by intros [= <- <-]; simpl; lia| |by intros [= <- <-]; simpl; lia].
    destruct (procs s !! succ) as [q|]; [|done].
    destruct (_ <? _); intros [= <- <-]; simpl; lia.
  - intros [= H]. revert H. unfold expire.
    destruct (procs s !! i) as [p|]; [|by intros [= <- <-]; simpl; lia].
    destruct (sending l p) as [[probe rest]|]; intros [= <- <-]; simpl; lia.
Qed.

Lemma step_path_within g a s s' e :
  step g a s = Some (s', e) → paths_short s → Forall (path_within s) e.
Proof.
  intros Hstep Hinv.
  pose proof (step_paths_short _ _ _ _ _ Hstep Hinv) as Hinv'.
  pose proof (step_evolves _ _ _ _ _ Hstep) as Hev.
  pose proof (Forall2_length _ _ _ Hev) as Hlen.
  pose proof (step_arrays _ _ _ _ _ Hstep) as Harr.
  pose proof (step_effect_cause _ _ _ _ _ Hstep) as Hcause.
  pose proof (step_single _ _ _ _ _ Hstep) as Hone.
  destruct e as [|[i0 pr|i0 sid path|i0 old newProbe|i0 pr|i0 succ pr|i0 l pr] [|e2 e]];
    try (simpl in Hone; lia); try (by repeat constructor).
  - destruct Harr as (p & Hp & Heq). repeat constructor. simpl.
    replace (Visited pr) with (literal (arrays s) (ID p)).2 by (by rewrite <- Heq).
    rewrite len_literal. apply lookup_lt_Some in Hp. lia.
  - inversion Hcause as [|? ? Hc1 _]; subst. repeat constructor. simpl in *.
    destruct Hc1 as (p & probe & tail & Hp & Hch & _ & _ & _ & _ & ->).
    unfold elems. rewrite length_take. etrans; [apply Nat.le_min_l|].
    etrans; [apply (Hinv probe)|apply marked_le].
    exists i0, p. split; [done|]. unfold flying. rewrite Hch. left.
  - destruct Harr as (p & Hp & Hfo & _ & _ & _ & Heq). repeat constructor. simpl.
    replace (Visited newProbe) with (append g (arrays s) (Visited old) (ID p)).2
      by (by rewrite <- Heq).
    rewrite len_append.
    inversion Hcause as [|? ? Hc1 _]; subst. simpl in Hc1.
    destruct Hc1 as (p0 & tail & Hp0 & Hch & _ & _ & Hv).
    destruct (step_forwards _ _ _ _ _ i0 (SessionID old) Hstep) as [_ Hfw].
    destruct Hfw as (p1 & p2 & Hp1 & Hf1 & Hp2 & Hf2).
    { rewrite forwards_cons. simpl. by rewrite Nat.eqb_refl, Z.eqb_refl. }
    etrans; [apply le_n_S; by apply Hinv|].
    etrans; [by eapply marked_evolves_more|]. rewrite Hlen. apply marked_le.
Qed.

Lemma run_path_within g sched s s' tr :
  run g sched s = Some (s', tr) → paths_short s → Forall (path_within s) tr.
Proof.
  intros Hrun Hinv.
  eapply (run_effects g paths_short); [| | |exact Hrun|done].
  - intros a s1 s2 e. apply step_paths_short.
  - apply step_path_within.
  - intros s1 s2 ef Hev. apply Forall2_length in Hev.
    destruct ef; simpl; try done; lia.
Qed.

(** *** A session goes round a cycle *)

Lemma run_app g sched1 sched2 s :
  run g (sched1 ++ sched2) s =
  match run g sched1 s with
  | Some (s1, t1) =>
      match run g sched2 s1 with
      | Some (s2, t2) => Some (s2, t1 ++ t2)
      | None => None
      end
  | None => None
  end.
Proof.
  revert s. induction sched1 as [|a sched1 IH]; intros s; simpl.
  - by destruct (run g sched2 s) as [[s2 t2]|].
  - destruct (step g a s) as [[s1 e1]|]; [|done]. rewrite IH.
    destruct (run g sched1 s1) as [[s2 t2]|]; [|done].
    destruct (run g sched2 s2) as [[s3 t3]|]; [|done]. by rewrite app_assoc.
Qed.

Lemma place_split y succs :
  y ∈ succs → ∃ pre post, succs = pre ++ y :: post ∧ place y succs = length pre.
Proof.
  induction succs as [|x succs IH]; intros Hin; [by apply elem_of_nil in Hin|].
  simpl. destruct (decide (x = y)) as [->|Hne].
  - by exists [], succs.
  - apply elem_of_cons in Hin as [->|Hin]; [done|].
    destruct (IH Hin) as (pre & post & -> & ->). by exists (x :: pre), post.
Qed.

Lemma grown_refl probe q : grown probe 0 q q.
Proof.
  do 5 (split; [done|]). split; [|done]. exists []. by rewrite app_nil_r.
Qed.

Lemma grown_trans probe n1 n2 q1 q2 q3 :
  grown probe n1 q1 q2 → grown probe n2 q2 q3 → grown probe (n1 + n2) q1 q3.
Proof.
  intros (Hid1 & Hs1 & Hc1 & Hv1 & Hd1 & (e1 & He1 & Hf1 & Hl1) & Hq1)
         (Hid2 & Hs2 & Hc2 & Hv2 & Hd2 & (e2 & He2 & Hf2 & Hl2) & Hq2).
  do 5 (split; [congruence|]). split; [|auto].
  exists (e1 ++ e2). rewrite He2, He1, <- app_assoc. split; [done|].
  split; [by apply Forall_app|]. rewrite length_app. lia.
Qed.

Lemma grown_more probe n n' q q' : n ≤ n' → grown probe n q q' → grown probe n' q q'.
Proof.
  intros Hle (Hid & Hs & Hc & Hv & Hd & (e & He & Hf & Hl) & Hq).
  do 5 (split; [done|]). split; [|done]. exists e. split; [done|]. split; [done|lia].
Qed.

Lemma sent_only_refl probe s : sent_only probe 0 s s.
Proof. split; [done|]. apply Forall_Forall2_diag, Forall_forall. intros q _. apply grown_refl. Qed.

Lemma sent_only_trans probe n1 n2 s1 s2 s3 :
  sent_only probe n1 s1 s2 → sent_only probe n2 s2 s3 → sent_only probe (n1 + n2) s1 s3.
Proof.
  intros [Ha1 H1] [Ha2 H2]. split; [congruence|].
  eapply Forall2_trans; [|exact H1|exact H2]. intros q1 q2 q3. apply grown_trans.
Qed.

Lemma sent_only_lookup probe n s s' z q :
  sent_only probe n s s' → procs s !! z = Some q →
  ∃ q', procs s' !! z = Some q' ∧ grown probe n q q'.
Proof. intros [_ H] Hq. by eapply Forall2_lookup_l. Qed.

Lemma sent_only_lookup_r probe n s s' z q' :
  sent_only probe n s s' → procs s' !! z = Some q' →
  ∃ q, procs s !! z = Some q ∧ grown probe n q q'.
Proof. intros [_ H] Hq. by eapply Forall2_lookup_r. Qed.

(** One send that goes through. *)
Lemma deliver_through s x l p probe t rest q :
  procs s !! x = Some p → sending l p = Some (probe, t :: rest) →
  procs s !! t = Some q → length (probeChan q) < ChanBufferSize (config q) →
  ∃ s', sendProbe x l s = Some (s', [Delivered x t probe]) ∧
        sent_only probe 1 s s' ∧
        (∃ p', procs s' !! x = Some p' ∧
               sending l p' = match rest with [] => None | _ => Some (probe, rest) end) ∧
        (∃ q' old, procs s' !! t = Some q' ∧ probeChan q' = old ++ [probe]).
Proof.
  intros Hp Hs Hq Hroom. unfold sendProbe. rewrite Hp, Hs, Hq.
  apply Nat.ltb_lt in Hroom. rewrite Hroom. eexists. split; [reflexivity|].
  set (q1 := with_probeChan (probeChan q ++ [probe]) q).
  set (next := match rest with [] => None | _ => Some (probe, rest) end).
  set (f := λ p1, with_sending l next (count_sent p1)).
  cbn [procs arrays set_proc].
  assert (∀ a b, grown probe 1 a b → sending l a ≠ None → grown probe 1 a (f b)) as Hf.
  { intros a b (Hid & Hsu & Hc & Hv & Hd & (e & He & Hfe & Hle) & Hsl) Hsa. unfold f.
    do 5 (split; [by destruct l|]). split.
    - exists e. by destruct l.
    - intros l' Hl'. rewrite sending_with_sending. destruct (decide (l' = l)) as [->|Hne]; [done|].
      destruct l, l'; simpl in *; try done;
        [by apply (Hsl HandleLoop)|by apply (Hsl RunLoop)]. }
  assert (grown probe 1 q q1) as Hq1.
  { do 5 (split; [done|]). split; [|done].
    exists [probe]. split; [done|]. split; [by constructor|done]. }
  split; [|split].
  - split; [done|]. cbn [procs]. apply Forall2_same_length_lookup_2.
    { by rewrite length_alter, length_insert. }
    intros z a b Ha. destruct (decide (z = x)) as [->|Hzx].
    + rewrite list_lookup_alter_eq. destruct (decide (x = t)) as [->|Hxt].
      * rewrite list_lookup_insert_eq by (by eapply lookup_lt_Some). simpl. intros [= <-].
        assert (a = q) as -> by congruence. apply Hf; [done|]. assert (q = p) as -> by congruence.
        by rewrite Hs.
      * rewrite list_lookup_insert_ne by done. rewrite Ha. simpl. intros [= <-].
        apply Hf; [eapply grown_more; [|apply grown_refl]; lia|].
        assert (a = p) as -> by congruence. by rewrite Hs.
    + rewrite list_lookup_alter_ne by done. destruct (decide (z = t)) as [->|Hzt].
      * rewrite list_lookup_insert_eq by (by eapply lookup_lt_Some). intros [= <-].
        by assert (a = q) as -> by congruence.
      * rewrite list_lookup_insert_ne by done. rewrite Ha. intros [= <-].
        eapply grown_more; [|apply grown_refl]. lia.
  - cbn [procs]. rewrite list_lookup_alter_eq.
    destruct (<[t := q1]> (procs s) !! x) as [p1|] eqn:Hp1.
    + eexists. split; [done|]. unfold f. by rewrite sending_with_sending, decide_True.
    + apply lookup_ge_None in Hp1. rewrite length_insert in Hp1.
      apply lookup_lt_Some in Hp. lia.
  - cbn [procs]. destruct (decide (x = t)) as [->|Hxt].
    + rewrite list_lookup_alter_eq.
      rewrite list_lookup_insert_eq by (by eapply lookup_lt_Some). simpl.
      eexists _, (probeChan q). split; [done|]. by destruct l.
    + rewrite list_lookup_alter_ne by done.
      rewrite list_lookup_insert_eq by (by eapply lookup_lt_Some).
      by exists q1, (probeChan q).
Qed.
(** The deadline of a [sendProbe]. *)
Lemma expire_through probe s x l p :
  procs s !! x = Some p →
  ∃ s' e, expire x l s = (s', e) ∧ sent_only probe 0 s s' ∧
          ∃ p', procs s' !! x = Some p' ∧ sending l p' = None.
Proof.
  intros Hp. unfold expire. rewrite Hp.
  destruct (sending l p) as [[pr rest]|] eqn:Hs.
  - eexists _, _. split; [reflexivity|]. split.
    + split; [done|]. cbn [procs set_proc]. apply Forall2_same_length_lookup_2.
      { by rewrite length_insert. }
      intros z a b Ha. destruct (decide (z = x)) as [->|Hzx].
      * rewrite list_lookup_insert_eq by (by eapply lookup_lt_Some). intros [= <-].
        assert (a = p) as -> by congruence.
        do 5 (split; [by destruct l|]). split.
        -- exists []. rewrite app_nil_r. by destruct l.
        -- intros l' Hl'. rewrite sending_with_sending. by destruct (decide (l' = l)).
      * rewrite list_lookup_insert_ne by done. rewrite Ha. intros [= <-]. apply grown_refl.
    + cbn [procs set_proc]. rewrite list_lookup_insert_eq by (by eapply lookup_lt_Some).
      eexists. split; [done|]. by rewrite sending_with_sending, decide_True.
  - eexists _, _. split; [reflexivity|]. split; [apply sent_only_refl|]. by exists p.
Qed.

(** The sends of a [sendProbe] up to the successor [y]. *)
Lemma hop_through g B x l probe y post :
  ∀ pre s p,
    procs s !! x = Some p → sending l p = Some (probe, pre ++ y :: post) →
    Forall (λ j, j < length (procs s)) (pre ++ [y]) →
    (∀ z q, procs s !! z = Some q → ChanBufferSize (config q) = B) →
    room B (S (length pre)) s →
    ∃ s' tr, run g (hop x l (length pre)) s = Some (s', tr) ∧
             sent_only probe (S (length pre)) s s' ∧
             (∃ p', procs s' !! x = Some p' ∧ sending l p' = None) ∧
             (∃ q' old, procs s' !! y = Some q' ∧ probeChan q' = old ++ [probe]).
Proof.
  induction pre as [|t pre IH]; intros s p Hp Hs Hin HB Hroom.
  - simpl in Hin. rewrite Forall_singleton in Hin.
    apply lookup_lt_is_Some in Hin as [q Hq].
    destruct (deliver_through s x l p probe y post q Hp Hs Hq)
      as (s1 & Hstep & Hsent & (p1 & Hp1 & _) & (q1 & old & Hq1 & Hold)).
    { rewrite (HB _ _ Hq). specialize (Hroom _ _ Hq). simpl in Hroom. lia. }
    destruct (expire_through probe s1 x l p1 Hp1) as (s2 & e2 & Hex & Hsent2 & Hp2).
    exists s2. eexists. unfold hop. simpl. rewrite Hstep, Hex. split; [reflexivity|].
    split; [by apply (sent_only_trans probe 1 0 s s1 s2)|]. split; [done|].
    destruct (sent_only_lookup _ _ _ _ _ _ Hsent2 Hq1)
      as (q2 & Hq2 & _ & _ & _ & _ & _ & (extra & Hextra & _ & Hlen) & _).
    destruct extra; [|simpl in Hlen; lia]. rewrite app_nil_r in Hextra.
    exists q2, old. split; [done|congruence].
  - simpl in Hin. rewrite Forall_cons in Hin. destruct Hin as [Ht Hin].
    apply lookup_lt_is_Some in Ht as [q Hq].
    destruct (deliver_through s x l p probe t (pre ++ y :: post) q Hp Hs Hq)
      as (s1 & Hstep & Hsent & (p1 & Hp1 & Hs1) & _).
    { rewrite (HB _ _ Hq). specialize (Hroom _ _ Hq). simpl in Hroom. lia. }
    assert (sending l p1 = Some (probe, pre ++ y :: post)) as Hs1'.
    { rewrite Hs1. by destruct pre. }
    pose proof (Forall2_length _ _ _ (proj2 Hsent)) as Hlen.
    destruct (IH s1 p1 Hp1 Hs1') as (s2 & tr & Hrun & Hsent2 & Hp2 & Hq2).
    + by rewrite <- Hlen.
    + intros z q' Hq'. destruct (sent_only_lookup_r _ _ _ _ _ _ Hsent Hq')
        as (q0 & Hq0 & _ & _ & Hc & _). rewrite Hc. by eapply HB.
    + intros z q' Hq'. destruct (sent_only_lookup_r _ _ _ _ _ _ Hsent Hq')
        as (q0 & Hq0 & _ & _ & _ & _ & _ & (extra & -> & _ & Hle) & _).
      specialize (Hroom _ _ Hq0). rewrite length_app. simpl in *. lia.
    + exists s2. eexists. unfold hop in *. simpl in *. rewrite Hstep, Hrun.
      split; [reflexivity|]. split; [|done].
      apply (sent_only_trans probe 1 (S (length pre)) s s1 s2); done.
Qed.

(** A probe of another initiator, taken by a process that has not marked
    the session and has successors, is forwarded. *)
Lemma receive_forward g s x p pr tail :
  procs s !! x = Some p → in_handleProbes p = None → probeChan p = pr :: tail →
  Initiator pr ≠ ID p → flag (visited p) (SessionID pr) = false → successors p ≠ [] →
  ∃ h newProbe,
    receive g x s =
      (mkSystem (<[x := with_sending HandleLoop (Some (newProbe, successors p))
                           (mark_visited (SessionID pr) (with_probeChan tail p))]> (procs s)) h,
       [Forwarded x pr newProbe]) ∧
    SessionID newProbe = SessionID pr ∧ Initiator newProbe = Initiator pr.
Proof.
  intros Hp Hh Hch Hini Hv Hsucc. unfold receive, handleProbes. rewrite Hp, Hh, Hch.
  cbn [ID with_probeChan deadlockCache visited successors].
  destruct (Z.eqb_spec (Initiator pr) (ID p)) as [|_]; [done|]. rewrite Hv.
  assert ((0 <? length (successors p)) = true) as ->.
  { apply Nat.ltb_lt. destruct (successors p); [done|simpl; lia]. }
  cbn [andb negb].
  destruct (append g (arrays s) (Visited pr) (ID p)) as [h v].
  eexists _, _. split; [reflexivity|]. done.
Qed.

(** The ticker of a process that has successors and is not sending. *)
Lemma tick_initiate now s x p :
  procs s !! x = Some p → in_Run p = None → successors p ≠ [] →
  ∃ probe,
    Run x now s =
      (mkSystem (<[x := with_sending RunLoop (Some (probe, successors p))
                           (mark_visited now p)]> (procs s))
                (arrays s ++ [[ID p]]),
       [Initiated x probe]) ∧
    SessionID probe = now ∧ Initiator probe = ID p.
Proof.
  intros Hp Hr Hsucc. unfold Run. rewrite Hp, Hr.
  assert ((0 <? length (successors p)) = true) as ->.
  { apply Nat.ltb_lt. destruct (successors p); [done|simpl; lia]. }
  cbn [literal]. eexists. split; [reflexivity|]. done.
Qed.
Lemma sent_only_more probe n n' s s' : n ≤ n' → sent_only probe n s s' → sent_only probe n' s s'.
Proof.
  intros Hle [Ha H]. split; [done|]. eapply Forall2_impl; [exact H|].
  intros q q'. by apply grown_more.
Qed.

Section round.
Variables (g : nat → nat) (config : Config) (topology : list (Z * list nat)).
Variables (now : Z) (c0 : nat) (id0 : Z) (succs0 : list nat).
Hypothesis Hnd : NoDup topology.*1.
Hypothesis Hwired : wired topology.
Hypothesis Hc0 : topology !! c0 = Some (id0, succs0).

(** What a process of a later state has from the topology. *)
Lemma later_lookup s z q :
  Forall2 evolves (procs (initial config topology)) (procs s) → procs s !! z = Some q →
  topology !! z = Some (ID q, successors q) ∧ Goroutines.config q = config ∧
  successors_of topology z = successors q.
Proof.
  intros Hev Hq.
  destruct (Forall2_evolves_lookup_r _ _ _ _ Hev Hq) as (q0 & Hq0 & Hid & Hsu & Hcf & _).
  unfold initial in Hq0. cbn [procs] in Hq0. rewrite list_lookup_fmap in Hq0.
  unfold successors_of.
  destruct (topology !! z) as [[id succs]|]; [|done]. simpl in Hq0. injection Hq0 as <-.
  simpl in *. by rewrite Hid, Hsu, Hcf.
Qed.

Lemma later_other_id s y q :
  Forall2 evolves (procs (initial config topology)) (procs s) → procs s !! y = Some q →
  y ≠ c0 → ID q ≠ id0.
Proof.
  intros Hev Hq Hne Heq. destruct (later_lookup s y q Hev Hq) as (Hy & _).
  apply Hne. eapply NoDup_lookup; [exact Hnd| |].
  - rewrite list_lookup_fmap, Hy. simpl. by rewrite Heq.
  - by rewrite list_lookup_fmap, Hc0.
Qed.

Lemma later_wired s x p :
  Forall2 evolves (procs (initial config topology)) (procs s) → procs s !! x = Some p →
  Forall (λ j, j < length (procs s)) (successors p).
Proof.
  intros Hev Hp. destruct (later_lookup s x p Hev Hp) as (Hx & _).
  apply Forall2_length in Hev. rewrite <- Hev. unfold initial. cbn [procs].
  rewrite length_map. unfold wired in Hwired. rewrite Forall_forall in Hwired.
  apply (Hwired (ID p, successors p)). by eapply list_elem_of_lookup_2.
Qed.

(** One leg: the process [x], which is sending the probe of the session,
    sends as far as its successor [y]. *)
Lemma hop_leg n x l y s p probe :
  Forall2 evolves (procs (initial config topology)) (procs s) →
  procs s !! x = Some p → sending l p = Some (probe, successors p) →
  of_session now id0 probe → y ∈ successors p →
  quiet_but x l s → one_session now id0 s →
  room (ChanBufferSize config) (length (successors p) + n) s →
  ∃ s1 tr, run g (hop x l (place y (successors_of topology x))) s = Some (s1, tr) ∧
           sent_only probe (length (successors p)) s s1 ∧
           quiet s1 ∧ one_session now id0 s1 ∧
           room (ChanBufferSize config) n s1 ∧ waiting y s1.
Proof.
  intros Hev Hp Hs Hprobe Hy Hquiet Hone Hroom.
  destruct (later_lookup s x p Hev Hp) as (_ & _ & ->).
  destruct (place_split y (successors p) Hy) as (pre & post & Hsplit & ->).
  pose proof (later_wired s x p Hev Hp) as Hw. rewrite Hsplit in Hw, Hs.
  assert (length (successors p) = length pre + S (length post)) as Hlen.
  { rewrite Hsplit, length_app. done. }
  destruct (hop_through g (ChanBufferSize config) x l probe y post pre s p Hp Hs)
    as (s1 & tr & Hrun & Hsent & (p1 & Hp1 & Hs1) & (q1 & old & Hq1 & Hold)).
  { rewrite Forall_app in Hw. destruct Hw as [Hpre Hrest]. apply Forall_app. split; [done|].
    apply Forall_cons in Hrest as [Hy' _]. by apply Forall_singleton. }
  { intros z q Hq. by destruct (later_lookup s z q Hev Hq) as (_ & -> & _). }
  { intros z q Hq. specialize (Hroom z q Hq). lia. }
  exists s1, tr. split; [done|]. split; [eapply sent_only_more; [|exact Hsent]; lia|].
  split; [|split; [|split]].
  - intros z q' l' Hq'.
    destruct (sent_only_lookup_r _ _ _ _ _ _ Hsent Hq') as (q & Hq & _ & _ & _ & _ & _ & _ & Hsl).
    destruct (decide ((z, l') = (x, l))) as [[= -> ->]|Hne].
    + by assert (q' = p1) as -> by congruence.
    + apply Hsl. by eapply Hquiet.
  - intros z q' pr Hq' Hin.
    destruct (sent_only_lookup_r _ _ _ _ _ _ Hsent Hq')
      as (q & Hq & _ & _ & _ & _ & _ & (extra & Hextra & Hall & _) & _).
    rewrite Hextra in Hin. apply elem_of_app in Hin as [Hin|Hin]; [by eapply Hone|].
    rewrite Forall_forall in Hall. by rewrite <- (Hall pr Hin).
  - intros z q' Hq'.
    destruct (sent_only_lookup_r _ _ _ _ _ _ Hsent Hq')
      as (q & Hq & _ & _ & _ & _ & _ & (extra & Hextra & _ & Hle) & _).
    specialize (Hroom z q Hq). rewrite Hextra, length_app. lia.
  - exists q1. destruct old as [|pr old]; simpl in Hold; eauto.
Qed.

(** The legs of a round, one after the other. *)
Lemma legs_through :
  ∀ todo x l s p probe,
    Forall2 evolves (procs (initial config topology)) (procs s) →
    NoDup (x :: todo) → c0 ∉ todo → links topology x todo c0 →
    procs s !! x = Some p → sending l p = Some (probe, successors p) →
    of_session now id0 probe →
    quiet_but x l s → one_session now id0 s → unmarked now todo s → unreported now c0 s →
    room (ChanBufferSize config) (load topology (x :: todo)) s →
    ∃ s' tr, run g (legs topology l x todo c0) s = Some (s', tr) ∧
             quiet s' ∧ one_session now id0 s' ∧ unreported now c0 s' ∧ waiting c0 s'.
Proof.
  induction todo as [|y todo IH];
    intros x l s p probe Hev Hnodup Hnot Hlinks Hp Hs Hprobe Hquiet Hone Hunm Hunr Hroom.
  - simpl in Hlinks. destruct (later_lookup s x p Hev Hp) as (_ & _ & Hsucc).
    rewrite Hsucc in Hlinks.
    destruct (hop_leg 0 x l c0 s p probe Hev Hp Hs Hprobe Hlinks Hquiet Hone)
      as (s1 & tr & Hrun & Hsent & Hq1 & Ho1 & _ & Hw1).
    { intros z q Hq. specialize (Hroom z q Hq). unfold load in Hroom. simpl in Hroom.
      rewrite Hsucc in Hroom. lia. }
    exists s1, tr. split; [done|]. split; [done|]. split; [done|]. split; [|done].
    intros q' Hq'. destruct (sent_only_lookup_r _ _ _ _ _ _ Hsent Hq')
      as (q & Hq & _ & _ & _ & _ & Hd & _). rewrite Hd. by apply Hunr.
  - simpl in Hlinks. destruct Hlinks as [Hy Hlinks].
    destruct (later_lookup s x p Hev Hp) as (_ & _ & Hsucc). rewrite Hsucc in Hy.
    apply NoDup_cons in Hnodup as [Hx Hnodup].
    assert (y ≠ c0) as Hyc0 by (intros ->; apply Hnot; left).
    assert (c0 ∉ todo) as Hnot' by (intros Hin; apply Hnot; by right).
    destruct (hop_leg (load topology (y :: todo)) x l y s p probe Hev Hp Hs Hprobe Hy Hquiet Hone)
      as (s1 & tr1 & Hrun1 & Hsent & Hq1 & Ho1 & Hr1 & (qy & pr & tail & Hqy & Hch)).
    { intros z q Hq. specialize (Hroom z q Hq). unfold load in *. simpl in *.
      rewrite Hsucc in Hroom. lia. }
    assert (Forall2 evolves (procs (initial config topology)) (procs s1)) as Hev1.
    { eapply Forall2_evolves_trans; [exact Hev|]. by eapply run_evolves. }
    destruct (Ho1 y qy pr Hqy) as [Hsid Hini]; [rewrite Hch; left|].
    destruct (later_lookup s1 y qy Hev1 Hqy) as (_ & _ & Hsuccy).
    destruct (receive_forward g s1 y qy pr tail Hqy) as (h & newProbe & Hrecv & Hsid' & Hini').
    { apply (Hq1 y qy HandleLoop Hqy). }
    { done. }
    { rewrite Hini. intros Heq. by eapply (later_other_id s1 y qy). }
    { rewrite Hsid.
      destruct (sent_only_lookup_r _ _ _ _ _ _ Hsent Hqy) as (q & Hq & _ & _ & _ & Hv & _).
      rewrite Hv. apply (Hunm y q); [left|done]. }
    { rewrite <- Hsuccy. destruct todo; simpl in Hlinks.
      - intros Hnil. rewrite Hnil in Hlinks. by apply elem_of_nil in Hlinks.
      - destruct Hlinks as [Hn _]. intros Hnil. rewrite Hnil in Hn. by apply elem_of_nil in Hn. }
    set (newp := with_sending HandleLoop (Some (newProbe, successors qy))
                   (mark_visited (SessionID pr) (with_probeChan tail qy))) in *.
    set (s2 := mkSystem (<[y := newp]> (procs s1)) h) in *.
    assert (procs s2 !! y = Some newp) as Hnewp.
    { unfold s2. cbn [procs]. apply list_lookup_insert_eq. by eapply lookup_lt_Some. }
    assert (∀ z q, z ≠ y → procs s2 !! z = Some q → procs s1 !! z = Some q) as Hother.
    { intros z q Hz. unfold s2. cbn [procs]. by rewrite list_lookup_insert_ne. }
    destruct (IH y HandleLoop s2 newp newProbe) as (s3 & tr3 & Hrun3 & Hrest); try done.
    + eapply Forall2_evolves_trans; [exact Hev1|].
      apply (step_evolves g (Receive y) s1 s2 [Forwarded y pr newProbe]). simpl. by rewrite Hrecv.
    + split; congruence.
    + intros z q l' Hq Hne. destruct (decide (z = y)) as [->|Hz].
      * assert (q = newp) as -> by congruence. destruct l'; [|done]. simpl.
        apply (Hq1 y qy RunLoop Hqy).
      * eapply Hq1. by apply Hother.
    + intros z q pr' Hq Hin. destruct (decide (z = y)) as [->|Hz].
      * assert (q = newp) as -> by congruence. simpl in Hin.
        apply (Ho1 y qy pr' Hqy). rewrite Hch. by right.
      * eapply Ho1; [|done]. by apply Hother.
    + intros z q Hz Hq. assert (z ≠ y) as Hzy by (intros ->; by apply NoDup_cons in Hnodup as [? _]).
      apply Hother in Hq; [|done].
      destruct (sent_only_lookup_r _ _ _ _ _ _ Hsent Hq) as (q0 & Hq0 & _ & _ & _ & Hv & _).
      rewrite Hv. apply (Hunm z q0); [by right|done].
    + intros q Hq. apply Hother in Hq; [|done].
      destruct (sent_only_lookup_r _ _ _ _ _ _ Hsent Hq) as (q0 & Hq0 & _ & _ & _ & _ & Hd & _).
      rewrite Hd. by apply Hunr.
    + intros z q Hq. destruct (decide (z = y)) as [->|Hz].
      * assert (q = newp) as -> by congruence. simpl.
        specialize (Hr1 y qy Hqy). rewrite Hch in Hr1. simpl in Hr1. lia.
      * eapply Hr1. by apply Hother.
    + exists s3. eexists. split; [|exact Hrest].
      cbn [legs]. rewrite run_app, Hrun1. cbn [run step]. rewrite Hrecv. fold s2.
      rewrite Hrun3. reflexivity.
Qed.

End round.

(** *** Probes are sent along the edges *)

Lemma step_delivery_on_edge g a s s' e :
  step g a s = Some (s', e) → came_along s → Forall (delivery_on_edge s) e.
Proof.
  intros Hstep Hinv. apply step_effect_cause in Hstep.
  eapply Forall_impl; [exact Hstep|]. intros [] Hcause; try done. simpl in *.
  destruct Hcause as (q & l & rest & Hq & Hs).
  destruct (Hinv _ _ Hq) as [_ Hins]. destruct (Hins _ _ _ Hs) as [Hsub _].
  exists q. split; [done|]. apply Hsub. left.
Qed.

Lemma run_delivery_on_edge g sched s s' tr :
  run g sched s = Some (s', tr) → came_along s → Forall (delivery_on_edge s) tr.
Proof.
  intros Hrun Hinv.
  eapply (run_effects g came_along); [| | |exact Hrun|done].
  - intros a s1 s2 e. apply step_came_along.
  - apply step_delivery_on_edge.
  - intros s1 s2 [] Hev; try done. simpl. by apply evolves_succ_edge.
Qed.

(** *** Cycles and cycles without repetition *)

Lemma links_app topology x l1 z l2 y :
  links topology x (l1 ++ z :: l2) y ↔ links topology x l1 z ∧ links topology z l2 y.
Proof.
  revert x. induction l1 as [|a l1 IH]; intros x; simpl; [done|].
  rewrite IH. tauto.
Qed.

Lemma tc_links topology x y :
  tc (λ a b, b ∈ successors_of topology a) x y → ∃ path, links topology x path y.
Proof.
  induction 1 as [a b Hab|a b c Hab _ [path Hpath]].
  - by exists [].
  - by exists (b :: path).
Qed.

Lemma links_tc topology path :
  ∀ x y, links topology x path y → tc (λ a b, b ∈ successors_of topology a) x y.
Proof.
  induction path as [|z path IH]; intros x y H; simpl in H.
  - by apply tc_once.
  - destruct H as [Hz H]. eapply tc_l; [exact Hz|by apply IH].
Qed.

Lemma repeated_split (l : list nat) :
  ¬ NoDup l → ∃ z l1 l2 l3, l = l1 ++ z :: l2 ++ z :: l3.
Proof.
  induction l as [|a l IH]; intros Hdup.
  { exfalso. apply Hdup. constructor. }
  destruct (decide (a ∈ l)) as [Hin|Hnin].
  - apply list_elem_of_split in Hin as (l2 & l3 & ->). by exists a, [], l2, l3.
  - destruct IH as (z & l1 & l2 & l3 & ->).
    { intros Hnd. apply Hdup. by constructor. }
    by exists z, (a :: l1), l2, l3.
Qed.

(** A way from [x] to [y] can be taken without passing a process twice. *)
Lemma links_shorten topology n :
  ∀ x path y, length path ≤ n → links topology x path y →
  ∃ path', links topology x path' y ∧ NoDup path' ∧ (x ∉ path') ∧ (y ∉ path').
Proof.
  induction n as [|n IH]; intros x path y Hlen H.
  { destruct path; [|simpl in Hlen; lia]. exists []. repeat split; try done.
    - constructor.
    - apply not_elem_of_nil.
    - apply not_elem_of_nil. }
  destruct (decide (x ∈ path)) as [Hx|Hx].
  { apply list_elem_of_split in Hx as (l1 & l2 & ->). apply links_app in H as [_ H].
    apply (IH x l2 y); [|done]. rewrite length_app in Hlen. simpl in Hlen. lia. }
  destruct (decide (y ∈ path)) as [Hy|Hy].
  { apply list_elem_of_split in Hy as (l1 & l2 & ->). apply links_app in H as [H _].
    apply (IH x l1 y); [|done]. rewrite length_app in Hlen. simpl in Hlen. lia. }
  destruct (decide (NoDup path)) as [Hnd|Hdup]; [by exists path|].
  apply repeated_split in Hdup as (z & l1 & l2 & l3 & ->).
  apply links_app in H as [H1 H]. apply (links_app topology z l2 z l3 y) in H as [_ H3].
  apply (IH x (l1 ++ z :: l3) y).
  - rewrite !length_app in *. simpl in *. rewrite length_app in Hlen. simpl in Hlen. lia.
  - by apply links_app.
Qed.

Lemma links_first topology x path y :
  links topology x path y → successors_of topology x ≠ [].
Proof.
  destruct path; simpl.
  - intros H Hnil. rewrite Hnil in H. by apply elem_of_nil in H.
  - intros [H _] Hnil. rewrite Hnil in H. by apply elem_of_nil in H.
Qed.

Lemma links_in_range topology path :
  ∀ x y, links topology x path y → Forall (λ z, z < length topology) (x :: path).
Proof.
  assert (∀ z, successors_of topology z ≠ [] → z < length topology) as Hlt.
  { intros z Hz. unfold successors_of in Hz.
    destruct (topology !! z) eqn:E; [by eapply lookup_lt_Some|done]. }
  induction path as [|z path IH]; intros x y H.
  - apply Forall_singleton, Hlt. by eapply links_first.
  - apply Forall_cons. split; [apply Hlt; by eapply links_first|].
    destruct H as [_ H]. by eapply IH.
Qed.

Lemma sum_list_submseteq (l k : list nat) : l ⊆+ k → sum_list l ≤ sum_list k.
Proof. induction 1; simpl; lia. Qed.

(** The processes of a cycle without repetition send no more than all
    processes together. *)
Lemma load_le_all topology c :
  NoDup c → Forall (λ z, z < length topology) c →
  load topology c ≤ load topology (seq 0 (length topology)).
Proof.
  intros Hnd Hc. unfold load. apply sum_list_submseteq, fmap_submseteq.
  apply NoDup_submseteq; [done|]. intros x Hx. rewrite Forall_forall in Hc.
  apply elem_of_seq. specialize (Hc x Hx). lia.
Qed.

Lemma initial_succ_edge config topology i j :
  succ_edge (initial config topology) i j ↔ j ∈ successors_of topology i.
Proof.
  unfold succ_edge, initial, successors_of. cbn [procs]. rewrite list_lookup_fmap.
  destruct (topology !! i) as [[id succs]|]; simpl.
  - split; [by intros (p & [= <-] & Hj)|]. intros Hj. by eexists.
  - split; [by intros (p & [=] & _)|]. intros Hj. by apply elem_of_nil in Hj.
Qed.

(** Any cycle through [i] holds one without repetition. *)
Lemma cycle_without_repetition config topology i :
  tc (succ_edge (initial config topology)) i i →
  ∃ rest, NoDup (i :: rest) ∧ links topology i rest i.
Proof.
  intros Htc.
  assert (tc (λ a b, b ∈ successors_of topology a) i i) as Htc'.
  { eapply tc_mono; [|exact Htc]. intros a b. by apply initial_succ_edge. }
  apply tc_links in Htc' as [path Hpath].
  destruct (links_shorten topology (length path) i path i) as (rest & H & Hnd & Hi & _);
    [done|done|].
  exists rest. split; [by constructor|done].
Qed.

(** *** The round, from the ticker to the report *)

Lemma round_through g config topology now c0 rest :
  NoDup topology.*1 → wired topology →
  NoDup (c0 :: rest) → links topology c0 rest c0 →
  load topology (c0 :: rest) ≤ ChanBufferSize config →
  ∃ s' tr path,
    run g (round topology now (c0 :: rest)) (initial config topology) = Some (s', tr) ∧
    last tr = Some (Reported c0 now path).
Proof.
  intros Hnd Hwired Hnodup Hlinks Hload.
  set (s0 := initial config topology).
  pose proof (links_first _ _ _ _ Hlinks) as Hsucc.
  unfold successors_of in Hsucc.
  destruct (topology !! c0) as [[id0 succs0]|] eqn:Hc0; [|done]. simpl in Hsucc.
  set (p0 := with_successors succs0 (NewProcess id0 config)).
  assert (procs s0 !! c0 = Some p0) as Hp0.
  { unfold s0, initial. cbn [procs]. by rewrite list_lookup_fmap, Hc0. }
  destruct (tick_initiate now s0 c0 p0 Hp0 eq_refl Hsucc) as (probe & Htick & Hsid & Hini).
  set (p1 := with_sending RunLoop (Some (probe, successors p0)) (mark_visited now p0)) in *.
  set (s1 := mkSystem (<[c0 := p1]> (procs s0)) (arrays s0 ++ [[ID p0]])) in *.
  assert (Forall2 evolves (procs s0) (procs s1)) as Hev.
  { apply (step_evolves g (Tick c0 now) s0 s1 [Initiated c0 probe]). simpl. by rewrite Htick. }
  assert (procs s1 !! c0 = Some p1) as Hp1.
  { unfold s1. cbn [procs]. apply list_lookup_insert_eq. by eapply lookup_lt_Some. }
  assert (∀ z q, z ≠ c0 → procs s1 !! z = Some q → procs s0 !! z = Some q) as Hother.
  { intros z q Hz. unfold s1. cbn [procs]. by rewrite list_lookup_insert_ne. }
  assert (∀ z q, procs s1 !! z = Some q → probeChan q = []) as Hempty.
  { intros z q Hq. destruct (decide (z = c0)) as [->|Hz].
    - by assert (q = p1) as -> by congruence.
    - apply Hother in Hq; [|done]. by apply initial_lookup in Hq as (-> & _). }
  destruct (legs_through g config topology now c0 id0 succs0
              Hnd Hwired Hc0 rest c0 RunLoop s1 p1 probe)
    as (s2 & tr & Hrun & Hquiet & Hone & Hunr & (q & pr & tail & Hq & Hch)); try done.
  - by apply NoDup_cons in Hnodup as [? _].
  - intros z q l' Hq Hne. destruct (decide (z = c0)) as [->|Hz].
    + assert (q = p1) as -> by congruence. by destruct l'.
    + apply Hother in Hq; [|done].
      apply initial_lookup in Hq as (_ & Hr & Hh & _). by destruct l'.
  - intros z q pr Hq Hin. rewrite (Hempty z q Hq) in Hin. by apply elem_of_nil in Hin.
  - intros z q Hz Hq. assert (z ≠ c0) as Hne.
    { intros ->. by apply NoDup_cons in Hnodup as [? _]. }
    apply Hother in Hq; [|done].
    apply initial_lookup in Hq as (_ & _ & _ & -> & _). done.
  - intros q Hq. by assert (q = p1) as -> by congruence.
  - intros z q Hq. rewrite (Hempty z q Hq). simpl. lia.
  - assert (Forall2 evolves (procs s0) (procs s2)) as Hev2.
    { eapply Forall2_evolves_trans; [exact Hev|]. by eapply run_evolves. }
    destruct (later_lookup config topology s2 c0 q Hev2 Hq) as (Hq0 & _).
    destruct (Hone c0 q pr Hq) as [Hsid' Hini']; [rewrite Hch; left|].
    pose proof (receive_closing g s2 c0 q pr tail Hq Hch (Hquiet c0 q HandleLoop Hq)) as Hrecv.
    rewrite Hsid' in Hrecv. eexists _, _, _. split.
    + cbn [round run step]. rewrite Htick. fold s1.
      rewrite run_app, Hrun. cbn [run step].
      rewrite Hrecv; [reflexivity| |by apply Hunr].
      rewrite Hini'. congruence.
    + rewrite app_nil_r, app_assoc. apply last_snoc.
Qed.

Lemma links_cycle config topology path x y :
  links topology x path y → tc (succ_edge (initial config topology)) x y.
Proof.
  intros H%links_tc. eapply tc_mono; [|exact H]. intros a b. by apply initial_succ_edge.
Qed.

(** *** A report is for a session of the reporter *)

Lemma run_history g (Inv : list Effect → System → Prop) (P : list Effect → Effect → Prop) :
  (∀ a s s' e tr, step g a s = Some (s', e) → Inv tr s → Inv (tr ++ e) s') →
  (∀ a s s' e tr, step g a s = Some (s', e) → Inv tr s → Forall (P (tr ++ e)) e) →
  (∀ tr tr' ef, P tr ef → P (tr ++ tr') ef) →
  ∀ sched s s' tr0 tr, run g sched s = Some (s', tr) → Inv tr0 s → Forall (P (tr0 ++ tr)) tr.
Proof.
  intros Hstep Heff Hmore.
  induction sched as [|a sched IH]; intros s s' tr0 tr H Hinv; simpl in H.
  - injection H as <- <-. constructor.
  - destruct (step g a s) as [[s1 e1]|] eqn:Hs; [|done].
    destruct (run g sched s1) as [[s2 e2]|] eqn:Hr; [|done].
    injection H as <- <-. apply Forall_app. split.
    + eapply Forall_impl; [by eapply Heff|]. intros ef Hef.
      rewrite app_assoc. by apply Hmore.
    + rewrite app_assoc. eapply IH; [done|]. by eapply Hstep.
Qed.

Lemma initiated_by_more tr tr' i sid : initiated_by tr i sid → initiated_by (tr ++ tr') i sid.
Proof. intros (probe & Hin & Hsid). exists probe. split; [|done]. apply elem_of_app. by left. Qed.

Lemma step_begun g a s s' e tr :
  step g a s = Some (s', e) → begun tr s → begun (tr ++ e) s'.
Proof.
  intros Hstep Hinv probe Hfl.
  pose proof (step_evolves _ _ _ _ _ Hstep) as Hev.
  apply in_flight_cases in Hfl as (j & q' & Hq' & Hwhere).
  destruct (step_origin_spec _ _ _ _ _ _ _ Hstep Hq') as (q & Hq & Hevq & Hqueue & Hsend).
  assert (∀ old, in_flight s old → SessionID probe = SessionID old →
                 Initiator probe = Initiator old →
                 ∃ i p, procs s' !! i = Some p ∧ ID p = Initiator probe ∧
                        initiated_by (tr ++ e) i (SessionID probe)) as Hold.
  { intros old Hfl Hsid Hini. destruct (Hinv old Hfl) as (i & p & Hp & Hid & Hby).
    destruct (Forall2_evolves_lookup _ _ _ _ Hev Hp) as (p' & Hp' & Hid' & _).
    exists i, p'. split; [done|]. split; [congruence|].
    rewrite Hsid. by apply initiated_by_more. }
  destruct Hwhere as [Hin|(l & rest & Hs)].
  - apply (Hold probe); [|done|done]. apply in_flight_cases.
    destruct (Hqueue probe Hin) as [Hq0|(k & pk & l & rest & Hk & Hs)].
    + exists j, q. split; [done|by left].
    + exists k, pk. split; [done|]. right. by exists l, (j :: rest).
  - destruct (Hsend l probe rest Hs)
      as [(rest0 & Hs0 & _)|[(_ & _ & Hini & _ & He)
                             |(_ & _ & old & tail & Hch & Hsid & Hini & He)]].
    + apply (Hold probe); [|done|done]. apply in_flight_cases.
      exists j, q. split; [done|]. right. by exists l, rest0.
    + exists j, q'. split; [done|]. destruct Hevq as (Hid & _). split; [congruence|].
      exists probe. split; [|done]. apply elem_of_app. right. rewrite He. left.
    + apply (Hold old); [|done|done]. exists j, q. split; [done|].
      unfold flying. rewrite Hch. left.
Qed.

Lemma step_report_of_own g a s s' e tr :
  step g a s = Some (s', e) → unique_ids s ∧ begun tr s → Forall (report_of_own (tr ++ e)) e.
Proof.
  intros Hstep [Hu Hinv]. apply step_effect_cause in Hstep.
  eapply Forall_impl; [exact Hstep|]. intros [] Hcause; try done. simpl in *.
  destruct Hcause as (q & probe & tail & Hq & Hch & _ & Hini & _ & -> & _).
  destruct (Hinv probe) as (i & pi & Hpi & Hid & Hby).
  { exists p, q. split; [done|]. unfold flying. rewrite Hch. left. }
  assert (i = p) as -> by (eapply unique_ids_eq; [done|done|done|congruence]).
  by apply initiated_by_more.
Qed.

Lemma run_report_of_own g sched s s' tr :
  run g sched s = Some (s', tr) → unique_ids s → begun [] s →
  Forall (report_of_own tr) tr.
Proof.
  intros Hrun Hu Hinv.
  apply (run_history g (λ tr s, unique_ids s ∧ begun tr s) report_of_own
           (λ a s1 s2 e tr1 Hs H,
              conj (evolves_unique_ids _ _ (step_evolves _ _ _ _ _ Hs) (proj1 H))
                   (step_begun _ _ _ _ _ _ Hs (proj2 H)))
           (step_report_of_own g)
           (λ tr1 tr2 ef, match ef with
                          | Reported i sid _ => initiated_by_more tr1 tr2 i sid
                          | _ => λ H, H
                          end)
           sched s s' [] tr Hrun (conj Hu Hinv)).
Qed.

Lemma initial_begun config topology : begun [] (initial config topology).
Proof.
  intros probe Hfl. apply in_flight_cases in Hfl as (j & q & Hq & Hwhere).
  apply initial_lookup in Hq as (Hch & Hrun & Hhp & _).
  destruct Hwhere as [Hin|([] & rest & Hs)]; simpl in *.
  - rewrite Hch in Hin. by apply elem_of_nil in Hin.
  - congruence.
  - congruence.
Qed.

(** *** The steps, case by case *)

Lemma step_moves g a s s' e : step g a s = Some (s', e) → moves g s e s'.
Proof.
  destruct a as [i now|i|i l|i l]; simpl.
  - intros [= H]. revert H. unfold Run.
    destruct (procs s !! i) as [p|] eqn:Hp; [|intros [= <- <-]; constructor].
    destruct (in_Run p) eqn:Hrun; [intros [= <- <-]; constructor|].
    destruct (0 <? length (successors p)) eqn:Hlen; [|intros [= <- <-]; constructor].
    simpl. intros [= <- <-]. apply moves_initiate; [done|done|].
    intros Hnil. by rewrite Hnil in Hlen.
  - intros [= H]. revert H. unfold receive.
    destruct (procs s !! i) as [p|] eqn:Hp; [|intros [= <- <-]; constructor].
    destruct (in_handleProbes p) eqn:Hhp; [intros [= <- <-]; constructor|].
    destruct (probeChan p) as [|probe tail] eqn:Hch; [intros [= <- <-]; constructor|].
    unfold handleProbes. cbn [ID deadlockCache visited successors with_probeChan].
    destruct (Z.eqb_spec (Initiator probe) (ID p)) as [Hini|Hini];
      [destruct (flag (deadlockCache p) (SessionID probe)) eqn:Hc|]; simpl.
    + destruct (flag (visited p) (SessionID probe)) eqn:Hv; simpl.
      { intros [= <- <-]. eapply moves_drop; [done|done|done| |];
          intros [? ?]; congruence. }
      destruct (0 <? length (successors p)) eqn:Hlen.
      * destruct (append g (arrays s) (Visited probe) (ID p)) as [h' v] eqn:Happ.
        intros [= <- <-].
        pose proof (moves_forward g s i p probe tail Hp Hhp Hch) as Hm.
        rewrite Happ in Hm. apply Hm; [intros [? ?]; congruence|done|].
        intros Hnil. by rewrite Hnil in Hlen.
      * intros [= <- <-]. eapply moves_drop; [done|done|done| |].
        -- intros [? ?]; congruence.
        -- intros [_ Hs]. destruct (successors p); [done|]. done.
    + intros [= <- <-]. by eapply moves_report.
    + destruct (flag (visited p) (SessionID probe)) eqn:Hv; simpl.
      { intros [= <- <-]. eapply moves_drop; [done|done|done| |];
          intros [? ?]; congruence. }
      destruct (0 <? length (successors p)) eqn:Hlen.
      * destruct (append g (arrays s) (Visited probe) (ID p)) as [h' v] eqn:Happ.
        intros [= <- <-].
        pose proof (moves_forward g s i p probe tail Hp Hhp Hch) as Hm.
        rewrite Happ in Hm. apply Hm; [intros [? ?]; congruence|done|].
        intros Hnil. by rewrite Hnil in Hlen.
      * intros [= <- <-]. eapply moves_drop; [done|done|done| |].
        -- intros [? ?]; congruence.
        -- intros [_ Hs]. destruct (successors p); [done|]. done.
  - unfold sendProbe.
    destruct (procs s !! i) as [p|] eqn:Hp; [|intros [= <- <-]; constructor].
    destruct (sending l p) as [[probe [|succ rest]]|] eqn:Hs;
      [intros [= <- <-]; by eapply moves_sent| |intros [= <- <-]; constructor].
    destruct (procs s !! succ) as [q|] eqn:Hq; [|done].
    destruct (Nat.ltb_spec (length (probeChan q)) (ChanBufferSize (config q)));
      [|intros [= <- <-]; constructor].
    intros [= <- <-]. by eapply moves_deliver.
  - intros [= H]. revert H. unfold expire.
    destruct (procs s !! i) as [p|] eqn:Hp; [|intros [= <- <-]; constructor].
    destruct (sending l p) as [[probe rest]|] eqn:Hs; [|intros [= <- <-]; constructor].
    intros [= <- <-]. by eapply moves_give_up.
Qed.

(** *** Arrays and sessions *)

(** Where a probe in flight after a step comes from. *)
Lemma step_in_flight g a s s' e probe :
  step g a s = Some (s', e) → in_flight s' probe →
  in_flight s probe ∨ (∃ j, e = [Initiated j probe]) ∨
  (∃ j old, e = [Forwarded j old probe]).
Proof.
  intros Hstep Hfl.
  apply in_flight_cases in Hfl as (j & q' & Hq' & Hwhere).
  destruct (step_origin_spec _ _ _ _ _ _ _ Hstep Hq') as (q & Hq & _ & Hqueue & Hsend).
  destruct Hwhere as [Hin|(l & rest & Hs)].
  - left. apply in_flight_cases.
    destruct (Hqueue probe Hin) as [Hq0|(k & pk & l & rest & Hk & Hs)].
    + exists j, q. split; [done|by left].
    + exists k, pk. split; [done|]. right. by exists l, (j :: rest).
  - destruct (Hsend l probe rest Hs)
      as [(rest0 & Hs0 & _)|[(_ & _ & _ & _ & He)|(_ & _ & old & tail & _ & _ & _ & He)]].
    + left. apply in_flight_cases. exists j, q. split; [done|]. right. by exists l, rest0.
    + right. left. by exists j.
    + right. right. by exists j, old.
Qed.

Lemma append_arr g h s x :
  arr (append g h s x).2 = arr s ∨ arr (append g h s x).2 = length h.
Proof. unfold append. destruct (decide (len s < cap s)); [by left|by right]. Qed.

Lemma valid_slice_lt h v : valid_slice h v → arr v < length h.
Proof. intros (a & Ha & _). by eapply lookup_lt_Some. Qed.

Lemma elems_app h a v : valid_slice h v → elems (h ++ [a]) v = elems h v.
Proof. intros Hv. unfold elems. by rewrite lookup_app_l by by apply valid_slice_lt. Qed.

(** An [append] to a slice on another array leaves the elements alone. *)
Lemma elems_append_other g h s x v :
  valid_slice h v → arr v ≠ arr s → elems (append g h s x).1 v = elems h v.
Proof.
  intros Hv Hne. unfold append. destruct (decide (len s < cap s)); simpl.
  - unfold elems. by rewrite list_lookup_alter_ne.
  - by apply elems_app.
Qed.

Lemma step_arrays_by_session g a s s' e :
  step g a s = Some (s', e) → slices_valid s → arrays_by_session s → arrays_by_session s'.
Proof.
  intros Hstep Hval Hinv.
  assert (∀ pr1 pr2,
            (∃ j, e = [Initiated j pr1]) ∨ (∃ j old, e = [Forwarded j old pr1]) →
            in_flight s pr2 →
            arr (Visited pr1) = arr (Visited pr2) → SessionID pr1 = SessionID pr2) as Hnew.
  { intros pr1 pr2 H1 H2 Harr.
    pose proof (valid_slice_lt _ _ (Hval pr2 H2)) as Hlt.
    pose proof (step_arrays _ _ _ _ _ Hstep) as Harrs.
    destruct H1 as [(j & He)|(j & old & He)].
    - rewrite He in Harrs. destruct Harrs as (p & _ & Heq).
      injection Heq as _ Hv. rewrite Hv in Harr. simpl in Harr. lia.
    - rewrite He in Harrs. destruct Harrs as (p & _ & Hold & Hsid & _ & _ & Heq).
      pose proof (append_arr g (arrays s) (Visited old) (ID p)) as Hor.
      rewrite <- Heq in Hor. simpl in Hor. destruct Hor as [Hsame|Hfresh]; [|lia].
      rewrite Hsid. apply Hinv; [done|done|congruence]. }
  intros pr1 pr2 H1 H2 Harr.
  destruct (step_in_flight _ _ _ _ _ _ Hstep H1) as [Ho1|Hn1];
    destruct (step_in_flight _ _ _ _ _ _ Hstep H2) as [Ho2|Hn2].
  - by apply Hinv.
  - symmetry. by apply Hnew.
  - by apply Hnew.
  - destruct Hn1 as [(j1 & He1)|(j1 & o1 & He1)], Hn2 as [(j2 & He2)|(j2 & o2 & He2)];
      rewrite He1 in He2; by simplify_eq.
Qed.

(** *** One session on the ring of [main], under any schedule *)

Lemma ring_lookup s i p :
  on_ring s → procs s !! i = Some p →
  i < 4 ∧ ID p = Z.of_nat i ∧ successors p = [seat (S i)].
Proof.
  intros Hring Hp.
  destruct (Forall2_evolves_lookup_r _ _ _ _ Hring Hp) as (p0 & Hp0 & -> & -> & _).
  destruct i as [|[|[|[|i]]]]; simpl in Hp0; simplify_eq; simpl;
    (split; [lia|]); by split.
Qed.

Lemma ring_lookup_lt s i : on_ring s → i < 4 → ∃ p, procs s !! i = Some p.
Proof.
  intros Hring Hi. apply lookup_lt_is_Some_2.
  rewrite <- (Forall2_length _ _ _ Hring). simpl. lia.
Qed.

Lemma same_view_refl sid p : same_view sid p p.
Proof. by repeat split. Qed.

Lemma same_view_trans sid p1 p2 p3 :
  same_view sid p1 p2 → same_view sid p2 p3 → same_view sid p1 p3.
Proof.
  intros (A1 & B1 & C1 & D1) (A2 & B2 & C2 & D2).
  split; [congruence|]. split; [|split; congruence].
  intros l. by rewrite B2, B1.
Qed.

Lemma same_view_at_stage sid st token i p p' :
  same_view sid p p' → at_stage sid st token i p → at_stage sid st token i p'.
Proof.
  intros (A & B & C & D) (A' & B' & C' & D').
  split; [congruence|]. split; [|split; congruence].
  intros l. by rewrite B, B'.
Qed.

Lemma same_view_insert sid (l : list Process) i p p' :
  l !! i = Some p → same_view sid p p' →
  ∀ j q', <[i := p']> l !! j = Some q' → ∃ q, l !! j = Some q ∧ same_view sid q q'.
Proof.
  intros Hp Hv j q' Hq'. apply list_lookup_insert_Some in Hq' as [(-> & <- & _)|(Hne & Hq')].
  - by exists p.
  - exists q'. split; [done|apply same_view_refl].
Qed.

Lemma same_view_alter sid (l : list Process) i f :
  (∀ p, same_view sid p (f p)) →
  ∀ j q', alter f i l !! j = Some q' → ∃ q, l !! j = Some q ∧ same_view sid q q'.
Proof.
  intros Hf j q' Hq'. destruct (decide (j = i)) as [->|Hne].
  - rewrite list_lookup_alter_eq in Hq'. apply fmap_Some in Hq' as (q & Hq & ->).
    by exists q.
  - rewrite list_lookup_alter_ne in Hq' by done. exists q'. split; [done|apply same_view_refl].
Qed.

Lemma session_probe_other sid pr rest :
  SessionID pr ≠ sid → session_probe sid (Some (pr, rest)) = None.
Proof. intros Hne. simpl. by rewrite decide_False. Qed.

Lemma session_probe_Some sid o pr rest :
  session_probe sid o = Some (pr, rest) → o = Some (pr, rest) ∧ SessionID pr = sid.
Proof.
  destruct o as [[pr' rest']|]; simpl; [|done]. case_decide; [|done].
  intros [= <- <-]. done.
Qed.

Lemma session_probe_with_sending sid l l' o p :
  session_probe sid o = session_probe sid (sending l' p) →
  session_probe sid (sending l (with_sending l' o p)) = session_probe sid (sending l p).
Proof.
  intros Ho. rewrite sending_with_sending. case_decide; [|done].
  by subst.
Qed.

(** The probe of a session under way is in flight. *)
Lemma token_in_flight sid st token s :
  on_ring s → stage_ok st → in_course st →
  (∀ i p, procs s !! i = Some p → at_stage sid st token i p) →
  in_flight s token.
Proof.
  intros Hring Hok Hin Hall. apply in_flight_cases.
  destruct st as [|d|d|]; simpl in Hok, Hin; try done.
  - destruct (ring_lookup_lt s d Hring Hok) as [p Hp]. exists d, p. split; [done|].
    destruct (Hall d p Hp) as (_ & Hs & _). specialize (Hs (holder d)).
    unfold slot_at in Hs. rewrite decide_True in Hs by done.
    apply session_probe_Some in Hs as [Hs _]. right. eauto.
  - assert (seat d < 4) as Hlt by (unfold seat; case_decide; lia).
    destruct (ring_lookup_lt s (seat d) Hring Hlt) as [p Hp]. exists (seat d), p.
    split; [done|]. left.
    destruct (Hall _ p Hp) as (Hq & _). unfold queue_at in Hq.
    rewrite decide_True in Hq by done.
    assert (token ∈ filter (λ pr, SessionID pr = sid) (probeChan p)) as Hin'.
    { rewrite Hq. left. }
    by apply list_elem_of_filter in Hin' as [_ ?].
Qed.

Lemma filter_bool_snoc (f : Effect → bool) tr x :
  filter (λ e, f e = true) (tr ++ [x]) =
  filter (λ e, f e = true) tr ++ (if f x then [x] else []).
Proof.
  rewrite filter_app. f_equal. destruct (f x) eqn:Hx.
  - by rewrite filter_cons_True, filter_nil.
  - rewrite filter_cons_False, filter_nil; [done|]. by rewrite Hx.
Qed.

Lemma clean_session_app sid tr e : clean_session sid (tr ++ e) → clean_session sid tr.
Proof.
  intros (Hby & Hlen & Hloss). unfold session_initiations, session_losses in *.
  rewrite filter_app in Hlen. rewrite filter_app in Hloss. rewrite length_app in Hlen.
  apply app_eq_nil in Hloss as [Hloss _].
  split; [|split; [|done]].
  - intros i probe Hin. apply Hby, elem_of_app. by left.
  - unfold session_initiations. lia.
Qed.

(** A step that leaves alone what the processes hold of the session, the
    path of its probe and its effects, leaves the session where it is. *)
Lemma session_inv_neutral sid tr e s s' :
  on_ring s → session_inv sid tr s →
  (∀ j p', procs s' !! j = Some p' → ∃ p, procs s !! j = Some p ∧ same_view sid p p') →
  (∀ token, in_flight s token → SessionID token = sid →
     elems (arrays s') (Visited token) = elems (arrays s) (Visited token)) →
  session_initiations sid e = [] → session_hops sid e = [] → session_reports sid e = [] →
  session_inv sid (tr ++ e) s'.
Proof.
  intros Hring (st & token & Hok & Hall & Hcourse & Hini & Hhop & Hrep) Hview Harr Hi Hh Hr.
  exists st, token. split; [done|]. split; [|split; [|split; [|split]]].
  - intros j p' Hp'. destruct (Hview j p' Hp') as (p & Hp & Hsame).
    eapply same_view_at_stage; [done|]. by apply Hall.
  - intros Hin. destruct (Hcourse Hin) as (Hsid & Hinit & Hpath).
    split; [done|]. split; [done|]. rewrite <- Hpath. apply Harr; [|done].
    by eapply token_in_flight.
  - unfold session_initiations in *. by rewrite filter_app, Hi, app_nil_r.
  - unfold session_hops in *. by rewrite filter_app, Hh, app_nil_r.
  - unfold session_reports in *. by rewrite filter_app, Hr, app_nil_r.
Qed.

Lemma same_view_alter_at sid (l : list Process) i f :
  (∀ p, l !! i = Some p → same_view sid p (f p)) →
  ∀ j q', alter f i l !! j = Some q' → ∃ q, l !! j = Some q ∧ same_view sid q q'.
Proof.
  intros Hf j q' Hq'. destruct (decide (j = i)) as [->|Hne].
  - rewrite list_lookup_alter_eq in Hq'. apply fmap_Some in Hq' as (q & Hq & ->).
    exists q. split; [done|]. by apply Hf.
  - rewrite list_lookup_alter_ne in Hq' by done. exists q'. split; [done|apply same_view_refl].
Qed.

Lemma same_view_tail sid p pr tail :
  probeChan p = pr :: tail → SessionID pr ≠ sid → same_view sid p (with_probeChan tail p).
Proof.
  intros Hch Hne. split; [|split; [by intros []|done]].
  simpl. rewrite Hch. by rewrite filter_cons_False.
Qed.

Lemma same_view_snoc sid p pr :
  SessionID pr ≠ sid → same_view sid p (with_probeChan (probeChan p ++ [pr]) p).
Proof.
  intros Hne. split; [|split; [by intros []|done]].
  simpl. rewrite filter_app, filter_cons_False, filter_nil by done. by rewrite app_nil_r.
Qed.

Lemma same_view_mark_visited sid k p : k ≠ sid → same_view sid p (mark_visited k p).
Proof.
  intros Hne. split; [done|]. split; [by intros []|]. split; [|done].
  simpl. by apply flag_insert_ne.
Qed.

Lemma same_view_mark_reported sid k p : k ≠ sid → same_view sid p (mark_reported k p).
Proof.
  intros Hne. split; [done|]. split; [by intros []|]. split; [done|].
  simpl. by apply flag_insert_ne.
Qed.

Lemma same_view_count_sent sid p : same_view sid p (count_sent p).
Proof. split; [done|]. split; [by intros []|]. done. Qed.

Lemma same_view_with_sending sid l o p :
  session_probe sid o = session_probe sid (sending l p) →
  same_view sid p (with_sending l o p).
Proof.
  intros Ho. split; [by destruct l|]. split; [|by destruct l].
  intros l'. by apply session_probe_with_sending.
Qed.

Lemma session_singleton (f : Effect → bool) x :
  f x = false → filter (λ e, f e = true) [x] = [].
Proof. intros Hx. rewrite filter_cons_False, filter_nil; [done|]. by rewrite Hx. Qed.

(** The steps that do not touch the session. *)
Lemma moves_other g sid tr s e s' :
  moves g s e s' → on_ring s → slices_valid s → arrays_by_session s →
  session_inv sid tr s →
  match e with
  | [Initiated _ pr] | [Forwarded _ pr _] | [Dropped _ pr] | [Delivered _ _ pr]
  | [GaveUp _ _ pr] => SessionID pr ≠ sid
  | [Reported _ k _] => k ≠ sid
  | _ => True
  end →
  (∀ i l p pr, e = [] → procs s !! i = Some p → sending l p = Some (pr, []) →
               SessionID pr ≠ sid) →
  session_inv sid (tr ++ e) s'.
Proof.
  intros Hm Hring Hval Hown Hinv Hother Hsent.
  destruct Hm as [|i p now Hp Hrun Hsucc|i p pr tail Hp Hhp Hch Hini Hc
                  |i p pr tail Hp Hhp Hch Hnr Hv Hsucc|i p pr tail Hp Hhp Hch Hnr Hnf
                  |i l p pr Hp Hs|i l p pr succ rest q Hp Hs Hq Hroom|i l p pr rest Hp Hs].
  - by rewrite app_nil_r.
  - simpl in Hother. eapply session_inv_neutral; [done|done| | |..].
    + eapply same_view_insert; [done|].
      eapply same_view_trans; [by apply same_view_mark_visited|].
      apply same_view_with_sending. simpl. rewrite Hrun. by rewrite decide_False.
    + intros token Hfl _. by apply elems_app, Hval.
    + apply session_singleton. simpl. by apply Z.eqb_neq.
    + by apply session_singleton.
    + by apply session_singleton.
  - simpl in Hother. eapply session_inv_neutral; [done|done| | |..].
    + eapply same_view_insert; [done|].
      eapply same_view_trans; [eapply same_view_tail; [done|done]|].
      by apply same_view_mark_reported.
    + done.
    + by apply session_singleton.
    + by apply session_singleton.
    + apply session_singleton. simpl. by apply Z.eqb_neq.
  - simpl in Hother. eapply session_inv_neutral; [done|done| | |..].
    + eapply same_view_insert; [done|].
      eapply same_view_trans; [eapply same_view_tail; [done|done]|].
      eapply same_view_trans; [by apply same_view_mark_visited|].
      apply same_view_with_sending. simpl. rewrite Hhp. by rewrite decide_False.
    + intros token Hfl Hsid. apply elems_append_other; [by apply Hval|].
      intros Harr. apply Hother. rewrite <- Hsid. symmetry. apply Hown; [done| |done].
      apply in_flight_cases. exists i, p. split; [done|]. left. rewrite Hch. left.
    + by apply session_singleton.
    + by apply session_singleton.
    + by apply session_singleton.
  - simpl in Hother. eapply session_inv_neutral; [done|done| | |..].
    + eapply same_view_insert; [done|]. by eapply same_view_tail.
    + done.
    + by apply session_singleton.
    + by apply session_singleton.
    + by apply session_singleton.
  - specialize (Hsent i l p pr eq_refl Hp Hs). rewrite app_nil_r.
    replace tr with (tr ++ []) by apply app_nil_r.
    eapply session_inv_neutral; [done|done| | |done..].
    + eapply same_view_insert; [done|].
      apply same_view_with_sending. rewrite Hs. simpl. by rewrite decide_False.
    + done.
  - simpl in Hother. eapply session_inv_neutral; [done|done| | |..].
    + intros j p' Hp'.
      eapply (same_view_alter_at sid) in Hp' as (p1 & Hp1 & Hv1).
      * eapply (same_view_insert sid) in Hp1 as (p2 & Hp2 & Hv2); [| done |by apply same_view_snoc].
        exists p2. split; [done|]. by eapply same_view_trans.
      * intros p1 Hp1. eapply same_view_trans; [apply same_view_count_sent|].
        assert (sending l p1 = Some (pr, succ :: rest)) as Hs1.
        { apply list_lookup_insert_Some in Hp1 as [(<- & <- & _)|(_ & Hp1)].
          - assert (q = p) as -> by congruence. by destruct l.
          - congruence. }
        apply same_view_with_sending.
        replace (sending l (count_sent p1)) with (sending l p1) by (by destruct l).
        rewrite Hs1. simpl. rewrite decide_False by done. destruct rest; [done|].
        simpl. by rewrite decide_False.
    + done.
    + by apply session_singleton.
    + apply session_singleton. simpl. by apply Z.eqb_neq.
    + by apply session_singleton.
  - simpl in Hother. eapply session_inv_neutral; [done|done| | |..].
    + eapply same_view_insert; [done|].
      apply same_view_with_sending. rewrite Hs. simpl. by rewrite decide_False.
    + done.
    + by apply session_singleton.
    + by apply session_singleton.
    + by apply session_singleton.
Qed.

Lemma head_of_session sid st token i p pr tail :
  at_stage sid st token i p → probeChan p = pr :: tail → SessionID pr = sid →
  ∃ d, st = Queued d ∧ seat d = i ∧ pr = token ∧
       filter (λ pr, SessionID pr = sid) tail = [].
Proof.
  intros (Hq & _) Hch Hsid. rewrite Hch, filter_cons_True in Hq by done.
  destruct st as [|d|d|]; simpl in Hq; try done.
  case_decide; [|done]. injection Hq as -> ->. by exists d.
Qed.

Lemma slot_of_session sid st token i p l pr rest :
  at_stage sid st token i p → sending l p = Some (pr, rest) → SessionID pr = sid →
  st = Held i ∧ l = holder i ∧ pr = token ∧ rest = [seat (S i)].
Proof.
  intros (_ & Hs & _) Hl Hsid. specialize (Hs l). rewrite Hl in Hs. simpl in Hs.
  rewrite decide_True in Hs by done.
  destruct st as [|d|d|]; simpl in Hs; try done.
  case_decide as Hd; [|done]. destruct Hd as [-> ->]. by injection Hs as -> ->.
Qed.

Lemma session_singleton_true (f : Effect → bool) x :
  f x = true → filter (λ e, f e = true) [x] = [x].
Proof. intros Hx. by rewrite filter_cons_True, filter_nil. Qed.

Ltac stage_cases :=
  unfold at_stage, queue_at, slot_at, reported_at, marks, seat, holder in *;
  repeat (case_decide || case_bool_decide); try done; try lia.

(** Every step takes the session from a stage to the same or the next one,
    as long as its id is not used twice and none of its probes is given up. *)
Lemma moves_session g sid tr s e s' :
  moves g s e s' → on_ring s → slices_valid s → arrays_by_session s →
  clean_session sid (tr ++ e) → session_inv sid tr s → session_inv sid (tr ++ e) s'.
Proof.
  intros Hm Hring Hval Hown Hclean Hinv.
  assert (∀ i l p pr, procs s !! i = Some p → sending l p = Some (pr, []) →
                      SessionID pr ≠ sid) as Hsent.
  { intros i l p pr Hp Hs Hsid. destruct Hinv as (st & token & _ & Hall & _).
    by destruct (slot_of_session _ _ _ _ _ _ _ _ (Hall i p Hp) Hs Hsid) as (_ & _ & _ & ?). }
  pose proof Hm as Hm0.
  destruct Hm as [|i p now Hp Hrun Hsucc|i p pr tail Hp Hhp Hch Hini Hc
                  |i p pr tail Hp Hhp Hch Hnr Hv Hsucc|i p pr tail Hp Hhp Hch Hnr Hnf
                  |i l p pr Hp Hs|i l p pr succ rest q Hp Hs Hq Hroom|i l p pr rest Hp Hs].
  - by rewrite app_nil_r.
  - destruct (decide (now = sid)) as [->|Hne];
      [|eapply moves_other; [exact Hm0|done..| |]; [done|by intros; eapply Hsent]].
    clear Hm0. destruct Hinv as (st & token & Hok & Hall & Hcourse & Hi & Hh & Hr).
    destruct Hclean as (Hby & Hlen & _).
    assert (i = 0) as ->.
    { eapply Hby; [apply elem_of_app; right; left|done]. }
    unfold session_initiations in Hlen, Hi. rewrite filter_bool_snoc in Hlen.
    simpl in Hlen. rewrite Z.eqb_refl, length_app in Hlen. simpl in Hlen.
    assert (st = Idle) as -> by (destruct st; [done|lia..]).
    destruct (ring_lookup _ _ _ Hring Hp) as (_ & Hid & Hsuccs).
    set (probe := mkProbe sid (ID p) (ID p) (mkSlice (length (arrays s)) 1 1)).
    exists (Held 0), probe. split; [simpl; lia|]. split; [|split; [|split; [|split]]].
    + intros j q Hq. cbn [procs] in Hq.
      apply list_lookup_insert_Some in Hq as [(<- & <- & _)|(Hne & Hq)].
      * destruct (Hall 0 p Hp) as (A & B & C & D).
        split; [|split; [|split]].
        -- by destruct p.
        -- intros l. rewrite sending_with_sending.
           destruct l; simpl.
           ++ rewrite decide_True by done. by rewrite Hsuccs.
           ++ apply (B HandleLoop).
        -- simpl. by rewrite flag_insert_eq.
        -- exact D.
      * pose proof (Hall j q Hq) as Hold. clear -Hold Hne. stage_cases.
    + intros _. split; [done|]. split; [simpl; lia|].
      simpl. unfold elems. simpl. rewrite list_lookup_middle by done. simpl.
      by rewrite Hid.
    + unfold session_initiations. rewrite filter_bool_snoc. simpl.
      rewrite Z.eqb_refl, length_app, Hi. done.
    + unfold session_hops in *. rewrite filter_bool_snoc. simpl. by rewrite app_nil_r.
    + unfold session_reports in *. rewrite filter_bool_snoc. simpl. by rewrite app_nil_r.
  - destruct (decide (SessionID pr = sid)) as [Hsid|Hne];
      [|eapply moves_other; [exact Hm0|done..| |]; [done|by intros; eapply Hsent]].
    clear Hm0. destruct Hinv as (st & token & Hok & Hall & Hcourse & Hi & Hh & Hr).
    destruct (head_of_session _ _ _ _ _ _ _ (Hall i p Hp) Hch Hsid)
      as (d & -> & Hseat & -> & Htail).
    destruct (Hcourse I) as (_ & Hzero & Hpath).
    destruct (ring_lookup _ _ _ Hring Hp) as (_ & Hid & _).
    assert (i = 0) as -> by lia.
    assert (d = 4) as -> by (simpl in Hok; unfold seat in Hseat; case_decide; lia).
    exists Closed, token. split; [done|]. split; [|split; [|split; [|split]]].
    + intros j q Hq. cbn [procs] in Hq.
      apply list_lookup_insert_Some in Hq as [(<- & <- & _)|(Hne & Hq)].
      * destruct (Hall 0 p Hp) as (A & B & C & D).
        split; [|split; [|split]].
        -- done.
        -- intros l. specialize (B l). by destruct l.
        -- exact C.
        -- simpl. by rewrite Hsid, flag_insert_eq.
      * pose proof (Hall j q Hq) as Hold. clear -Hold Hne. stage_cases.
    + done.
    + unfold session_initiations in *. rewrite filter_bool_snoc. simpl.
      by rewrite app_nil_r.
    + unfold session_hops in *. rewrite filter_bool_snoc. simpl. by rewrite app_nil_r.
    + unfold session_reports in *. rewrite filter_bool_snoc. simpl.
      rewrite Hsid, Z.eqb_refl, Hr, Hpath. done.
  - destruct (decide (SessionID pr = sid)) as [Hsid|Hne];
      [|eapply moves_other; [exact Hm0|done..| |]; [done|by intros; eapply Hsent]].
    clear Hm0. destruct Hinv as (st & token & Hok & Hall & Hcourse & Hi & Hh & Hr).
    destruct (head_of_session _ _ _ _ _ _ _ (Hall i p Hp) Hch Hsid)
      as (d & -> & Hseat & -> & Htail).
    destruct (Hcourse I) as (_ & Hzero & Hpath).
    destruct (ring_lookup _ _ _ Hring Hp) as (Hlt & Hid & Hsuccs).
    destruct (Hall i p Hp) as (A & B & C & D).
    assert (d ≠ 4) as Hd.
    { intros ->. apply Hnr. unfold seat in Hseat. simpl in Hseat. subst i.
      split; [by rewrite Hzero, Hid|]. by rewrite Hsid. }
    assert (i = d) as -> by (unfold seat in Hseat; by rewrite decide_False in Hseat).
    simpl in Hok.
    assert (valid_slice (arrays s) (Visited token)) as Hvalid.
    { apply Hval, in_flight_cases. exists d, p. split; [done|]. left. rewrite Hch. left. }
    set (newProbe := mkProbe (SessionID token) (Initiator token) (ID p)
                       (append g (arrays s) (Visited token) (ID p)).2).
    exists (Held d), newProbe. split; [simpl; lia|]. split; [|split; [|split; [|split]]].
    + intros j q Hq. cbn [procs] in Hq.
      apply list_lookup_insert_Some in Hq as [(<- & <- & _)|(Hne & Hq)].
      * split; [|split; [|split]].
        -- done.
        -- intros l. rewrite sending_with_sending. unfold slot_at, holder.
           rewrite (decide_False (P := d = 0)) by lia.
           destruct l; simpl.
           ++ rewrite decide_False by (by intros [_ ?]). apply (B RunLoop).
           ++ rewrite decide_True by done. rewrite decide_True by done. by rewrite Hsuccs.
        -- simpl. rewrite Hsid, flag_insert_eq. symmetry. apply bool_decide_eq_true_2. lia.
        -- exact D.
      * pose proof (Hall j q Hq) as Hold. clear -Hold Hne Hd Hok. stage_cases.
    + intros _. split; [done|]. split; [done|]. cbn [arrays Visited newProbe].
      rewrite elems_append by done. rewrite Hpath, Hid. cbn [marks].
      by rewrite seq_S, fmap_app.
    + unfold session_initiations in *. rewrite filter_bool_snoc. simpl.
      by rewrite app_nil_r.
    + unfold session_hops in *. rewrite filter_bool_snoc. simpl. by rewrite app_nil_r.
    + unfold session_reports in *. rewrite filter_bool_snoc. simpl. by rewrite app_nil_r.
  - destruct (decide (SessionID pr = sid)) as [Hsid|Hne];
      [|eapply moves_other; [exact Hm0|done..| |]; [done|by intros; eapply Hsent]].
    exfalso. destruct Hinv as (st & token & Hok & Hall & Hcourse & Hi & Hh & Hr).
    destruct (head_of_session _ _ _ _ _ _ _ (Hall i p Hp) Hch Hsid)
      as (d & -> & Hseat & -> & Htail).
    destruct (Hcourse I) as (_ & Hzero & Hpath).
    destruct (ring_lookup _ _ _ Hring Hp) as (Hlt & Hid & Hsuccs).
    destruct (Hall i p Hp) as (A & B & C & D). simpl in Hok.
    destruct (decide (d = 4)) as [->|Hd].
    + apply Hnr. unfold seat in Hseat. simpl in Hseat. subst i.
      split; [by rewrite Hzero, Hid|]. by rewrite Hsid.
    + apply Hnf. unfold seat in Hseat. rewrite decide_False in Hseat by done. subst i.
      split; [|by rewrite Hsuccs]. rewrite Hsid, C. apply bool_decide_eq_false_2.
      simpl. lia.
  - eapply moves_other; [exact Hm0|done..| |]; [done|by intros; eapply Hsent].
  - destruct (decide (SessionID pr = sid)) as [Hsid|Hne];
      [|eapply moves_other; [exact Hm0|done..| |]; [done|by intros; eapply Hsent]].
    clear Hm0. destruct Hinv as (st & token & Hok & Hall & Hcourse & Hi & Hh & Hr).
    destruct (slot_of_session _ _ _ _ _ _ _ _ (Hall i p Hp) Hs Hsid)
      as (-> & -> & -> & Hrest).
    injection Hrest as -> ->. simpl in Hok.
    destruct (Hcourse I) as (_ & Hzero & Hpath).
    assert (seat (S i) ≠ i) as Hne by (unfold seat; case_decide; lia).
    exists (Queued (S i)), token. split; [simpl; lia|]. split; [|split; [|split; [|split]]].
    + intros j q' Hq'. cbn [procs] in Hq'.
      destruct (decide (j = i)) as [->|Hji].
      * rewrite list_lookup_alter_eq, list_lookup_insert_ne, Hp in Hq' by done.
        injection Hq' as <-. destruct (Hall i p Hp) as (A & B & C & D).
        split; [|split; [|split]].
        -- replace (probeChan _) with (probeChan p) by (by destruct (holder i)).
           rewrite A. unfold queue_at. by rewrite decide_False.
        -- intros l. rewrite sending_with_sending.
           destruct (decide (l = holder i)) as [->|Hl]; [done|].
           replace (sending l (count_sent p)) with (sending l p) by (by destruct l).
           rewrite B. unfold slot_at. by rewrite decide_False by (by intros [_ ?]).
        -- replace (visited _) with (visited p) by (by destruct (holder i)). exact C.
        -- replace (deadlockCache _) with (deadlockCache p) by (by destruct (holder i)).
           exact D.
      * rewrite list_lookup_alter_ne in Hq' by done.
        apply list_lookup_insert_Some in Hq' as [(<- & <- & _)|(Hjs & Hq')].
        -- destruct (Hall _ q Hq) as (A & B & C & D).
           split; [|split; [|split]].
           ++ cbn [probeChan with_probeChan].
              rewrite filter_app, A, filter_cons_True, filter_nil by done.
              unfold queue_at. by rewrite decide_True.
           ++ intros l. specialize (B l). unfold slot_at in *.
              rewrite decide_False in B by (by intros [? _]). by destruct l.
           ++ exact C.
           ++ exact D.
        -- pose proof (Hall j q' Hq') as Hold. clear -Hold Hji Hjs Hok. stage_cases.
    + done.
    + unfold session_initiations in *. rewrite filter_bool_snoc. simpl.
      by rewrite app_nil_r.
    + unfold session_hops in *. rewrite filter_bool_snoc. simpl.
      rewrite (proj2 (Z.eqb_eq _ _) Hsid), length_app, Hh. simpl. lia.
    + unfold session_reports in *. rewrite filter_bool_snoc. simpl. by rewrite app_nil_r.
  - destruct (decide (SessionID pr = sid)) as [Hsid|Hne];
      [|eapply moves_other; [exact Hm0|done..| |]; [done|by intros; eapply Hsent]].
    exfalso. destruct Hclean as (_ & _ & Hloss). unfold session_losses in Hloss.
    rewrite filter_bool_snoc in Hloss. simpl in Hloss.
    rewrite (proj2 (Z.eqb_eq _ _) Hsid) in Hloss. by destruct (filter _ tr).
Qed.

End GoroutinesFacts.

(** * The claims *)

Ltac compute_decide := apply (bool_decide_unpack _); vm_compute; exact I.

(** ** C1: no confirmation on an acyclic graph *)

(** C1. On an acyclic dependency graph no detection reaches the confirmation,
    whoever initiates: [runDDFS] from any start of the table returns [false]
    and [DetectDeadlock] answers "No deadlock detected."; [detectDeadlock] of
    the recursive variant, in whatever order it takes the initiators, ends
    with "No deadlock detected.". Neither returns [true], with any fuel. *)
Theorem acyclic_never_confirmed
    (procs : list RpcServer.Process) (start : Z) (t : RpcServer.Trav) (fuel : nat)
    (counter : Z) (res : RpcServer.DeadlockResponse)
    (w : Original.World) (order : list Z) (fuel' : nat) :
  RpcServer.neighbors_in_range procs → RpcServer.acyclic procs →
  RpcServer.in_range procs start → RpcServer.ddfs_fuel procs ≤ fuel →
  Original.closed (Original.processes w) → Original.allocated (Original.processes w) →
  Original.acyclic (Original.processes w) →
  Original.probe_fuel (Original.processes w) ≤ fuel' →
  (∃ t', RpcServer.runDDFS fuel procs start start t = Done (false, t')) ∧
  (∃ resp log,
     RpcServer.DetectDeadlock fuel (RpcServer.mkDeadlockService procs counter)
       (RpcServer.mkDeadlockRequest start) res
     = Done (RpcServer.mkDeadlockService procs counter, resp, log) ∧
     RpcServer.DeadlockStatus resp = "No deadlock detected.") ∧
  (∃ w' out, Original.detectDeadlock fuel' order w = Done (false, w') ∧
             Original.output w' = out ++ [Original.OutNoDeadlock]) ∧
  (∀ f t0 t1, RpcServer.runDDFS f procs start start t0 ≠ Done (true, t1)) ∧
  (∀ f w1, Original.detectDeadlock f order w ≠ Done (true, w1)).
Proof.
  intros Hwf Hac Hin Hf Hc Ha Hac' Hf'. split; [|split; [|split; [|split]]].
  - by apply RpcServerFacts.runDDFS_acyclic.
  - destruct (RpcServerFacts.runDDFS_acyclic procs start
                (RpcServer.mkTrav ∅ ∅ 0 [RpcServer.LogStarting start]) fuel Hwf Hac Hin Hf)
      as (t' & Hrun).
    rewrite RpcServerFacts.DetectDeadlock_valid by done. simpl. rewrite Hrun.
    eexists _, _. split; reflexivity.
  - by apply OriginalFacts.detectDeadlock_acyclic.
  - intros f t0 t1 H. apply RpcServerFacts.runDDFS_true_cycle in H. by apply Hac in H.
  - intros f w1 H.
    apply (OriginalFacts.detectDeadlock_sound (Original.processes w)) in H
      as (i & _ & Htc); [|apply OriginalFacts.keeps_graph_refl].
    by apply Hac' in Htc.
Qed.

(** The chains 0 → 1 → 2 → 3 of the table and 1 → 2 → 3 of the map are such
    graphs. *)
Lemma acyclic_never_confirmed_witness :
  (∃ t', RpcServer.runDDFS 6 RpcServer.chain_processes 0 0 (RpcServer.mkTrav ∅ ∅ 0 [])
         = Done (false, t')) ∧
  (∃ w' out, Original.detectDeadlock 3 [1; 2; 3]%Z
               (Original.mkWorld Original.chain_processes []) = Done (false, w') ∧
             Original.output w' = out ++ [Original.OutNoDeadlock]).
Proof.
  destruct (acyclic_never_confirmed RpcServer.chain_processes 0 (RpcServer.mkTrav ∅ ∅ 0 []) 6
              0 RpcServer.empty_response
              (Original.mkWorld Original.chain_processes []) [1; 2; 3]%Z 3)
    as (H1 & _ & H3 & _).
  - unfold RpcServer.neighbors_in_range, RpcServer.in_range. compute_decide.
  - apply RpcServerFacts.increasing_acyclic. unfold RpcServer.increasing. compute_decide.
  - unfold RpcServer.in_range. simpl. lia.
  - vm_compute. lia.
  - apply OriginalFacts.closed_check_closed. unfold Original.closed_check. compute_decide.
  - apply OriginalFacts.allocated_check_allocated. unfold Original.allocated_check.
    compute_decide.
  - apply OriginalFacts.downward_map_acyclic. unfold Original.downward. compute_decide.
  - vm_compute. lia.
  - split; [exact H1|exact H3].
Defined.

(** ** C2: at most one forward per process and session *)

(** C2. Along any run, from any state, with any growth of the slices, a
    process forwards a probe of a given session at most once, however many
    probes of that session its channel holds or gets; and once its
    [visited[sessionID]] is set, it stays set and the process forwards no
    probe of that session. *)
Theorem forwards_at_most_once
    (growslice : nat → nat) (sched : list Goroutines.Action)
    (s s' : Goroutines.System) (tr : list Goroutines.Effect) (i : nat) (sessionID : Z) :
  Goroutines.run growslice sched s = Some (s', tr) →
  Goroutines.forwards i sessionID tr ≤ 1 ∧
  (∀ p, Goroutines.procs s !! i = Some p →
        flag (Goroutines.visited p) sessionID = true →
        Goroutines.forwards i sessionID tr = 0 ∧
        ∃ p', Goroutines.procs s' !! i = Some p' ∧
              flag (Goroutines.visited p') sessionID = true).
Proof.
  intros Hrun.
  destruct (GoroutinesFacts.run_forwards growslice sched s s' tr i sessionID Hrun)
    as [Hle Hzero].
  split; [exact Hle|]. intros p Hp Hv. split; [by eapply Hzero|].
  by eapply GoroutinesFacts.run_visited_stays.
Qed.

(** In the system with two ways to p3, the session of p0 reaches p3 twice. *)
Lemma forwards_at_most_once_witness :
  Goroutines.forwards 3 5
    (Goroutines.trace_of Goroutines.gc_growslice (Goroutines.two_ways_schedule 5)
       Goroutines.two_ways_system) ≤ 1.
Proof.
  refine (proj1 (forwards_at_most_once Goroutines.gc_growslice
            (Goroutines.two_ways_schedule 5) Goroutines.two_ways_system
            (Goroutines.state_after Goroutines.gc_growslice (Goroutines.two_ways_schedule 5)
               Goroutines.two_ways_system)
            (Goroutines.trace_of Goroutines.gc_growslice (Goroutines.two_ways_schedule 5)
               Goroutines.two_ways_system)
            3 5 _)).
  vm_compute. reflexivity.
Defined.

(** ** C3: the closing probe *)

(** C3. In a system started from [NewProcess] processes with distinct ids,
    after any run: when [handleProbes] of a process takes a probe that names
    this process as initiator, and the session is not in its [deadlockCache],
    it reports the deadlock with the path the probe holds and puts the
    session into the cache, without forwarding. Whenever later the same probe
    is again the next in its channel, taking it changes nothing but the
    channel: no report and no forward. *)
Theorem closing_probe_reported_once
    (growslice : nat → nat) (config : Goroutines.Config) (topology : list (Z * list nat))
    (sched : list Goroutines.Action) (s : Goroutines.System) (tr : list Goroutines.Effect)
    (i : nat) (p : Goroutines.Process) (probe : Goroutines.Probe)
    (tail : list Goroutines.Probe) :
  NoDup topology.*1 →
  Goroutines.run growslice sched (Goroutines.initial config topology) = Some (s, tr) →
  Goroutines.procs s !! i = Some p →
  Goroutines.probeChan p = probe :: tail →
  Goroutines.in_handleProbes p = None →
  Goroutines.Initiator probe = Goroutines.ID p →
  flag (Goroutines.deadlockCache p) (Goroutines.SessionID probe) = false →
  ∃ s1 p1,
    Goroutines.step growslice (Goroutines.Receive i) s =
      Some (s1, [Goroutines.Reported i (Goroutines.SessionID probe)
                   (Goroutines.elems (Goroutines.arrays s) (Goroutines.Visited probe))]) ∧
    Goroutines.procs s1 !! i = Some p1 ∧
    flag (Goroutines.deadlockCache p1) (Goroutines.SessionID probe) = true ∧
    Goroutines.probeChan p1 = tail ∧ Goroutines.in_handleProbes p1 = None ∧
    ∀ sched2 s2 tr2 p2 tail2,
      Goroutines.run growslice sched2 s1 = Some (s2, tr2) →
      Goroutines.procs s2 !! i = Some p2 →
      Goroutines.probeChan p2 = probe :: tail2 →
      Goroutines.in_handleProbes p2 = None →
      Goroutines.step growslice (Goroutines.Receive i) s2 =
        Some (Goroutines.set_proc i (Goroutines.with_probeChan tail2 p2) s2,
              [Goroutines.Dropped i probe]).
Proof.
  intros Hnd Hrun Hp Hch Hhp Hini Hc.
  pose proof (GoroutinesFacts.initial_unique_ids config topology Hnd) as Hu.
  pose proof (GoroutinesFacts.run_initiator_marked _ _ _ _ _ Hrun Hu
                (GoroutinesFacts.initial_initiator_marked config topology)) as Hmarked.
  assert (flag (Goroutines.visited p) (Goroutines.SessionID probe) = true) as Hv.
  { eapply Hmarked; [|exact Hp|done]. exists i, p. split; [done|].
    unfold Goroutines.flying. rewrite Hch. left. }
  eexists _, _. split; [|split; [|split; [|split; [|split]]]].
  - simpl. by rewrite (GoroutinesFacts.receive_closing growslice s i p probe tail).
  - simpl. apply list_lookup_insert_eq. by eapply lookup_lt_Some.
  - simpl. apply flag_insert_eq.
  - done.
  - done.
  - intros sched2 s2 tr2 p2 tail2 Hrun2 Hp2 Hch2 Hhp2.
    apply GoroutinesFacts.run_evolves in Hrun2. simpl in Hrun2.
    destruct (GoroutinesFacts.Forall2_evolves_lookup_r _ _ _ _ Hrun2 Hp2)
      as (p1 & Hp1 & _ & _ & _ & Hvis & Hcache).
    rewrite list_lookup_insert_eq in Hp1 by (by eapply lookup_lt_Some).
    injection Hp1 as <-. simpl.
    rewrite (GoroutinesFacts.receive_again growslice s2 i p2 probe tail2); try done.
    + apply Hcache. simpl. apply flag_insert_eq.
    + by apply Hvis.
Qed.

(** On the ring of [main], at the moment the probe of p0 has come round. *)
Lemma closing_probe_reported_once_witness :
  ∃ s1, Goroutines.step Goroutines.gc_growslice (Goroutines.Receive 0)
          (Goroutines.state_after Goroutines.gc_growslice
             (take 8 (Goroutines.ring_schedule 5)) Goroutines.main_system)
        = Some (s1, [Goroutines.Reported 0 5 [0; 1; 2; 3]%Z]).
Proof.
  edestruct (closing_probe_reported_once Goroutines.gc_growslice Goroutines.main_config
               [(0%Z, [1]); (1%Z, [2]); (2%Z, [3]); (3%Z, [0])]
               (take 8 (Goroutines.ring_schedule 5))
               (Goroutines.state_after Goroutines.gc_growslice
                  (take 8 (Goroutines.ring_schedule 5)) Goroutines.main_system)
               (Goroutines.trace_of Goroutines.gc_growslice
                  (take 8 (Goroutines.ring_schedule 5)) Goroutines.main_system)
               0)
    as (s1 & p1 & Hstep & _).
  - compute_decide.
  - vm_compute. reflexivity.
  - vm_compute. reflexivity.
  - simpl. reflexivity.
  - reflexivity.
  - reflexivity.
  - vm_compute. reflexivity.
  - exists s1. exact Hstep.
Defined.

(** ** C4: what [DetectDeadlock] answers *)

(** C4, as stated, fails: the answer of [DetectDeadlock] holds no cycle path.
    The tables 0 ⇄ 1 and 0 ⇄ 2 get the very same confirming response from
    process 0 although they share no cycle; and the one list the server
    writes out when it confirms, the sorted visited ids, is [0; 1; 2] on the
    table 0 → 1, 0 ⇄ 2, which is no cycle of that table. *)
Lemma confirmation_carries_no_path :
  (∃ resp logl logr,
     RpcServer.DetectDeadlock 5 (RpcServer.mkDeadlockService RpcServer.left_processes 0)
       (RpcServer.mkDeadlockRequest 0) RpcServer.empty_response
     = Done (RpcServer.mkDeadlockService RpcServer.left_processes 0, resp, logl) ∧
     RpcServer.DetectDeadlock 5 (RpcServer.mkDeadlockService RpcServer.right_processes 0)
       (RpcServer.mkDeadlockRequest 0) RpcServer.empty_response
     = Done (RpcServer.mkDeadlockService RpcServer.right_processes 0, resp, logr) ∧
     RpcServer.DeadlockStatus resp = "Deadlock confirmed!") ∧
  (∀ path, ¬ (RpcServer.cycle_path RpcServer.left_processes path ∧
              RpcServer.cycle_path RpcServer.right_processes path)) ∧
  (∃ resp log,
     RpcServer.DetectDeadlock 5 (RpcServer.mkDeadlockService RpcServer.detour_processes 0)
       (RpcServer.mkDeadlockRequest 0) RpcServer.empty_response
     = Done (RpcServer.mkDeadlockService RpcServer.detour_processes 0, resp, log) ∧
     last log = Some (RpcServer.LogDeadlockDetected 0 [0; 1; 2]%Z)) ∧
  ¬ RpcServer.cycle_path RpcServer.detour_processes [0; 1; 2]%Z.
Proof.
  split; [|split; [|split]].
  - eexists _, _, _. split; [vm_compute; reflexivity|]. split; [vm_compute; reflexivity|].
    reflexivity.
  - intros path [Hl Hr].
    assert (∀ x y, RpcServer.edge RpcServer.left_processes x y →
                   RpcServer.edge RpcServer.right_processes x y → False) as Hdisj.
    { intros x y (p & Hx & Hp & Hy)%RpcServerFacts.edge_inv
                 (q & _ & Hq & Hy')%RpcServerFacts.edge_inv.
      apply list_elem_of_In in Hy, Hy'.
      destruct (Z.to_nat x) as [|[|[|n]]]; simpl in Hp, Hq; simplify_eq;
        simpl in Hy, Hy'; intuition lia. }
    destruct path as [|x [|y rest]]; simpl in Hl, Hr; [done| |].
    + by eapply Hdisj.
    + destruct Hl as [Hl _], Hr as [Hr _]. by eapply Hdisj.
  - eexists _, _. split; [vm_compute; reflexivity|reflexivity].
  - simpl. intros (_ & (p & _ & Hp & Hy)%RpcServerFacts.edge_inv & _).
    simpl in Hp. simplify_eq. apply list_elem_of_In in Hy. simpl in Hy. intuition lia.
Qed.

(** C4, amended: for a process id in range, on a table whose neighbour ids
    are in range, [DetectDeadlock] returns after the traversal; the status is
    "Deadlock confirmed!" when [runDDFS] came back to the start, which it
    does exactly when the start lies on a cycle, and "No deadlock detected."
    otherwise. With it come the message counts of the traversal:
    [TotalMessages] is the number of "Probe sent" lines the traversal has
    logged, each for the start and along an edge of the table, at most one
    for each edge, and [MessageCounts] holds that number under the key of the
    start (and nothing when no probe was sent). The response carries no path;
    when it confirms, the last probe logged is the one that came back to the
    start, and the server logs the sorted list of the processes marked, all
    of which the start waits for, directly or through others. *)
Theorem DetectDeadlock_status
    (fuel : nat) (ds : RpcServer.DeadlockService) (req : RpcServer.DeadlockRequest)
    (res : RpcServer.DeadlockResponse) :
  RpcServer.neighbors_in_range (RpcServer.processes ds) →
  RpcServer.in_range (RpcServer.processes ds) (RpcServer.ProcessID req) →
  RpcServer.ddfs_fuel (RpcServer.processes ds) ≤ fuel →
  ∃ b probes visitedList,
    (b = true ↔
     tc (RpcServer.edge (RpcServer.processes ds))
        (RpcServer.ProcessID req) (RpcServer.ProcessID req)) ∧
    Forall (RpcServer.probe_sent (RpcServer.processes ds) (RpcServer.ProcessID req)) probes ∧
    length probes ≤ RpcServer.edge_count (RpcServer.processes ds) ∧
    (b = true → ∃ l, last probes = Some l ∧ RpcServer.closing_line (RpcServer.ProcessID req) l) ∧
    Sorted Z.le visitedList ∧ RpcServer.ProcessID req ∈ visitedList ∧
    (∀ u, u ∈ visitedList →
          rtc (RpcServer.edge (RpcServer.processes ds)) (RpcServer.ProcessID req) u) ∧
    RpcServer.DetectDeadlock fuel ds req res =
      Done (ds,
            RpcServer.mkDeadlockResponse
              ("Deadlock detection completed for Process " +:+ fmt_d (RpcServer.ProcessID req))
              (if b then "Deadlock confirmed!" else "No deadlock detected.")
              (match probes with
               | [] => ∅
               | _ => {[RpcServer.ProcessID req := wrap_int (Z.of_nat (length probes))]}
               end)
              (wrap_int (Z.of_nat (length probes))),
            RpcServer.LogStarting (RpcServer.ProcessID req) :: probes ++
              (if b then [RpcServer.LogDeadlockDetected (RpcServer.ProcessID req) visitedList]
               else [])).
Proof.
  intros Hwf Hin Hf.
  destruct (RpcServerFacts.runDDFS_decides _ _ _ Hwf Hin Hf) as (b & t & Hrun & Hb).
  destruct (RpcServerFacts.DetectDeadlock_traced fuel ds req res b t Hin Hrun)
    as (probes & Hlog & Hall & Hclose & Hres).
  exists b, probes, (RpcServer.getSortedVisitedList (RpcServer.visited t)).
  assert (∀ u, u ∈ RpcServer.getSortedVisitedList (RpcServer.visited t) ↔
               flag (RpcServer.visited t) u = true) as Hkeys.
  { intros u.
    rewrite (proj2 (proj2 (RpcServerFacts.getSortedVisitedList_spec _)) u).
    split.
    - eapply RpcServerFacts.runDDFS_marks_true; [exact Hrun|].
      intros k [x Hx]. simpl in Hx. by rewrite lookup_empty in Hx.
    - unfold flag. destruct (RpcServer.visited t !! u); [by eexists|done]. }
  split; [exact Hb|]. split; [exact Hall|]. split; [|split; [exact Hclose|]].
  { pose proof (RpcServerFacts.runDDFS_within _ _ _ _ _ _ _ Hrun) as Hw.
    unfold RpcServer.within in Hw. simpl in Hw.
    rewrite RpcServerFacts.unsent_from_fresh, Hlog in Hw.
    change (RpcServer.probe_lines [RpcServer.LogStarting (RpcServer.ProcessID req)])
      with 0 in Hw.
    change (RpcServer.LogStarting (RpcServer.ProcessID req) :: probes)
      with ([RpcServer.LogStarting (RpcServer.ProcessID req)] ++ probes) in Hw.
    rewrite RpcServerFacts.probe_lines_app,
      (RpcServerFacts.probe_lines_sent _ _ _ Hall) in Hw.
    change (RpcServer.probe_lines [RpcServer.LogStarting (RpcServer.ProcessID req)])
      with 0 in Hw.
    specialize (Hw eq_refl). lia. }
  split; [apply RpcServerFacts.getSortedVisitedList_spec|].
  split; [apply Hkeys; by eapply RpcServerFacts.runDDFS_marks_current|].
  split; [|exact Hres].
  intros u Hu%Hkeys. by eapply RpcServerFacts.runDDFS_reach.
Qed.

(** Process 2 of the table of [main] lies on the cycle: four probes, the
    last one back to 2. *)
Lemma DetectDeadlock_status_witness :
  ∃ probes visitedList,
    Forall (RpcServer.probe_sent RpcServer.main_processes 2) probes ∧
    RpcServer.DetectDeadlock 6 RpcServer.main_service (RpcServer.mkDeadlockRequest 2)
      RpcServer.empty_response =
    Done (RpcServer.main_service,
          RpcServer.mkDeadlockResponse "Deadlock detection completed for Process 2"
            "Deadlock confirmed!"
            (match probes with
             | [] => ∅
             | _ => {[2%Z := wrap_int (Z.of_nat (length probes))]}
             end)
            (wrap_int (Z.of_nat (length probes))),
          RpcServer.LogStarting 2 :: probes ++ [RpcServer.LogDeadlockDetected 2 visitedList]).
Proof.
  destruct (DetectDeadlock_status 6 RpcServer.main_service (RpcServer.mkDeadlockRequest 2)
              RpcServer.empty_response)
    as (b & probes & visitedList & Hb & Hall & _ & _ & _ & _ & _ & Hrun).
  - unfold RpcServer.neighbors_in_range, RpcServer.in_range. compute_decide.
  - unfold RpcServer.in_range. simpl. lia.
  - vm_compute. lia.
  - exists probes, visitedList. split; [exact Hall|]. destruct b; [exact Hrun|].
    assert (match RpcServer.DetectDeadlock 6 RpcServer.main_service
                    (RpcServer.mkDeadlockRequest 2) RpcServer.empty_response with
            | Done (_, resp, _) => RpcServer.DeadlockStatus resp
            | _ => EmptyString
            end = "Deadlock confirmed!") as Hst by (vm_compute; reflexivity).
    rewrite Hrun in Hst. discriminate Hst.
Defined.

(** ** C5: the ring of [main] *)


(** ** C6: the chain without the closing edge *)

(** C6. With the edges 0 → 1 → 2 → 3 and nothing back, no detection is
    confirmed. In the goroutine variant, along any run of the four
    processes, whoever initiates and whenever, nothing is reported and p3,
    which has no successors, neither starts nor forwards nor sends a probe.
    In the RPC variant [DetectDeadlock] from each of the four processes
    answers "No deadlock detected.", and no probe is sent from process 3. *)
Theorem chain_never_confirmed
    (growslice : nat → nat) (sched : list Goroutines.Action)
    (s' : Goroutines.System) (tr : list Goroutines.Effect)
    (start : Z) (fuel : nat) (res : RpcServer.DeadlockResponse) :
  Goroutines.run growslice sched Goroutines.chain_system = Some (s', tr) →
  RpcServer.in_range RpcServer.chain_processes start →
  RpcServer.ddfs_fuel RpcServer.chain_processes ≤ fuel →
  Forall (λ e, Goroutines.is_report e = false) tr ∧
  Forall (λ e, Goroutines.is_emission 3 e = false) tr ∧
  ∃ counts total log,
    RpcServer.DetectDeadlock fuel RpcServer.chain_service
      (RpcServer.mkDeadlockRequest start) res
    = Done (RpcServer.chain_service,
            RpcServer.mkDeadlockResponse
              ("Deadlock detection completed for Process " +:+ fmt_d start)
              "No deadlock detected." counts total,
            log) ∧
    Forall (λ l, RpcServer.is_probe_from 3 l = false) log.
Proof.
  intros Hrun Hin Hf. split; [|split].
  - eapply GoroutinesFacts.run_no_report; [exact Hrun| | |].
    + unfold Goroutines.unique_ids. compute_decide.
    + apply GoroutinesFacts.downward_system_acyclic. unfold Goroutines.downward. compute_decide.
    + apply GoroutinesFacts.initial_came_along.
  - eapply GoroutinesFacts.run_no_emission; [exact Hrun| | |].
    + apply GoroutinesFacts.initial_came_along.
    + reflexivity.
    + reflexivity.
  - unfold RpcServer.in_range in Hin. simpl in Hin.
    assert (start = 0 ∨ start = 1 ∨ start = 2 ∨ start = 3)%Z as Hcases by lia.
    destruct Hcases as [-> | [-> | [-> | ->]]]; eexists _, _, _;
      (split;
       [eapply (RpcServerFacts.DetectDeadlock_more 6);
        [vm_compute; reflexivity|discriminate|exact Hf]
       |repeat constructor]).
Qed.

(** A session of p0 that travels down the chain, and a tick of p3. *)
Lemma chain_never_confirmed_witness :
  Forall (λ e, Goroutines.is_report e = false)
    (Goroutines.trace_of Goroutines.gc_growslice Goroutines.chain_schedule
       Goroutines.chain_system).
Proof.
  refine (proj1 (chain_never_confirmed Goroutines.gc_growslice Goroutines.chain_schedule
            (Goroutines.state_after Goroutines.gc_growslice Goroutines.chain_schedule
               Goroutines.chain_system)
            (Goroutines.trace_of Goroutines.gc_growslice Goroutines.chain_schedule
               Goroutines.chain_system)
            0 6 RpcServer.empty_response _ _ _)).
  - vm_compute. reflexivity.
  - unfold RpcServer.in_range. simpl. lia.
  - vm_compute. lia.
Defined.

(** ** C7: requests with a process id out of range *)

(** C7, as stated, fails for add requests: [AddProcess] with id 99 on the
    four processes of [main] is not rejected; it answers "Process 99 added
    successfully!" and the table has a fifth process. *)
Lemma add_out_of_range_accepted :
  ∃ ds' resp log,
    RpcServer.AddProcess RpcServer.main_service (RpcServer.mkAddProcessRequest 99 [1%Z])
      RpcServer.empty_add_response = (ds', resp, log) ∧
    RpcServer.add_Message resp = "Process 99 added successfully!" ∧
    length (RpcServer.processes ds') = 5 ∧ ds' ≠ RpcServer.main_service.
Proof.
  eexists _, _, _. split; [vm_compute; reflexivity|].
  split; [reflexivity|]. split; [reflexivity|]. discriminate.
Qed.

(** C7, amended: a detection request with a process id out of range gets the
    answer "Invalid Process ID", whatever the fuel (no panic, no hang), the
    service is unchanged and nothing is logged; an add request is never
    rejected: [AddProcess] appends the process, whatever its id. *)
Theorem invalid_process_id_rejected
    (fuel : nat) (ds : RpcServer.DeadlockService) (req : RpcServer.DeadlockRequest)
    (res : RpcServer.DeadlockResponse)
    (areq : RpcServer.AddProcessRequest) (ares : RpcServer.AddProcessResponse) :
  ¬ RpcServer.in_range (RpcServer.processes ds) (RpcServer.ProcessID req) →
  RpcServer.DetectDeadlock fuel ds req res =
    Done (ds,
          RpcServer.mkDeadlockResponse "Invalid Process ID" (RpcServer.DeadlockStatus res)
            (RpcServer.MessageCounts res) (RpcServer.TotalMessages res),
          []) ∧
  RpcServer.AddProcess ds areq ares =
    (RpcServer.mkDeadlockService
       (RpcServer.processes ds ++
          [RpcServer.mkProcess (RpcServer.req_ID areq) (RpcServer.req_Neighbors areq)])
       (RpcServer.globalMessageCounter ds),
     RpcServer.mkAddProcessResponse
       ("Process " +:+ fmt_d (RpcServer.req_ID areq) +:+ " added successfully!"),
     [RpcServer.LogProcessAdded (RpcServer.req_ID areq) (RpcServer.req_Neighbors areq)]).
Proof.
  intros Hout. split; [by apply RpcServerFacts.DetectDeadlock_invalid|done].
Qed.

(** Process id 99 on the four processes of [main]. *)
Lemma invalid_process_id_rejected_witness :
  ¬ RpcServer.in_range (RpcServer.processes RpcServer.main_service) 99 ∧
  RpcServer.DetectDeadlock 0 RpcServer.main_service (RpcServer.mkDeadlockRequest 99)
    RpcServer.empty_response =
  Done (RpcServer.main_service,
        RpcServer.mkDeadlockResponse "Invalid Process ID" EmptyString ∅ 0, []).
Proof.
  assert (¬ RpcServer.in_range (RpcServer.processes RpcServer.main_service) 99) as Hout.
  { unfold RpcServer.in_range. simpl. lia. }
  split; [exact Hout|].
  exact (proj1 (invalid_process_id_rejected 0 RpcServer.main_service
                  (RpcServer.mkDeadlockRequest 99) RpcServer.empty_response
                  (RpcServer.mkAddProcessRequest 4 [1%Z]) RpcServer.empty_add_response
                  Hout)).
Defined.

(** ** C8: every detection ends *)

(** C8, as stated, fails in its reason: in the recursive variant a process
    can be probed more than once in one detection. On the diamond 1 → 2 → 4,
    1 → 3 → 4 the detection started by process 1 writes two lines "Probe sent
    ... to Process 4 for origin 1": the flags live in the map of the process
    that forwards, one for each process it waits for. *)
Lemma process_probed_twice :
  ∃ w', Original.detectDeadlock 5 [1; 2; 3; 4]%Z
          (Original.mkWorld Original.diamond_processes [])
        = Done (false, w') ∧
        Original.output w' =
          [Original.OutStarting 1; Original.OutProbeSent 1 2 1; Original.OutProbeSent 2 4 1;
           Original.OutProbeSent 1 3 1; Original.OutProbeSent 3 4 1;
           Original.OutStarting 2; Original.OutProbeSent 2 4 2;
           Original.OutStarting 3; Original.OutProbeSent 3 4 3;
           Original.OutStarting 4; Original.OutNoDeadlock] ∧
        Original.probes_to 4 1 (Original.output w') = 2.
Proof. eexists. split; [vm_compute; reflexivity|]. split; reflexivity. Qed.

(** C8, amended: on a finite graph whose edges lead to processes of the
    graph (and, in the recursive variant, whose flag maps are made), the DDFS
    traversal, the recursive probe and the detection built on it each end
    with one of two outcomes, [true] (confirmed) or [false] (not confirmed),
    the same for every fuel from a bound on: one more than the number of
    processes, plus one, for [runDDFS], which recurses only into processes not
    yet marked; one more than the number of (process, dependent) pairs for
    [sendProbe], which recurses only after setting a flag that was not set.
    On any graph at all they end, be it in a panic. *)
Theorem detection_terminates
    (procs : list RpcServer.Process) (start : Z) (t : RpcServer.Trav)
    (w : Original.World) (order : list Z) (sender origin target : Z) :
  RpcServer.neighbors_in_range procs → RpcServer.in_range procs start →
  Original.closed (Original.processes w) → Original.allocated (Original.processes w) →
  is_Some (Original.processes w !! target) →
  (∃ b t', ∀ fuel, RpcServer.ddfs_fuel procs ≤ fuel →
           RpcServer.runDDFS fuel procs start start t = Done (b, t')) ∧
  (∃ b w', ∀ fuel, Original.probe_fuel (Original.processes w) ≤ fuel →
           Original.sendProbe fuel sender origin target w = Done (b, w')) ∧
  (∃ b w', ∀ fuel, Original.probe_fuel (Original.processes w) ≤ fuel →
           Original.detectDeadlock fuel order w = Done (b, w')) ∧
  (∀ procs0 origin0 current0 t0 fuel, RpcServer.ddfs_fuel procs0 ≤ fuel →
     RpcServer.runDDFS fuel procs0 origin0 current0 t0 ≠ OutOfFuel) ∧
  (∀ w0 order0 fuel, Original.probe_fuel (Original.processes w0) ≤ fuel →
     Original.detectDeadlock fuel order0 w0 ≠ OutOfFuel).
Proof.
  intros Hwf Hin Hc Ha Ht. split; [|split; [|split; [|split]]].
  - destruct (RpcServerFacts.runDDFS_total procs start start t _ Hwf Hin (le_n _))
      as (b & t' & H).
    exists b, t'. intros fuel Hf. by eapply RpcServerFacts.runDDFS_more.
  - pose proof (OriginalFacts.sendProbe_fuel origin _ sender target w (le_n _)) as Hfuel.
    pose proof (OriginalFacts.sendProbe_no_panic origin
                  (Original.probe_fuel (Original.processes w)) sender target w Hc Ha Ht)
      as Hpanic.
    destruct (Original.sendProbe _ sender origin target w) as [[b w']| |] eqn:H; try done.
    exists b, w'. intros fuel Hf. by eapply OriginalFacts.sendProbe_more.
  - destruct (OriginalFacts.detectDeadlock_total _ order w Hc Ha (le_n _)) as (b & w' & H).
    exists b, w'. intros fuel Hf. by eapply OriginalFacts.detectDeadlock_more.
  - intros procs0 origin0 current0 t0 fuel. apply RpcServerFacts.runDDFS_fuel.
  - intros w0 order0 fuel. apply OriginalFacts.detectDeadlock_fuel.
Qed.

(** The cyclic tables of the two [main] functions. *)
Lemma detection_terminates_witness :
  (∃ b t', RpcServer.runDDFS 6 RpcServer.main_processes 0 0 (RpcServer.mkTrav ∅ ∅ 0 [])
           = Done (b, t')) ∧
  (∃ b w', Original.detectDeadlock 4 [1; 2; 3]%Z
             (Original.mkWorld Original.main_processes []) = Done (b, w')).
Proof.
  destruct (detection_terminates RpcServer.main_processes 0 (RpcServer.mkTrav ∅ ∅ 0 [])
              (Original.mkWorld Original.main_processes []) [1; 2; 3]%Z 1 1 2)
    as ((b & t' & H1) & _ & (b' & w' & H3) & _).
  - unfold RpcServer.neighbors_in_range, RpcServer.in_range. compute_decide.
  - unfold RpcServer.in_range. simpl. lia.
  - apply OriginalFacts.closed_check_closed. unfold Original.closed_check. compute_decide.
  - apply OriginalFacts.allocated_check_allocated. unfold Original.allocated_check.
    compute_decide.
  - simpl. compute_decide.
  - split.
    + exists b, t'. apply H1. vm_compute. lia.
    + exists b', w'. apply H3. vm_compute. lia.
Defined.

(** ** C9: probes once sent *)

(** The fields a forwarded probe is made with are those C9 names: for a
    received probe whose slice is a window on an array of the store, the new
    probe has the session and the initiator of the received one, the
    forwarding process as sender and the received path with the id of the
    forwarding process behind it; the received probe reads as before. *)
Lemma forwarded_probe_fields
    (growslice : nat → nat) (h h' : list (list Z)) (p p' : Goroutines.Process)
    (probe newProbe : Goroutines.Probe) :
  Goroutines.valid_slice h (Goroutines.Visited probe) →
  Goroutines.handleProbes growslice h p probe = (h', p', Goroutines.Forward newProbe) →
  Goroutines.SessionID newProbe = Goroutines.SessionID probe ∧
  Goroutines.Initiator newProbe = Goroutines.Initiator probe ∧
  Goroutines.Sender newProbe = Goroutines.ID p ∧
  Goroutines.elems h' (Goroutines.Visited newProbe)
    = Goroutines.elems h (Goroutines.Visited probe) ++ [Goroutines.ID p] ∧
  Goroutines.elems h' (Goroutines.Visited probe)
    = Goroutines.elems h (Goroutines.Visited probe).
Proof. apply GoroutinesFacts.handle_forward_fields. Qed.

(** C9 fails on the code: a probe that has been sent can change. With a fork
    two hops from the initiator (p2 sends the same probe, of length 3 and
    capacity 4, to p3 and to p4), the [append] of p3 and the [append] of p4
    write the same place of the same array. The probe p3 has sent to p0 reads
    [0; 1; 2; 3] while it waits in the channel of p0; once p4 has handled its
    copy, the same probe reads [0; 1; 2; 4], and that is the path p0 reports,
    although p4 does not wait for p0. *)
Theorem sent_probe_overwritten (now : Z) :
  let s := Goroutines.state_after Goroutines.gc_growslice
             (Goroutines.fork_schedule now) Goroutines.fork_system in
  let s' := Goroutines.state_after Goroutines.gc_growslice [Goroutines.Receive 4] s in
  let sent := Goroutines.mkProbe now 0 3 (Goroutines.mkSlice 2 4 4) in
  Goroutines.probeChan <$> Goroutines.procs s !! 0 = Some [sent] ∧
  Goroutines.probeChan <$> Goroutines.procs s' !! 0 = Some [sent] ∧
  Goroutines.elems (Goroutines.arrays s) (Goroutines.Visited sent) = [0; 1; 2; 3]%Z ∧
  Goroutines.elems (Goroutines.arrays s') (Goroutines.Visited sent) = [0; 1; 2; 4]%Z ∧
  Goroutines.trace_of Goroutines.gc_growslice [Goroutines.Receive 0] s'
    = [Goroutines.Reported 0 now [0; 1; 2; 4]%Z] ∧
  ¬ Goroutines.succ_edge Goroutines.fork_system 4 0.
Proof.
  repeat split; try (vm_compute; reflexivity).
  intros (p & Hp & H0). vm_compute in Hp. injection Hp as <-.
  apply list_elem_of_In in H0. simpl in H0. intuition lia.
Qed.

(** ** C10: the neighbour ids [runDDFS] indexes the table with *)

(** C10. When every neighbour id of the table is an index of the table,
    [runDDFS] from a start that passes the range check of [DetectDeadlock]
    never indexes out of range, and so neither does [DetectDeadlock]. Nothing
    checks that condition: [AddProcess] appends the process as requested, and
    after adding a process 4 that waits for the missing process 7 to the
    table of [main], the detection from 4 panics. *)
Theorem neighbors_in_range_no_panic
    (fuel : nat) (ds : RpcServer.DeadlockService) (req : RpcServer.DeadlockRequest)
    (res : RpcServer.DeadlockResponse) (t : RpcServer.Trav)
    (areq : RpcServer.AddProcessRequest) (ares : RpcServer.AddProcessResponse) :
  RpcServer.neighbors_in_range (RpcServer.processes ds) →
  RpcServer.in_range (RpcServer.processes ds) (RpcServer.ProcessID req) →
  RpcServer.runDDFS fuel (RpcServer.processes ds)
    (RpcServer.ProcessID req) (RpcServer.ProcessID req) t ≠ Panic ∧
  RpcServer.DetectDeadlock fuel ds req res ≠ Panic ∧
  RpcServer.processes (RpcServer.AddProcess ds areq ares).1.1 =
    RpcServer.processes ds ++
      [RpcServer.mkProcess (RpcServer.req_ID areq) (RpcServer.req_Neighbors areq)] ∧
  RpcServer.DetectDeadlock 7
    (RpcServer.AddProcess RpcServer.main_service (RpcServer.mkAddProcessRequest 4 [7%Z]) ares).1.1
    (RpcServer.mkDeadlockRequest 4) res = Panic.
Proof.
  intros Hwf Hin. split; [by apply RpcServerFacts.runDDFS_no_panic|].
  split; [|split; [done|by vm_compute]].
  rewrite RpcServerFacts.DetectDeadlock_valid by done.
  pose proof (RpcServerFacts.runDDFS_no_panic _ (RpcServer.ProcessID req) fuel Hwf
                (RpcServer.ProcessID req)
                (RpcServer.mkTrav ∅ ∅ 0 [RpcServer.LogStarting (RpcServer.ProcessID req)]) Hin).
  by destruct (RpcServer.runDDFS _ _ _ _ _) as [[b t']| |].
Qed.

(** The table of [main], from process 3. *)
Lemma neighbors_in_range_no_panic_witness :
  RpcServer.DetectDeadlock 6 RpcServer.main_service (RpcServer.mkDeadlockRequest 3)
    RpcServer.empty_response ≠ Panic.
Proof.
  refine (proj1 (proj2 (neighbors_in_range_no_panic 6 RpcServer.main_service
            (RpcServer.mkDeadlockRequest 3) RpcServer.empty_response
            (RpcServer.mkTrav ∅ ∅ 0 []) (RpcServer.mkAddProcessRequest 4 [1%Z])
            RpcServer.empty_add_response _ _))).
  - unfold RpcServer.neighbors_in_range, RpcServer.in_range. compute_decide.
  - unfold RpcServer.in_range. simpl. lia.
Defined.

(** * Further properties of the code *)

(** ** The RPC server *)

(** X1. [runDDFS] marks the processes it reaches and no others: after a
    traversal from [start] with fresh maps, the sorted list of the marks
    holds [start] and only processes that [start] waits for, directly or
    through others; and when the traversal finds nothing, it holds all of
    them. *)
Theorem visited_exactly_reachable
    (procs : list RpcServer.Process) (start : Z) (fuel : nat) :
  RpcServer.neighbors_in_range procs → RpcServer.in_range procs start →
  RpcServer.ddfs_fuel procs ≤ fuel →
  ∃ b t',
    RpcServer.runDDFS fuel procs start start
      (RpcServer.mkTrav ∅ ∅ 0 [RpcServer.LogStarting start]) = Done (b, t') ∧
    start ∈ RpcServer.getSortedVisitedList (RpcServer.visited t') ∧
    (∀ u, u ∈ RpcServer.getSortedVisitedList (RpcServer.visited t') →
          rtc (RpcServer.edge procs) start u) ∧
    (b = false →
     ∀ u, rtc (RpcServer.edge procs) start u →
          u ∈ RpcServer.getSortedVisitedList (RpcServer.visited t')).
Proof.
  intros Hwf Hin Hf.
  set (t0 := RpcServer.mkTrav ∅ ∅ 0 [RpcServer.LogStarting start]).
  destruct (RpcServerFacts.runDDFS_total procs start start t0 fuel Hwf Hin Hf)
    as (b & t' & Hrun).
  assert (∀ u, flag (RpcServer.visited t0) u = false) as Hwhite.
  { intros u. unfold flag. simpl. by rewrite lookup_empty. }
  assert (RpcServer.marks_true t') as Htrue.
  { eapply RpcServerFacts.runDDFS_marks_true; [exact Hrun|].
    intros k [x Hx]. simpl in Hx. by rewrite lookup_empty in Hx. }
  assert (∀ u, u ∈ RpcServer.getSortedVisitedList (RpcServer.visited t') ↔
               flag (RpcServer.visited t') u = true) as Hkeys.
  { intros u.
    rewrite (proj2 (proj2 (RpcServerFacts.getSortedVisitedList_spec _)) u).
    split; [apply Htrue|]. unfold flag.
    destruct (RpcServer.visited t' !! u); [by eexists|done]. }
  exists b, t'. split; [exact Hrun|]. split; [|split].
  - apply Hkeys. by eapply RpcServerFacts.runDDFS_marks_current.
  - intros u Hu%Hkeys. by eapply RpcServerFacts.runDDFS_reach.
  - intros -> u Hu. apply Hkeys. revert u Hu.
    pose proof (RpcServerFacts.runDDFS_false_settled _ _ _ _ _ _ Hrun) as Hsett.
    apply rtc_ind_r.
    + by eapply RpcServerFacts.runDDFS_marks_current.
    + intros y z _ (q & Hq & Hz) IH. by eapply (Hsett y q z).
Qed.

(** On the table 0 → 1, 0 ⇄ 2 the traversal from 1, a dead end, marks 1
    alone. *)
Lemma visited_exactly_reachable_witness :
  ∃ b t',
    RpcServer.runDDFS 5 RpcServer.detour_processes 1 1
      (RpcServer.mkTrav ∅ ∅ 0 [RpcServer.LogStarting 1]) = Done (b, t') ∧
    (1%Z ∈ RpcServer.getSortedVisitedList (RpcServer.visited t')).
Proof.
  destruct (visited_exactly_reachable RpcServer.detour_processes 1 5)
    as (b & t' & Hrun & Hstart & _).
  - unfold RpcServer.neighbors_in_range, RpcServer.in_range. compute_decide.
  - unfold RpcServer.in_range. simpl. lia.
  - vm_compute. lia.
  - exists b, t'. split; [exact Hrun|exact Hstart].
Defined.

(** X2. The two message counters of a response say the same: after a
    detection, [TotalMessages] is the number of "Probe sent" lines of the
    log (as a Go [int]), and [MessageCounts] is either empty, with
    [TotalMessages] zero, or holds that number under the id of the request
    and no other key. *)
Theorem message_counters_agree
    (fuel : nat) (ds : RpcServer.DeadlockService) (req : RpcServer.DeadlockRequest)
    (res : RpcServer.DeadlockResponse) :
  RpcServer.neighbors_in_range (RpcServer.processes ds) →
  RpcServer.in_range (RpcServer.processes ds) (RpcServer.ProcessID req) →
  RpcServer.ddfs_fuel (RpcServer.processes ds) ≤ fuel →
  ∃ resp log,
    RpcServer.DetectDeadlock fuel ds req res = Done (ds, resp, log) ∧
    RpcServer.TotalMessages resp = wrap_int (Z.of_nat (RpcServer.probe_lines log)) ∧
    ((RpcServer.MessageCounts resp = ∅ ∧ RpcServer.TotalMessages resp = 0%Z) ∨
     RpcServer.MessageCounts resp =
       {[RpcServer.ProcessID req := RpcServer.TotalMessages resp]}).
Proof.
  intros Hwf Hin Hf.
  set (t0 := RpcServer.mkTrav ∅ ∅ 0 [RpcServer.LogStarting (RpcServer.ProcessID req)]).
  destruct (RpcServerFacts.runDDFS_total _ (RpcServer.ProcessID req) (RpcServer.ProcessID req)
              t0 fuel Hwf Hin Hf) as (b & t' & Hrun).
  assert (RpcServer.counted (RpcServer.ProcessID req) t') as [Hagree Hcount].
  { eapply RpcServerFacts.runDDFS_counted; [exact Hrun|]. split; [by left|done]. }
  rewrite RpcServerFacts.DetectDeadlock_valid by done. fold t0. rewrite Hrun.
  eexists _, _. split; [reflexivity|]. simpl. split; [|exact Hagree].
  rewrite Hcount, RpcServerFacts.probe_lines_app.
  replace (RpcServer.probe_lines (if b then _ else _)) with 0 by (by destruct b).
  by rewrite Nat.add_0_r.
Qed.

(** The table of [main], from process 1: four messages. *)
Lemma message_counters_agree_witness :
  ∃ resp log,
    RpcServer.DetectDeadlock 6 RpcServer.main_service (RpcServer.mkDeadlockRequest 1)
      RpcServer.empty_response = Done (RpcServer.main_service, resp, log) ∧
    RpcServer.MessageCounts resp = {[1%Z := 4%Z]} ∧ RpcServer.TotalMessages resp = 4%Z.
Proof.
  destruct (message_counters_agree 6 RpcServer.main_service (RpcServer.mkDeadlockRequest 1)
              RpcServer.empty_response) as (resp & log & Hrun & Htotal & Hcounts).
  - unfold RpcServer.neighbors_in_range, RpcServer.in_range. compute_decide.
  - unfold RpcServer.in_range. simpl. lia.
  - vm_compute. lia.
  - exists resp, log. split; [exact Hrun|].
    vm_compute in Hrun. injection Hrun as <- <-. split; reflexivity.
Defined.

(** X3. A detection sends at most one message for each edge of the table:
    the log holds no more "Probe sent" lines than the neighbour lists have
    entries, and [TotalMessages] is that number of lines whenever the table
    has fewer than 2^63 edges. *)
Theorem one_message_per_edge
    (fuel : nat) (ds : RpcServer.DeadlockService) (req : RpcServer.DeadlockRequest)
    (res : RpcServer.DeadlockResponse) :
  RpcServer.neighbors_in_range (RpcServer.processes ds) →
  RpcServer.in_range (RpcServer.processes ds) (RpcServer.ProcessID req) →
  RpcServer.ddfs_fuel (RpcServer.processes ds) ≤ fuel →
  ∃ resp log,
    RpcServer.DetectDeadlock fuel ds req res = Done (ds, resp, log) ∧
    RpcServer.probe_lines log ≤ RpcServer.edge_count (RpcServer.processes ds) ∧
    ((Z.of_nat (RpcServer.edge_count (RpcServer.processes ds)) < 2 ^ 63)%Z →
     RpcServer.TotalMessages resp = Z.of_nat (RpcServer.probe_lines log)).
Proof.
  intros Hwf Hin Hf.
  set (t0 := RpcServer.mkTrav ∅ ∅ 0 [RpcServer.LogStarting (RpcServer.ProcessID req)]).
  destruct (RpcServerFacts.runDDFS_total _ (RpcServer.ProcessID req) (RpcServer.ProcessID req)
              t0 fuel Hwf Hin Hf) as (b & t' & Hrun).
  assert (RpcServer.counted (RpcServer.ProcessID req) t') as [_ Hcount].
  { eapply RpcServerFacts.runDDFS_counted; [exact Hrun|]. split; [by left|done]. }
  assert (RpcServer.probe_lines (RpcServer.logged t') ≤
          RpcServer.edge_count (RpcServer.processes ds)) as Hle.
  { pose proof (RpcServerFacts.runDDFS_within _ _ _ _ _ _ _ Hrun) as Hw.
    unfold RpcServer.within in Hw. simpl in Hw.
    rewrite RpcServerFacts.unsent_from_fresh in Hw.
    change (RpcServer.probe_lines [RpcServer.LogStarting (RpcServer.ProcessID req)])
      with 0 in Hw.
    specialize (Hw eq_refl). lia. }
  assert (∀ extra, RpcServer.probe_lines extra = 0 →
            RpcServer.probe_lines (RpcServer.logged t' ++ extra) =
            RpcServer.probe_lines (RpcServer.logged t')) as Hextra.
  { intros extra He. rewrite RpcServerFacts.probe_lines_app. lia. }
  rewrite RpcServerFacts.DetectDeadlock_valid by done. fold t0. rewrite Hrun.
  eexists _, _. split; [reflexivity|]. simpl. rewrite Hextra by (by destruct b).
  split; [exact Hle|]. intros Hsmall. rewrite Hcount. apply RpcServerFacts.wrap_int_small. lia.
Qed.

(** The table of [main] has four edges. *)
Lemma one_message_per_edge_witness :
  ∃ resp log,
    RpcServer.DetectDeadlock 6 RpcServer.main_service (RpcServer.mkDeadlockRequest 0)
      RpcServer.empty_response = Done (RpcServer.main_service, resp, log) ∧
    RpcServer.probe_lines log ≤ 4.
Proof.
  destruct (one_message_per_edge 6 RpcServer.main_service (RpcServer.mkDeadlockRequest 0)
              RpcServer.empty_response) as (resp & log & Hrun & Hle & _).
  - unfold RpcServer.neighbors_in_range, RpcServer.in_range. compute_decide.
  - unfold RpcServer.in_range. simpl. lia.
  - vm_compute. lia.
  - exists resp, log. split; [exact Hrun|exact Hle].
Defined.

(** X4. [getSortedVisitedList] returns the keys of the map, each once, in
    ascending order. *)
Theorem getSortedVisitedList_sorted_keys (visited : gmap Z bool) :
  Sorted Z.le (RpcServer.getSortedVisitedList visited) ∧
  NoDup (RpcServer.getSortedVisitedList visited) ∧
  ∀ k, k ∈ RpcServer.getSortedVisitedList visited ↔ is_Some (visited !! k).
Proof. apply RpcServerFacts.getSortedVisitedList_spec. Qed.

(** X5. [AddProcess] leaves the detections from the processes already in the
    table as they were: on a table whose neighbour ids are in range, the
    answer and the log of [DetectDeadlock] for an id in range are the same
    before and after a process is added, whatever the added process waits
    for. *)
Theorem added_process_keeps_detections
    (fuel : nat) (ds : RpcServer.DeadlockService)
    (areq : RpcServer.AddProcessRequest) (ares : RpcServer.AddProcessResponse)
    (req : RpcServer.DeadlockRequest) (res : RpcServer.DeadlockResponse) :
  RpcServer.neighbors_in_range (RpcServer.processes ds) →
  RpcServer.in_range (RpcServer.processes ds) (RpcServer.ProcessID req) →
  RpcServer.DetectDeadlock fuel (RpcServer.AddProcess ds areq ares).1.1 req res =
  match RpcServer.DetectDeadlock fuel ds req res with
  | Done (_, resp, log) => Done ((RpcServer.AddProcess ds areq ares).1.1, resp, log)
  | Panic => Panic
  | OutOfFuel => OutOfFuel
  end.
Proof.
  intros Hwf Hin.
  rewrite (RpcServerFacts.DetectDeadlock_valid fuel ds) by done.
  rewrite RpcServerFacts.DetectDeadlock_valid.
  - simpl. rewrite RpcServerFacts.runDDFS_app by done.
    by destruct (RpcServer.runDDFS _ _ _ _ _) as [[b t]| |].
  - unfold RpcServer.in_range in *. simpl. rewrite length_app. simpl. lia.
Qed.

(** The client of the repository adds a process 4 that waits for 1 and then
    asks for process 0. *)
Lemma added_process_keeps_detections_witness :
  ∃ ds' resp log,
    RpcServer.DetectDeadlock 7
      (RpcServer.AddProcess RpcServer.main_service (RpcServer.mkAddProcessRequest 4 [1%Z])
         RpcServer.empty_add_response).1.1
      (RpcServer.mkDeadlockRequest 0) RpcServer.empty_response = Done (ds', resp, log) ∧
    RpcServer.DeadlockStatus resp = "Deadlock confirmed!".
Proof.
  pose proof (added_process_keeps_detections 7 RpcServer.main_service
                (RpcServer.mkAddProcessRequest 4 [1%Z]) RpcServer.empty_add_response
                (RpcServer.mkDeadlockRequest 0) RpcServer.empty_response) as H.
  eexists _, _, _. split.
  - rewrite H.
    + vm_compute. reflexivity.
    + unfold RpcServer.neighbors_in_range, RpcServer.in_range. compute_decide.
    + unfold RpcServer.in_range. simpl. lia.
  - reflexivity.
Defined.

(** X6. Whether the process that [AddProcess] has just appended is found in
    a deadlock depends on its own request alone: on a table whose neighbour
    ids are in range no process waits for the new index, so when the
    neighbour ids of the request are indices of the new table, the detection
    from the new index answers "Deadlock confirmed!" exactly when the
    request names the new index itself among its neighbours, and
    "No deadlock detected." otherwise. *)
Theorem added_process_deadlocked_iff_self_wait
    (fuel : nat) (ds : RpcServer.DeadlockService)
    (areq : RpcServer.AddProcessRequest) (ares : RpcServer.AddProcessResponse)
    (res : RpcServer.DeadlockResponse) :
  RpcServer.neighbors_in_range (RpcServer.processes ds) →
  Forall (RpcServer.in_range (RpcServer.processes (RpcServer.AddProcess ds areq ares).1.1))
         (RpcServer.req_Neighbors areq) →
  RpcServer.ddfs_fuel (RpcServer.processes (RpcServer.AddProcess ds areq ares).1.1) ≤ fuel →
  ∃ resp log,
    RpcServer.DetectDeadlock fuel (RpcServer.AddProcess ds areq ares).1.1
      (RpcServer.mkDeadlockRequest (Z.of_nat (length (RpcServer.processes ds)))) res
    = Done ((RpcServer.AddProcess ds areq ares).1.1, resp, log) ∧
    RpcServer.DeadlockStatus resp =
      (if bool_decide (Z.of_nat (length (RpcServer.processes ds)) ∈ RpcServer.req_Neighbors areq)
       then "Deadlock confirmed!" else "No deadlock detected.").
Proof.
  intros Hwf Hnew Hf. simpl in *.
  set (p := RpcServer.mkProcess (RpcServer.req_ID areq) (RpcServer.req_Neighbors areq)) in *.
  set (n := Z.of_nat (length (RpcServer.processes ds))).
  assert (RpcServer.in_range (RpcServer.processes ds ++ [p]) n) as Hin.
  { unfold RpcServer.in_range, n. rewrite length_app. simpl. lia. }
  destruct (RpcServerFacts.runDDFS_decides (RpcServer.processes ds ++ [p]) n fuel)
    as (b & t & Hrun & Hb); [by apply RpcServerFacts.neighbors_in_range_add|done|done|].
  rewrite RpcServerFacts.DetectDeadlock_valid by done. simpl. fold n. rewrite Hrun.
  eexists _, _. split; [reflexivity|]. simpl.
  pose proof (RpcServerFacts.end_on_cycle (RpcServer.processes ds) p Hwf) as Hcyc. fold n in Hcyc.
  change (RpcServer.Neighbors p) with (RpcServer.req_Neighbors areq) in Hcyc.
  destruct b.
  - rewrite bool_decide_eq_true_2; [done|]. apply Hcyc. by apply Hb.
  - rewrite bool_decide_eq_false_2; [done|]. intros Hn. apply Hcyc, Hb in Hn. done.
Qed.

(** A process 4 added to the table of [main] that waits for 1 and for
    itself. *)
Lemma added_process_deadlocked_iff_self_wait_witness :
  ∃ resp log,
    RpcServer.DetectDeadlock 7
      (RpcServer.AddProcess RpcServer.main_service (RpcServer.mkAddProcessRequest 4 [1%Z; 4%Z])
         RpcServer.empty_add_response).1.1
      (RpcServer.mkDeadlockRequest 4) RpcServer.empty_response
    = Done ((RpcServer.AddProcess RpcServer.main_service (RpcServer.mkAddProcessRequest 4 [1%Z; 4%Z])
               RpcServer.empty_add_response).1.1, resp, log) ∧
    RpcServer.DeadlockStatus resp = "Deadlock confirmed!".
Proof.
  apply (added_process_deadlocked_iff_self_wait 7 RpcServer.main_service
           (RpcServer.mkAddProcessRequest 4 [1%Z; 4%Z]) RpcServer.empty_add_response
           RpcServer.empty_response).
  - unfold RpcServer.neighbors_in_range, RpcServer.in_range. compute_decide.
  - unfold RpcServer.in_range. simpl. compute_decide.
  - vm_compute. lia.
Defined.

(** ** The recursive probe variant *)

(** X7. A confirmation of [detectDeadlock] is never wrong, on any graph:
    when it returns after "Deadlock confirmed!", the line before reads
    "Deadlock detected involving process i" for an initiator [i] that lies
    on a cycle of the graph. *)
Theorem confirmation_names_cycle
    (fuel : nat) (order : list Z) (w w' : Original.World) :
  Original.detectDeadlock fuel order w = Done (true, w') →
  ∃ i out,
    i ∈ order ∧ tc (Original.edge (Original.processes w)) i i ∧
    Original.output w' =
      out ++ [Original.OutDeadlockDetected i; Original.OutDeadlockConfirmed].
Proof.
  intros H. eapply OriginalFacts.detectDeadlock_true; [|exact H].
  apply OriginalFacts.keeps_graph_refl.
Qed.

(** The processes of [main], taken in the order 2, 3, 1. *)
Lemma confirmation_names_cycle_witness :
  ∃ i, i ∈ [2; 3; 1]%Z ∧ tc (Original.edge Original.main_processes) i i.
Proof.
  destruct (confirmation_names_cycle 4 [2; 3; 1]%Z
              (Original.mkWorld Original.main_processes [])
              (Original.mkWorld
                 (<[3%Z := Original.mkProcess 3 [1%Z] (Some {[1%Z := true]})]>
                    (<[2%Z := Original.mkProcess 2 [3%Z] (Some ∅)]>
                       Original.main_processes))
                 [Original.OutStarting 2; Original.OutProbeSent 2 3 2;
                  Original.OutProbeSent 3 1 2; Original.OutDeadlockDetected 2;
                  Original.OutDeadlockConfirmed]))
    as (i & out & Hin & Htc & _).
  - vm_compute. reflexivity.
  - exists i. split; [exact Hin|exact Htc].
Defined.

(** X8. With maps as [make] returns them, a deadlock through the first
    initiator is found: when every process waited for is in the map, no
    flag is set and the first key [detectDeadlock] takes lies on a cycle,
    it returns after "Deadlock detected involving process i" and
    "Deadlock confirmed!". *)
Theorem first_initiator_on_cycle_confirmed
    (fuel : nat) (i : Z) (rest : list Z) (w : Original.World) :
  Original.closed (Original.processes w) → Original.allocated (Original.processes w) →
  Original.fresh (Original.processes w) →
  tc (Original.edge (Original.processes w)) i i →
  Original.probe_fuel (Original.processes w) ≤ fuel →
  ∃ w' out,
    Original.detectDeadlock fuel (i :: rest) w = Done (true, w') ∧
    Original.output w' =
      out ++ [Original.OutDeadlockDetected i; Original.OutDeadlockConfirmed].
Proof. apply OriginalFacts.first_initiator_confirmed. Qed.

(** The tail into a cycle, from process 5 first. *)
Lemma first_initiator_on_cycle_confirmed_witness :
  ∃ w' out,
    Original.detectDeadlock 6 [5; 1; 4; 3; 2]%Z
      (Original.mkWorld Original.tail_processes []) = Done (true, w') ∧
    Original.output w' =
      out ++ [Original.OutDeadlockDetected 5; Original.OutDeadlockConfirmed].
Proof.
  apply (first_initiator_on_cycle_confirmed 6 5 [1; 4; 3; 2]%Z
           (Original.mkWorld Original.tail_processes [])).
  - apply OriginalFacts.closed_check_closed. unfold Original.closed_check. compute_decide.
  - apply OriginalFacts.allocated_check_allocated. unfold Original.allocated_check.
    compute_decide.
  - apply OriginalFacts.fresh_check_fresh. unfold Original.fresh_check. compute_decide.
  - apply OriginalFacts.cycle_check_tc with (path := [2; 3; 4]%Z). vm_compute. reflexivity.
  - vm_compute. lia.
Defined.

(** X9. A deadlock can go unnoticed, and whether it does depends on the
    order in which Go ranges over the map: the flags a probe sets stay set
    for the later initiators (only the initiator's own map is made anew).
    On 1 → 2, 2 → 3 → 4 → 5 → 2, with fresh maps, taking the keys in the
    order 1, 5, 4, 3, 2 ends with "No deadlock detected." although 2, 3, 4
    and 5 wait for each other in a cycle; taking process 5 first
    confirms the deadlock. *)
Theorem answer_depends_on_map_order :
  Original.closed Original.tail_processes ∧ Original.allocated Original.tail_processes ∧
  Original.fresh Original.tail_processes ∧
  tc (Original.edge Original.tail_processes) 2%Z 2%Z ∧
  [1; 5; 4; 3; 2]%Z ≡ₚ (map_to_list Original.tail_processes).*1 ∧
  (∀ fuel, Original.probe_fuel Original.tail_processes ≤ fuel →
     ∃ w' out,
       Original.detectDeadlock fuel [1; 5; 4; 3; 2]%Z
         (Original.mkWorld Original.tail_processes []) = Done (false, w') ∧
       Original.output w' = out ++ [Original.OutNoDeadlock]) ∧
  (∀ fuel, Original.probe_fuel Original.tail_processes ≤ fuel →
     ∃ w', Original.detectDeadlock fuel [5; 1; 4; 3; 2]%Z
             (Original.mkWorld Original.tail_processes []) = Done (true, w')).
Proof.
  assert (Original.probe_fuel Original.tail_processes = 6) as Hfuel by (by vm_compute).
  split; [|split; [|split; [|split; [|split; [|split]]]]].
  - apply OriginalFacts.closed_check_closed. unfold Original.closed_check. compute_decide.
  - apply OriginalFacts.allocated_check_allocated. unfold Original.allocated_check.
    compute_decide.
  - apply OriginalFacts.fresh_check_fresh. unfold Original.fresh_check. compute_decide.
  - apply OriginalFacts.cycle_check_tc with (path := [3; 4; 5]%Z). vm_compute. reflexivity.
  - apply (bool_decide_unpack _). vm_compute. exact I.
  - intros fuel Hle. rewrite Hfuel in Hle.
    assert (Original.detectDeadlock 6 [1; 5; 4; 3; 2]%Z
              (Original.mkWorld Original.tail_processes []) =
            Done (false, (default (Original.mkWorld ∅ [])
                            (match Original.detectDeadlock 6 [1; 5; 4; 3; 2]%Z
                                     (Original.mkWorld Original.tail_processes []) with
                             | Done (_, w) => Some w
                             | _ => None
                             end)))) as H6 by (vm_compute; reflexivity).
    eapply OriginalFacts.detectDeadlock_more in H6; [|exact Hle|done].
    destruct (OriginalFacts.detectDeadlock_false_output _ _ _ _ H6) as [out Hout].
    eexists _, out. split; [exact H6|exact Hout].
  - intros fuel Hle. rewrite Hfuel in Hle.
    assert (∃ w', Original.detectDeadlock 6 [5; 1; 4; 3; 2]%Z
              (Original.mkWorld Original.tail_processes []) = Done (true, w')) as [w' H6]
      by (eexists; vm_compute; reflexivity).
    exists w'. eapply OriginalFacts.detectDeadlock_more; [exact Hle|exact H6|done].
Qed.

(** X10. A detection leaves the graph as it was: whatever [detectDeadlock]
    returns, the map has the same keys afterwards and every process the same
    [waitingFor] list; only flags and output lines have been written. *)
Theorem detection_keeps_graph
    (fuel : nat) (order : list Z) (w w' : Original.World) (b : bool) :
  Original.detectDeadlock fuel order w = Done (b, w') →
  (∀ k, Original.waitingFor <$> Original.processes w' !! k =
        Original.waitingFor <$> Original.processes w !! k) ∧
  (∀ x y, Original.edge (Original.processes w') x y ↔ Original.edge (Original.processes w) x y) ∧
  ∃ out, Original.output w' = Original.output w ++ out.
Proof.
  intros H. pose proof (OriginalFacts.detectDeadlock_keeps _ _ _ _ _ H) as Hk.
  split; [|split].
  - intros k. specialize (Hk k). destruct Hk as [p p' [Hw _]|]; [|done].
    simpl. by rewrite Hw.
  - intros x y. symmetry. by apply OriginalFacts.keeps_graph_edge.
  - by eapply OriginalFacts.detectDeadlock_output.
Qed.

(** The processes of [main], taken in the order 2, 3, 1: process 3 still
    waits for 1 when the deadlock is confirmed. *)
Lemma detection_keeps_graph_witness :
  Original.edge
    (<[3%Z := Original.mkProcess 3 [1%Z] (Some {[1%Z := true]})]>
       (<[2%Z := Original.mkProcess 2 [3%Z] (Some ∅)]> Original.main_processes)) 3 1 ↔
  Original.edge Original.main_processes 3 1.
Proof.
  refine (proj1 (proj2 (detection_keeps_graph 4 [2; 3; 1]%Z
            (Original.mkWorld Original.main_processes [])
            (Original.mkWorld
               (<[3%Z := Original.mkProcess 3 [1%Z] (Some {[1%Z := true]})]>
                  (<[2%Z := Original.mkProcess 2 [3%Z] (Some ∅)]>
                     Original.main_processes))
               [Original.OutStarting 2; Original.OutProbeSent 2 3 2;
                Original.OutProbeSent 3 1 2; Original.OutDeadlockDetected 2;
                Original.OutDeadlockConfirmed])
            true _)) 3%Z 1%Z).
  vm_compute. reflexivity.
Defined.

(** X11. A process named in a [waitingFor] list that is no key of the map
    stops the detection with a nil dereference, and so does a process whose
    [receivedProbes] map was never made, as soon as a probe has to set a flag
    in it: [detectDeadlock] makes the map of the initiator only. *)
Theorem detection_panics
    (fuel : nat) (i t d : Z) (rest deps deps' : list Z) (p q : Original.Process)
    (w : Original.World) :
  Original.processes w !! i = Some p →
  Original.waitingFor p = t :: deps →
  (Original.processes w !! t = None ∨
   (Original.processes w !! t = Some q ∧ t ≠ i ∧ Original.waitingFor q = d :: deps' ∧
    d ≠ i ∧ Original.receivedProbes q = None)) →
  Original.detectDeadlock (S fuel) (i :: rest) w = Panic.
Proof.
  intros Hp Hw Hcase. simpl. rewrite Hp, Hw. simpl.
  assert (t ≠ i) as Hne by (destruct Hcase as [Hn|(_ & Hne & _)]; congruence).
  rewrite lookup_insert_ne by done.
  destruct Hcase as [->|(Ht & _ & Hq & Hd & Hnil)]; [done|]. rewrite Ht.
  rewrite Hq. simpl. destruct (Z.eqb_spec d i) as [Heq|_]; [congruence|].
  rewrite lookup_insert_ne by done. rewrite Ht.
  unfold Original.received. by rewrite Hnil.
Qed.

(** Process 1 waits for process 2, which is missing. *)
Lemma detection_panics_witness :
  Original.detectDeadlock 1 [1%Z]
    (Original.mkWorld {[1%Z := Original.mkProcess 1 [2%Z] (Some ∅)]} []) = Panic.
Proof.
  apply (detection_panics 0 1 2 0 [] [] [] (Original.mkProcess 1 [2%Z] (Some ∅))
           (Original.mkProcess 1 [2%Z] (Some ∅))).
  - reflexivity.
  - reflexivity.
  - left. reflexivity.
Defined.

(** X12. The program as it stands always confirms: whichever key of the map
    of [main] Go takes first, [detectDeadlock] finds the cycle 1 → 2 → 3 → 1
    from that process and prints "Deadlock detected involving process i" and
    "Deadlock confirmed!" for it, without taking a second key. *)
Theorem main_always_confirms (fuel : nat) (i : Z) (rest : list Z) :
  is_Some (Original.main_processes !! i) → 4 ≤ fuel →
  ∃ w' out,
    Original.main fuel (i :: rest) = Done (true, w') ∧
    Original.output w' =
      out ++ [Original.OutDeadlockDetected i; Original.OutDeadlockConfirmed].
Proof.
  intros Hi Hfuel. unfold Original.main.
  apply OriginalFacts.first_initiator_confirmed.
  - apply OriginalFacts.closed_check_closed. unfold Original.closed_check. compute_decide.
  - apply OriginalFacts.allocated_check_allocated. unfold Original.allocated_check.
    compute_decide.
  - apply OriginalFacts.fresh_check_fresh. unfold Original.fresh_check. compute_decide.
  - simpl. unfold Original.main_processes in *.
    destruct (decide (i = 1%Z)) as [->|H1].
    { apply OriginalFacts.cycle_check_tc with (path := [2; 3]%Z). vm_compute. reflexivity. }
    destruct (decide (i = 2%Z)) as [->|H2].
    { apply OriginalFacts.cycle_check_tc with (path := [3; 1]%Z). vm_compute. reflexivity. }
    destruct (decide (i = 3%Z)) as [->|H3].
    { apply OriginalFacts.cycle_check_tc with (path := [1; 2]%Z). vm_compute. reflexivity. }
    rewrite !lookup_insert_ne, lookup_empty in Hi by done. by destruct Hi.
  - cbn [Original.processes].
    assert (Original.probe_fuel Original.main_processes = 4) as -> by (by vm_compute). done.
Qed.

(** Go takes the key 3 first, then 1 and 2. *)
Lemma main_always_confirms_witness :
  ∃ w' out,
    Original.main 4 [3; 1; 2]%Z = Done (true, w') ∧
    Original.output w' =
      out ++ [Original.OutDeadlockDetected 3; Original.OutDeadlockConfirmed].
Proof.
  apply (main_always_confirms 4 3 [1; 2]%Z).
  - vm_compute. by eexists.
  - lia.
Defined.

(** ** The goroutine variant *)

(** X13. A report is never wrong, whatever the topology: in a system started
    from [NewProcess] processes with distinct ids, along any run, a process
    that reports a deadlock lies on a cycle of the successor graph. *)
Theorem report_closes_cycle
    (growslice : nat → nat) (config : Goroutines.Config) (topology : list (Z * list nat))
    (sched : list Goroutines.Action) (s : Goroutines.System) (tr : list Goroutines.Effect)
    (i : nat) (sessionID : Z) (path : list Z) :
  NoDup topology.*1 →
  Goroutines.run growslice sched (Goroutines.initial config topology) = Some (s, tr) →
  Goroutines.Reported i sessionID path ∈ tr →
  tc (Goroutines.succ_edge (Goroutines.initial config topology)) i i.
Proof.
  intros Hnd Hrun Hin.
  pose proof (GoroutinesFacts.run_report_on_cycle _ _ _ _ _ Hrun
                (GoroutinesFacts.initial_unique_ids config topology Hnd)
                (GoroutinesFacts.initial_came_along config topology)) as Hall.
  rewrite Forall_forall in Hall. exact (Hall _ Hin).
Qed.

(** The session of p0 on the ring of [main]. *)
Lemma report_closes_cycle_witness :
  tc (Goroutines.succ_edge Goroutines.main_system) 0 0.
Proof.
  apply (report_closes_cycle Goroutines.gc_growslice Goroutines.main_config
           [(0%Z, [1]); (1%Z, [2]); (2%Z, [3]); (3%Z, [0])]
           (Goroutines.ring_schedule 5)
           (Goroutines.state_after Goroutines.gc_growslice (Goroutines.ring_schedule 5)
              Goroutines.main_system)
           (Goroutines.trace_of Goroutines.gc_growslice (Goroutines.ring_schedule 5)
              Goroutines.main_system)
           0 5 [0; 1; 2; 3]%Z).
  - compute_decide.
  - vm_compute. reflexivity.
  - vm_compute. apply list_elem_of_In. simpl. tauto.
Defined.

(** X14. Along any run, from any state, a process reports a session at most
    once, however many probes of that session come back to it; and once the
    session is in its [deadlockCache], it reports it no more. *)
Theorem reported_at_most_once
    (growslice : nat → nat) (sched : list Goroutines.Action)
    (s s' : Goroutines.System) (tr : list Goroutines.Effect) (i : nat) (sessionID : Z) :
  Goroutines.run growslice sched s = Some (s', tr) →
  Goroutines.reports i sessionID tr ≤ 1 ∧
  (∀ p, Goroutines.procs s !! i = Some p →
        flag (Goroutines.deadlockCache p) sessionID = true →
        Goroutines.reports i sessionID tr = 0).
Proof. apply GoroutinesFacts.run_reports. Qed.

(** On the ring with two ways from p0 to p3 and back, both probes of the
    session come back to p0. *)
Lemma reported_at_most_once_witness :
  Goroutines.reports 0 5
    (Goroutines.trace_of Goroutines.gc_growslice Goroutines.round_trips_schedule
       Goroutines.round_trips_system) ≤ 1.
Proof.
  refine (proj1 (reported_at_most_once Goroutines.gc_growslice
            Goroutines.round_trips_schedule Goroutines.round_trips_system
            (Goroutines.state_after Goroutines.gc_growslice Goroutines.round_trips_schedule
               Goroutines.round_trips_system)
            (Goroutines.trace_of Goroutines.gc_growslice Goroutines.round_trips_schedule
               Goroutines.round_trips_system)
            0 5 _)).
  vm_compute. reflexivity.
Defined.

(** X15. No process forwards a probe of its own: in a system started from
    [NewProcess] processes with distinct ids, along any run, the probe a
    process forwards names another process as initiator. *)
Theorem own_probe_never_forwarded
    (growslice : nat → nat) (config : Goroutines.Config) (topology : list (Z * list nat))
    (sched : list Goroutines.Action) (s : Goroutines.System) (tr : list Goroutines.Effect)
    (i : nat) (probe newProbe : Goroutines.Probe) (p : Goroutines.Process) :
  NoDup topology.*1 →
  Goroutines.run growslice sched (Goroutines.initial config topology) = Some (s, tr) →
  Goroutines.Forwarded i probe newProbe ∈ tr →
  Goroutines.procs s !! i = Some p →
  Goroutines.Initiator probe ≠ Goroutines.ID p.
Proof.
  intros Hnd Hrun Hin Hp.
  pose proof (GoroutinesFacts.run_forward_of_another _ _ _ _ _ Hrun
                (GoroutinesFacts.initial_unique_ids config topology Hnd)
                (GoroutinesFacts.initial_initiator_marked config topology)) as Hall.
  rewrite Forall_forall in Hall. specialize (Hall _ Hin). simpl in Hall.
  apply GoroutinesFacts.run_evolves in Hrun.
  destruct (GoroutinesFacts.Forall2_evolves_lookup_r _ _ _ _ Hrun Hp) as (p0 & Hp0 & Hid & _).
  rewrite Hid. by apply Hall.
Qed.

(** On the ring of [main], p1 forwards the probe of p0. *)
Lemma own_probe_never_forwarded_witness :
  (0 ≠ 1)%Z.
Proof.
  apply (own_probe_never_forwarded Goroutines.gc_growslice Goroutines.main_config
           [(0%Z, [1]); (1%Z, [2]); (2%Z, [3]); (3%Z, [0])]
           (take 3 (Goroutines.ring_schedule 5))
           (Goroutines.state_after Goroutines.gc_growslice (take 3 (Goroutines.ring_schedule 5))
              Goroutines.main_system)
           (Goroutines.trace_of Goroutines.gc_growslice (take 3 (Goroutines.ring_schedule 5))
              Goroutines.main_system)
           1
           (Goroutines.mkProbe 5 0 0 (Goroutines.mkSlice 0 1 1))
           (Goroutines.mkProbe 5 0 1 (Goroutines.mkSlice 1 2 2))
           (Goroutines.mkProcess 1 [2] [] {[5%Z := true]} Goroutines.main_config 0 ∅ None
              (Some (Goroutines.mkProbe 5 0 1 (Goroutines.mkSlice 1 2 2), [2]))));
    [compute_decide|vm_compute; reflexivity| |vm_compute; reflexivity].
  vm_compute. apply list_elem_of_In. simpl. tauto.
Defined.

(** X16. A process without successors puts no probe on its way: in a system
    started from [NewProcess] processes, along any run, it neither initiates
    nor forwards nor delivers a probe. *)
Theorem no_successors_nothing_sent
    (growslice : nat → nat) (config : Goroutines.Config) (topology : list (Z * list nat))
    (sched : list Goroutines.Action) (s : Goroutines.System) (tr : list Goroutines.Effect)
    (i : nat) (id : Z) :
  topology !! i = Some (id, []) →
  Goroutines.run growslice sched (Goroutines.initial config topology) = Some (s, tr) →
  Forall (λ e, Goroutines.is_emission i e = false) tr.
Proof.
  intros Hi Hrun.
  eapply GoroutinesFacts.run_no_emission; [exact Hrun| | |].
  - apply GoroutinesFacts.initial_came_along.
  - unfold Goroutines.initial. simpl. rewrite list_lookup_fmap, Hi. reflexivity.
  - reflexivity.
Qed.

(** The fork: p5 has no successors. *)
Lemma no_successors_nothing_sent_witness :
  Forall (λ e, Goroutines.is_emission 5 e = false)
    (Goroutines.trace_of Goroutines.gc_growslice (Goroutines.fork_schedule 5)
       Goroutines.fork_system).
Proof.
  apply (no_successors_nothing_sent Goroutines.gc_growslice Goroutines.main_config
           [(0%Z, [1]); (1%Z, [2]); (2%Z, [3; 4]); (3%Z, [0]); (4%Z, [5]); (5%Z, [])]
           (Goroutines.fork_schedule 5)
           (Goroutines.state_after Goroutines.gc_growslice (Goroutines.fork_schedule 5)
              Goroutines.fork_system)
           (Goroutines.trace_of Goroutines.gc_growslice (Goroutines.fork_schedule 5)
              Goroutines.fork_system)
           5 5%Z).
  - reflexivity.
  - vm_compute. reflexivity.
Defined.

(** X17. [messagesSent] counts the probes the process has put into the
    channels of its successors: along any run it goes up by one (as a Go
    [int]) for every delivery by the process and changes at nothing else, so
    that from zero it reads the number of deliveries. *)
Theorem messagesSent_counts_deliveries
    (growslice : nat → nat) (sched : list Goroutines.Action)
    (s s' : Goroutines.System) (tr : list Goroutines.Effect)
    (i : nat) (p : Goroutines.Process) :
  Goroutines.run growslice sched s = Some (s', tr) →
  Goroutines.procs s !! i = Some p →
  ∃ p', Goroutines.procs s' !! i = Some p' ∧
        Goroutines.messagesSent p' =
          Nat.iter (Goroutines.deliveries i tr) int_incr (Goroutines.messagesSent p) ∧
        (Goroutines.messagesSent p = 0%Z →
         Goroutines.messagesSent p' = wrap_int (Z.of_nat (Goroutines.deliveries i tr))).
Proof.
  intros Hrun Hp.
  destruct (GoroutinesFacts.run_messagesSent _ _ _ _ _ _ _ Hrun Hp) as (p' & Hp' & Hm).
  exists p'. split; [done|]. split; [done|]. intros H0.
  by rewrite Hm, H0, GoroutinesFacts.iter_int_incr.
Qed.

(** On the ring with two ways, p0 has delivered its probe to p1 and to p2. *)
Lemma messagesSent_counts_deliveries_witness :
  ∃ p', Goroutines.procs
          (Goroutines.state_after Goroutines.gc_growslice (Goroutines.two_ways_schedule 5)
             Goroutines.two_ways_system) !! 0 = Some p' ∧
        Goroutines.messagesSent p' = 2%Z.
Proof.
  destruct (messagesSent_counts_deliveries Goroutines.gc_growslice
              (Goroutines.two_ways_schedule 5) Goroutines.two_ways_system
              (Goroutines.state_after Goroutines.gc_growslice (Goroutines.two_ways_schedule 5)
                 Goroutines.two_ways_system)
              (Goroutines.trace_of Goroutines.gc_growslice (Goroutines.two_ways_schedule 5)
                 Goroutines.two_ways_system)
              0 (Goroutines.with_successors [1; 2] (Goroutines.NewProcess 0 Goroutines.main_config)))
    as (p' & Hp' & _ & Hm).
  - vm_compute. reflexivity.
  - reflexivity.
  - exists p'. split; [exact Hp'|]. rewrite Hm by reflexivity. vm_compute. reflexivity.
Defined.

(** X18. No channel ever holds more probes than its buffer has room for: a
    delivery goes through only while the channel of the successor holds
    fewer than [ChanBufferSize] probes, so the bound, once true, stays true
    along any run; it is true of a system of [NewProcess] processes. *)
Theorem channels_within_buffer
    (growslice : nat → nat) (sched : list Goroutines.Action)
    (s s' : Goroutines.System) (tr : list Goroutines.Effect)
    (config : Goroutines.Config) (topology : list (Z * list nat)) :
  Goroutines.run growslice sched s = Some (s', tr) →
  (Goroutines.within_buffer s → Goroutines.within_buffer s') ∧
  Goroutines.within_buffer (Goroutines.initial config topology).
Proof.
  intros Hrun. split; [|apply GoroutinesFacts.initial_within_buffer].
  eapply (GoroutinesFacts.run_invariant growslice Goroutines.within_buffer); [|exact Hrun].
  apply GoroutinesFacts.step_within_buffer.
Qed.

(** Channels of one probe: on the ring with two ways, the second probe for
    p3 does not go through while the first waits. *)
Lemma channels_within_buffer_witness :
  Goroutines.within_buffer
    (Goroutines.state_after Goroutines.gc_growslice Goroutines.narrow_schedule
       Goroutines.narrow_system).
Proof.
  refine (proj1 (channels_within_buffer Goroutines.gc_growslice Goroutines.narrow_schedule
            Goroutines.narrow_system
            (Goroutines.state_after Goroutines.gc_growslice Goroutines.narrow_schedule
               Goroutines.narrow_system)
            (Goroutines.trace_of Goroutines.gc_growslice Goroutines.narrow_schedule
               Goroutines.narrow_system)
            (Goroutines.mkConfig 1) [] _) _).
  - vm_compute. reflexivity.
  - apply GoroutinesFacts.initial_within_buffer.
Defined.

(** X19. The path a report prints begins with the reporting process: in a
    system started from [NewProcess] processes, along any run and with any
    growth of the slices, the [Visited] list of a report is not empty and
    its first element is the id of the process that reports, whatever the
    shared arrays have done to the rest of it. *)
Theorem reported_path_starts_at_reporter
    (growslice : nat → nat) (config : Goroutines.Config) (topology : list (Z * list nat))
    (sched : list Goroutines.Action) (s : Goroutines.System) (tr : list Goroutines.Effect)
    (i : nat) (sessionID : Z) (path : list Z) :
  Goroutines.run growslice sched (Goroutines.initial config topology) = Some (s, tr) →
  Goroutines.Reported i sessionID path ∈ tr →
  ∃ id succs rest, topology !! i = Some (id, succs) ∧ path = id :: rest.
Proof.
  intros Hrun Hin.
  pose proof (GoroutinesFacts.run_report_from_reporter _ _ _ _ _ Hrun
                (GoroutinesFacts.initial_paths_rooted config topology)) as Hall.
  rewrite Forall_forall in Hall. destruct (Hall _ Hin) as (p & rest & Hp & ->).
  unfold Goroutines.initial in Hp. simpl in Hp. rewrite list_lookup_fmap in Hp.
  destruct (topology !! i) as [[id succs]|]; [|done]. injection Hp as <-.
  by exists id, succs, rest.
Qed.

(** The fork, where the path that comes back to p0 has been written over:
    it still begins with 0. *)
Lemma reported_path_starts_at_reporter_witness :
  ∃ id succs rest,
    [(0%Z, [1]); (1%Z, [2]); (2%Z, [3; 4]); (3%Z, [0]); (4%Z, [5]); (5%Z, [])] !! 0
      = Some (id, succs) ∧
    [0; 1; 2; 4]%Z = id :: rest.
Proof.
  apply (reported_path_starts_at_reporter Goroutines.gc_growslice Goroutines.main_config
           [(0%Z, [1]); (1%Z, [2]); (2%Z, [3; 4]); (3%Z, [0]); (4%Z, [5]); (5%Z, [])]
           Goroutines.overwritten_schedule
           (Goroutines.state_after Goroutines.gc_growslice Goroutines.overwritten_schedule
              Goroutines.fork_system)
           (Goroutines.trace_of Goroutines.gc_growslice Goroutines.overwritten_schedule
              Goroutines.fork_system)
           0 5 [0; 1; 2; 4]%Z).
  - vm_compute. reflexivity.
  - vm_compute. apply list_elem_of_In. simpl. tauto.
Defined.

(** X20. No path is longer than the system: in a system started from
    [NewProcess] processes, along any run, the [Visited] list of every probe
    that is initiated or forwarded, and of every report, has at most as many
    elements as there are processes ([Run] and [handleProbes] mark the
    session before they send, and a process forwards a session once). *)
Theorem path_no_longer_than_system
    (growslice : nat → nat) (config : Goroutines.Config) (topology : list (Z * list nat))
    (sched : list Goroutines.Action) (s : Goroutines.System) (tr : list Goroutines.Effect) :
  Goroutines.run growslice sched (Goroutines.initial config topology) = Some (s, tr) →
  (∀ i sessionID path,
     Goroutines.Reported i sessionID path ∈ tr → length path ≤ length topology) ∧
  (∀ i probe newProbe,
     Goroutines.Forwarded i probe newProbe ∈ tr →
     Goroutines.len (Goroutines.Visited newProbe) ≤ length topology) ∧
  (∀ i probe,
     Goroutines.Initiated i probe ∈ tr →
     Goroutines.len (Goroutines.Visited probe) ≤ length topology).
Proof.
  intros Hrun.
  pose proof (GoroutinesFacts.run_path_within _ _ _ _ _ Hrun
                (GoroutinesFacts.initial_paths_short config topology)) as Hall.
  rewrite Forall_forall in Hall.
  assert (length (Goroutines.procs (Goroutines.initial config topology)) = length topology)
    as Hlen by apply length_map.
  rewrite <- Hlen. split; [|split].
  - intros i sid path Hin. exact (Hall _ Hin).
  - intros i probe newProbe Hin. exact (Hall _ Hin).
  - intros i probe Hin. exact (Hall _ Hin).
Qed.

(** The report of p0 on the ring of [main]: four processes, four ids. *)
Lemma path_no_longer_than_system_witness : length [0; 1; 2; 3]%Z ≤ 4.
Proof.
  refine (proj1 (path_no_longer_than_system Goroutines.gc_growslice Goroutines.main_config
            [(0%Z, [1]); (1%Z, [2]); (2%Z, [3]); (3%Z, [0])]
            (Goroutines.ring_schedule 5)
            (Goroutines.state_after Goroutines.gc_growslice (Goroutines.ring_schedule 5)
               Goroutines.main_system)
            (Goroutines.trace_of Goroutines.gc_growslice (Goroutines.ring_schedule 5)
               Goroutines.main_system) _) 0 5%Z [0; 1; 2; 3]%Z _).
  - vm_compute. reflexivity.
  - vm_compute. apply list_elem_of_In. simpl. tauto.
Defined.

(** X21. A deadlock is found: in a system started from [NewProcess]
    processes with distinct ids, whose successors are all processes of the
    system, let c0 → c1 → ... → ck → c0 be a cycle of distinct processes, and
    let the channels have room for the sends of these processes
    ([ChanBufferSize] at least the number of their successors, taken
    together). When the ticker of c0 fires at [now] and each process on the
    cycle sends as far as the next and that one takes a probe from its
    channel, c0 reports the session [now]: the run of that schedule ends
    with the report. *)
Theorem cycle_session_confirmed
    (growslice : nat → nat) (config : Goroutines.Config) (topology : list (Z * list nat))
    (now : Z) (c0 : nat) (rest : list nat) :
  NoDup topology.*1 → Goroutines.wired topology →
  NoDup (c0 :: rest) → Goroutines.links topology c0 rest c0 →
  Goroutines.load topology (c0 :: rest) ≤ Goroutines.ChanBufferSize config →
  ∃ s' tr path,
    Goroutines.run growslice (Goroutines.round topology now (c0 :: rest))
      (Goroutines.initial config topology) = Some (s', tr) ∧
    last tr = Some (Goroutines.Reported c0 now path).
Proof. apply GoroutinesFacts.round_through. Qed.

(** The two ways to p3, round the cycle p0 → p2 → p3 → p0: p0 sends to p1
    first and then to p2. *)
Lemma cycle_session_confirmed_witness :
  ∃ s' tr path,
    Goroutines.run Goroutines.gc_growslice
      (Goroutines.round [(0%Z, [1; 2]); (1%Z, [3]); (2%Z, [3]); (3%Z, [0])] 5 [0; 2; 3])
      Goroutines.two_ways_system = Some (s', tr) ∧
    last tr = Some (Goroutines.Reported 0 5 path).
Proof.
  apply (cycle_session_confirmed Goroutines.gc_growslice Goroutines.main_config
           [(0%Z, [1; 2]); (1%Z, [3]); (2%Z, [3]); (3%Z, [0])] 5 0 [2; 3]).
  - compute_decide.
  - unfold Goroutines.wired. compute_decide.
  - compute_decide.
  - simpl. unfold Goroutines.successors_of. simpl. repeat split; apply list_elem_of_In; simpl; tauto.
  - vm_compute. lia.
Defined.

(** X22. Probes are sent along the edges only: in a system started from
    [NewProcess] processes, along any run, every probe a process puts into a
    channel goes to one of its own successors. *)
Theorem deliveries_follow_edges
    (growslice : nat → nat) (config : Goroutines.Config) (topology : list (Z * list nat))
    (sched : list Goroutines.Action) (s : Goroutines.System) (tr : list Goroutines.Effect)
    (i succ : nat) (probe : Goroutines.Probe) :
  Goroutines.run growslice sched (Goroutines.initial config topology) = Some (s, tr) →
  Goroutines.Delivered i succ probe ∈ tr →
  succ ∈ Goroutines.successors_of topology i.
Proof.
  intros Hrun Hin.
  pose proof (GoroutinesFacts.run_delivery_on_edge _ _ _ _ _ Hrun
                (GoroutinesFacts.initial_came_along config topology)) as Hall.
  rewrite Forall_forall in Hall. destruct (Hall _ Hin) as (p & Hp & Hsucc).
  unfold Goroutines.initial in Hp. cbn [Goroutines.procs] in Hp.
  rewrite list_lookup_fmap in Hp. unfold Goroutines.successors_of.
  destruct (topology !! i) as [[id succs]|]; [|done]. by injection Hp as <-.
Qed.

(** On the fork, p2 sends the probe to p4. *)
Lemma deliveries_follow_edges_witness :
  4 ∈ Goroutines.successors_of
        [(0%Z, [1]); (1%Z, [2]); (2%Z, [3; 4]); (3%Z, [0]); (4%Z, [5]); (5%Z, [])] 2.
Proof.
  apply (deliveries_follow_edges Goroutines.gc_growslice Goroutines.main_config
           [(0%Z, [1]); (1%Z, [2]); (2%Z, [3; 4]); (3%Z, [0]); (4%Z, [5]); (5%Z, [])]
           (Goroutines.fork_schedule 5)
           (Goroutines.state_after Goroutines.gc_growslice (Goroutines.fork_schedule 5)
              Goroutines.fork_system)
           (Goroutines.trace_of Goroutines.gc_growslice (Goroutines.fork_schedule 5)
              Goroutines.fork_system)
           2 4 (Goroutines.mkProbe 5 0 2 (Goroutines.mkSlice 2 3 4))).
  - vm_compute. reflexivity.
  - vm_compute. apply list_elem_of_In. simpl. tauto.
Defined.

(** X23. A process can report a deadlock exactly when it lies on a cycle: in
    a system started from [NewProcess] processes with distinct ids, whose
    successors are all processes of the system and whose channels have room
    for the sends of all processes ([ChanBufferSize] at least the number of
    successors, taken together), there is a run in which process [i] reports
    if and only if [i] lies on a cycle of the successor graph. *)
Theorem reports_exactly_on_cycles
    (growslice : nat → nat) (config : Goroutines.Config) (topology : list (Z * list nat))
    (i : nat) :
  NoDup topology.*1 → Goroutines.wired topology →
  Goroutines.load topology (seq 0 (length topology)) ≤ Goroutines.ChanBufferSize config →
  (tc (Goroutines.succ_edge (Goroutines.initial config topology)) i i ↔
   ∃ sched s tr sessionID path,
     Goroutines.run growslice sched (Goroutines.initial config topology) = Some (s, tr) ∧
     Goroutines.Reported i sessionID path ∈ tr).
Proof.
  intros Hnd Hwired Hroom. split.
  - intros Htc.
    destruct (GoroutinesFacts.cycle_without_repetition config topology i Htc)
      as (rest & Hnodup & Hlinks).
    destruct (GoroutinesFacts.round_through growslice config topology 0 i rest)
      as (s & tr & path & Hrun & Hlast); try done.
    + etrans; [|exact Hroom]. apply GoroutinesFacts.load_le_all; [done|].
      by eapply GoroutinesFacts.links_in_range.
    + exists (Goroutines.round topology 0 (i :: rest)), s, tr, 0%Z, path.
      split; [done|]. apply last_Some in Hlast as [tr' ->].
      apply elem_of_app. right. left.
  - intros (sched & s & tr & sid & path & Hrun & Hin).
    pose proof (GoroutinesFacts.run_report_on_cycle _ _ _ _ _ Hrun
                  (GoroutinesFacts.initial_unique_ids config topology Hnd)
                  (GoroutinesFacts.initial_came_along config topology)) as Hall.
    rewrite Forall_forall in Hall. exact (Hall _ Hin).
Qed.

(** On the fork, p3 lies on the cycle p0 → p1 → p2 → p3 → p0. *)
Lemma reports_exactly_on_cycles_witness :
  ∃ sched s tr sessionID path,
    Goroutines.run Goroutines.gc_growslice sched Goroutines.fork_system = Some (s, tr) ∧
    Goroutines.Reported 3 sessionID path ∈ tr.
Proof.
  apply (reports_exactly_on_cycles Goroutines.gc_growslice Goroutines.main_config
           [(0%Z, [1]); (1%Z, [2]); (2%Z, [3; 4]); (3%Z, [0]); (4%Z, [5]); (5%Z, [])] 3).
  - compute_decide.
  - unfold Goroutines.wired. compute_decide.
  - vm_compute. lia.
  - apply (GoroutinesFacts.links_cycle Goroutines.main_config _ [0; 1; 2]).
    simpl. unfold Goroutines.successors_of. simpl.
    repeat split; apply list_elem_of_In; simpl; tauto.
Defined.

(** X24. A process reports only sessions of its own: in a system started
    from [NewProcess] processes with distinct ids, along any run, when
    process [i] reports a deadlock for a session, the ticker of [i] itself
    has made a probe with that session id in the same run. *)
Theorem reported_session_is_own
    (growslice : nat → nat) (config : Goroutines.Config) (topology : list (Z * list nat))
    (sched : list Goroutines.Action) (s : Goroutines.System) (tr : list Goroutines.Effect)
    (i : nat) (sessionID : Z) (path : list Z) :
  NoDup topology.*1 →
  Goroutines.run growslice sched (Goroutines.initial config topology) = Some (s, tr) →
  Goroutines.Reported i sessionID path ∈ tr →
  ∃ probe, Goroutines.Initiated i probe ∈ tr ∧ Goroutines.SessionID probe = sessionID.
Proof.
  intros Hnd Hrun Hin.
  pose proof (GoroutinesFacts.run_report_of_own _ _ _ _ _ Hrun
                (GoroutinesFacts.initial_unique_ids config topology Hnd)
                (GoroutinesFacts.initial_begun config topology)) as Hall.
  rewrite Forall_forall in Hall. exact (Hall _ Hin).
Qed.

(** The fork: p0 reports session 5, which its own ticker started. *)
Lemma reported_session_is_own_witness :
  ∃ probe,
    Goroutines.Initiated 0 probe
      ∈ Goroutines.trace_of Goroutines.gc_growslice Goroutines.overwritten_schedule
          Goroutines.fork_system ∧
    Goroutines.SessionID probe = 5%Z.
Proof.
  apply (reported_session_is_own Goroutines.gc_growslice Goroutines.main_config
           [(0%Z, [1]); (1%Z, [2]); (2%Z, [3; 4]); (3%Z, [0]); (4%Z, [5]); (5%Z, [])]
           Goroutines.overwritten_schedule
           (Goroutines.state_after Goroutines.gc_growslice Goroutines.overwritten_schedule
              Goroutines.fork_system)
           _ 0 5 [0; 1; 2; 4]%Z).
  - compute_decide.
  - vm_compute. reflexivity.
  - vm_compute. apply list_elem_of_In. simpl. tauto.
Defined.

(** ** The client of the RPC server *)

(** X25. Every run of the client against the server of [main] prints the
    same: however often the client has run before (each run appends one more
    process 4 that waits for 1), [AddProcess] answers
    "Process 4 added successfully!" and the three detections, from 0, 2 and
    3, answer "Deadlock confirmed!" with four messages each, counted under
    the id of the request. *)
Theorem client_prints_the_same (n fuel : nat) :
  6 ≤ fuel →
  RpcClient.main fuel (RpcClient.served n) =
  Done (RpcClient.served (S n),
        [RpcClient.ClientAdded "Process 4 added successfully!";
         RpcClient.ClientSending 0; RpcClient.ClientReceived 0;
         RpcClient.ClientResult 0 "Deadlock confirmed!" {[0%Z := 4%Z]} 4;
         RpcClient.ClientSending 2; RpcClient.ClientReceived 2;
         RpcClient.ClientResult 2 "Deadlock confirmed!" {[2%Z := 4%Z]} 4;
         RpcClient.ClientSending 3; RpcClient.ClientReceived 3;
         RpcClient.ClientResult 3 "Deadlock confirmed!" {[3%Z := 4%Z]} 4]).
Proof.
  intros Hfuel. unfold RpcClient.main, RpcClient.served, RpcServer.AddProcess.
  cbn [RpcServer.processes RpcServer.globalMessageCounter RpcServer.req_ID
       RpcServer.req_Neighbors].
  rewrite <- app_assoc.
  change (replicate n (RpcServer.mkProcess 4 [1%Z]) ++ [RpcServer.mkProcess 4 [1%Z]])
    with (replicate n (RpcServer.mkProcess 4 [1%Z]) ++ replicate 1 (RpcServer.mkProcess 4 [1%Z])).
  rewrite <- replicate_add, Nat.add_1_r.
  set (more := replicate (S n) (RpcServer.mkProcess 4 [1%Z])).
  assert (RpcServer.neighbors_in_range RpcServer.main_processes) as Hwf.
  { unfold RpcServer.neighbors_in_range, RpcServer.in_range. compute_decide. }
  assert (∀ id resp log,
    RpcServer.in_range RpcServer.main_processes id →
    RpcServer.DetectDeadlock 6 RpcServer.main_service (RpcServer.mkDeadlockRequest id)
      RpcServer.empty_response = Done (RpcServer.main_service, resp, log) →
    RpcServer.DetectDeadlock fuel
      (RpcServer.mkDeadlockService (RpcServer.main_processes ++ more) 0)
      (RpcServer.mkDeadlockRequest id) RpcServer.empty_response =
    Done (RpcServer.mkDeadlockService (RpcServer.main_processes ++ more) 0, resp, log)) as Hcall.
  { intros id resp log Hin H6.
    rewrite RpcServerFacts.DetectDeadlock_app by done.
    change (RpcServer.mkDeadlockService RpcServer.main_processes 0)
      with RpcServer.main_service.
    by rewrite (RpcServerFacts.DetectDeadlock_more 6 fuel RpcServer.main_service _ _ _ H6). }
  cbn [RpcClient.request_loop].
  erewrite (Hcall 0%Z); [|unfold RpcServer.in_range; simpl; lia|vm_compute; reflexivity].
  erewrite (Hcall 2%Z); [|unfold RpcServer.in_range; simpl; lia|vm_compute; reflexivity].
  erewrite (Hcall 3%Z); [|unfold RpcServer.in_range; simpl; lia|vm_compute; reflexivity].
  vm_compute. reflexivity.
Qed.

(** The second run of the client. *)
Lemma client_prints_the_same_witness :
  ∃ lines, RpcClient.main 6 (RpcClient.served 1) = Done (RpcClient.served 2, lines).
Proof.
  eexists. apply (client_prints_the_same 1 6). lia.
Defined.
